(** * WebAudioStream: the streaming buffer pipeline, embedded and verified

    A shallow embedding of the parts of the repository that its
    specification makes promises about:

    - [StreamingAssembler]  (packages/web-audio-stream/src/StreamingAssembler.ts)
    - [DownloadManager]     (packages/web-audio-stream/src/DownloadManager.ts,
                             the download plan only)
    - [AudioChunkStore]     (packages/web-audio-stream/src/AudioChunkStore.ts)
    - [AudioPlaybackProcessor] (audio-worklet-processor.js)

    Conventions.  A JavaScript [number] that holds a byte count, a sample
    count or a millisecond stamp is a [Z]; one that holds seconds, a rate
    or a size that the code divides is the rational [Q] it was computed
    as.  The clock of the playback processor is read, and multiplied by
    the rate, as the binary64 Number it is ([Binary64.binary64]);
    elsewhere rounding is left out.  An [ArrayBuffer] is a [list byte]; a
    [Float32Array] is the list of its 32-bit patterns, and an element
    copied by assignment goes through a Number
    ([AudioChunkStore.viaNumber]).  A JavaScript [Map] is a [gmap].  Code
    that can throw returns an [option]; callbacks and posted messages are
    appended to a log carried in the state.  Promises are values of
    [Promise], which record when and how they settle. *)

From Stdlib Require Import ZArith QArith Qround List Lia Bool DecimalString.
From Stdlib.Strings Require Import Byte.
From Stdlib.Sorting Require Import Permutation Sorted.
From stdpp Require Import base option list gmap strings.

(** ** Typed arrays *)

Module TypedArray.

Definition ArrayBuffer := list byte.

Definition byteLength {A : Type} (b : list A) : Z := Z.of_nat (length b).

(** [new ArrayBuffer(n)] / [new Float32Array(n)]: zero filled; a negative
    length is a RangeError. *)
Definition alloc {A : Type} (zero : A) (n : Z) : option (list A) :=
  if (n <? 0)%Z then None else Some (repeat zero (Z.to_nat n)).

(** [target.set(source, offset)]: copies [source] over [target] from
    [offset]; a RangeError when it does not fit. *)
Definition set {A : Type} (target source : list A) (offset : Z) : option (list A) :=
  if ((offset <? 0) || (byteLength target <? offset + byteLength source))%Z
  then None
  else Some (take (Z.to_nat offset) target ++ source
             ++ drop (Z.to_nat offset + length source) target).

End TypedArray.

(** ** StreamingAssembler.ts *)

Module StreamingAssembler.
Import TypedArray.
Local Open Scope Z_scope.

(** [DownloadChunk] of DownloadManager.ts.  [downloadTime] is a timing
    statistic no code path of the assembler reads; it is left out. *)
Record DownloadChunk := {
  dc_index : nat;
  dc_start : Z;
  dc_end : Z;
  dc_data : ArrayBuffer
}.

(** [AssemblyChunk].  [id] is the string "assembly-<storageIndex>" and
    [assemblyTime] a clock difference; both are determined by the rest
    and left out. *)
Record AssemblyChunk := {
  ac_storageIndex : nat;
  ac_downloadChunks : list DownloadChunk;
  ac_totalSize : Z;
  ac_data : ArrayBuffer;
  ac_canStartPlayback : bool
}.

Record StreamingAssemblerOptions := {
  storageChunkSize : Z;
  playbackChunkSize : Z
}.

(** The three optional callbacks of the options.  A call is logged. *)
Inductive Callback :=
| onPlaybackReady (firstChunk : AssemblyChunk)
| onChunkAssembled (chunk : AssemblyChunk)
| onProgress (assembled : Z) (total : option Z).

Record t := {
  options : StreamingAssemblerOptions;
  downloadChunks : gmap nat DownloadChunk;
  assembledChunks : gmap nat AssemblyChunk;
  totalExpectedSize : Z;
  isPlaybackReady : bool;
  nextStorageIndex : nat;
  currentAssemblyBuffer : option ArrayBuffer;
  currentAssemblySize : Z;
  currentDownloadChunks : list DownloadChunk;
  calls : list Callback
}.

Definition constructor (opts : StreamingAssemblerOptions) : t :=
  {| options := opts;
     downloadChunks := ∅;
     assembledChunks := ∅;
     totalExpectedSize := 0;
     isPlaybackReady := false;
     nextStorageIndex := 0;
     currentAssemblyBuffer := None;
     currentAssemblySize := 0;
     currentDownloadChunks := [];
     calls := [] |}.

(** [initialize] starts a run; the log of calls is the log of the run and
    starts empty with it. *)
Definition initialize (st : t) (totalSize : Z) : t :=
  {| options := options st;
     downloadChunks := ∅;
     assembledChunks := ∅;
     totalExpectedSize := totalSize;
     isPlaybackReady := false;
     nextStorageIndex := 0;
     currentAssemblyBuffer := None;
     currentAssemblySize := 0;
     currentDownloadChunks := [];
     calls := [] |}.

(** Sum of [f] over the values of a map, as the [for ... of m.values()]
    loops of the source compute it. *)
Definition sumValues {A : Type} (f : A → Z) (m : gmap nat A) : Z :=
  map_fold (λ _ v acc, acc + f v) 0 m.

Definition getNextSequentialIndex (st : t) : nat :=
  Z.to_nat (sumValues (λ c, Z.of_nat (length (ac_downloadChunks c))) (assembledChunks st)
            + Z.of_nat (length (currentDownloadChunks st))).

Definition isLastAssemblyChunk (st : t) : bool :=
  let processedBytes := sumValues ac_totalSize (assembledChunks st) + currentAssemblySize st in
  totalExpectedSize st <=? processedBytes.

Definition shouldCompleteCurrentAssembly (st : t) : bool :=
  if (nextStorageIndex st =? 0)%nat
  then playbackChunkSize (options st) <=? currentAssemblySize st
  else
    let reachedStorageSize := storageChunkSize (options st) <=? currentAssemblySize st in
    let isLastChunk := isLastAssemblyChunk st in
    reachedStorageSize || isLastChunk.

(** [reportProgress]: [Math.ceil(remainingSize / storageChunkSize)]; the
    quotient is not finite when [storageChunkSize] is 0, which is [None]. *)
Definition estimatedTotalChunks (st : t) : option Z :=
  if 0 <? totalExpectedSize st then
    let firstChunkSize := playbackChunkSize (options st) in
    let remainingSize := Z.max 0 (totalExpectedSize st - firstChunkSize) in
    if storageChunkSize (options st) =? 0 then None
    else Some (1 + - ((- remainingSize) / storageChunkSize (options st)))
  else Some 1.

Definition reportProgress (st : t) : Callback :=
  onProgress (Z.of_nat (size (assembledChunks st))) (estimatedTotalChunks st).

Definition completeCurrentAssembly (st : t) : t :=
  match currentAssemblyBuffer st with
  | None => st
  | Some buffer =>
    if (length (currentDownloadChunks st) =? 0)%nat then st
    else
      let assemblyChunk :=
        {| ac_storageIndex := nextStorageIndex st;
           ac_downloadChunks := currentDownloadChunks st;
           ac_totalSize := currentAssemblySize st;
           ac_data := buffer;
           ac_canStartPlayback :=
             (nextStorageIndex st =? 0)%nat && negb (isPlaybackReady st) |} in
      let assembled := <[nextStorageIndex st := assemblyChunk]> (assembledChunks st) in
      let st1 :=
        {| options := options st;
           downloadChunks := downloadChunks st;
           assembledChunks := assembled;
           totalExpectedSize := totalExpectedSize st;
           isPlaybackReady := isPlaybackReady st || ac_canStartPlayback assemblyChunk;
           nextStorageIndex := nextStorageIndex st;
           currentAssemblyBuffer := currentAssemblyBuffer st;
           currentAssemblySize := currentAssemblySize st;
           currentDownloadChunks := currentDownloadChunks st;
           calls := calls st |} in
      {| options := options st;
         downloadChunks := downloadChunks st;
         assembledChunks := assembled;
         totalExpectedSize := totalExpectedSize st;
         isPlaybackReady := isPlaybackReady st1;
         nextStorageIndex := S (nextStorageIndex st);
         currentAssemblyBuffer := None;
         currentAssemblySize := 0;
         currentDownloadChunks := [];
         calls := calls st
                  ++ (if ac_canStartPlayback assemblyChunk
                      then [onPlaybackReady assemblyChunk] else [])
                  ++ [onChunkAssembled assemblyChunk; reportProgress st1] |}
  end.

Definition checkForAssemblyCompletion (st : t) : t :=
  match currentAssemblyBuffer st with
  | None => st
  | Some _ =>
    if shouldCompleteCurrentAssembly st then completeCurrentAssembly st else st
  end.

Definition processDownloadChunk (st : t) (chunk : DownloadChunk) : option t :=
  let pushed := currentDownloadChunks st ++ [chunk] in
  let newTotalSize := currentAssemblySize st + byteLength (dc_data chunk) in
  combined ← alloc x00 newTotalSize;
  withExisting ← match currentAssemblyBuffer st with
                 | Some existing => set combined existing 0
                 | None => Some combined
                 end;
  withChunk ← set withExisting (dc_data chunk) (currentAssemblySize st);
  Some (checkForAssemblyCompletion
    {| options := options st;
       downloadChunks := downloadChunks st;
       assembledChunks := assembledChunks st;
       totalExpectedSize := totalExpectedSize st;
       isPlaybackReady := isPlaybackReady st;
       nextStorageIndex := nextStorageIndex st;
       currentAssemblyBuffer := Some withChunk;
       currentAssemblySize := newTotalSize;
       currentDownloadChunks := pushed;
       calls := calls st |}).

Definition setDownloadChunks (st : t) (m : gmap nat DownloadChunk) : t :=
  {| options := options st;
     downloadChunks := m;
     assembledChunks := assembledChunks st;
     totalExpectedSize := totalExpectedSize st;
     isPlaybackReady := isPlaybackReady st;
     nextStorageIndex := nextStorageIndex st;
     currentAssemblyBuffer := currentAssemblyBuffer st;
     currentAssemblySize := currentAssemblySize st;
     currentDownloadChunks := currentDownloadChunks st;
     calls := calls st |}.

(** The [while (this.downloadChunks.has(nextIndex))] loop.  Every turn
    deletes the key it found, so the loop runs at most once per pending
    chunk: [pending] counts the chunks still in the map, and when it is 0
    the map is empty and the test of the loop is false. *)
Fixpoint processLoop (pending : nat) (st : t) (nextIndex : nat) : option t :=
  match pending with
  | O => Some st
  | S pending' =>
    match downloadChunks st !! nextIndex with
    | None => Some st
    | Some chunk =>
      st1 ← processDownloadChunk st chunk;
      processLoop pending' (setDownloadChunks st1 (delete nextIndex (downloadChunks st1)))
                  (S nextIndex)
    end
  end.

Definition processAvailableChunks (st : t) : option t :=
  processLoop (size (downloadChunks st)) st (getNextSequentialIndex st).

Definition addDownloadChunk (st : t) (chunk : DownloadChunk) : option t :=
  processAvailableChunks
    (setDownloadChunks st (<[dc_index chunk := chunk]> (downloadChunks st))).

Definition finalize (st : t) : t :=
  match currentAssemblyBuffer st with
  | Some _ =>
    if (0 <? length (currentDownloadChunks st))%nat then completeCurrentAssembly st else st
  | None => st
  end.

Definition getAssembledChunks (st : t) : list AssemblyChunk :=
  omap (λ i, assembledChunks st !! i) (seq 0 (nextStorageIndex st)).

Definition getFirstChunk (st : t) : option AssemblyChunk :=
  assembledChunks st !! 0%nat.

Definition cleanup (st : t) : t :=
  {| options := options st;
     downloadChunks := ∅;
     assembledChunks := ∅;
     totalExpectedSize := totalExpectedSize st;
     isPlaybackReady := isPlaybackReady st;
     nextStorageIndex := nextStorageIndex st;
     currentAssemblyBuffer := None;
     currentAssemblySize := 0;
     currentDownloadChunks := [];
     calls := calls st |}.

(** The caller's sequence (WebAudioManager.playInstantly): [initialize],
    one [addDownloadChunk] per fragment, then [finalize]. *)
Fixpoint addAll (st : t) (chunks : list DownloadChunk) : option t :=
  match chunks with
  | [] => Some st
  | c :: rest => st1 ← addDownloadChunk st c; addAll st1 rest
  end.

Definition assemble (opts : StreamingAssemblerOptions) (totalSize : Z)
    (chunks : list DownloadChunk) : option t :=
  finalize <$> addAll (initialize (constructor opts) totalSize) chunks.

(** The blocks handed to [onChunkAssembled], oldest first, and the
    number of [onPlaybackReady] calls. *)
Definition emitted (st : t) : list AssemblyChunk :=
  omap (λ c, match c with onChunkAssembled b => Some b | _ => None end) (calls st).

Definition playbackReadyCalls (st : t) : list AssemblyChunk :=
  omap (λ c, match c with onPlaybackReady b => Some b | _ => None end) (calls st).

End StreamingAssembler.

(** ** DownloadManager.ts: the download plan *)

Module DownloadManager.
Local Open Scope Z_scope.

Record DownloadStrategy := {
  initialChunkSize : Z;
  standardChunkSize : Z;
  maxConcurrentDownloads : Z;
  priorityFirstChunk : bool;
  adaptiveChunkSizing : bool
}.

(** One entry of the plan: [{index, start, end}], [end] inclusive. *)
Record ChunkInfo := {
  ci_index : nat;
  ci_start : Z;
  ci_end : Z
}.

(** The constructor's default strategy. *)
Definition defaultStrategy (isIOSSafari : bool) : DownloadStrategy :=
  {| initialChunkSize := if isIOSSafari then 128 * 1024 else 256 * 1024;
     standardChunkSize := if isIOSSafari then 256 * 1024 else 512 * 1024;
     maxConcurrentDownloads := if isIOSSafari then 2 else 4;
     priorityFirstChunk := true;
     adaptiveChunkSizing := true |}.

Definition Qltb (a b : Q) : bool := negb (Qle_bool b a).

(** [Math.max] and [Math.min] of two numbers. *)
Definition mathMax (a b : Q) : Q := if Qle_bool a b then b else a.
Definition mathMin (a b : Q) : Q := if Qle_bool a b then a else b.

(** The size of a subsequent chunk before it is cut to the rest of the
    file, as the loop computes it.  [connectionSpeed] is the smoothed
    estimate in bytes per second.  [chunkSize / 2] is a real division:
    half of an odd size is a fraction. *)
Definition adaptedSize (strategy : DownloadStrategy) (connectionSpeed : Q)
    (isIOSSafari : bool) : Q :=
  let chunkSize := inject_Z (standardChunkSize strategy) in
  if adaptiveChunkSizing strategy && Qltb 0 connectionSpeed then
    if Qltb (inject_Z (5 * 1024 * 1024)) connectionSpeed then
      mathMin (chunkSize * 2)
              (inject_Z (if isIOSSafari then 512 * 1024 else 1024 * 1024))
    else if Qltb connectionSpeed (inject_Z (1024 * 1024)) then
      mathMax (chunkSize / 2) (inject_Z (64 * 1024))
    else chunkSize
  else chunkSize.

(** A number that is a whole number. *)
Definition wholeNumber (size : Q) : option Z :=
  if Qeq_bool (inject_Z (Qfloor size)) size then Some (Qfloor size) else None.

(** The adapted size as a whole number of bytes.  It is one unless an odd
    size above 128 KB is halved. *)
Definition adaptedChunkSize (strategy : DownloadStrategy) (connectionSpeed : Q)
    (isIOSSafari : bool) : option Z :=
  wholeNumber (adaptedSize strategy connectionSpeed isIOSSafari).

(** The [while (offset < totalSize)] loop.  A chunk of at least one byte
    moves [offset] forward, so [fuel = totalSize] turns are enough; with a
    chunk size of 0 or less the source never leaves the loop, and the
    model runs out of fuel ([None]).  The plan is one of whole offsets:
    where the source would push a range of a fraction of a byte (the half
    of an odd size, not cut to the rest of the file) the model has no
    plan either ([None]). *)
Fixpoint subsequentChunks (fuel : nat) (strategy : DownloadStrategy)
    (connectionSpeed : Q) (isIOSSafari : bool) (totalSize offset : Z)
    (chunkIndex : nat) : option (list ChunkInfo) :=
  if offset <? totalSize then
    match fuel with
    | O => None
    | S fuel' =>
      chunkSize ← wholeNumber (mathMin (adaptedSize strategy connectionSpeed isIOSSafari)
                                       (inject_Z (totalSize - offset)));
      rest ← subsequentChunks fuel' strategy connectionSpeed isIOSSafari totalSize
                              (offset + chunkSize) (S chunkIndex);
      Some ({| ci_index := chunkIndex; ci_start := offset;
               ci_end := offset + chunkSize - 1 |} :: rest)
    end
  else Some [].

Definition calculateDownloadChunks (totalSize : Z) (strategy : DownloadStrategy)
    (connectionSpeed : Q) (isIOSSafari : bool) : option (list ChunkInfo) :=
  if 0 <? totalSize then
    let chunkSize := Z.min (initialChunkSize strategy) (totalSize - 0) in
    rest ← subsequentChunks (Z.to_nat totalSize) strategy connectionSpeed isIOSSafari
                            totalSize (0 + chunkSize) 1%nat;
    Some ({| ci_index := 0%nat; ci_start := 0; ci_end := 0 + chunkSize - 1 |} :: rest)
  else
    subsequentChunks (Z.to_nat totalSize) strategy connectionSpeed isIOSSafari
                     totalSize 0 0%nat.

(** [downloadChunk] against a server that honours the [Range] header:
    the body of the response is the bytes [start..end] of the file. *)
Definition downloadChunk (file : list byte) (info : ChunkInfo)
    : StreamingAssembler.DownloadChunk :=
  {| StreamingAssembler.dc_index := ci_index info;
     StreamingAssembler.dc_start := ci_start info;
     StreamingAssembler.dc_end := ci_end info;
     StreamingAssembler.dc_data :=
       take (Z.to_nat (ci_end info - ci_start info + 1))
            (drop (Z.to_nat (ci_start info)) file) |}.

End DownloadManager.

(** ** Promises

    A promise is described by when it settles (milliseconds after it was
    created) and how; [Never] is a request whose [onsuccess] and [onerror]
    are never called, the failure the store's timeouts are written for. *)

Module Promises.
Local Open Scope Z_scope.

Inductive Error :=
| OperationTimeout
    (* new Error('Safari IndexedDB operation timeout') *)
| RequestError (name : string)
    (* request.error, a DOMException *)
| OpenFailedAfter (maxRetries : Z) (cause : Error).
    (* new Error(`Safari IndexedDB failed after ${maxRetries} retries: ${error}`) *)

Inductive Outcome (A : Type) :=
| Fulfilled (value : A)
| Rejected (reason : Error).
Arguments Fulfilled {A} value.
Arguments Rejected {A} reason.

Inductive Promise (A : Type) :=
| Settles (after_ms : Z) (outcome : Outcome A)
| Never.
Arguments Settles {A} after_ms outcome.
Arguments Never {A}.

Definition resolve {A : Type} (v : A) : Promise A := Settles 0 (Fulfilled v).

Definition later {A : Type} (ms : Z) (p : Promise A) : Promise A :=
  match p with
  | Settles t o => Settles (ms + t) o
  | Never => Never
  end.

(** [await p] followed by [k]. *)
Definition await {A B : Type} (p : Promise A) (k : A → Promise B) : Promise B :=
  match p with
  | Settles t (Fulfilled v) => later t (k v)
  | Settles t (Rejected e) => Settles t (Rejected e)
  | Never => Never
  end.

(** [new Promise(resolve => setTimeout(resolve, ms))]. *)
Definition sleep (ms : Z) : Promise unit := Settles ms (Fulfilled tt).

(** [withTimeout]: [Promise.race] of the operation against a timer that
    rejects.  The operation wins when it settles strictly before the
    timer fires. *)
Definition withTimeout {A : Type} (promise : Promise A) (timeoutMs : Z) : Promise A :=
  match promise with
  | Settles t o => if t <? timeoutMs then Settles t o
                   else Settles timeoutMs (Rejected OperationTimeout)
  | Never => Settles timeoutMs (Rejected OperationTimeout)
  end.

(** The default of the [timeoutMs] parameter. *)
Definition defaultTimeoutMs : Z := 5000.

End Promises.

(** ** AudioChunkStore.ts *)

Module AudioChunkStore.
Import TypedArray Promises.
Local Open Scope Z_scope.

(** A [Float32Array] as the 32-bit patterns of its elements, a string as
    its UTF-16 code units. *)
Definition Float32Array := list Z.
Definition JSString := list Z.

(** [undefined] read as a Number is NaN, of which this is a pattern. *)
Definition NaN : Z := 0x7FC00000.

Record AudioMetadata := {
  md_trackId : string;
  md_name : string;
  md_duration : Q;
  md_sampleRate : Q;
  md_numberOfChannels : Z;
  md_totalChunks : Z;
  md_lastAccessed : Z;
  md_fileSize : Z;
  md_url : string
}.

Record AudioChunk := {
  ch_id : string;
  ch_trackId : string;
  ch_chunkIndex : Z;
  ch_sampleRate : Q;
  ch_length : Z;
  ch_channels : list Float32Array
}.

Record StoredChunk := {
  sc_id : string;
  sc_trackId : string;
  sc_chunkIndex : Z;
  sc_sampleRate : Q;
  sc_length : Z;
  sc_channels : list JSString
}.

(** The platform's [AudioBuffer]: [getChannelData(c)] is channel [c]. *)
Record AudioBuffer := {
  ab_sampleRate : Q;
  ab_length : Z;
  ab_numberOfChannels : Z;
  ab_channelData : list Float32Array
}.

(** Storage limits and the chunk size (3 MB, 1 MB on Safari iOS). *)
Definition maxStorageSize : Z := 1024 * 1024 * 1024.
Definition maxAge : Z := 10 * 24 * 60 * 60 * 1000.
Definition chunkSizeBytes (safariIOS : bool) : Z :=
  if safariIOS then 1 * 1024 * 1024 else 3 * 1024 * 1024.

(** *** Splitting a buffer into chunks and merging them back *)

(** [`${trackId}-${chunkIndex}`] *)
Definition chunkId (trackId : string) (chunkIndex : Z) : string :=
  trackId +:+ "-" +:+ DecimalString.NilZero.string_of_int (Z.to_int chunkIndex).

(** The 32-bit patterns of the NaNs: all ones in the exponent and a
    fraction that is not zero. *)
Definition isNaN32 (w : Z) : bool :=
  (0 <=? w) && (w <? 2 ^ 32) && (0x7F800000 <? w mod 2 ^ 31).

(** A sample read from a [Float32Array] as a Number and stored in one
    again.  A binary32 value that is not a NaN is a Number, and is stored
    as the pattern it was read from.  The NaNs are one Number, which is
    stored as a NaN pattern of the engine's choice (ECMAScript,
    NumericToRawBytes): [encoding] is the choice made at this
    assignment, as a function of the pattern read. *)
Definition viaNumber (encoding : Z → Z) (w : Z) : Z :=
  if isNaN32 w then encoding w else w.

(** Choices that engines make: the conversions of the processor, which
    set the quiet bit and keep the rest, and one pattern for every
    NaN. *)
Definition quietNaN (w : Z) : Z := Z.lor w 0x00400000.
Definition canonicalNaN (w : Z) : Z := NaN.

(** The choices of the engine for a buffer that is copied: one for each
    channel and each sample of it. *)
Definition NaNEncoding : Type := nat → Z → Z → Z.

(** The inner copy loop: [chunkData[i] = channelData[offset + i]], an
    assignment of Numbers.  [encoding] gives the choice for each sample
    of this channel. *)
Definition copySamples (encoding : Z → Z → Z) (channelData : Float32Array)
    (offset length : Z) : Float32Array :=
  (λ i, viaNumber (encoding (offset + i))
                  (default NaN (channelData !! Z.to_nat (offset + i))))
    <$> seqZ 0 length.

(** The [for (offset = 0; offset < totalSamples; offset += samplesPerChunk)]
    loop.  With [samplesPerChunk >= 1], [fuel = totalSamples] turns are
    enough; with 0 the source never leaves the loop ([None]).  [None] also
    stands for [getChannelData] throwing on a missing channel. *)
Fixpoint chunksFrom (nanEncoding : NaNEncoding) (fuel : nat) (audioBuffer : AudioBuffer)
    (trackId : string) (samplesPerChunk totalSamples offset : Z)
    : option (list AudioChunk) :=
  if offset <? totalSamples then
    match fuel with
    | O => None
    | S fuel' =>
      let length := Z.min samplesPerChunk (totalSamples - offset) in
      let chunkIndex := offset / samplesPerChunk in
      channels ← mapM (λ c, channelData ← ab_channelData audioBuffer !! c;
                            Some (copySamples (nanEncoding c) channelData offset
                                              length))
                      (seq 0 (Z.to_nat (ab_numberOfChannels audioBuffer)));
      rest ← chunksFrom nanEncoding fuel' audioBuffer trackId samplesPerChunk
                        totalSamples (offset + samplesPerChunk);
      Some ({| ch_id := chunkId trackId chunkIndex;
               ch_trackId := trackId;
               ch_chunkIndex := chunkIndex;
               ch_sampleRate := ab_sampleRate audioBuffer;
               ch_length := length;
               ch_channels := channels |} :: rest)
    end
  else Some [].

(** An [AudioBuffer] has at least one channel, so the divisor below is
    positive and [/] is the floor of the quotient. *)
Definition samplesPerChunkOf (chunkSize : Z) (audioBuffer : AudioBuffer) : Z :=
  let bytesPerSample := 4 in
  chunkSize / (ab_numberOfChannels audioBuffer * bytesPerSample).

Definition audioBufferToChunks (nanEncoding : NaNEncoding) (chunkSize : Z)
    (audioBuffer : AudioBuffer) (trackId : string) : option (list AudioChunk) :=
  let samplesPerChunk := samplesPerChunkOf chunkSize audioBuffer in
  let totalSamples := ab_length audioBuffer in
  chunksFrom nanEncoding (Z.to_nat totalSamples) audioBuffer trackId samplesPerChunk
             totalSamples 0.

(** The platform's [createBuffer]: zero filled; NotSupportedError without
    a channel or a frame.  (Its checks of the rate and of the largest
    channel count are not modelled.) *)
Definition createBuffer (numberOfChannels length : Z) (sampleRate : Q) : option AudioBuffer :=
  if (numberOfChannels <? 1) || (length <? 1) then None
  else Some {| ab_sampleRate := sampleRate;
               ab_length := length;
               ab_numberOfChannels := numberOfChannels;
               ab_channelData :=
                 repeat (repeat 0 (Z.to_nat length)) (Z.to_nat numberOfChannels) |}.

(** [for (c...) audioBuffer.getChannelData(c).set(chunk.channels[c], offset)];
    [set] from an array of the same type copies the bytes. *)
Fixpoint setChannels (target : list Float32Array) (chunk : AudioChunk) (offset : Z)
    (cs : list nat) : option (list Float32Array) :=
  match cs with
  | [] => Some target
  | c :: cs' =>
    targetChannel ← target !! c;
    sourceChannel ← ch_channels chunk !! c;
    written ← set targetChannel sourceChannel offset;
    setChannels (<[c := written]> target) chunk offset cs'
  end.

Fixpoint mergeLoop (numberOfChannels : Z) (target : list Float32Array) (offset : Z)
    (chunks : list AudioChunk) : option (list Float32Array) :=
  match chunks with
  | [] => Some target
  | chunk :: rest =>
    target' ← setChannels target chunk offset (seq 0 (Z.to_nat numberOfChannels));
    mergeLoop numberOfChannels target' (offset + ch_length chunk) rest
  end.

Definition mergeChunks (chunks : list AudioChunk) (metadata : AudioMetadata)
    : option AudioBuffer :=
  let totalLength := foldl (λ sum chunk, sum + ch_length chunk) 0 chunks in
  audioBuffer ← createBuffer (md_numberOfChannels metadata) totalLength
                             (md_sampleRate metadata);
  data ← mergeLoop (md_numberOfChannels metadata) (ab_channelData audioBuffer) 0 chunks;
  Some {| ab_sampleRate := ab_sampleRate audioBuffer;
          ab_length := ab_length audioBuffer;
          ab_numberOfChannels := ab_numberOfChannels audioBuffer;
          ab_channelData := data |}.

(** *** The string encoding of sample arrays *)

(** [new Uint16Array(f32.buffer, ...)] on a little-endian host, which
    every browser the package runs in is. *)
Definition u16View (f32 : Float32Array) : list Z :=
  flat_map (λ w, [w mod 65536; w / 65536]) f32.

Definition isHighSurrogate (u : Z) : bool := (0xD800 <=? u) && (u <=? 0xDBFF).
Definition isLowSurrogate (u : Z) : bool := (0xDC00 <=? u) && (u <=? 0xDFFF).

(** The platform's UTF-16 decoder (WHATWG Encoding Standard, not fatal):
    a surrogate pair passes, a surrogate on its own becomes U+FFFD.
    [lead] is the high surrogate read and not yet paired. *)
Fixpoint utf16Decode (lead : option Z) (units : list Z) : JSString :=
  match units with
  | [] => match lead with Some _ => [0xFFFD] | None => [] end
  | u :: rest =>
    match lead with
    | Some l =>
      if isLowSurrogate u then l :: u :: utf16Decode None rest
      else if isHighSurrogate u then 0xFFFD :: utf16Decode (Some u) rest
      else 0xFFFD :: u :: utf16Decode None rest
    | None =>
      if isHighSurrogate u then utf16Decode (Some u) rest
      else if isLowSurrogate u then 0xFFFD :: utf16Decode None rest
      else u :: utf16Decode None rest
    end
  end.

(** [new TextDecoder('utf-16').decode(u16)]: utf-16le, and a byte order
    mark at the start is dropped ([ignoreBOM] is false). *)
Definition textDecoderDecode (u16 : list Z) : JSString :=
  match u16 with
  | 0xFEFF :: rest => utf16Decode None rest
  | _ => utf16Decode None u16
  end.

(** [String.fromCharCode] on one code unit. *)
Definition fromCharCode (c : Z) : Z := c mod 65536.

(** The fallback loop, 10000 code units a turn; [fuel] is the length of
    the view, which bounds the number of turns. *)
Fixpoint fromCharCodeLoop (fuel : nat) (u16 : list Z) (i : Z) (str : JSString) : JSString :=
  if i <? byteLength u16 then
    match fuel with
    | O => str
    | S fuel' =>
      let end_ := Z.min (i + 10000) (byteLength u16) in
      fromCharCodeLoop fuel' u16 (i + 10000)
        (str ++ (fromCharCode <$> take (Z.to_nat (end_ - i)) (drop (Z.to_nat i) u16)))
    end
  else str.

(** [hasTextDecoder] is ['TextDecoder' in window]. *)
Definition float32ArrayToString (hasTextDecoder : bool) (f32 : Float32Array) : JSString :=
  let u16 := u16View f32 in
  if hasTextDecoder then textDecoderDecode u16
  else fromCharCodeLoop (length u16) u16 0 [].

(** [new Float32Array(u16.buffer)]: a RangeError unless the byte length
    is a multiple of 4. *)
Fixpoint float32OfU16 (u16 : list Z) : option Float32Array :=
  match u16 with
  | [] => Some []
  | lo :: hi :: rest => (λ r, (lo + 65536 * hi) :: r) <$> float32OfU16 rest
  | [_] => None
  end.

Definition stringToFloat32Array (str : JSString) : option Float32Array :=
  let u16 := (λ c, c mod 65536) <$> str in
  float32OfU16 u16.

(** *** The database

    The two object stores of 'WAS_MediaCache_v1', keyed by [trackId] and
    by chunk [id].  [latency] is the time one request takes to call
    [onsuccess]; [None] is a database that never answers.  The stored
    record of a track keeps [name] and [url] XOR-ed and base64 encoded;
    that transformation of two text fields is not modelled.  A request
    that a timeout has given up on still reaches the database later; the
    model drops it. *)

Record IDB := {
  cache_meta : gmap string AudioMetadata;
  cache_data : gmap string StoredChunk;
  latency : option Z
}.

Definition Op (A : Type) : Type := IDB → Promise (A * IDB).

Definition opRet {A : Type} (v : A) : Op A := λ db, resolve (v, db).

Definition opBind {A B : Type} (m : Op A) (k : A → Op B) : Op B :=
  λ db, await (m db) (λ r, k (fst r) (snd r)).

Notation "'let!' x ':=' m 'in' k" := (opBind m (λ x, k))
  (at level 10, x name, m at level 100, k at level 200).

(** One request; the handler [onsuccess] computes the value the promise
    resolves with, and a handler that throws ([None]) leaves the promise
    unsettled. *)
Definition request {A : Type} (onsuccess : IDB → option (A * IDB)) : Op A :=
  λ db, match latency db, onsuccess db with
        | Some d, Some r => Settles d (Fulfilled r)
        | _, _ => Never
        end.

Definition timed {A : Type} (operation : Op A) (timeoutMs : Z) : Op A :=
  λ db, withTimeout (operation db) timeoutMs.

Definition putMeta (metadata : AudioMetadata) (db : IDB) : IDB :=
  {| cache_meta := <[md_trackId metadata := metadata]> (cache_meta db);
     cache_data := cache_data db;
     latency := latency db |}.

Definition putData (chunk : StoredChunk) (db : IDB) : IDB :=
  {| cache_meta := cache_meta db;
     cache_data := <[sc_id chunk := chunk]> (cache_data db);
     latency := latency db |}.

Definition saveMetadata (metadata : AudioMetadata) : Op unit :=
  timed (request (λ db, Some (tt, putMeta metadata db))) 5000.

Definition getMetadata (trackId : string) : Op (option AudioMetadata) :=
  timed (request (λ db, Some (cache_meta db !! trackId, db))) 5000.

Definition updateLastAccessed (now : Z) (trackId : string) : Op unit :=
  let! metadata := getMetadata trackId in
  match metadata with
  | Some m =>
    saveMetadata {| md_trackId := md_trackId m; md_name := md_name m;
                    md_duration := md_duration m; md_sampleRate := md_sampleRate m;
                    md_numberOfChannels := md_numberOfChannels m;
                    md_totalChunks := md_totalChunks m;
                    md_lastAccessed := now;
                    md_fileSize := md_fileSize m; md_url := md_url m |}
  | None => opRet tt
  end.

Definition saveChunk (hasTextDecoder : bool) (chunk : AudioChunk) : Op unit :=
  let storedChunk :=
    {| sc_id := ch_id chunk; sc_trackId := ch_trackId chunk;
       sc_chunkIndex := ch_chunkIndex chunk; sc_sampleRate := ch_sampleRate chunk;
       sc_length := ch_length chunk;
       sc_channels := float32ArrayToString hasTextDecoder <$> ch_channels chunk |} in
  timed (request (λ db, Some (tt, putData storedChunk db))) 5000.

Definition getChunk (trackId : string) (chunkIndex : Z) : Op (option AudioChunk) :=
  let id := chunkId trackId chunkIndex in
  timed (request (λ db,
    match cache_data db !! id with
    | None => Some (None, db)
    | Some storedChunk =>
      channels ← mapM stringToFloat32Array (sc_channels storedChunk);
      Some (Some {| ch_id := sc_id storedChunk; ch_trackId := sc_trackId storedChunk;
                    ch_chunkIndex := sc_chunkIndex storedChunk;
                    ch_sampleRate := sc_sampleRate storedChunk;
                    ch_length := sc_length storedChunk;
                    ch_channels := channels |}, db)
    end)) 5000.

(** [store.getAll()]; the order is the map's. *)
Definition getAllMetadata : Op (list AudioMetadata) :=
  request (λ db, Some ((map_to_list (cache_meta db)).*2, db)).

Definition removeTrack (trackId : string) : Op unit :=
  let! _ := request (λ db, Some (tt,
      {| cache_meta := delete trackId (cache_meta db);
         cache_data := cache_data db;
         latency := latency db |})) in
  request (λ db, Some (tt,
      {| cache_meta := cache_meta db;
         cache_data := filter (λ kv, sc_trackId kv.2 ≠ trackId) (cache_data db);
         latency := latency db |})).

(** [Array.prototype.sort] with the comparator [(a, b) => key(a) - key(b)]:
    ascending and stable. *)
Fixpoint insertBy {A : Type} (key : A → Z) (x : A) (sorted : list A) : list A :=
  match sorted with
  | [] => [x]
  | y :: rest => if key x <=? key y then x :: y :: rest else y :: insertBy key x rest
  end.

Definition sortBy {A : Type} (key : A → Z) (l : list A) : list A :=
  foldr (insertBy key) [] l.

Definition getAvailableChunks (trackId : string) : Op (list Z) :=
  request (λ db,
    let chunks := filter (λ c, sc_trackId c = trackId) (map_to_list (cache_data db)).*2 in
    Some (sortBy id (sc_chunkIndex <$> chunks), db)).

(** *** cleanup *)

Definition totalFileSize (allMetadata : list AudioMetadata) : Z :=
  foldl (λ totalSize metadata, totalSize + md_fileSize metadata) 0 allMetadata.

(** "Remove old tracks": the first loop over [allMetadata]. *)
Fixpoint removeOld (now : Z) (allMetadata : list AudioMetadata)
    (tracksToRemove : list string) (totalSize : Z) : list string * Z :=
  match allMetadata with
  | [] => (tracksToRemove, totalSize)
  | metadata :: rest =>
    let age := now - md_lastAccessed metadata in
    if maxAge <? age
    then removeOld now rest (tracksToRemove ++ [md_trackId metadata])
                   (totalSize - md_fileSize metadata)
    else removeOld now rest tracksToRemove totalSize
  end.

(** The loop over [sortedByAge], with its [break]. *)
Fixpoint removeOverLimit (sortedByAge : list AudioMetadata)
    (tracksToRemove : list string) (totalSize : Z) : list string * Z :=
  match sortedByAge with
  | [] => (tracksToRemove, totalSize)
  | metadata :: rest =>
    if totalSize <=? maxStorageSize then (tracksToRemove, totalSize)
    else removeOverLimit rest (tracksToRemove ++ [md_trackId metadata])
                         (totalSize - md_fileSize metadata)
  end.

Definition includes (l : list string) (s : string) : bool := bool_decide (s ∈ l).

Definition sortedByAge (tracksToRemove : list string) (allMetadata : list AudioMetadata)
    : list AudioMetadata :=
  sortBy md_lastAccessed
    (filter (λ m, includes tracksToRemove (md_trackId m) = false) allMetadata).

Definition selectTracksToRemove (now : Z) (allMetadata : list AudioMetadata)
    : list string * Z :=
  let totalSize := totalFileSize allMetadata in
  let old := removeOld now allMetadata [] totalSize in
  if maxStorageSize <? snd old
  then removeOverLimit (sortedByAge (fst old) allMetadata) (fst old) (snd old)
  else old.

Fixpoint removeTracks (trackIds : list string) : Op unit :=
  match trackIds with
  | [] => opRet tt
  | trackId :: rest => let! _ := removeTrack trackId in removeTracks rest
  end.

(** [cleanup], on a store that is open; [now] is [Date.now()]. *)
Definition cleanup (now : Z) : Op unit :=
  let! allMetadata := getAllMetadata in
  removeTracks (fst (selectTracksToRemove now allMetadata)).

(** *** initialize

    [attempts k] is how the [k]-th call of [openDatabase] settles;
    [safariIOS] is [isSafariIOS()]. *)

Inductive OpenEvent :=
| OpenAttempt (attempt maxRetries : Z)
| RetryWait (retryDelay : Z).

Fixpoint openLoop (remaining : nat) (safariIOS : bool) (attempts : nat → Promise unit)
    (maxRetries retryCount : Z) : list OpenEvent * Promise unit :=
  match remaining with
  | O => ([], resolve tt)
  | S remaining' =>
    let attempt := OpenAttempt (retryCount + 1) maxRetries in
    match withTimeout (attempts (Z.to_nat retryCount)) 10000 with
    | Settles t (Fulfilled _) => ([attempt], Settles t (Fulfilled tt))
    | Settles t (Rejected error) =>
      let retryCount' := retryCount + 1 in
      if maxRetries <=? retryCount'
      then ([attempt], Settles t (Rejected (OpenFailedAfter maxRetries error)))
      else
        let retryDelay := if safariIOS then 1000 else 500 in
        let next := openLoop remaining' safariIOS attempts maxRetries retryCount' in
        (attempt :: RetryWait retryDelay :: fst next, later (t + retryDelay) (snd next))
    | Never => ([attempt], Never)
    end
  end.

Definition maxRetriesOf (safariIOS : bool) : Z := if safariIOS then 3 else 1.

Definition initialize (initialized safariIOS : bool) (attempts : nat → Promise unit)
    : list OpenEvent * Promise unit :=
  if initialized then ([], resolve tt)
  else
    let maxRetries := maxRetriesOf safariIOS in
    openLoop (Z.to_nat maxRetries) safariIOS attempts maxRetries 0.

End AudioChunkStore.

(** ** Numbers in binary64 *)

Module Binary64.
Local Open Scope Z_scope.

(** The nearest integer, a tie going to the even one. *)
Definition roundEven (q : Q) : Z :=
  let f := Qnum q / Zpos (Qden q) in
  let r := Qnum q mod Zpos (Qden q) in
  match 2 * r ?= Zpos (Qden q) with
  | Lt => f
  | Gt => f + 1
  | Eq => if Z.even f then f else f + 1
  end.

(** The exponent of [q]: the floor of the binary logarithm of its
    magnitude. *)
Definition exponent (q : Q) : Z :=
  let n := Z.abs (Qnum q) in
  let d := Zpos (Qden q) in
  let e := Z.log2 n - Z.log2 d in
  let below := if 0 <=? e then n <? d * 2 ^ e else n * 2 ^ (- e) <? d in
  if below then e - 1 else e.

(** The exponent of the unit in the last place: a significand of 53
    bits, and the subnormal numbers below [2 ^ -1022]. *)
Definition ulpExponent (q : Q) : Z := Z.max (exponent q) (-1022) - 52.

(** [q * 2 ^ k] *)
Definition scale (q : Q) (k : Z) : Q :=
  if 0 <=? k then (Qnum q * 2 ^ k) # Qden q
  else Qnum q # (Qden q * Z.to_pos (2 ^ (- k))).

(** The Number that an operation whose exact result is [q] returns: the
    binary64 number nearest to [q], a tie going to the even significand
    (IEEE 754, roundTiesToEven).  The overflow to an infinity, from
    [2 ^ 1024] on, is not modelled. *)
Definition binary64 (q : Q) : Q :=
  let p := ulpExponent q in
  scale (inject_Z (roundEven (scale q (- p)))) p.

End Binary64.

(** ** audio-worklet-processor.js *)

Module AudioPlaybackProcessor.
Import Binary64.
Local Open Scope Z_scope.

Definition Float32Array := list Z.

(** An entry of [scheduledBuffers]. *)
Record BufferData := {
  bd_trackId : string;
  bd_channelData : list Float32Array;
  bd_sampleRate : Q;
  bd_numberOfChannels : Z;
  bd_totalSamples : Z;
  bd_duration : Q;
  bd_switchTime : option Q;
  bd_earlyStopTime : option Q
}.

(** The [data] of the messages that carry a buffer. *)
Record BufferMessage := {
  bm_trackId : string;
  bm_channelData : list Float32Array;
  bm_sampleRate : Q;
  bm_numberOfChannels : Z;
  bm_totalSamples : Z
}.

(** Messages of the main thread.  The chunked-buffer messages and the
    position queries are not modelled. *)
Inductive Message :=
| SET_BUFFER (data : BufferMessage)
| PLAY
| PAUSE
| SEEK (time : Q)
| REPLACE_BUFFER (data : BufferMessage) (currentPosition : option Q)
| SET_VOLUME (volume : Q)
| SCHEDULE_BUFFER_SWITCH (data : BufferMessage) (switchTime earlyStopTime : option Q)
| IOS_CONFIG (isIOSSafari : bool) (sampleRate : option Q).

(** Messages posted to the main thread. *)
Inductive Posted :=
| BUFFER_SWITCHED (newBufferIndex : nat) (newDuration currentTime : Q)
| ENDED.

Record t := {
  isPlaying : bool;
  volume : Q;
  currentTime : Q;
  duration : Q;
  audioChannelData : option (list Float32Array);
  sampleRate : option Q;
  numberOfChannels : Z;
  totalSamples : Z;
  bufferSourcePosition : Z;
  scheduledBuffers : list BufferData;
  currentBufferIndex : nat;
  nextSwitchTime : option Q;
  currentBufferEarlyStopTime : option Q;
  currentTrackId : option string;
  hasLoggedEarlyStopContinue : bool;
  isIOSSafari : bool;
  iosSampleRate : option Q;
  posted : list Posted
}.

Definition constructor : t :=
  {| isPlaying := false; volume := 1; currentTime := 0; duration := 0;
     audioChannelData := None; sampleRate := None;
     numberOfChannels := 0; totalSamples := 0;
     bufferSourcePosition := 0;
     scheduledBuffers := []; currentBufferIndex := 0;
     nextSwitchTime := None; currentBufferEarlyStopTime := None;
     currentTrackId := None; hasLoggedEarlyStopContinue := false;
     isIOSSafari := false; iosSampleRate := None;
     posted := [] |}.

(** Truthiness of a track id ([null] and the empty string are falsy) and
    of a number ([null], [undefined] and 0 are falsy). *)
Definition truthyId (id : option string) : bool :=
  match id with
  | Some s => negb (bool_decide (s = ""))
  | None => false
  end.

Definition truthy (x : option Q) : bool :=
  match x with
  | Some q => negb (Qeq_bool q 0)
  | None => false
  end.

(** [x || null] *)
Definition orNull (x : option Q) : option Q := if truthy x then x else None.

Definition Qmax0 (q : Q) : Q := if Qle_bool 0 q then q else 0%Q.

(** [currentTrackId && currentTrackId !== other] *)
Definition wrongTrack (st : t) (other : string) : bool :=
  truthyId (currentTrackId st)
  && negb (bool_decide (currentTrackId st = Some other)).

(** The sample rate a new buffer is played at:
    [isIOSSafari && iosSampleRate ? iosSampleRate : data.sampleRate]. *)
Definition effectiveSampleRate (st : t) (dataRate : Q) : Q :=
  match iosSampleRate st with
  | Some r => if isIOSSafari st && truthy (Some r) then r else dataRate
  | None => dataRate
  end.

(** [autoResetForNewSong]; the pending chunked buffers it clears are not
    part of the model. *)
Definition autoResetForNewSong (st : t) (newTrackId : string) : t :=
  {| isPlaying := isPlaying st; volume := volume st;
     currentTime := currentTime st; duration := duration st;
     audioChannelData := audioChannelData st; sampleRate := sampleRate st;
     numberOfChannels := numberOfChannels st; totalSamples := totalSamples st;
     bufferSourcePosition := bufferSourcePosition st;
     scheduledBuffers := [];
     currentBufferIndex := 0;
     nextSwitchTime := None;
     currentBufferEarlyStopTime := None;
     currentTrackId := Some newTrackId;
     hasLoggedEarlyStopContinue := false;
     isIOSSafari := isIOSSafari st; iosSampleRate := iosSampleRate st;
     posted := posted st |}.

Definition setCurrentTrackId (st : t) (id : string) : t :=
  {| isPlaying := isPlaying st; volume := volume st;
     currentTime := currentTime st; duration := duration st;
     audioChannelData := audioChannelData st; sampleRate := sampleRate st;
     numberOfChannels := numberOfChannels st; totalSamples := totalSamples st;
     bufferSourcePosition := bufferSourcePosition st;
     scheduledBuffers := scheduledBuffers st;
     currentBufferIndex := currentBufferIndex st;
     nextSwitchTime := nextSwitchTime st;
     currentBufferEarlyStopTime := currentBufferEarlyStopTime st;
     currentTrackId := Some id;
     hasLoggedEarlyStopContinue := hasLoggedEarlyStopContinue st;
     isIOSSafari := isIOSSafari st; iosSampleRate := iosSampleRate st;
     posted := posted st |}.

(** Installs a buffer as the active one: the assignments that SET_BUFFER,
    REPLACE_BUFFER and [performBufferSwitch] share, with the cursor and
    the clock each of them computes. *)
Definition withBuffer (st : t) (channelData : list Float32Array) (rate : Q)
    (channels samples : Z) (dur : Q) (position : Z) (time : Q) : t :=
  {| isPlaying := isPlaying st; volume := volume st;
     currentTime := time; duration := dur;
     audioChannelData := Some channelData; sampleRate := Some rate;
     numberOfChannels := channels; totalSamples := samples;
     bufferSourcePosition := position;
     scheduledBuffers := scheduledBuffers st;
     currentBufferIndex := currentBufferIndex st;
     nextSwitchTime := nextSwitchTime st;
     currentBufferEarlyStopTime := Some (Qmax0 (dur - 0.75));
     currentTrackId := currentTrackId st;
     hasLoggedEarlyStopContinue := hasLoggedEarlyStopContinue st;
     isIOSSafari := isIOSSafari st; iosSampleRate := iosSampleRate st;
     posted := posted st |}.

Definition setBuffer (st : t) (data : BufferMessage) : t :=
  let newTrackId := bm_trackId data in
  let st1 :=
    if wrongTrack st newTrackId then autoResetForNewSong st newTrackId
    else if negb (truthyId (currentTrackId st)) then setCurrentTrackId st newTrackId
    else st in
  let rate := effectiveSampleRate st1 (bm_sampleRate data) in
  withBuffer st1 (bm_channelData data) rate (bm_numberOfChannels data)
             (bm_totalSamples data) (inject_Z (bm_totalSamples data) / rate) 0 0.

(** Moves the cursor and the clock and leaves the buffer alone. *)
Definition moveCursor (st : t) (position : Z) (time : Q) : t :=
  {| isPlaying := isPlaying st; volume := volume st;
     currentTime := time; duration := duration st;
     audioChannelData := audioChannelData st; sampleRate := sampleRate st;
     numberOfChannels := numberOfChannels st; totalSamples := totalSamples st;
     bufferSourcePosition := position;
     scheduledBuffers := scheduledBuffers st;
     currentBufferIndex := currentBufferIndex st;
     nextSwitchTime := nextSwitchTime st;
     currentBufferEarlyStopTime := currentBufferEarlyStopTime st;
     currentTrackId := currentTrackId st;
     hasLoggedEarlyStopContinue := hasLoggedEarlyStopContinue st;
     isIOSSafari := isIOSSafari st; iosSampleRate := iosSampleRate st;
     posted := posted st |}.

(** [Math.floor(seconds * rate)].  The state and the messages hold the
    exact value that a Number was computed as; the Number itself is that
    value rounded, and so is the product. *)
Definition samplesAt (seconds rate : Q) : Z :=
  Qfloor (binary64 (binary64 seconds * rate)).

Definition seek (st : t) (time : Q) : t :=
  match audioChannelData st, sampleRate st with
  | Some _, Some rate =>
    if truthy (Some rate) then moveCursor st (samplesAt time rate) time else st
  | _, _ => st
  end.

Definition replaceBuffer (st : t) (data : BufferMessage) (currentPosition : option Q) : t :=
  if wrongTrack st (bm_trackId data) then st
  else
    let currentSamplePosition := bufferSourcePosition st in
    let rate := effectiveSampleRate st (bm_sampleRate data) in
    let samples := bm_totalSamples data in
    let position :=
      match currentPosition with
      | Some p => Z.min (samplesAt p rate) (samples - 1)
      | None => Z.min currentSamplePosition (samples - 1)
      end in
    withBuffer st (bm_channelData data) rate (bm_numberOfChannels data) samples
               (inject_Z samples / rate) position (inject_Z position / rate).

Definition setVolume (st : t) (v : Q) : t :=
  let clamped := Qmax0 (if Qle_bool 1 v then 1%Q else v) in
  {| isPlaying := isPlaying st; volume := clamped;
     currentTime := currentTime st; duration := duration st;
     audioChannelData := audioChannelData st; sampleRate := sampleRate st;
     numberOfChannels := numberOfChannels st; totalSamples := totalSamples st;
     bufferSourcePosition := bufferSourcePosition st;
     scheduledBuffers := scheduledBuffers st;
     currentBufferIndex := currentBufferIndex st;
     nextSwitchTime := nextSwitchTime st;
     currentBufferEarlyStopTime := currentBufferEarlyStopTime st;
     currentTrackId := currentTrackId st;
     hasLoggedEarlyStopContinue := hasLoggedEarlyStopContinue st;
     isIOSSafari := isIOSSafari st; iosSampleRate := iosSampleRate st;
     posted := posted st |}.

Definition setPlaying (st : t) (playing : bool) : t :=
  {| isPlaying := playing; volume := volume st;
     currentTime := currentTime st; duration := duration st;
     audioChannelData := audioChannelData st; sampleRate := sampleRate st;
     numberOfChannels := numberOfChannels st; totalSamples := totalSamples st;
     bufferSourcePosition := bufferSourcePosition st;
     scheduledBuffers := scheduledBuffers st;
     currentBufferIndex := currentBufferIndex st;
     nextSwitchTime := nextSwitchTime st;
     currentBufferEarlyStopTime := currentBufferEarlyStopTime st;
     currentTrackId := currentTrackId st;
     hasLoggedEarlyStopContinue := hasLoggedEarlyStopContinue st;
     isIOSSafari := isIOSSafari st; iosSampleRate := iosSampleRate st;
     posted := posted st |}.

Definition setIOSConfig (st : t) (ios : bool) (rate : option Q) : t :=
  {| isPlaying := isPlaying st; volume := volume st;
     currentTime := currentTime st; duration := duration st;
     audioChannelData := audioChannelData st; sampleRate := sampleRate st;
     numberOfChannels := numberOfChannels st; totalSamples := totalSamples st;
     bufferSourcePosition := bufferSourcePosition st;
     scheduledBuffers := scheduledBuffers st;
     currentBufferIndex := currentBufferIndex st;
     nextSwitchTime := nextSwitchTime st;
     currentBufferEarlyStopTime := currentBufferEarlyStopTime st;
     currentTrackId := currentTrackId st;
     hasLoggedEarlyStopContinue := hasLoggedEarlyStopContinue st;
     isIOSSafari := ios; iosSampleRate := rate;
     posted := posted st |}.

(** Replaces the queue, the index into it and the time of the next
    switch. *)
Definition setSchedule (st : t) (buffers : list BufferData) (index : nat)
    (next : option Q) : t :=
  {| isPlaying := isPlaying st; volume := volume st;
     currentTime := currentTime st; duration := duration st;
     audioChannelData := audioChannelData st; sampleRate := sampleRate st;
     numberOfChannels := numberOfChannels st; totalSamples := totalSamples st;
     bufferSourcePosition := bufferSourcePosition st;
     scheduledBuffers := buffers;
     currentBufferIndex := index;
     nextSwitchTime := next;
     currentBufferEarlyStopTime := currentBufferEarlyStopTime st;
     currentTrackId := currentTrackId st;
     hasLoggedEarlyStopContinue := hasLoggedEarlyStopContinue st;
     isIOSSafari := isIOSSafari st; iosSampleRate := iosSampleRate st;
     posted := posted st |}.

(** SCHEDULE_BUFFER_SWITCH.  [switchTime || null] turns a switch time of
    0 into [null], so the test [switchTime === 0] of the source never
    holds; it is kept as written. *)
Definition scheduleBufferSwitch (st : t) (data : BufferMessage)
    (switchTime earlyStopTime : option Q) : t :=
  if wrongTrack st (bm_trackId data) then st
  else
    let bufferData :=
      {| bd_trackId := bm_trackId data;
         bd_channelData := bm_channelData data;
         bd_sampleRate := bm_sampleRate data;
         bd_numberOfChannels := bm_numberOfChannels data;
         bd_totalSamples := bm_totalSamples data;
         bd_duration := inject_Z (bm_totalSamples data) / bm_sampleRate data;
         bd_switchTime := orNull switchTime;
         bd_earlyStopTime := orNull earlyStopTime |} in
    let buffers := scheduledBuffers st ++ [bufferData] in
    if (length buffers =? currentBufferIndex st + 1)%nat then
      match bd_switchTime bufferData with
      | Some q => if Qeq_bool q 0 then setSchedule st buffers 0 None
                  else setSchedule st buffers (currentBufferIndex st) (Some q)
      | None => setSchedule st buffers (currentBufferIndex st) None
      end
    else setSchedule st buffers (currentBufferIndex st) (nextSwitchTime st).

Definition onmessage (st : t) (m : Message) : t :=
  match m with
  | SET_BUFFER data => setBuffer st data
  | PLAY => setPlaying st true
  | PAUSE => setPlaying st false
  | SEEK time => seek st time
  | REPLACE_BUFFER data currentPosition => replaceBuffer st data currentPosition
  | SET_VOLUME v => setVolume st v
  | SCHEDULE_BUFFER_SWITCH data switchTime earlyStopTime =>
    scheduleBufferSwitch st data switchTime earlyStopTime
  | IOS_CONFIG ios rate => setIOSConfig st ios rate
  end.

(** [performBufferSwitch].  [this.sampleRate] is the new buffer's rate by
    the time the position is computed; [this.currentTime] is not touched. *)
Definition performBufferSwitch (st : t) : t :=
  match scheduledBuffers st !! (currentBufferIndex st + 1)%nat with
  | None => setSchedule st (scheduledBuffers st) (currentBufferIndex st) None
  | Some nextBuffer =>
    if wrongTrack st (bd_trackId nextBuffer)
    then setSchedule st (scheduledBuffers st) (currentBufferIndex st) None
    else
      let rate := bd_sampleRate nextBuffer in
      let currentSamplePosition := samplesAt (currentTime st) rate in
      let position := Z.min currentSamplePosition (bd_totalSamples nextBuffer - 1) in
      let st1 := withBuffer st (bd_channelData nextBuffer) rate
                   (bd_numberOfChannels nextBuffer) (bd_totalSamples nextBuffer)
                   (bd_duration nextBuffer) position (currentTime st) in
      let index := S (currentBufferIndex st) in
      let next := match scheduledBuffers st !! (index + 1)%nat with
                  | Some nextBufferData => bd_switchTime nextBufferData
                  | None => None
                  end in
      let st2 := setSchedule st1 (scheduledBuffers st) index next in
      {| isPlaying := isPlaying st2; volume := volume st2;
         currentTime := currentTime st2; duration := duration st2;
         audioChannelData := audioChannelData st2; sampleRate := sampleRate st2;
         numberOfChannels := numberOfChannels st2; totalSamples := totalSamples st2;
         bufferSourcePosition := bufferSourcePosition st2;
         scheduledBuffers := scheduledBuffers st2;
         currentBufferIndex := currentBufferIndex st2;
         nextSwitchTime := nextSwitchTime st2;
         currentBufferEarlyStopTime := currentBufferEarlyStopTime st2;
         currentTrackId := currentTrackId st2;
         hasLoggedEarlyStopContinue := hasLoggedEarlyStopContinue st2;
         isIOSSafari := isIOSSafari st2; iosSampleRate := iosSampleRate st2;
         posted := posted st2
                   ++ [BUFFER_SWITCHED (currentBufferIndex st2) (duration st2)
                                       (currentTime st2)] |}
  end.

(** The test at the head of [process] that decides whether this render
    quantum starts with a switch: [this.currentTime >= time], on the
    Number that the clock holds. *)
Definition Qleb (a b : Q) : bool := Qle_bool a b.

Definition processSwitch (st : t) : t :=
  match audioChannelData st with
  | None => st
  | Some _ =>
    if negb (isPlaying st) then st
    else
      let earlyStop :=
        match currentBufferEarlyStopTime st with
        | Some e => Qleb e (binary64 (currentTime st))
        | None => false
        end in
      if earlyStop then
        if (currentBufferIndex st + 1 <? length (scheduledBuffers st))%nat
        then performBufferSwitch
               (* hasLoggedEarlyStopContinue = false *)
               {| isPlaying := isPlaying st; volume := volume st;
                  currentTime := currentTime st; duration := duration st;
                  audioChannelData := audioChannelData st; sampleRate := sampleRate st;
                  numberOfChannels := numberOfChannels st;
                  totalSamples := totalSamples st;
                  bufferSourcePosition := bufferSourcePosition st;
                  scheduledBuffers := scheduledBuffers st;
                  currentBufferIndex := currentBufferIndex st;
                  nextSwitchTime := nextSwitchTime st;
                  currentBufferEarlyStopTime := currentBufferEarlyStopTime st;
                  currentTrackId := currentTrackId st;
                  hasLoggedEarlyStopContinue := false;
                  isIOSSafari := isIOSSafari st; iosSampleRate := iosSampleRate st;
                  posted := posted st |}
        else
          {| isPlaying := isPlaying st; volume := volume st;
             currentTime := currentTime st; duration := duration st;
             audioChannelData := audioChannelData st; sampleRate := sampleRate st;
             numberOfChannels := numberOfChannels st;
             totalSamples := totalSamples st;
             bufferSourcePosition := bufferSourcePosition st;
             scheduledBuffers := scheduledBuffers st;
             currentBufferIndex := currentBufferIndex st;
             nextSwitchTime := nextSwitchTime st;
             currentBufferEarlyStopTime := currentBufferEarlyStopTime st;
             currentTrackId := currentTrackId st;
             hasLoggedEarlyStopContinue := true;
             isIOSSafari := isIOSSafari st; iosSampleRate := iosSampleRate st;
             posted := posted st |}
      else
        match nextSwitchTime st with
        | Some s => if Qleb s (binary64 (currentTime st)) then performBufferSwitch st
                    else st
        | None => st
        end
  end.

(** The size of a render quantum, in sample frames. *)
Definition renderQuantum : Z := 128.

End AudioPlaybackProcessor.

(** * Properties *)

(** ** Typed arrays *)

Module TypedArrayFacts.
Import TypedArray.

Lemma byteLength_app {A : Type} (xs ys : list A) :
  byteLength (xs ++ ys) = (byteLength xs + byteLength ys)%Z.
Proof. unfold byteLength. rewrite length_app. lia. Qed.

Lemma byteLength_nonneg {A : Type} (xs : list A) : (0 <= byteLength xs)%Z.
Proof. unfold byteLength. lia. Qed.

Lemma alloc_Some {A : Type} (zero : A) (n : Z) :
  (0 <= n)%Z → alloc zero n = Some (repeat zero (Z.to_nat n)).
Proof. intros Hn. unfold alloc. destruct (Z.ltb_spec n 0); [lia | done]. Qed.

(** Writing [source] over the middle part of a buffer. *)
Lemma set_middle {A : Type} (xs ys zs source : list A) :
  length source = length ys →
  set (xs ++ ys ++ zs) source (byteLength xs) = Some (xs ++ source ++ zs).
Proof.
  intros Hlen. unfold set, byteLength.
  rewrite !length_app.
  destruct (Z.ltb_spec (Z.of_nat (length xs)) 0); [lia |].
  destruct (Z.ltb_spec (Z.of_nat (length xs + (length ys + length zs)))
              (Z.of_nat (length xs) + Z.of_nat (length source))); [lia |].
  simpl. rewrite Nat2Z.id, take_app_length.
  rewrite drop_app_add. rewrite Hlen, drop_app_length. done.
Qed.

(** The three steps of [processDownloadChunk] that build the combined
    buffer amount to appending the chunk. *)
Lemma combined_buffer (existing chunk : list byte) :
  (combined ← alloc x00 (byteLength existing + byteLength chunk);
   withExisting ← set combined existing 0%Z;
   set withExisting chunk (byteLength existing))
  = Some (existing ++ chunk).
Proof.
  rewrite alloc_Some by (pose proof (byteLength_nonneg existing);
                         pose proof (byteLength_nonneg chunk); lia).
  replace (Z.to_nat (byteLength existing + byteLength chunk))
    with (length existing + length chunk)%nat by (unfold byteLength; lia).
  rewrite repeat_app. simpl.
  assert (set (repeat x00 (length existing) ++ repeat x00 (length chunk)) existing 0%Z
          = Some (existing ++ repeat x00 (length chunk))) as ->.
  { apply (set_middle [] (repeat x00 (length existing)) _ existing).
    by rewrite repeat_length. }
  simpl.
  pose proof (set_middle existing (repeat x00 (length chunk)) [] chunk) as H2.
  rewrite !app_nil_r in H2. apply H2. by rewrite repeat_length.
Qed.

Lemma fresh_buffer (chunk : list byte) :
  (combined ← alloc x00 (0 + byteLength chunk); set combined chunk 0%Z) = Some chunk.
Proof.
  rewrite alloc_Some by (pose proof (byteLength_nonneg chunk); lia). simpl.
  replace (Z.to_nat (0 + byteLength chunk)) with (length chunk)
    by (unfold byteLength; lia).
  pose proof (set_middle [] (repeat x00 (length chunk)) [] chunk) as H.
  rewrite !app_nil_r in H. apply H. by rewrite repeat_length.
Qed.

End TypedArrayFacts.

(** ** The assembler *)

Module StreamingAssemblerFacts.
Import TypedArray TypedArrayFacts StreamingAssembler.
Local Open Scope Z_scope.

Definition sumZ (l : list Z) : Z := foldr Z.add 0 l.

Lemma sumZ_cons (x : Z) (l : list Z) : sumZ (x :: l) = x + sumZ l.
Proof. done. Qed.

Lemma sumZ_app (l k : list Z) : sumZ (l ++ k) = sumZ l + sumZ k.
Proof. induction l as [|x l IH]; simpl; lia. Qed.

(** *** Sums over, and the size of, a map of consecutive keys *)

Lemma sumValues_map_seq {A : Type} (f : A → Z) (l : list A) :
  sumValues f (map_seq 0 l) = sumZ (f <$> l).
Proof.
  induction l as [|x l IH] using rev_ind.
  - unfold sumValues. simpl. by rewrite map_fold_empty.
  - rewrite map_seq_snoc, fmap_app, sumZ_app. simpl.
    unfold sumValues in *. rewrite map_fold_insert_L.
    + rewrite IH. lia.
    + intros. lia.
    + apply lookup_map_seq_None. right. lia.
Qed.

Lemma size_map_seq {A : Type} (l : list A) :
  size (map_seq 0 l : gmap nat A) = length l.
Proof.
  induction l as [|x l IH] using rev_ind; [done |].
  rewrite map_seq_snoc, map_size_insert_None, IH, length_app; simpl; [lia |].
  apply lookup_map_seq_None. right. lia.
Qed.

Lemma insert_map_seq_0 {A : Type} (l : list A) (x : A) :
  <[length l := x]> (map_seq 0 l : gmap nat A) = map_seq 0 (l ++ [x]).
Proof. by rewrite map_seq_snoc. Qed.

Lemma omap_lookup_seq {A : Type} (m : gmap nat A) (l : list A) (start : nat) :
  (∀ i, (i < length l)%nat → m !! (start + i)%nat = l !! i) →
  omap (λ i, m !! i) (seq start (length l)) = l.
Proof.
  revert start. induction l as [|x l IH]; intros start H; [done |].
  simpl. rewrite <- (Nat.add_0_r start) at 1. rewrite (H 0%nat) by (simpl; lia).
  simpl. f_equal. apply IH. intros i Hi.
  replace (S start + i)%nat with (start + S i)%nat by lia.
  apply (H (S i)). simpl. lia.
Qed.

Lemma omap_lookup_map_seq {A : Type} (l : list A) :
  omap (λ i, (map_seq 0 l : gmap nat A) !! i) (seq 0 (length l)) = l.
Proof. apply omap_lookup_seq. intros i _. apply lookup_map_seq_0. Qed.

(** *** A functional description of the assembler

    What the assembler computes, as a function of the fragments it has
    processed: the blocks sealed so far and the fragments of the block in
    progress.  The state of the code is related to it by [Repr]. *)

Definition payload (chunks : list DownloadChunk) : list byte :=
  concat (dc_data <$> chunks).

Lemma payload_app (l k : list DownloadChunk) : payload (l ++ k) = payload l ++ payload k.
Proof. unfold payload. by rewrite fmap_app, concat_app. Qed.

Lemma payload_snoc (l : list DownloadChunk) (c : DownloadChunk) :
  payload (l ++ [c]) = payload l ++ dc_data c.
Proof. rewrite payload_app. unfold payload. simpl. by rewrite app_nil_r. Qed.

Section Reference.
Variable opts : StreamingAssemblerOptions.
Variable total : Z.

Definition sealNow (blocks : list AssemblyChunk) (cur : list DownloadChunk) : bool :=
  let size := byteLength (payload cur) in
  if (length blocks =? 0)%nat then playbackChunkSize opts <=? size
  else (storageChunkSize opts <=? size)
       || (total <=? sumZ (ac_totalSize <$> blocks) + size).

Definition seal (blocks : list AssemblyChunk) (cur : list DownloadChunk) : AssemblyChunk :=
  {| ac_storageIndex := length blocks;
     ac_downloadChunks := cur;
     ac_totalSize := byteLength (payload cur);
     ac_data := payload cur;
     ac_canStartPlayback := (length blocks =? 0)%nat |}.

Definition refStep (g : list AssemblyChunk * list DownloadChunk) (c : DownloadChunk)
    : list AssemblyChunk * list DownloadChunk :=
  let cur := g.2 ++ [c] in
  if sealNow g.1 cur then (g.1 ++ [seal g.1 cur], []) else (g.1, cur).

Definition refFinal (g : list AssemblyChunk * list DownloadChunk)
    : list AssemblyChunk * list DownloadChunk :=
  match g.2 with
  | [] => g
  | _ :: _ => (g.1 ++ [seal g.1 g.2], [])
  end.

Definition refBlocks (chunks : list DownloadChunk) : list AssemblyChunk :=
  (refFinal (foldl refStep ([], []) chunks)).1.

(** The fragments a ghost state accounts for, in order. *)
Definition processed (g : list AssemblyChunk * list DownloadChunk) : list DownloadChunk :=
  concat (ac_downloadChunks <$> g.1) ++ g.2.

Definition estimate : option Z :=
  estimatedTotalChunks (initialize (constructor opts) total).

Definition callsOf (b : AssemblyChunk) : list Callback :=
  (if ac_canStartPlayback b then [onPlaybackReady b] else [])
  ++ [onChunkAssembled b; onProgress (Z.of_nat (S (ac_storageIndex b))) estimate].

Record Repr (g : list AssemblyChunk * list DownloadChunk) (st : t) : Prop := {
  repr_options : options st = opts;
  repr_total : totalExpectedSize st = total;
  repr_assembled : assembledChunks st = map_seq 0 g.1;
  repr_next : nextStorageIndex st = length g.1;
  repr_ready : isPlaybackReady st = negb (length g.1 =? 0)%nat;
  repr_cur : currentDownloadChunks st = g.2;
  repr_size : currentAssemblySize st = byteLength (payload g.2);
  repr_buffer : currentAssemblyBuffer st
                = match g.2 with [] => None | _ :: _ => Some (payload g.2) end;
  repr_calls : calls st = flat_map callsOf g.1
}.

Lemma Repr_initialize : Repr ([], []) (initialize (constructor opts) total).
Proof. by constructor. Qed.

Lemma Repr_setDownloadChunks g st m : Repr g st → Repr g (setDownloadChunks st m).
Proof. intros []. by constructor. Qed.

Lemma Repr_estimate g st : Repr g st → estimatedTotalChunks st = estimate.
Proof.
  intros [Ho Ht _ _ _ _ _ _ _]. unfold estimate, estimatedTotalChunks. simpl.
  by rewrite Ho, Ht.
Qed.

Lemma Repr_shouldComplete g st :
  Repr g st → shouldCompleteCurrentAssembly st = sealNow g.1 g.2.
Proof.
  intros [Ho Ht Ha Hn _ _ Hs _ _].
  unfold shouldCompleteCurrentAssembly, sealNow, isLastAssemblyChunk.
  by rewrite Hn, Ho, Ht, Ha, Hs, sumValues_map_seq.
Qed.

(** Sealing the block in progress. *)
Lemma Repr_complete blocks c cur st :
  Repr (blocks, c :: cur) st →
  Repr (blocks ++ [seal blocks (c :: cur)], []) (completeCurrentAssembly st)
  ∧ downloadChunks (completeCurrentAssembly st) = downloadChunks st.
Proof.
  intros H. pose proof (Repr_estimate _ _ H) as He.
  destruct H as [Ho Ht Ha Hn Hr Hc Hs Hb Hl]. simpl in *.
  unfold completeCurrentAssembly. rewrite Hb, Hc. simpl.
  split; [| done].
  set (blk := {| ac_storageIndex := nextStorageIndex st;
                 ac_downloadChunks := c :: cur;
                 ac_totalSize := currentAssemblySize st;
                 ac_data := payload (c :: cur);
                 ac_canStartPlayback :=
                   (nextStorageIndex st =? 0)%nat && negb (isPlaybackReady st) |}).
  assert (blk = seal blocks (c :: cur)) as Hblk.
  { subst blk. unfold seal. rewrite Hn, Hs, Hr. f_equal.
    by destruct (length blocks =? 0)%nat. }
  clearbody blk. subst blk.
  constructor; simpl; try done.
  - by rewrite Ha, Hn, insert_map_seq_0.
  - rewrite length_app. simpl. lia.
  - rewrite length_app, Hr, Hn. simpl. rewrite Nat.add_1_r.
    by destruct (length blocks).
  - rewrite flat_map_app, Hl. f_equal. simpl.
    unfold callsOf, reportProgress. simpl. rewrite app_nil_r.
    rewrite Ha, Hn, insert_map_seq_0, size_map_seq, length_app. simpl.
    unfold estimatedTotalChunks in *. simpl. rewrite He, Hr, Nat.add_1_r.
    by destruct (length blocks =? 0)%nat.
Qed.

Lemma Repr_check g st :
  g.2 ≠ [] →
  Repr g st →
  Repr (if sealNow g.1 g.2 then (g.1 ++ [seal g.1 g.2], []) else g)
       (checkForAssemblyCompletion st)
  ∧ downloadChunks (checkForAssemblyCompletion st) = downloadChunks st.
Proof.
  intros Hne H. unfold checkForAssemblyCompletion.
  rewrite (Repr_shouldComplete _ _ H).
  destruct g as [blocks [|c cur]]; [done |]. simpl in *.
  rewrite (repr_buffer _ _ H). simpl.
  destruct (sealNow blocks (c :: cur)); [| done].
  by apply Repr_complete.
Qed.

(** One fragment. *)
Lemma Repr_processDownloadChunk g st c :
  Repr g st →
  ∃ st', processDownloadChunk st c = Some st'
         ∧ Repr (refStep g c) st'
         ∧ downloadChunks st' = downloadChunks st.
Proof.
  intros H. unfold processDownloadChunk.
  destruct H as [Ho Ht Ha Hn Hr Hc Hs Hb Hl].
  assert ((combined ← alloc x00 (currentAssemblySize st + byteLength (dc_data c));
           withExisting ← match currentAssemblyBuffer st with
                          | Some existing => set combined existing 0
                          | None => Some combined
                          end;
           set withExisting (dc_data c) (currentAssemblySize st))
          = Some (payload (g.2 ++ [c]))) as Hbuf.
  { rewrite Hs, Hb, payload_snoc. destruct (g.2) as [|c0 cur] eqn:Hg.
    - change (payload []) with (@nil byte).
      change (byteLength (@nil byte)) with 0.
      pose proof (fresh_buffer (dc_data c)) as Hf.
      destruct (alloc x00 (0 + byteLength (dc_data c))); simpl in *; done.
    - apply combined_buffer. }
  destruct (alloc x00 _) as [combined|]; [| done]. simpl in *.
  destruct (match currentAssemblyBuffer st with
            | Some existing => set combined existing 0
            | None => Some combined
            end) as [withExisting|]; [| done]. simpl in *.
  rewrite Hbuf. simpl.
  set (st2 := {| options := options st |}).
  assert (Repr (g.1, g.2 ++ [c]) st2) as H2.
  { constructor; simpl; try done.
    - by rewrite Hc.
    - rewrite Hs, payload_snoc, byteLength_app. done.
    - destruct (g.2 ++ [c]) eqn:E; [by destruct (g.2) | done]. }
  eexists. split; [done |].
  assert ((g.1, g.2 ++ [c]).2 ≠ []) as Hne by (simpl; by destruct (g.2)).
  pose proof (Repr_check _ _ Hne H2) as [H3 H4].
  split; [| by rewrite H4].
  unfold refStep. simpl in H3. done.
Qed.

Lemma Repr_finalize g st :
  Repr g st → Repr (refFinal g) (finalize st)
              ∧ downloadChunks (finalize st) = downloadChunks st.
Proof.
  intros H. unfold finalize, refFinal.
  rewrite (repr_buffer _ _ H), (repr_cur _ _ H).
  destruct g as [blocks [|c cur]]; simpl; [done |].
  by apply Repr_complete.
Qed.

(** The loop of [processAvailableChunks], whatever the pending chunks. *)
Lemma Repr_processLoop pending g st nextIndex :
  Repr g st →
  ∃ st' processedNow, processLoop pending st nextIndex = Some st'
                      ∧ Repr (foldl refStep g processedNow) st'.
Proof.
  revert g st nextIndex. induction pending as [|n IH]; intros g st i H.
  - exists st, []. done.
  - simpl. destruct (downloadChunks st !! i) as [chunk|].
    + destruct (Repr_processDownloadChunk g st chunk H) as (st1 & -> & H1 & _).
      simpl.
      destruct (IH (refStep g chunk)
                   (setDownloadChunks st1 (delete i (downloadChunks st1))) (S i)
                   (Repr_setDownloadChunks _ _ _ H1)) as (st' & cs & Hl & H').
      exists st', (chunk :: cs). done.
    + exists st, []. done.
Qed.

Lemma Repr_addDownloadChunk g st c :
  Repr g st →
  ∃ st' processedNow, addDownloadChunk st c = Some st'
                      ∧ Repr (foldl refStep g processedNow) st'.
Proof.
  intros H. unfold addDownloadChunk, processAvailableChunks.
  apply Repr_processLoop. by apply Repr_setDownloadChunks.
Qed.

Lemma length_processed_sum (blocks : list AssemblyChunk) :
  sumZ ((λ c, Z.of_nat (length (ac_downloadChunks c))) <$> blocks)
  = Z.of_nat (length (concat (ac_downloadChunks <$> blocks))).
Proof.
  induction blocks as [|b blocks IH]; [done |].
  rewrite !fmap_cons, sumZ_cons, IH, concat_cons, length_app. lia.
Qed.

Lemma Repr_getNextSequentialIndex g st :
  Repr g st → getNextSequentialIndex st = length (processed g).
Proof.
  intros [_ _ Ha _ _ Hc _ _ _]. unfold getNextSequentialIndex, processed.
  rewrite Ha, Hc, sumValues_map_seq, length_processed_sum, length_app. lia.
Qed.

(** A fragment that arrives when nothing is pending and carries the next
    index is processed at once, and nothing stays pending. *)
Lemma Repr_addDownloadChunk_next g st c :
  Repr g st →
  downloadChunks st = ∅ →
  dc_index c = length (processed g) →
  ∃ st', addDownloadChunk st c = Some st'
         ∧ Repr (refStep g c) st'
         ∧ downloadChunks st' = ∅.
Proof.
  intros H Hempty Hidx. unfold addDownloadChunk, processAvailableChunks.
  set (st0 := setDownloadChunks st _).
  assert (Repr g st0) as H0 by (by apply Repr_setDownloadChunks).
  rewrite (Repr_getNextSequentialIndex _ _ H0), <- Hidx.
  assert (downloadChunks st0 = {[dc_index c := c]}) as Hm.
  { subst st0. simpl. by rewrite Hempty, insert_empty. }
  rewrite Hm, map_size_singleton. simpl.
  rewrite lookup_insert_eq.
  destruct (Repr_processDownloadChunk g st0 c H0) as (st1 & -> & H1 & Hd).
  simpl. eexists. split; [done |]. split.
  - by apply Repr_setDownloadChunks.
  - simpl. by rewrite Hd, Hm, delete_singleton_eq.
Qed.

(** *** Properties of the functional description *)

Lemma processed_refStep g c : processed (refStep g c) = processed g ++ [c].
Proof.
  unfold refStep, processed. destruct (sealNow _ _); simpl.
  - by rewrite fmap_app, concat_app, app_nil_r, <- app_assoc; simpl;
      rewrite app_nil_r.
  - by rewrite app_assoc.
Qed.

Lemma processed_foldl g cs : processed (foldl refStep g cs) = processed g ++ cs.
Proof.
  revert g. induction cs as [|c cs IH]; intros g; simpl.
  - by rewrite app_nil_r.
  - by rewrite IH, processed_refStep, <- app_assoc.
Qed.

Lemma processed_refFinal g : processed (refFinal g) = processed g.
Proof.
  unfold refFinal, processed. destruct g as [blocks [|c cur]]; simpl; [done |].
  by rewrite fmap_app, concat_app, app_nil_r; simpl; rewrite app_nil_r.
Qed.

Lemma refFinal_pending g : (refFinal g).2 = [].
Proof. unfold refFinal. by destruct g as [blocks [|c cur]]. Qed.

(** Every sealed block is [seal] of the blocks before it and of its own
    fragments, of which it has at least one. *)
Definition Sealed (blocks : list AssemblyChunk) : Prop :=
  ∀ i b, blocks !! i = Some b →
         b = seal (take i blocks) (ac_downloadChunks b) ∧ ac_downloadChunks b ≠ [].

Lemma Sealed_nil : Sealed [].
Proof. intros i b. by rewrite lookup_nil. Qed.

Lemma Sealed_snoc blocks cur :
  cur ≠ [] → Sealed blocks → Sealed (blocks ++ [seal blocks cur]).
Proof.
  intros Hne H i b Hi.
  destruct (decide (i < length blocks)%nat) as [Hlt|Hge].
  - rewrite lookup_app_l in Hi by done.
    rewrite take_app_le by lia. by apply H.
  - rewrite lookup_app_r in Hi by lia.
    destruct (i - length blocks)%nat eqn:E; simpl in Hi; [| by destruct n].
    injection Hi as <-. assert (i = length blocks) as -> by lia.
    by rewrite take_app_length.
Qed.

Lemma Sealed_refStep g c : Sealed g.1 → Sealed (refStep g c).1.
Proof.
  intros H. unfold refStep. destruct (sealNow _ _); simpl; [| done].
  apply Sealed_snoc; [by destruct (g.2) | done].
Qed.

Lemma Sealed_foldl g cs : Sealed g.1 → Sealed (foldl refStep g cs).1.
Proof.
  revert g. induction cs as [|c cs IH]; intros g H; simpl; [done |].
  by apply IH, Sealed_refStep.
Qed.

Lemma Sealed_refFinal g : Sealed g.1 → Sealed (refFinal g).1.
Proof.
  intros H. unfold refFinal. destruct g as [blocks [|c cur]]; simpl in *; [done |].
  by apply Sealed_snoc.
Qed.

Lemma Sealed_storageIndex blocks :
  Sealed blocks → ac_storageIndex <$> blocks = seq 0 (length blocks).
Proof.
  intros H. apply list_eq. intros i. rewrite list_lookup_fmap.
  destruct (blocks !! i) as [b|] eqn:Hb; simpl.
  - destruct (H i b Hb) as [-> _]. simpl.
    pose proof (lookup_lt_Some _ _ _ Hb).
    rewrite length_take_le by lia. symmetry. by apply lookup_seq.
  - symmetry. apply lookup_ge_None. rewrite length_seq.
    by apply lookup_ge_None.
Qed.

Lemma Sealed_canStartPlayback blocks :
  Sealed blocks →
  ac_canStartPlayback <$> blocks
  = match blocks with [] => [] | _ :: rest => true :: ((λ _, false) <$> rest) end.
Proof.
  intros H. destruct blocks as [|b0 rest]; [done |].
  simpl. f_equal.
  - by destruct (H 0%nat b0 eq_refl) as [-> _].
  - apply list_eq. intros i. rewrite !list_lookup_fmap.
    destruct (rest !! i) as [b|] eqn:Hb; simpl; [| done].
    by destruct (H (S i) b Hb) as [-> _].
Qed.

Lemma Sealed_data blocks :
  Sealed blocks →
  concat (ac_data <$> blocks) = payload (concat (ac_downloadChunks <$> blocks)).
Proof.
  intros H. induction blocks as [|b blocks IH] using rev_ind; [done |].
  rewrite !fmap_app, !concat_app, payload_app. simpl. rewrite !app_nil_r.
  f_equal.
  - apply IH. intros i b' Hi. pose proof (lookup_lt_Some _ _ _ Hi).
    destruct (H i b') as [Hb ?]; [by rewrite lookup_app_l |].
    by rewrite take_app_le in Hb by lia.
  - destruct (H (length blocks) b) as [-> _]; [| done].
    rewrite lookup_app_r by lia. by rewrite Nat.sub_diag.
Qed.

Lemma Sealed_totalSize blocks :
  Sealed blocks → Forall (λ b, ac_totalSize b = byteLength (ac_data b)) blocks.
Proof.
  intros H. apply Forall_lookup. intros i b Hb.
  by destruct (H i b Hb) as [-> _].
Qed.

(** *** What the state shows of a run *)

Lemma Repr_getAssembledChunks g st : Repr g st → getAssembledChunks st = g.1.
Proof.
  intros [_ _ Ha Hn _ _ _ _ _]. unfold getAssembledChunks.
  rewrite Ha, Hn. apply omap_lookup_map_seq.
Qed.

Lemma Repr_emitted g st : Repr g st → emitted st = g.1.
Proof.
  intros [_ _ _ _ _ _ _ _ Hl]. unfold emitted. rewrite Hl. clear Hl.
  induction (g.1) as [|b blocks IH]; [done |].
  simpl. rewrite omap_app, IH. unfold callsOf.
  by destruct (ac_canStartPlayback b).
Qed.

Lemma Repr_playbackReadyCalls g st :
  Repr g st → playbackReadyCalls st = filter (λ b, ac_canStartPlayback b = true) g.1.
Proof.
  intros [_ _ _ _ _ _ _ _ Hl]. unfold playbackReadyCalls. rewrite Hl. clear Hl.
  induction (g.1) as [|b blocks IH]; [done |].
  simpl. rewrite omap_app, IH. unfold callsOf.
  rewrite filter_cons. by destruct (ac_canStartPlayback b).
Qed.

Lemma Sealed_playbackReady blocks :
  Sealed blocks → filter (λ b, ac_canStartPlayback b = true) blocks = take 1 blocks.
Proof.
  intros H. pose proof (Sealed_canStartPlayback _ H) as Hc.
  destruct blocks as [|b0 rest]; [done |].
  simpl in Hc. injection Hc as H0 Hrest.
  rewrite filter_cons_True by done. simpl. f_equal.
  clear H H0. induction rest as [|b rest IH]; [done |].
  simpl in Hrest. injection Hrest as Hb Hrest.
  rewrite filter_cons_False by (by rewrite Hb). by apply IH.
Qed.

(** *** Fragments supplied in order *)

Lemma Repr_addAll_in_order frags g st :
  Repr g st →
  downloadChunks st = ∅ →
  dc_index <$> frags = seq (length (processed g)) (length frags) →
  ∃ st', addAll st frags = Some st'
         ∧ Repr (foldl refStep g frags) st'
         ∧ downloadChunks st' = ∅.
Proof.
  revert g st. induction frags as [|c frags IH]; intros g st H Hempty Hidx.
  - exists st. done.
  - simpl in Hidx. injection Hidx as Hc Hrest.
    destruct (Repr_addDownloadChunk_next g st c H Hempty Hc) as (st1 & Hadd & H1 & He1).
    simpl. rewrite Hadd. simpl. apply IH; [done | done |].
    rewrite processed_refStep, length_app. simpl.
    by rewrite Nat.add_1_r.
Qed.

Lemma assemble_in_order frags :
  dc_index <$> frags = seq 0 (length frags) →
  ∃ st, assemble opts total frags = Some st
        ∧ Repr (refBlocks frags, []) st
        ∧ downloadChunks st = ∅.
Proof.
  intros Hidx.
  destruct (Repr_addAll_in_order frags ([], []) _ Repr_initialize eq_refl Hidx)
    as (st & Hadd & H & Hempty).
  unfold assemble. rewrite Hadd. simpl. eexists. split; [done |].
  destruct (Repr_finalize _ _ H) as [Hf Hd]. split; [| by rewrite Hd].
  unfold refBlocks.
  pose proof (refFinal_pending (foldl refStep ([], []) frags)) as Hp.
  destruct (refFinal _) as [blocks cur]. simpl in *. by subst cur.
Qed.

Lemma processed_refBlocks frags :
  concat (ac_downloadChunks <$> refBlocks frags) = frags.
Proof.
  unfold refBlocks.
  pose proof (processed_refFinal (foldl refStep ([], []) frags)) as H.
  rewrite processed_foldl in H. unfold processed in H at 1.
  by rewrite refFinal_pending, app_nil_r in H.
Qed.

Lemma Sealed_refBlocks frags : Sealed (refBlocks frags).
Proof. apply Sealed_refFinal, Sealed_foldl, Sealed_nil. Qed.

(** *** Any sequence of calls *)

Inductive Operation :=
| AddDownloadChunk (chunk : DownloadChunk)
| Finalize.

Definition perform (st : t) (op : Operation) : option t :=
  match op with
  | AddDownloadChunk chunk => addDownloadChunk st chunk
  | Finalize => Some (finalize st)
  end.

Fixpoint performAll (st : t) (ops : list Operation) : option t :=
  match ops with
  | [] => Some st
  | op :: rest => st1 ← perform st op; performAll st1 rest
  end.

Lemma Repr_performAll ops g st :
  Repr g st → Sealed g.1 →
  ∃ st' g', performAll st ops = Some st' ∧ Repr g' st' ∧ Sealed g'.1.
Proof.
  revert g st. induction ops as [|op ops IH]; intros g st H Hs.
  - exists st, g. done.
  - destruct op as [c|]; simpl.
    + destruct (Repr_addDownloadChunk g st c H) as (st1 & cs & -> & H1).
      simpl. apply (IH _ _ H1). by apply Sealed_foldl.
    + destruct (Repr_finalize _ _ H) as [Hf _].
      apply (IH _ _ Hf). by apply Sealed_refFinal.
Qed.

(** *** Block sizes from fragment sizes *)

Definition sizeStep (s : list Z * option Z) (n : Z) : list Z * option Z :=
  let size := default 0 s.2 + n in
  let sealNow :=
    if (length s.1 =? 0)%nat then playbackChunkSize opts <=? size
    else (storageChunkSize opts <=? size) || (total <=? sumZ s.1 + size) in
  if sealNow then (s.1 ++ [size], None) else (s.1, Some size).

Definition sizeFinal (s : list Z * option Z) : list Z :=
  match s.2 with
  | Some size => s.1 ++ [size]
  | None => s.1
  end.

Definition blockSizes (sizes : list Z) : list Z :=
  sizeFinal (foldl sizeStep ([], None) sizes).

Definition sizesOf (g : list AssemblyChunk * list DownloadChunk) : list Z * option Z :=
  (ac_totalSize <$> g.1,
   match g.2 with [] => None | _ :: _ => Some (byteLength (payload g.2)) end).

Lemma sizesOf_refStep g c :
  sizesOf (refStep g c) = sizeStep (sizesOf g) (byteLength (dc_data c)).
Proof.
  unfold refStep, sizeStep, sizesOf, sealNow. simpl.
  rewrite length_fmap, payload_snoc, byteLength_app.
  assert (default 0 (match g.2 with
                     | [] => None
                     | _ :: _ => Some (byteLength (payload g.2))
                     end) = byteLength (payload g.2)) as -> by (by destruct (g.2)).
  match goal with |- context [if ?b then (_ ++ _, _) else _] => destruct b end; simpl.
  - by rewrite fmap_app; simpl; rewrite payload_snoc, byteLength_app.
  - rewrite payload_snoc, byteLength_app. by destruct (g.2).
Qed.

Lemma sizesOf_foldl g cs :
  sizesOf (foldl refStep g cs)
  = foldl sizeStep (sizesOf g) ((λ c, byteLength (dc_data c)) <$> cs).
Proof.
  revert g. induction cs as [|c cs IH]; intros g; [done |].
  simpl. by rewrite IH, sizesOf_refStep.
Qed.

Lemma sizes_refBlocks frags :
  ac_totalSize <$> refBlocks frags
  = blockSizes ((λ c, byteLength (dc_data c)) <$> frags).
Proof.
  unfold refBlocks, blockSizes.
  change (@nil Z, @None Z) with (sizesOf ([], [])).
  rewrite <- (sizesOf_foldl ([], []) frags).
  destruct (foldl refStep ([], []) frags) as [blocks [|c cur]]; [done |].
  unfold refFinal, sizeFinal, sizesOf. simpl. by rewrite fmap_app.
Qed.

(** Sealed blocks are only ever added to. *)
Lemma refStep_prefix g c : g.1 `prefix_of` (refStep g c).1.
Proof.
  unfold refStep. destruct (sealNow _ _); simpl; [| done].
  by apply prefix_app_r.
Qed.

Lemma foldl_refStep_prefix g cs : g.1 `prefix_of` (foldl refStep g cs).1.
Proof.
  revert g. induction cs as [|c cs IH]; intros g; simpl; [done |].
  etrans; [apply refStep_prefix | apply IH].
Qed.

Lemma refFinal_prefix g : g.1 `prefix_of` (refFinal g).1.
Proof.
  unfold refFinal. destruct g as [blocks [|c cur]]; simpl; [done |].
  by apply prefix_app_r.
Qed.

Lemma Repr_performAll_prefix ops g st :
  Repr g st → Sealed g.1 →
  ∃ st' g', performAll st ops = Some st' ∧ Repr g' st' ∧ Sealed g'.1
            ∧ g.1 `prefix_of` g'.1.
Proof.
  revert g st. induction ops as [|op ops IH]; intros g st H Hs.
  - exists st, g. done.
  - destruct op as [c|]; simpl.
    + destruct (Repr_addDownloadChunk g st c H) as (st1 & cs & -> & H1).
      simpl.
      destruct (IH _ _ H1 (Sealed_foldl _ cs Hs)) as (st' & g' & ? & ? & ? & Hp).
      exists st', g'. split_and!; try done.
      etrans; [apply (foldl_refStep_prefix g cs) | done].
    + destruct (Repr_finalize _ _ H) as [Hf _].
      destruct (IH _ _ Hf (Sealed_refFinal _ Hs)) as (st' & g' & ? & ? & ? & Hp).
      exists st', g'. split_and!; try done.
      etrans; [apply refFinal_prefix | done].
Qed.

(** [onPlaybackReady] is the first call of a run that has sealed a
    block, it is made for block 0, and no later call of the run repeats
    it. *)
Lemma playbackReady_first g st b0 rest :
  Repr g st → Sealed g.1 → g.1 = b0 :: rest →
  ∃ later, calls st = onPlaybackReady b0 :: onChunkAssembled b0 :: later.
Proof.
  intros H Hs Hg. rewrite (repr_calls _ _ H), Hg. simpl.
  pose proof (Sealed_canStartPlayback _ Hs) as Hc. rewrite Hg in Hc.
  simpl in Hc. injection Hc as Hc _. unfold callsOf at 1. rewrite Hc. simpl.
  eauto.
Qed.

Lemma playbackReady_once g st b0 rest ops st' :
  Repr g st → Sealed g.1 → g.1 = b0 :: rest →
  performAll st ops = Some st' →
  playbackReadyCalls st' = [b0].
Proof.
  intros H Hs Hg Hrun.
  destruct (Repr_performAll_prefix ops g st H Hs) as (st'' & g' & Hrun' & H' & Hs' & Hp).
  rewrite Hrun in Hrun'. injection Hrun' as <-.
  rewrite (Repr_playbackReadyCalls _ _ H'), Sealed_playbackReady by done.
  destruct Hp as [k Hk]. rewrite Hk, Hg. done.
Qed.

End Reference.

(** *** The claims about the assembler *)

Definition fragment (i : nat) (bytes : list byte) : DownloadChunk :=
  {| dc_index := i; dc_start := 0; dc_end := 0; dc_data := bytes |}.

(** The sizes WebAudioManager configures the assembler with. *)
Definition managerOptions : StreamingAssemblerOptions :=
  {| storageChunkSize := 2 * 1024 * 1024; playbackChunkSize := 384 * 1024 |}.

(** C1, as amended: when the fragments carry the indices 0, 1, ...,
    n-1 and are supplied in that order, [assemble] returns, nothing is
    left pending or unflushed, the blocks handed to [onChunkAssembled] are
    the blocks [getAssembledChunks] returns, their storage indices are 0,
    1, ..., and their payloads concatenated in that order are the
    payloads of the fragments concatenated: the bytes of the download.
    This holds for every declared total size and every pair of chunk
    sizes. *)
Theorem assemble_roundtrip (opts : StreamingAssemblerOptions) (total : Z)
    (frags : list DownloadChunk) :
  dc_index <$> frags = seq 0 (length frags) →
  ∃ st, assemble opts total frags = Some st
        ∧ concat (ac_data <$> getAssembledChunks st) = payload frags
        ∧ ac_storageIndex <$> getAssembledChunks st
          = seq 0 (length (getAssembledChunks st))
        ∧ emitted st = getAssembledChunks st
        ∧ currentAssemblyBuffer st = None
        ∧ downloadChunks st = ∅.
Proof.
  intros Hidx.
  destruct (assemble_in_order opts total frags Hidx) as (st & Hrun & H & Hempty).
  exists st. rewrite (Repr_getAssembledChunks _ _ _ _ H), (Repr_emitted _ _ _ _ H).
  simpl. split_and!; try done.
  - rewrite Sealed_data by apply Sealed_refBlocks.
    by rewrite processed_refBlocks.
  - apply Sealed_storageIndex, Sealed_refBlocks.
  - by rewrite (repr_buffer _ _ _ _ H).
Qed.

Lemma assemble_roundtrip_witness :
  let frags := [fragment 0 [x01; x02]; fragment 1 [x03]; fragment 2 [x04; x05; x06]] in
  dc_index <$> frags = seq 0 (length frags)
  ∧ ∃ st, assemble {| storageChunkSize := 3; playbackChunkSize := 2 |} 6 frags = Some st
          ∧ concat (ac_data <$> getAssembledChunks st) = payload frags
          ∧ ac_storageIndex <$> getAssembledChunks st
            = seq 0 (length (getAssembledChunks st))
          ∧ emitted st = getAssembledChunks st
          ∧ currentAssemblyBuffer st = None
          ∧ downloadChunks st = ∅.
Proof.
  split; [reflexivity |].
  apply (assemble_roundtrip {| storageChunkSize := 3; playbackChunkSize := 2 |} 6
           [fragment 0 [x01; x02]; fragment 1 [x03]; fragment 2 [x04; x05; x06]]).
  reflexivity.
Defined.

(** C1 as stated fails: indices 0 and 2 are strictly increasing and the
    payloads add up to the declared total, yet fragment 2 waits for a
    fragment 1 that never comes; [finalize] flushes fragment 0 alone. *)
Lemma assemble_gap_loses_bytes :
  let frags := [fragment 0 [x01]; fragment 2 [x02]] in
  Sorted lt (dc_index <$> frags)
  ∧ sumZ ((λ c, byteLength (dc_data c)) <$> frags) = 2
  ∧ ∃ st, assemble managerOptions 2 frags = Some st
          ∧ concat (ac_data <$> getAssembledChunks st) = [x01]
          ∧ concat (ac_data <$> getAssembledChunks st) ≠ payload frags.
Proof.
  split; [repeat constructor |]. split; [reflexivity |].
  eexists. split; [vm_compute; reflexivity |]. split; [reflexivity |].
  vm_compute. discriminate.
Qed.

(** C7, as amended: in every state reached from [initialize] by calls
    of [addDownloadChunk] and [finalize] (none of which throws), the
    assembler still holds every block it has sealed: [getAssembledChunks]
    returns the blocks handed to [onChunkAssembled], all of them and in
    order, and each is found in [assembledChunks] under its storage
    index.  Only the accumulator of the block in progress is reset by a
    seal; the sealed blocks go when [cleanup] is called. *)
Theorem sealed_blocks_are_retained (opts : StreamingAssemblerOptions) (total : Z)
    (ops : list Operation) :
  ∃ st, performAll (initialize (constructor opts) total) ops = Some st
        ∧ getAssembledChunks st = emitted st
        ∧ (∀ b, b ∈ emitted st → assembledChunks st !! ac_storageIndex b = Some b)
        ∧ (currentAssemblyBuffer st = None →
           currentDownloadChunks st = [] ∧ currentAssemblySize st = 0)
        ∧ getAssembledChunks (cleanup st) = [].
Proof.
  destruct (Repr_performAll opts total ops ([], []) _
              (Repr_initialize opts total) Sealed_nil)
    as (st & g & Hrun & H & Hs).
  exists st. rewrite (Repr_getAssembledChunks _ _ _ _ H), (Repr_emitted _ _ _ _ H).
  split_and!; try done.
  - intros b Hb. apply list_elem_of_lookup in Hb as [i Hi].
    destruct (Hs i b Hi) as [Heq _]. rewrite Heq at 1. simpl.
    pose proof (lookup_lt_Some _ _ _ Hi).
    rewrite length_take_le by lia.
    by rewrite (repr_assembled _ _ _ _ H), lookup_map_seq_0.
  - intros Hnone. rewrite (repr_buffer _ _ _ _ H) in Hnone.
    rewrite (repr_cur _ _ _ _ H), (repr_size _ _ _ _ H).
    by destruct (g.2).
  - unfold getAssembledChunks, cleanup. simpl.
    induction (seq 0 (nextStorageIndex st)) as [|i l IH]; [done |].
    simpl. by rewrite lookup_empty.
Qed.

(** C7 as stated fails: after two blocks have been sealed, block 0 is
    still in [assembledChunks], payload and all. *)
Lemma sealed_block_still_held :
  let frags := [fragment 0 [x01; x02]; fragment 1 [x03; x04; x05]] in
  ∃ st b0, performAll (initialize (constructor {| storageChunkSize := 3;
                                                  playbackChunkSize := 2 |}) 5)
                      (AddDownloadChunk <$> frags) = Some st
           ∧ nextStorageIndex st = 2%nat
           ∧ currentAssemblyBuffer st = None
           ∧ assembledChunks st !! 0%nat = Some b0
           ∧ ac_data b0 = [x01; x02].
Proof. do 2 eexists. split; [vm_compute; reflexivity |]. done. Qed.

End StreamingAssemblerFacts.

(** ** The download plan, and scenario A *)

Module DownloadManagerFacts.
Import TypedArray TypedArrayFacts StreamingAssembler StreamingAssemblerFacts DownloadManager.
Local Open Scope Z_scope.

(** *** The adapted size in whole bytes *)

Lemma whole_inject_Z (size : Z) : wholeNumber (inject_Z size) = Some size.
Proof.
  unfold wholeNumber. rewrite Qfloor_Z.
  by replace (Qeq_bool (inject_Z size) (inject_Z size)) with true
    by (symmetry; by apply Qeq_bool_iff).
Qed.

Lemma Qfloor_half (size : Z) : Qfloor (inject_Z size / 2) = size / 2.
Proof. unfold Qfloor, Qdiv, Qmult, Qinv, inject_Z. simpl. f_equal. lia. Qed.

Lemma half_whole (size : Z) :
  Qeq_bool (inject_Z (size / 2)) (inject_Z size / 2) = Z.even size.
Proof.
  unfold Qeq_bool, Qdiv, Qmult, Qinv, inject_Z. simpl.
  rewrite Z.mul_1_r. destruct (Z.even size) eqn:Heven.
  - apply Z.even_spec in Heven as [k ->]. apply Z.eqb_eq.
    rewrite (Z.mul_comm 2 k), Z.div_mul; lia.
  - apply Z.eqb_neq. intros Hhalf.
    assert (Z.even size = true); [| congruence].
    apply Z.even_spec. exists (size / 2). lia.
Qed.

Lemma half_below_floor (size : Z) :
  Qle_bool (inject_Z size / 2) (inject_Z (64 * 1024)) = (size <=? 128 * 1024).
Proof.
  unfold Qle_bool, Qdiv, Qmult, Qinv, inject_Z. simpl.
  apply eq_iff_eq_true. rewrite !Z.leb_le. lia.
Qed.

Lemma double_below_cap (size cap : Z) :
  Qle_bool (inject_Z size * 2) (inject_Z cap) = (size * 2 <=? cap).
Proof.
  unfold Qle_bool, Qmult, inject_Z. simpl.
  apply eq_iff_eq_true. rewrite !Z.leb_le. lia.
Qed.

(** The size the loop computes, branch by branch.  It is a whole number
    of bytes on every branch but one: an odd standard size above 128 KB,
    halved on a slow connection. *)
Lemma adaptedChunkSize_whole (strategy : DownloadStrategy) (speed : Q) (ios : bool) :
  adaptedChunkSize strategy speed ios
  = let chunkSize := standardChunkSize strategy in
    if adaptiveChunkSizing strategy && Qltb 0 speed then
      if Qltb (inject_Z (5 * 1024 * 1024)) speed then
        Some (Z.min (chunkSize * 2) (if ios then 512 * 1024 else 1024 * 1024))
      else if Qltb speed (inject_Z (1024 * 1024)) then
        if chunkSize <=? 128 * 1024 then Some (64 * 1024)
        else if Z.even chunkSize then Some (chunkSize / 2)
        else None
      else Some chunkSize
    else Some chunkSize.
Proof.
  unfold adaptedChunkSize, adaptedSize. cbv zeta.
  destruct (adaptiveChunkSizing strategy && Qltb 0 speed);
    [| apply whole_inject_Z].
  destruct (Qltb (inject_Z (5 * 1024 * 1024)) speed).
  { unfold mathMin. rewrite double_below_cap.
    destruct (Z.leb_spec (standardChunkSize strategy * 2)
                (if ios then 512 * 1024 else 1024 * 1024)) as [Hle | Hgt].
    - rewrite Z.min_l by done.
      replace (inject_Z (standardChunkSize strategy) * 2)%Q
        with (inject_Z (standardChunkSize strategy * 2)).
      + apply whole_inject_Z.
      + unfold Qmult, inject_Z. simpl. done.
    - rewrite Z.min_r by lia. apply whole_inject_Z. }
  destruct (Qltb speed (inject_Z (1024 * 1024))); [| apply whole_inject_Z].
  unfold mathMax. rewrite half_below_floor.
  destruct (standardChunkSize strategy <=? 128 * 1024); [apply whole_inject_Z |].
  unfold wholeNumber. rewrite Qfloor_half, half_whole. by destruct (Z.even _).
Qed.

(** A whole adapted size cut to the rest of the file. *)
Lemma wholeNumber_cut (size : Q) (adapted remaining : Z) :
  wholeNumber size = Some adapted →
  wholeNumber (mathMin size (inject_Z remaining)) = Some (Z.min adapted remaining).
Proof.
  unfold wholeNumber. destruct (Qeq_bool _ size) eqn:Hwhole; [| done].
  intros [= <-]. apply Qeq_bool_iff in Hwhole.
  unfold mathMin. destruct (Qle_bool size (inject_Z remaining)) eqn:Hle.
  - apply Qle_bool_iff in Hle. rewrite <- Hwhole in Hle. rewrite <- Zle_Qle in Hle.
    rewrite Z.min_l by done.
    by replace (Qeq_bool (inject_Z (Qfloor size)) size) with true
      by (symmetry; by apply Qeq_bool_iff).
  - assert (remaining < Qfloor size).
    { apply Z.lt_nge. intros Hge. rewrite Zle_Qle, Hwhole in Hge.
      apply Qle_bool_iff in Hge. congruence. }
    rewrite Z.min_r by lia. apply whole_inject_Z.
Qed.

(** One turn of the loop with a whole adapted size. *)
Lemma subsequentChunks_turn fuel strategy speed ios totalSize offset chunkIndex adapted :
  adaptedChunkSize strategy speed ios = Some adapted →
  subsequentChunks (S fuel) strategy speed ios totalSize offset chunkIndex
  = if offset <? totalSize then
      let chunkSize := Z.min adapted (totalSize - offset) in
      rest ← subsequentChunks fuel strategy speed ios totalSize
                              (offset + chunkSize) (S chunkIndex);
      Some ({| ci_index := chunkIndex; ci_start := offset;
               ci_end := offset + chunkSize - 1 |} :: rest)
    else Some [].
Proof.
  intros Hadapted. cbn [subsequentChunks].
  by rewrite (wholeNumber_cut _ adapted) by done.
Qed.

(** Without adaptive sizing it is the standard size. *)
Lemma adaptedChunkSize_unadapted (strategy : DownloadStrategy) (speed : Q) (ios : bool) :
  adaptiveChunkSizing strategy = false →
  adaptedChunkSize strategy speed ios = Some (standardChunkSize strategy).
Proof. intros Hoff. rewrite adaptedChunkSize_whole. cbv zeta. by rewrite Hoff. Qed.

(** *** The plan *)

(** The plan depends on the bandwidth estimate only through the adapted
    chunk size. *)
Lemma subsequentChunks_adapted fuel strategy speed1 ios1 speed2 ios2
    totalSize offset chunkIndex :
  adaptedSize strategy speed1 ios1 = adaptedSize strategy speed2 ios2 →
  subsequentChunks fuel strategy speed1 ios1 totalSize offset chunkIndex
  = subsequentChunks fuel strategy speed2 ios2 totalSize offset chunkIndex.
Proof.
  intros Hsame. revert offset chunkIndex.
  induction fuel as [|fuel IH]; intros offset chunkIndex; [done |].
  cbn [subsequentChunks]. rewrite Hsame. destruct (offset <? totalSize); [| done].
  destruct (wholeNumber _); [| done]. simpl.
  by rewrite IH.
Qed.

Lemma calculateDownloadChunks_adapted strategy speed1 ios1 speed2 ios2 totalSize :
  adaptedSize strategy speed1 ios1 = adaptedSize strategy speed2 ios2 →
  calculateDownloadChunks totalSize strategy speed1 ios1
  = calculateDownloadChunks totalSize strategy speed2 ios2.
Proof.
  intros Hsame. unfold calculateDownloadChunks.
  by rewrite !(subsequentChunks_adapted _ _ speed1 ios1 speed2 ios2).
Qed.

(** The download strategy WebAudioManager hands to the DownloadManager,
    which is also the DownloadManager's own default off iOS. *)
Definition managerStrategy : DownloadStrategy :=
  {| initialChunkSize := 256 * 1024;
     standardChunkSize := 512 * 1024;
     maxConcurrentDownloads := 4;
     priorityFirstChunk := true;
     adaptiveChunkSizing := true |}.

(** With it a subsequent chunk is 512 KB, 1 MB on a fast connection off
    iOS, 256 KB on a slow one. *)
Lemma adaptedSize_manager (speed : Q) (ios : bool) :
  adaptedSize managerStrategy speed ios
    = adaptedSize managerStrategy 0 false
  ∨ adaptedSize managerStrategy speed ios
    = adaptedSize managerStrategy (inject_Z (6 * 1024 * 1024)) false
  ∨ adaptedSize managerStrategy speed ios
    = adaptedSize managerStrategy 1 false.
Proof.
  unfold adaptedSize.
  change (adaptiveChunkSizing managerStrategy) with true. cbn [andb].
  destruct (Qltb 0 speed); [| by left].
  destruct (Qltb (inject_Z (5 * 1024 * 1024)) speed).
  { destruct ios; [by left | by right; left]. }
  destruct (Qltb speed (inject_Z (1024 * 1024))); [by right; right | by left].
Qed.

(** An odd standard size on a slow connection: up to 128 KB the floor of
    64 KB takes over, above it the half is not a whole number. *)
Definition oddStrategy (size : Z) : DownloadStrategy :=
  {| initialChunkSize := 1000;
     standardChunkSize := size;
     maxConcurrentDownloads := 4;
     priorityFirstChunk := true;
     adaptiveChunkSizing := true |}.

Example adaptedChunkSize_odd_small :
  adaptedChunkSize (oddStrategy 1001) 1 false = Some 65536.
Proof. reflexivity. Qed.

Example adaptedChunkSize_odd_large :
  Qeq_bool (adaptedSize (oddStrategy 150001) 1 false) (150001 # 2) = true
  ∧ adaptedChunkSize (oddStrategy 150001) 1 false = None.
Proof. split; reflexivity. Qed.

(** The half of an odd size does no harm when the rest of the file is
    smaller: the chunk is cut to the rest.  Otherwise the second range
    would end at byte 76000.5 - 1. *)
Example calculateDownloadChunks_odd_large :
  calculateDownloadChunks 1010 (oddStrategy 150001) 1 false
  = Some [ {| ci_index := 0; ci_start := 0; ci_end := 999 |};
           {| ci_index := 1; ci_start := 1000; ci_end := 1009 |} ]
  ∧ calculateDownloadChunks 80000 (oddStrategy 150001) 1 false = None.
Proof. split; by vm_compute. Qed.

(** *** A plan that tiles the file *)

Fixpoint tiles (offset : Z) (plan : list ChunkInfo) (totalSize : Z) : bool :=
  match plan with
  | [] => offset =? totalSize
  | info :: rest =>
    (0 <=? offset) && (ci_start info =? offset) && (offset <=? ci_end info + 1)
    && (ci_end info <? totalSize) && tiles (ci_end info + 1) rest totalSize
  end.

Definition planSizes (plan : list ChunkInfo) : list Z :=
  (λ info, ci_end info - ci_start info + 1) <$> plan.

Lemma tiles_sizes file plan offset :
  tiles offset plan (byteLength file) = true →
  (λ c, byteLength (dc_data c)) <$> (downloadChunk file <$> plan) = planSizes plan.
Proof.
  revert offset. induction plan as [|info plan IH]; intros offset H; [done |].
  simpl in H. repeat (apply andb_prop in H as [H ?]).
  unfold planSizes. rewrite !fmap_cons. f_equal; [| by eapply IH].
  simpl. unfold byteLength in *. rewrite length_take, length_drop. lia.
Qed.

Lemma tiles_payload file plan offset :
  tiles offset plan (byteLength file) = true →
  payload (downloadChunk file <$> plan) = drop (Z.to_nat offset) file.
Proof.
  revert offset. induction plan as [|info plan IH]; intros offset H.
  - simpl in H. unfold byteLength in H. symmetry. apply drop_ge. lia.
  - simpl in H. repeat (apply andb_prop in H as [H ?]).
    rewrite fmap_cons. change (payload (?c :: ?l)) with (dc_data c ++ payload l).
    rewrite (IH (ci_end info + 1)) by done. simpl.
    assert (ci_start info = offset) as -> by lia.
    replace (Z.to_nat (ci_end info + 1))
      with (Z.to_nat offset + Z.to_nat (ci_end info - offset + 1))%nat by lia.
    rewrite <- drop_drop. apply take_drop.
Qed.

(** Assembling the fragments of a plan that tiles the file and numbers
    its chunks from 0. *)
Lemma assemble_plan opts file plan :
  tiles 0 plan (byteLength file) = true →
  ci_index <$> plan = seq 0 (length plan) →
  ∃ st, assemble opts (byteLength file) (downloadChunk file <$> plan) = Some st
        ∧ Repr opts (byteLength file) (getAssembledChunks st, []) st
        ∧ Sealed (getAssembledChunks st)
        ∧ ac_totalSize <$> getAssembledChunks st
          = blockSizes opts (byteLength file) (planSizes plan)
        ∧ concat (ac_data <$> getAssembledChunks st) = file.
Proof.
  intros Htiles Hidx.
  destruct (assemble_in_order opts (byteLength file) (downloadChunk file <$> plan))
    as (st & Hrun & H & _).
  { rewrite <- list_fmap_compose, length_fmap. done. }
  exists st. rewrite (Repr_getAssembledChunks _ _ _ _ H). simpl.
  split_and!; try done.
  - apply Sealed_refBlocks.
  - by rewrite sizes_refBlocks, (tiles_sizes _ _ 0).
  - rewrite Sealed_data by apply Sealed_refBlocks.
    by rewrite processed_refBlocks, (tiles_payload _ _ 0).
Qed.

(** *** Scenario A *)

Definition scenarioOptions : StreamingAssemblerOptions :=
  {| storageChunkSize := 2 * 1024 * 1024; playbackChunkSize := 256 * 1024 |}.

Definition tenMB : Z := 10 * 1024 * 1024.

Definition scenarioBlocks : list Z :=
  [256 * 1024; 2 * 1024 * 1024; 2 * 1024 * 1024; 2 * 1024 * 1024; 2 * 1024 * 1024;
   1792 * 1024].

Lemma scenario_of_plan (file : list byte) (plan : list ChunkInfo) :
  byteLength file = tenMB →
  tiles 0 plan tenMB = true →
  ci_index <$> plan = seq 0 (length plan) →
  blockSizes scenarioOptions tenMB (planSizes plan) = scenarioBlocks →
  ∃ st b0,
    assemble scenarioOptions tenMB (downloadChunk file <$> plan) = Some st
    ∧ ac_totalSize <$> getAssembledChunks st = scenarioBlocks
    ∧ ac_canStartPlayback <$> getAssembledChunks st
      = [true; false; false; false; false; false]
    ∧ getAssembledChunks st !! 0%nat = Some b0
    ∧ (∃ later, calls st = onPlaybackReady b0 :: onChunkAssembled b0 :: later)
    ∧ playbackReadyCalls st = [b0]
    ∧ (∀ ops st', performAll st ops = Some st' → playbackReadyCalls st' = [b0])
    ∧ concat (ac_data <$> getAssembledChunks st) = file.
Proof.
  intros Hlen Htiles Hidx Hsizes. rewrite <- Hlen in *.
  destruct (assemble_plan scenarioOptions file plan Htiles Hidx)
    as (st & Hrun & H & Hs & Hsz & Hdata).
  rewrite Hsizes in Hsz.
  destruct (getAssembledChunks st) as [|b0 rest] eqn:Hblocks; [done |].
  exists st, b0. rewrite Hblocks. split_and!; try done.
  - rewrite (Sealed_canStartPlayback _ Hs).
    apply (f_equal length) in Hsz. rewrite length_fmap in Hsz. simpl in Hsz.
    do 6 (destruct rest as [|? rest]; simpl in Hsz; try done).
  - by eapply playbackReady_first.
  - by apply (playbackReady_once _ _ _ _ b0 rest [] st H Hs).
  - intros ops st'. by apply (playbackReady_once _ _ _ _ b0 rest ops st' H Hs).
Qed.

(** C8: a file of 10 MB is downloaded by the plan the DownloadManager
    computes with the manager's strategy (a first fragment of 256 KB and
    fragments of 512 KB, or 1 MB or 256 KB as the bandwidth estimate
    adapts them) from a server that honours byte ranges, and assembled
    with a playback chunk of 256 KB and a storage chunk of 2 MB.  The
    assembler returns six blocks: one of 256 KB that can start playback,
    four of 2 MB and a last one of 1792 KB, none of which can;
    [onPlaybackReady] is the first call, made for block 0 before
    [onChunkAssembled], it is made once, and no further call on the
    assembler makes it again; the six payloads concatenated are the
    file. *)
Theorem scenario_A (file : list byte) (connectionSpeed : Q) (isIOSSafari : bool) :
  byteLength file = tenMB →
  ∃ plan st b0,
    calculateDownloadChunks tenMB managerStrategy connectionSpeed isIOSSafari = Some plan
    ∧ assemble scenarioOptions tenMB (downloadChunk file <$> plan) = Some st
    ∧ ac_totalSize <$> getAssembledChunks st = scenarioBlocks
    ∧ ac_canStartPlayback <$> getAssembledChunks st
      = [true; false; false; false; false; false]
    ∧ getAssembledChunks st !! 0%nat = Some b0
    ∧ (∃ later, calls st = onPlaybackReady b0 :: onChunkAssembled b0 :: later)
    ∧ playbackReadyCalls st = [b0]
    ∧ (∀ ops st', performAll st ops = Some st' → playbackReadyCalls st' = [b0])
    ∧ concat (ac_data <$> getAssembledChunks st) = file.
Proof.
  intros Hlen.
  assert (∃ plan,
    calculateDownloadChunks tenMB managerStrategy connectionSpeed isIOSSafari = Some plan
    ∧ tiles 0 plan tenMB = true
    ∧ ci_index <$> plan = seq 0 (length plan)
    ∧ blockSizes scenarioOptions tenMB (planSizes plan) = scenarioBlocks)
    as (plan & Hplan & Htiles & Hidx & Hsizes).
  { destruct (adaptedSize_manager connectionSpeed isIOSSafari) as [H | [H | H]];
      rewrite (calculateDownloadChunks_adapted _ _ _ _ _ _ H);
      eexists; (split; [lazy; reflexivity |]); by vm_compute. }
  destruct (scenario_of_plan file plan Hlen Htiles Hidx Hsizes) as (st & b0 & Hall).
  exists plan, st, b0. by split.
Qed.

Lemma scenario_A_witness :
  let file := repeat x00 (Z.to_nat tenMB) in
  byteLength file = tenMB
  ∧ ∃ plan st b0,
      calculateDownloadChunks tenMB managerStrategy 0 false = Some plan
      ∧ assemble scenarioOptions tenMB (downloadChunk file <$> plan) = Some st
      ∧ ac_totalSize <$> getAssembledChunks st = scenarioBlocks
      ∧ ac_canStartPlayback <$> getAssembledChunks st
        = [true; false; false; false; false; false]
      ∧ getAssembledChunks st !! 0%nat = Some b0
      ∧ (∃ later, calls st = onPlaybackReady b0 :: onChunkAssembled b0 :: later)
      ∧ playbackReadyCalls st = [b0]
      ∧ (∀ ops st', performAll st ops = Some st' → playbackReadyCalls st' = [b0])
      ∧ concat (ac_data <$> getAssembledChunks st) = file.
Proof.
  assert (byteLength (repeat x00 (Z.to_nat tenMB)) = tenMB) as Hlen.
  { unfold byteLength. rewrite repeat_length. apply Z2Nat.id. by vm_compute. }
  split; [exact Hlen |].
  exact (scenario_A (repeat x00 (Z.to_nat tenMB)) 0 false Hlen).
Defined.

End DownloadManagerFacts.

(** ** The chunk store: the string encoding of samples *)

Module SampleCodecFacts.
Import TypedArray TypedArrayFacts Promises AudioChunkStore.
Local Open Scope Z_scope.

(** A [Float32Array] holds 32-bit patterns. *)
Definition word32 (w : Z) : Prop := 0 <= w < 2 ^ 32.

Lemma u16View_cons (w : Z) (f32 : Float32Array) :
  u16View (w :: f32) = w mod 65536 :: w / 65536 :: u16View f32.
Proof. done. Qed.

Lemma u16View_range (f32 : Float32Array) :
  Forall word32 f32 → Forall (λ u, 0 <= u < 65536) (u16View f32).
Proof.
  induction 1 as [|w f32 [Hlo Hhi] _ IH]; [constructor |].
  rewrite u16View_cons. repeat constructor; try done.
  - apply Z.mod_pos_bound. lia.
  - apply Z.mod_pos_bound. lia.
  - apply Z.div_pos; lia.
  - apply Z.div_lt_upper_bound; lia.
Qed.

Lemma float32OfU16_u16View (f32 : Float32Array) :
  float32OfU16 (u16View f32) = Some f32.
Proof.
  induction f32 as [|w f32 IH]; [done |].
  rewrite u16View_cons. simpl. rewrite IH. simpl. do 2 f_equal.
  pose proof (Z.div_mod w 65536). lia.
Qed.

Lemma fmap_id_in_range (f : Z → Z) (l : list Z) :
  (∀ u, 0 <= u < 65536 → f u = u) →
  Forall (λ u, 0 <= u < 65536) l → f <$> l = l.
Proof.
  intros Hf. induction 1 as [|u l Hu _ IH]; [done |].
  by rewrite fmap_cons, IH, Hf.
Qed.

(** The fallback loop appends what is left of the view. *)
Lemma fromCharCodeLoop_spec (fuel : nat) (u16 : list Z) (i : Z) (str : JSString) :
  0 <= i →
  byteLength u16 - i <= Z.of_nat fuel →
  fromCharCodeLoop fuel u16 i str = str ++ (fromCharCode <$> drop (Z.to_nat i) u16).
Proof.
  revert i str. induction fuel as [|fuel IH]; intros i str Hi Hfuel.
  - simpl. destruct (Z.ltb_spec i (byteLength u16)); [lia |].
    rewrite drop_ge by (unfold byteLength in *; lia). by rewrite app_nil_r.
  - simpl. destruct (Z.ltb_spec i (byteLength u16)) as [Hlt|Hge].
    + rewrite IH by lia. rewrite <- app_assoc, <- fmap_app. do 2 f_equal.
      replace (Z.to_nat (i + 10000)) with (Z.to_nat i + Z.to_nat 10000)%nat by lia.
      rewrite <- drop_drop.
      destruct (Z.min_spec (i + 10000) (byteLength u16)) as [[? ->] | [? ->]].
      * replace (i + 10000 - i) with 10000 by lia.
        apply take_drop.
      * rewrite take_ge by (rewrite length_drop; unfold byteLength in *; lia).
        rewrite (drop_ge (drop _ _))
          by (rewrite length_drop; unfold byteLength in *; lia).
        by rewrite app_nil_r.
    + rewrite drop_ge by (unfold byteLength in *; lia). by rewrite app_nil_r.
Qed.

(** Without [TextDecoder] the encoding is the view itself, and decoding
    gives the samples back. *)
Lemma float32ArrayToString_fallback (f32 : Float32Array) :
  Forall word32 f32 → float32ArrayToString false f32 = u16View f32.
Proof.
  intros H. unfold float32ArrayToString.
  rewrite fromCharCodeLoop_spec by (unfold byteLength; lia).
  simpl. apply fmap_id_in_range; [| by apply u16View_range].
  intros u Hu. unfold fromCharCode. by apply Z.mod_small.
Qed.

Lemma roundtrip_fallback (f32 : Float32Array) :
  Forall word32 f32 →
  stringToFloat32Array (float32ArrayToString false f32) = Some f32.
Proof.
  intros H. rewrite float32ArrayToString_fallback by done.
  unfold stringToFloat32Array.
  rewrite (fmap_id_in_range (λ c, c mod 65536)).
  - apply float32OfU16_u16View.
  - intros u Hu. by apply Z.mod_small.
  - by apply u16View_range.
Qed.

(** The decoder leaves code units alone as long as none is a surrogate. *)
Definition isSurrogate (u : Z) : bool := isHighSurrogate u || isLowSurrogate u.

Lemma utf16Decode_no_surrogate (units : list Z) :
  Forall (λ u, isSurrogate u = false) units → utf16Decode None units = units.
Proof.
  induction 1 as [|u units Hu _ IH]; [done |].
  simpl. unfold isSurrogate in Hu. apply orb_false_elim in Hu as [-> ->].
  by rewrite IH.
Qed.

Lemma textDecoderDecode_no_bom (units : list Z) :
  head units ≠ Some 0xFEFF → textDecoderDecode units = utf16Decode None units.
Proof.
  intros Hbom. destruct units as [|u rest]; [done |].
  destruct (decide (u = 0xFEFF)) as [-> | Hne]; [by destruct Hbom |].
  unfold textDecoderDecode.
  destruct u as [|p|p]; try done.
  repeat (destruct p as [p|p|]; try done).
Qed.

(** With [TextDecoder] the samples come back when the view holds no
    surrogate and does not start with a byte order mark. *)
Lemma roundtrip_textDecoder (f32 : Float32Array) :
  Forall word32 f32 →
  Forall (λ u, isSurrogate u = false) (u16View f32) →
  head (u16View f32) ≠ Some 0xFEFF →
  stringToFloat32Array (float32ArrayToString true f32) = Some f32.
Proof.
  intros H Hs Hbom. unfold float32ArrayToString.
  rewrite textDecoderDecode_no_bom, utf16Decode_no_surrogate by done.
  unfold stringToFloat32Array.
  rewrite (fmap_id_in_range (λ c, c mod 65536)).
  - apply float32OfU16_u16View.
  - intros u Hu. by apply Z.mod_small.
  - by apply u16View_range.
Qed.

End SampleCodecFacts.

(** ** The chunk store: reading back what was stored, and timeouts *)

Module StoreFacts.
Import TypedArray Promises AudioChunkStore SampleCodecFacts.
Local Open Scope Z_scope.

(** A database that answers every request after one millisecond, and one
    that never answers. *)
Definition emptyStore : IDB :=
  {| cache_meta := ∅; cache_data := ∅; latency := Some 1 |}.

Definition hungStore (meta : gmap string AudioMetadata)
    (data : gmap string StoredChunk) : IDB :=
  {| cache_meta := meta; cache_data := data; latency := None |}.

Definition chunkOf (samples : Float32Array) : AudioChunk :=
  {| ch_id := chunkId "track" 0; ch_trackId := "track"; ch_chunkIndex := 0;
     ch_sampleRate := 44100; ch_length := byteLength samples;
     ch_channels := [samples] |}.

(** An operation under [withTimeout] settles, and within its timeout. *)
Lemma timed_settles {A : Type} (operation : Op A) (timeoutMs : Z) (db : IDB) :
  ∃ t o, timed operation timeoutMs db = Settles t o
         ∧ (t <= timeoutMs ∨ timeoutMs <= 0).
Proof.
  unfold timed, withTimeout. destruct (operation db) as [t o|].
  - destruct (Z.ltb_spec t timeoutMs); eexists _, _; (split; [done | lia]).
  - eexists _, _. split; [done | lia].
Qed.

(** C3, at the failing input: the sample 0x3E80D800 (about 0.2517)
    has the low half 0xD800, a surrogate with no partner.  With
    [TextDecoder] present, as it is in every browser, the stored string
    holds U+FFFD in its place, and [getChunk] after [saveChunk] returns
    0x3E80FFFD.  A first sample whose low half is 0xFEFF loses that
    half, the string has an odd length, [stringToFloat32Array] throws
    inside the request's handler, and [getChunk] ends in the timeout.
    Without [TextDecoder] the same chunks come back as stored. *)
Theorem getChunk_after_saveChunk_differs :
  word32 0x3E80D800
  ∧ stringToFloat32Array (float32ArrayToString true [0x3E80D800])
    = Some [0x3E80FFFD]
  ∧ (∃ db, (let! _ := saveChunk true (chunkOf [0x3E80D800]) in getChunk "track" 0)
             emptyStore
           = Settles 2 (Fulfilled (Some (chunkOf [0x3E80FFFD]), db)))
  ∧ stringToFloat32Array (float32ArrayToString true [0x3F80FEFF]) = None
  ∧ (let! _ := saveChunk true (chunkOf [0x3F80FEFF]) in getChunk "track" 0)
      emptyStore
    = Settles 5001 (Rejected OperationTimeout)
  ∧ (∃ db, (let! _ := saveChunk false (chunkOf [0x3E80D800]) in getChunk "track" 0)
             emptyStore
           = Settles 2 (Fulfilled (Some (chunkOf [0x3E80D800]), db))).
Proof.
  split; [by vm_compute |]. split; [by vm_compute |].
  split; [eexists; by vm_compute |]. split; [by vm_compute |].
  split; [by vm_compute |]. eexists; by vm_compute.
Qed.

(** C9, at the failing input: against a database that never answers,
    the four operations under [withTimeout] are rejected with the timeout
    error after 5000 ms, which a caller can tell from the [null] of a
    record that is not there, and against any database they settle
    within 5000 ms; [getAllMetadata], [removeTrack], [getAvailableChunks]
    and with them [cleanup] are not under [withTimeout] and never
    settle. *)
Theorem enumeration_and_deletion_never_time_out
    (meta : gmap string AudioMetadata) (data : gmap string StoredChunk)
    (metadata : AudioMetadata) (chunk : AudioChunk) (hasTextDecoder : bool)
    (trackId : string) (chunkIndex now : Z) :
  let db := hungStore meta data in
  getMetadata trackId db = Settles 5000 (Rejected OperationTimeout)
  ∧ saveMetadata metadata db = Settles 5000 (Rejected OperationTimeout)
  ∧ getChunk trackId chunkIndex db = Settles 5000 (Rejected OperationTimeout)
  ∧ saveChunk hasTextDecoder chunk db = Settles 5000 (Rejected OperationTimeout)
  ∧ getMetadata trackId emptyStore = Settles 1 (Fulfilled (None, emptyStore))
  ∧ (∀ db', ∃ t o, getMetadata trackId db' = Settles t o ∧ t <= 5000)
  ∧ (∀ db', ∃ t o, saveMetadata metadata db' = Settles t o ∧ t <= 5000)
  ∧ (∀ db', ∃ t o, getChunk trackId chunkIndex db' = Settles t o ∧ t <= 5000)
  ∧ (∀ db', ∃ t o, saveChunk hasTextDecoder chunk db' = Settles t o ∧ t <= 5000)
  ∧ getAllMetadata db = Never
  ∧ removeTrack trackId db = Never
  ∧ getAvailableChunks trackId db = Never
  ∧ cleanup now db = Never.
Proof.
  split_and!; try done.
  all: intros db'; unfold getMetadata, saveMetadata, getChunk, saveChunk.
  all: match goal with
       | |- context [timed ?operation 5000 ?d] =>
         destruct (timed_settles operation 5000 d) as (t & o & -> & Hwithin)
       end.
  all: exists t, o; split; [done | lia].
Qed.

End StoreFacts.

(** ** The chunk store: cleanup *)

Module CleanupFacts.
Import TypedArray Promises AudioChunkStore StreamingAssemblerFacts.
Local Open Scope Z_scope.

Definition sizeOf (l : list AudioMetadata) : Z := sumZ (md_fileSize <$> l).

Lemma sizeOf_nil : sizeOf [] = 0.
Proof. done. Qed.

Lemma sizeOf_cons (m : AudioMetadata) (l : list AudioMetadata) :
  sizeOf (m :: l) = md_fileSize m + sizeOf l.
Proof. done. Qed.

Lemma totalFileSize_sizeOf (l : list AudioMetadata) : totalFileSize l = sizeOf l.
Proof.
  unfold totalFileSize.
  assert (∀ acc, foldl (λ totalSize metadata, totalSize + md_fileSize metadata) acc l
                 = acc + sizeOf l) as H.
  { induction l as [|m l IH]; intros acc.
    - rewrite sizeOf_nil. simpl. lia.
    - rewrite sizeOf_cons. simpl. rewrite IH. lia. }
  rewrite H. lia.
Qed.

Lemma sizeOf_app (l k : list AudioMetadata) : sizeOf (l ++ k) = sizeOf l + sizeOf k.
Proof. unfold sizeOf. by rewrite fmap_app, sumZ_app. Qed.

Lemma sizeOf_Permutation (l k : list AudioMetadata) : l ≡ₚ k → sizeOf l = sizeOf k.
Proof.
  induction 1 as [|x l k _ IH|x y l|l k j _ IH1 _ IH2];
    rewrite ?sizeOf_cons; lia.
Qed.

(** The tracks past the maximum age, and the others. *)
Definition isOld (now : Z) (m : AudioMetadata) : Prop := maxAge < now - md_lastAccessed m.

Local Instance isOld_dec now m : Decision (isOld now m).
Proof. unfold isOld. apply _. Defined.

Definition old (now : Z) (l : list AudioMetadata) : list AudioMetadata :=
  filter (isOld now) l.
Definition recent (now : Z) (l : list AudioMetadata) : list AudioMetadata :=
  filter (λ m, ¬ isOld now m) l.

Lemma sizeOf_old_recent now l : sizeOf l = sizeOf (old now l) + sizeOf (recent now l).
Proof.
  unfold old, recent. induction l as [|m l IH]; [done |].
  rewrite !filter_cons. destruct (decide (isOld now m)).
  - rewrite decide_False by tauto. rewrite !sizeOf_cons. lia.
  - rewrite decide_True by tauto. rewrite !sizeOf_cons. lia.
Qed.

(** The first loop. *)
Lemma removeOld_spec now l tracksToRemove totalSize :
  removeOld now l tracksToRemove totalSize
  = (tracksToRemove ++ (md_trackId <$> old now l), totalSize - sizeOf (old now l)).
Proof.
  revert tracksToRemove totalSize. unfold old.
  induction l as [|m l IH]; intros acc total; simpl.
  - rewrite app_nil_r, filter_nil, sizeOf_nil. f_equal. lia.
  - rewrite filter_cons. destruct (Z.ltb_spec maxAge (now - md_lastAccessed m)).
    + rewrite decide_True by done. rewrite IH, <- app_assoc, sizeOf_cons. simpl.
      f_equal. lia.
    + rewrite decide_False by (unfold isOld; lia). apply IH.
Qed.

Lemma filter_ext_elem_of {A : Type} (P Q : A → Prop)
    `{!∀ x, Decision (P x)} `{!∀ x, Decision (Q x)} (l : list A) :
  (∀ x, x ∈ l → P x ↔ Q x) → filter P l = filter Q l.
Proof.
  induction l as [|x l IH]; intros Hiff; [done |].
  rewrite !filter_cons.
  destruct (decide (P x)) as [HP|HP], (decide (Q x)) as [HQ|HQ].
  - f_equal. apply IH. intros y Hy. apply Hiff. by right.
  - exfalso. apply HQ, Hiff; [by left | done].
  - exfalso. apply HP, Hiff; [by left | done].
  - apply IH. intros y Hy. apply Hiff. by right.
Qed.

(** The filter that builds [sortedByAge] keeps the recent tracks, track
    ids being the keys of the store. *)
Lemma filter_not_removed now l :
  NoDup (md_trackId <$> l) →
  filter (λ m, includes (md_trackId <$> old now l) (md_trackId m) = false) l
  = recent now l.
Proof.
  intros Hnd. unfold recent. apply filter_ext_elem_of.
  intros m Hm. unfold includes.
  rewrite bool_decide_eq_false. split.
  - intros Hnot Hold. apply Hnot. apply list_elem_of_fmap.
    exists m. split; [done |]. by apply list_elem_of_filter.
  - intros Hrecent Hin. apply list_elem_of_fmap in Hin as (m' & Hid & Hm').
    apply list_elem_of_filter in Hm' as [Hold' Hm'].
    assert (m = m') as ->; [| done].
    apply list_elem_of_lookup in Hm as [i Hi], Hm' as [j Hj].
    assert (i = j) as ->.
    { eapply NoDup_lookup; [done | |]; rewrite list_lookup_fmap.
      - by rewrite Hi.
      - by rewrite Hj, Hid. }
    congruence.
Qed.

(** The sort is a stable insertion sort: sorted, and a permutation. *)
Definition byAge (a b : AudioMetadata) : Prop := md_lastAccessed a <= md_lastAccessed b.

Lemma insertBy_Permutation {A : Type} (key : A → Z) x (l : list A) :
  insertBy key x l ≡ₚ x :: l.
Proof.
  induction l as [|y l IH]; [done |]. simpl.
  destruct (key x <=? key y); [done |]. rewrite IH. apply perm_swap.
Qed.

Lemma sortBy_Permutation {A : Type} (key : A → Z) (l : list A) : sortBy key l ≡ₚ l.
Proof.
  induction l as [|x l IH]; [done |].
  unfold sortBy in *. simpl. by rewrite insertBy_Permutation, IH.
Qed.

Lemma insertBy_sorted {A : Type} (key : A → Z) x (l : list A) :
  StronglySorted (λ a b, key a <= key b) l →
  StronglySorted (λ a b, key a <= key b) (insertBy key x l).
Proof.
  induction 1 as [|y l Hs IH Hy]; simpl; [repeat constructor |].
  destruct (Z.leb_spec (key x) (key y)).
  - constructor; [by constructor |].
    constructor; [done |]. eapply Forall_impl; [done |]. simpl. intros. lia.
  - constructor; [done |].
    rewrite insertBy_Permutation. constructor; [lia | done].
Qed.

Lemma sortBy_sorted {A : Type} (key : A → Z) (l : list A) :
  StronglySorted (λ a b, key a <= key b) (sortBy key l).
Proof.
  induction l as [|x l IH]; [constructor |].
  unfold sortBy in *. simpl. by apply insertBy_sorted.
Qed.

(** The second loop removes a prefix of [sortedByAge] and stops at the
    first point where the total is within the limit. *)
Lemma removeOverLimit_spec sorted tracksToRemove totalSize :
  ∃ evicted kept,
    sorted = evicted ++ kept
    ∧ removeOverLimit sorted tracksToRemove totalSize
      = (tracksToRemove ++ (md_trackId <$> evicted), totalSize - sizeOf evicted)
    ∧ (∀ shorter, shorter `prefix_of` evicted → shorter ≠ evicted →
                  maxStorageSize < totalSize - sizeOf shorter)
    ∧ (kept = [] ∨ totalSize - sizeOf evicted <= maxStorageSize).
Proof.
  revert tracksToRemove totalSize.
  induction sorted as [|m sorted IH]; intros acc total.
  - exists [], []. simpl. rewrite app_nil_r, sizeOf_nil. split_and!; try done.
    + f_equal. lia.
    + intros shorter Hp Hne. apply prefix_nil_inv in Hp. done.
    + by left.
  - simpl. destruct (Z.leb_spec total maxStorageSize) as [Hle|Hgt].
    + exists [], (m :: sorted). simpl. rewrite app_nil_r, sizeOf_nil.
      split_and!; try done.
      * f_equal. lia.
      * intros shorter Hp Hne. apply prefix_nil_inv in Hp. done.
      * right. lia.
    + destruct (IH (acc ++ [md_trackId m]) (total - md_fileSize m))
        as (evicted & kept & -> & Heq & Hmin & Hend).
      exists (m :: evicted), kept. split_and!; try done.
      * rewrite Heq, <- app_assoc, sizeOf_cons. simpl. f_equal. lia.
      * intros shorter Hp Hne. destruct shorter as [|m' shorter].
        { rewrite sizeOf_nil. lia. }
        apply prefix_cons_inv_1 in Hp as Hm. subst m'.
        apply prefix_cons_inv_2 in Hp.
        specialize (Hmin shorter Hp). rewrite sizeOf_cons.
        assert (shorter ≠ evicted) as Hne' by congruence.
        specialize (Hmin Hne'). lia.
      * destruct Hend as [-> | Hend]; [by left | right].
        rewrite sizeOf_cons. lia.
Qed.

(** What [cleanup] selects. *)
Lemma selectTracksToRemove_spec now all :
  NoDup (md_trackId <$> all) →
  ∃ evicted kept,
    evicted ++ kept ≡ₚ recent now all
    ∧ StronglySorted byAge (evicted ++ kept)
    ∧ selectTracksToRemove now all
      = ((md_trackId <$> old now all) ++ (md_trackId <$> evicted), sizeOf kept)
    ∧ (sizeOf (recent now all) <= maxStorageSize → evicted = [])
    ∧ (∀ shorter, shorter `prefix_of` evicted → shorter ≠ evicted →
                  maxStorageSize < sizeOf (recent now all) - sizeOf shorter)
    ∧ sizeOf kept <= maxStorageSize.
Proof.
  intros Hnd. unfold selectTracksToRemove.
  rewrite removeOld_spec, totalFileSize_sizeOf. simpl.
  replace (sizeOf all - sizeOf (old now all)) with (sizeOf (recent now all))
    by (rewrite (sizeOf_old_recent now all); lia).
  pose proof (sortBy_Permutation md_lastAccessed (recent now all)) as Hperm.
  pose proof (sortBy_sorted md_lastAccessed (recent now all)) as Hsorted.
  destruct (Z.ltb_spec maxStorageSize (sizeOf (recent now all))) as [Hover|Hfits].
  - unfold sortedByAge. rewrite filter_not_removed by done.
    destruct (removeOverLimit_spec (sortBy md_lastAccessed (recent now all))
                (md_trackId <$> old now all) (sizeOf (recent now all)))
      as (evicted & kept & Hsplit & -> & Hmin & Hend).
    rewrite Hsplit in Hperm, Hsorted.
    assert (sizeOf (recent now all) - sizeOf evicted = sizeOf kept) as Hkept.
    { rewrite <- (sizeOf_Permutation _ _ Hperm), sizeOf_app. lia. }
    exists evicted, kept. split_and!; try done.
    + by rewrite Hkept.
    + lia.
    + destruct Hend as [-> | Hend]; [by vm_compute | lia].
  - exists [], (sortBy md_lastAccessed (recent now all)). simpl.
    split_and!; try done.
    + by rewrite app_nil_r, (sizeOf_Permutation _ _ Hperm).
    + intros shorter Hp Hne. by apply prefix_nil_inv in Hp.
    + by rewrite (sizeOf_Permutation _ _ Hperm).
Qed.

(** *** The effect on the database *)

(** [db'] is [db] without the tracks [ids] and without their chunks. *)
Definition Without (ids : list string) (db db' : IDB) : Prop :=
  latency db' = latency db
  ∧ (∀ k, cache_meta db' !! k
          = if decide (k ∈ ids) then None else cache_meta db !! k)
  ∧ (∀ id, cache_data db' !! id
           = cache_data db !! id
             ≫= λ c, if decide (sc_trackId c ∈ ids) then None else Some c).

Lemma removeTrack_spec trackId db d :
  latency db = Some d →
  ∃ db', removeTrack trackId db = Settles (d + d) (Fulfilled (tt, db'))
         ∧ Without [trackId] db db'.
Proof.
  intros Hd. unfold removeTrack, opBind, request. rewrite Hd. simpl.
  eexists. split; [done |]. split_and!; simpl; [done | |].
  - intros k. destruct (decide (k ∈ [trackId])) as [Hin|Hout].
    + apply list_elem_of_singleton in Hin as ->. apply lookup_delete_eq.
    + apply lookup_delete_ne. intros ->. apply Hout. by left.
  - intros id. rewrite map_lookup_filter.
    destruct (cache_data db !! id) as [c|]; simpl; [| done].
    destruct (decide (sc_trackId c ∈ [trackId])) as [Hin|Hout].
    + apply list_elem_of_singleton in Hin.
      by rewrite option_guard_False by (simpl; tauto).
    + rewrite option_guard_True; [done |]. simpl. intros Heq. apply Hout.
      rewrite Heq. by left.
Qed.

Lemma Without_nil db : Without [] db db.
Proof.
  split_and!; [done | |].
  - intros k. case_decide; [set_solver | done].
  - intros id. destruct (cache_data db !! id) as [c|]; [| done].
    unfold mbind, option_bind. case_decide; [set_solver | done].
Qed.

Lemma decide_cons_split {A : Type} (k id : string) (ids : list string) (x : option A) :
  (if decide (k ∈ ids) then None else if decide (k ∈ [id]) then None else x)
  = if decide (k ∈ id :: ids) then None else x.
Proof.
  destruct (decide (k ∈ id :: ids)) as [Hin|Hout].
  - apply elem_of_cons in Hin as [-> | Hin].
    + destruct (decide (id ∈ ids)); [done |].
      rewrite decide_True; [done | by left].
    + by rewrite decide_True.
  - rewrite decide_False by (intros ?; apply Hout; by right).
    rewrite decide_False; [done |].
    intros Hin. apply list_elem_of_singleton in Hin as ->. apply Hout. by left.
Qed.

Lemma Without_cons id ids db db1 db2 :
  Without [id] db db1 → Without ids db1 db2 → Without (id :: ids) db db2.
Proof.
  intros (Hl1 & Hm1 & Hd1) (Hl2 & Hm2 & Hd2). split_and!; [congruence | |].
  - intros k. rewrite Hm2, Hm1. apply decide_cons_split.
  - intros i. rewrite Hd2, Hd1.
    destruct (cache_data db !! i) as [c|]; [| done].
    unfold mbind, option_bind.
    rewrite <- (decide_cons_split (sc_trackId c) id ids (Some c)).
    by destruct (decide (sc_trackId c ∈ [id])), (decide (sc_trackId c ∈ ids)).
Qed.

Lemma removeTracks_spec ids db d :
  latency db = Some d →
  ∃ db', removeTracks ids db
         = Settles (2 * d * Z.of_nat (length ids)) (Fulfilled (tt, db'))
         ∧ Without ids db db'.
Proof.
  revert db. induction ids as [|id ids IH]; intros db Hd.
  - exists db. split; [| apply Without_nil]. simpl. by rewrite Z.mul_0_r.
  - destruct (removeTrack_spec id db d Hd) as (db1 & Hrm & H1).
    destruct (IH db1) as (db2 & Hrest & H2).
    { destruct H1 as [-> _]. done. }
    exists db2. split; [| by eapply Without_cons].
    simpl. unfold opBind at 1. rewrite Hrm. simpl. rewrite Hrest. simpl.
    do 2 f_equal. lia.
Qed.

(** The key of a stored track is its [trackId] (the key path of
    'cache_meta'). *)
Definition keyedByTrackId (db : IDB) : Prop :=
  map_Forall (λ k m, md_trackId m = k) (cache_meta db).

Definition storedTracks (db : IDB) : list AudioMetadata :=
  (map_to_list (cache_meta db)).*2.

Lemma storedTracks_NoDup db :
  keyedByTrackId db → NoDup (md_trackId <$> storedTracks db).
Proof.
  intros Hk. unfold storedTracks.
  assert (md_trackId <$> (map_to_list (cache_meta db)).*2
          = (map_to_list (cache_meta db)).*1) as ->.
  { rewrite <- list_fmap_compose. apply list_fmap_ext.
    intros i [k m] Hi. simpl. apply (Hk k m).
    apply elem_of_map_to_list. by eapply list_elem_of_lookup_2. }
  apply NoDup_fst_map_to_list.
Qed.

(** C4: on an open database that answers, [cleanup] resolves, and the
    database it leaves is the one it found without the tracks past the
    maximum age of 10 days, without [evicted], and without the chunks of
    either, and with nothing else changed.  [evicted] are the first
    tracks of the remaining ones in the order of [lastAccessed], oldest
    first: none when the remaining tracks fit in 1 GiB, and otherwise
    no more than it takes, every shorter prefix leaving the total of
    [fileSize] over 1 GiB; the tracks that stay fit in 1 GiB. *)
Theorem cleanup_evicts_old_then_oldest (now : Z) (db : IDB) (d : Z) :
  latency db = Some d →
  keyedByTrackId db →
  ∃ evicted kept db',
    cleanup now db
    = Settles (d + 2 * d * Z.of_nat (length (old now (storedTracks db) ++ evicted)))
              (Fulfilled (tt, db'))
    ∧ Without (md_trackId <$> (old now (storedTracks db) ++ evicted)) db db'
    ∧ evicted ++ kept ≡ₚ recent now (storedTracks db)
    ∧ StronglySorted byAge (evicted ++ kept)
    ∧ (sizeOf (recent now (storedTracks db)) <= maxStorageSize → evicted = [])
    ∧ (∀ shorter, shorter `prefix_of` evicted → shorter ≠ evicted →
                  maxStorageSize < sizeOf (recent now (storedTracks db)) - sizeOf shorter)
    ∧ sizeOf kept <= maxStorageSize.
Proof.
  intros Hd Hk.
  destruct (selectTracksToRemove_spec now (storedTracks db) (storedTracks_NoDup db Hk))
    as (evicted & kept & Hperm & Hsorted & Hsel & Hnone & Hmin & Hfit).
  destruct (removeTracks_spec (md_trackId <$> (old now (storedTracks db) ++ evicted))
              db d Hd) as (db' & Hrm & Hw).
  exists evicted, kept, db'. split_and!; try done.
  unfold cleanup, opBind, getAllMetadata, request. rewrite Hd. simpl.
  fold (storedTracks db). rewrite Hsel. simpl. rewrite <- fmap_app, Hrm. simpl.
  by rewrite length_fmap.
Qed.

(** A store with three tracks, twenty days after the epoch: "a" was last
    used on day 0, "c" on day 18 and "b" on day 19; "b" and "c" take
    600 MiB each. *)
Definition day : Z := 24 * 60 * 60 * 1000.

Definition track (id : string) (lastAccessed fileSize : Z) : AudioMetadata :=
  {| md_trackId := id; md_name := id; md_duration := 1; md_sampleRate := 44100;
     md_numberOfChannels := 2; md_totalChunks := 1;
     md_lastAccessed := lastAccessed; md_fileSize := fileSize; md_url := id |}.

Definition storedChunkOf (trackId : string) : StoredChunk :=
  {| sc_id := chunkId trackId 0; sc_trackId := trackId; sc_chunkIndex := 0;
     sc_sampleRate := 44100; sc_length := 0; sc_channels := [] |}.

Definition exampleStore : IDB :=
  {| cache_meta := <["a" := track "a" 0 5]>
                   (<["b" := track "b" (19 * day) (600 * 1024 * 1024)]>
                   (<["c" := track "c" (18 * day) (600 * 1024 * 1024)]> ∅));
     cache_data := <[chunkId "a" 0 := storedChunkOf "a"]>
                   (<[chunkId "b" 0 := storedChunkOf "b"]>
                   (<[chunkId "c" 0 := storedChunkOf "c"]> ∅));
     latency := Some 1 |}.

(** [cleanup] removes "a" for its age and then "c", the older of the
    two that are left, for the size; "b" stays. *)
Example cleanup_exampleStore :
  cleanup (20 * day) exampleStore
  = Settles 5 (Fulfilled (tt,
      {| cache_meta := {["b" := track "b" (19 * day) (600 * 1024 * 1024)]};
         cache_data := {[chunkId "b" 0 := storedChunkOf "b"]};
         latency := Some 1 |})).
Proof. by vm_compute. Qed.

Lemma cleanup_evicts_old_then_oldest_witness :
  latency exampleStore = Some 1
  ∧ keyedByTrackId exampleStore
  ∧ ∃ evicted kept db',
      cleanup (20 * day) exampleStore
      = Settles (1 + 2 * 1 * Z.of_nat
                   (length (old (20 * day) (storedTracks exampleStore) ++ evicted)))
                (Fulfilled (tt, db'))
      ∧ Without (md_trackId <$> (old (20 * day) (storedTracks exampleStore) ++ evicted))
                exampleStore db'
      ∧ evicted ++ kept ≡ₚ recent (20 * day) (storedTracks exampleStore)
      ∧ StronglySorted byAge (evicted ++ kept)
      ∧ (sizeOf (recent (20 * day) (storedTracks exampleStore)) <= maxStorageSize →
         evicted = [])
      ∧ (∀ shorter, shorter `prefix_of` evicted → shorter ≠ evicted →
                    maxStorageSize
                    < sizeOf (recent (20 * day) (storedTracks exampleStore))
                      - sizeOf shorter)
      ∧ sizeOf kept <= maxStorageSize.
Proof.
  assert (keyedByTrackId exampleStore) as Hk.
  { unfold keyedByTrackId, exampleStore. simpl.
    repeat (apply map_Forall_insert_2; [done |]). apply map_Forall_empty. }
  split; [reflexivity |]. split; [exact Hk |].
  exact (cleanup_evicts_old_then_oldest (20 * day) exampleStore 1 eq_refl Hk).
Defined.

End CleanupFacts.

(** ** The chunk store: opening the database *)

Module InitializeFacts.
Import Promises AudioChunkStore.
Local Open Scope Z_scope.

(** An attempt fails when, under its timeout of 10 s, it is rejected:
    by the database or by the timer. *)
Definition fails (attempt : Promise unit) : Prop :=
  ∃ t e, withTimeout attempt 10000 = Settles t (Rejected e).

Definition succeeds (attempt : Promise unit) : Prop :=
  ∃ t, withTimeout attempt 10000 = Settles t (Fulfilled tt).

Definition waits (log : list OpenEvent) : list Z :=
  omap (λ e, match e with RetryWait w => Some w | _ => None end) log.

Definition attemptsMade (log : list OpenEvent) : list Z :=
  omap (λ e, match e with OpenAttempt n _ => Some n | _ => None end) log.

Lemma withTimeout_settles {A : Type} (p : Promise A) (ms : Z) :
  (∃ t v, withTimeout p ms = Settles t (Fulfilled v))
  ∨ (∃ t e, withTimeout p ms = Settles t (Rejected e)).
Proof.
  unfold withTimeout. destruct p as [t [v|e]|]; [| | by right; eauto].
  - destruct (t <? ms); [left | right]; eauto.
  - destruct (t <? ms); right; eauto.
Qed.

Lemma fails_or_succeeds (attempt : Promise unit) : fails attempt ∨ succeeds attempt.
Proof.
  destruct (withTimeout_settles attempt 10000) as [(t & [] & H) | (t & e & H)].
  - right. by exists t.
  - left. by exists t, e.
Qed.

Lemma fails_not_succeeds (attempt : Promise unit) : fails attempt → ¬ succeeds attempt.
Proof. intros (t & e & H) (t' & H'). congruence. Qed.

Local Ltac counters :=
  change (0 + 1) with 1; change (1 + 1) with 2; change (2 + 1) with 3;
  change (Z.to_nat 0) with 0%nat; change (Z.to_nat 1) with 1%nat;
  change (Z.to_nat 2) with 2%nat;
  change (3 <=? 1) with false; change (3 <=? 2) with false;
  change (3 <=? 3) with true; change (1 <=? 1) with true;
  cbn -[withTimeout].

Local Ltac settle :=
  split_and!; try done; try (by eauto); try (by repeat constructor);
  try (by intros _ (? & ? & ?) (? & ? & ?) (? & ?); simplify_eq);
  try (by intros _ (? & ? & ?) (? & ? & ?) (? & ?); eauto);
  try (by intros ? ? [= <- <-]; eauto);
  try (exists 1%nat; split; [reflexivity | lia]);
  try (exists 2%nat; split; [reflexivity | lia]);
  try (exists 3%nat; split; [reflexivity | lia]);
  try (split; [by eauto |]);
  try (split; [| by intros (? & ? & ?)]);
  try (split; [| by intros (? & ?)]);
  try (intros _; first
      [ exists 0%nat; split_and!; [lia | by eauto | intros j Hj; lia]
      | exists 1%nat; split_and!;
          [lia | by eauto | intros [|j] Hj; [by eauto | lia]]
      | exists 2%nat; split_and!;
          [lia | by eauto | intros [|[|j]] Hj; [by eauto | by eauto | lia]] ]);
  try (intros Hall;
              first [ destruct (Hall 0%nat ltac:(lia)) as (? & ? & ?); congruence
                    | destruct (Hall 1%nat ltac:(lia)) as (? & ? & ?); congruence
                    | destruct (Hall 2%nat ltac:(lia)) as (? & ? & ?); congruence ]);
  try (intros (k & Hk & (t & Hs) & Hf);
              destruct k as [|[|[|k]]]; try lia; congruence);
  try (intros ? [|[|[|k]]] Hk; try lia; by eauto);
  try (intros (? & ? & ?); congruence).


(** Off Safari iOS the database is opened once: two failures followed
    by a success never reach the success.  On Safari iOS the two waits
    are equal, and none lasts 500 ms. *)
Definition failTwiceThenOpen (k : nat) : Promise unit :=
  if (k <? 2)%nat then Settles 10 (Rejected (RequestError "UnknownError"))
  else Settles 10 (Fulfilled tt).


End InitializeFacts.
(** ** Rounding to binary64 *)

Module Binary64Facts.
Import Binary64.
Local Open Scope Z_scope.

Lemma roundEven_floor (q : Q) :
  Qfloor q <= roundEven q <= Qfloor q + 1.
Proof.
  unfold roundEven, Qfloor. destruct q as [n d]. simpl.
  destruct (2 * (n mod Z.pos d) ?= Z.pos d); [destruct (Z.even _) | |]; lia.
Qed.

Lemma roundEven_lower (q : Q) (k : Z) : (inject_Z k <= q)%Q → k <= roundEven q.
Proof.
  intros Hk. pose proof (roundEven_floor q) as [Hfloor _].
  assert (k <= Qfloor q); [| lia].
  unfold Qfloor. destruct q as [n d]. unfold Qle in Hk. simpl in Hk.
  apply Z.div_le_lower_bound; lia.
Qed.

Lemma roundEven_upper (q : Q) (k : Z) : (q <= inject_Z k)%Q → roundEven q <= k.
Proof.
  intros Hk. unfold roundEven. destruct q as [n d]. unfold Qle in Hk. simpl in *.
  pose proof (Z.div_mod n (Z.pos d) ltac:(lia)) as Hdiv.
  pose proof (Z.mod_pos_bound n (Z.pos d) ltac:(lia)) as Hmod.
  destruct (decide (n mod Z.pos d = 0)) as [Hzero | Hrest].
  - rewrite Hzero. simpl. assert (n / Z.pos d <= k); [nia | done].
  - assert (n / Z.pos d + 1 <= k) by nia.
    destruct (2 * (n mod Z.pos d) ?= Z.pos d); [destruct (Z.even _) | |]; lia.
Qed.

Lemma exponent_small (q : Q) :
  (inject_Z (- 2 ^ 53) < q)%Q → (q < inject_Z (2 ^ 53))%Q → exponent q <= 52.
Proof.
  destruct q as [n d]. unfold Qlt, exponent. cbn [Qnum Qden inject_Z].
  intros Hlow Hhigh.
  assert (Z.abs n < 2 ^ 53 * Z.pos d) as Hn by lia. clear Hlow Hhigh.
  set (e := Z.log2 (Z.abs n) - Z.log2 (Z.pos d)).
  destruct (decide (e <= 52)) as [Hsmall | Hlarge].
  { destruct (if 0 <=? e then _ else _); lia. }
  destruct (Z.leb_spec 0 e); [| lia].
  assert (e <= 53).
  { apply Z.nlt_ge. intros He.
    destruct (Z.log2_spec (Z.pos d) ltac:(lia)) as [_ Hd].
    assert (0 < Z.abs n) as Hpos.
    { destruct (decide (Z.abs n = 0)) as [Hzero|]; [| lia].
      assert (Z.log2 (Z.abs n) = 0) as Hlog by (by rewrite Hzero).
      pose proof (Z.log2_nonneg (Z.pos d)). subst e. lia. }
    destruct (Z.log2_spec (Z.abs n) Hpos) as [Hnlow _].
    assert (Z.log2 (Z.abs n) = Z.log2 (Z.pos d) + 1 + (e - 1)) as Hsplit by (subst e; lia).
    rewrite Hsplit, Z.pow_add_r in Hnlow
      by (pose proof (Z.log2_nonneg (Z.pos d)); lia).
    assert (2 ^ 53 <= 2 ^ (e - 1)) by (apply Z.pow_le_mono_r; lia).
    rewrite <- Z.add_1_r in Hd. nia. }
  assert (e = 53) as He by lia.
  destruct (Z.ltb_spec (Z.abs n) (Z.pos d * 2 ^ e)); [lia |].
  rewrite He in *. lia.
Qed.

(** Below [2 ^ 53] the integers are binary64 numbers, and rounding does
    not cross them. *)
Lemma binary64_between (q : Q) (a b : Z) :
  ulpExponent q <= 0 →
  (inject_Z a <= q)%Q → (q <= inject_Z b)%Q →
  (inject_Z a <= binary64 q)%Q ∧ (binary64 q <= inject_Z b)%Q.
Proof.
  intros Hp Ha Hb. unfold binary64.
  set (p := ulpExponent q) in *.
  assert (0 < 2 ^ (- p)) as Hpow by (apply Z.pow_pos_nonneg; lia).
  set (N := 2 ^ (- p)) in *.
  assert (scale q (- p) = (Qnum q * N) # Qden q) as Hscaled.
  { unfold scale. destruct (Z.leb_spec 0 (- p)); [done | lia]. }
  rewrite Hscaled.
  assert (a * N <= roundEven (Qnum q * N # Qden q)) as Hlow.
  { apply roundEven_lower. destruct q as [n d]. unfold Qle in *. simpl in *. nia. }
  assert (roundEven (Qnum q * N # Qden q) <= b * N) as Hhigh.
  { apply roundEven_upper. destruct q as [n d]. unfold Qle in *. simpl in *. nia. }
  set (m := roundEven _) in *.
  unfold scale. destruct (Z.leb_spec 0 p).
  - assert (p = 0) as Hzero by lia. subst N. rewrite Hzero in *. simpl in *.
    unfold Qle. simpl. lia.
  - fold N. unfold Qle. simpl. rewrite Pos.mul_1_l, Z2Pos.id by done. lia.
Qed.

Lemma ulpExponent_small (q : Q) :
  (inject_Z (- 2 ^ 53) < q)%Q → (q < inject_Z (2 ^ 53))%Q → ulpExponent q <= 0.
Proof.
  intros Hlow Hhigh. pose proof (exponent_small q Hlow Hhigh).
  unfold ulpExponent. lia.
Qed.

(** So the floor of the rounded number is the floor of the exact one, or
    one more when the exact one is rounded up to an integer. *)
Lemma Qfloor_binary64 (q : Q) :
  (inject_Z (- 2 ^ 53) < q)%Q → (q < inject_Z (2 ^ 53))%Q →
  Qfloor q <= Qfloor (binary64 q) <= Qfloor q + 1.
Proof.
  intros Hlow Hhigh.
  destruct (binary64_between q (Qfloor q) (Qfloor q + 1)) as [Hbelow Habove].
  - by apply ulpExponent_small.
  - apply Qfloor_le.
  - apply Qlt_le_weak, Qlt_floor.
  - split.
    + pose proof (Qlt_floor (binary64 q)) as Hfloor.
      assert (inject_Z (Qfloor q) < inject_Z (Qfloor (binary64 q) + 1))%Q as Hlt
        by (eapply Qle_lt_trans; eauto).
      rewrite <- Zlt_Qlt in Hlt. lia.
    + pose proof (Qfloor_le (binary64 q)) as Hfloor.
      assert (inject_Z (Qfloor (binary64 q)) <= inject_Z (Qfloor q + 1))%Q as Hle
        by (eapply Qle_trans; eauto).
      by rewrite <- Zle_Qle in Hle.
Qed.

(** An integer that the exact number reaches is reached by the rounded
    one. *)
Lemma Qfloor_binary64_above (q : Q) (n : Z) :
  (inject_Z (- 2 ^ 53) < q)%Q → (q < inject_Z (2 ^ 53))%Q →
  (inject_Z n <= q)%Q → n <= Qfloor (binary64 q).
Proof.
  intros Hlow Hhigh Hn.
  destruct (binary64_between q n (Qfloor q + 1)) as [Hbelow _].
  - by apply ulpExponent_small.
  - done.
  - apply Qlt_le_weak, Qlt_floor.
  - pose proof (Qlt_floor (binary64 q)) as Hfloor.
    assert (inject_Z n < inject_Z (Qfloor (binary64 q) + 1))%Q as Hlt
      by (eapply Qle_lt_trans; eauto).
    rewrite <- Zlt_Qlt in Hlt. lia.
Qed.

(** Numbers as the engine computes them. *)
Example binary64_tenth :
  Qred (binary64 (1 # 10)) = (3602879701896397 # 36028797018963968)%Q
  ∧ Qred (binary64 44100) = 44100%Q
  ∧ Qred (binary64 (inject_Z (2 ^ 53 + 1))) = inject_Z (2 ^ 53)
  ∧ Qred (binary64 (inject_Z (2 ^ 53 + 3))) = inject_Z (2 ^ 53 + 4).
Proof. by vm_compute. Qed.

End Binary64Facts.

(** ** The playback processor *)

Module AudioPlaybackProcessorFacts.
Import Binary64 Binary64Facts AudioPlaybackProcessor.
Local Open Scope Z_scope.

(** [Math.round]: the nearest integer, a tie going up. *)
Definition round (q : Q) : Z := Qfloor (q + (1 # 2)).

Lemma wrongTrack_truthyId (st : t) (other : string) :
  wrongTrack st other = true → truthyId (currentTrackId st) = true.
Proof. unfold wrongTrack. by intros [? _]%andb_prop. Qed.

Lemma Qfloor_below (q : Q) (n : Z) : (q < inject_Z n)%Q → Qfloor q <= n - 1.
Proof.
  intros Hq. pose proof (Qfloor_le q) as Hfloor.
  assert (inject_Z (Qfloor q) < inject_Z n)%Q as Hlt by (eapply Qle_lt_trans; eauto).
  rewrite <- Zlt_Qlt in Hlt. lia.
Qed.


Definition tone (trackId : string) : BufferMessage :=
  {| bm_trackId := trackId;
     bm_channelData := [[0; 0; 0; 0]];
     bm_sampleRate := 44100;
     bm_numberOfChannels := 1;
     bm_totalSamples := 4 |}.

(** A track is set and a longer buffer of it is scheduled. *)
Definition queued : t :=
  onmessage (onmessage constructor (SET_BUFFER (tone "a")))
            (SCHEDULE_BUFFER_SWITCH (tone "a") (Some 1%Q) None).


(** C2, as amended.  A switch that is performed leaves the clock alone
    and puts the cursor at the floor of [currentTime * sampleRate], a
    product of Numbers with the next buffer's rate, or at the last sample
    of the next buffer when that is smaller.  Below [2 ^ 53] samples the
    floor of the product is the floor of the exact product of the clock
    and the rate, or one more when the product is rounded up to a whole
    number.  So when the time of the switch lies inside the next buffer
    the position after the switch is within one sample of the clock,
    before or after it, which is less than one render quantum.  When the
    time of the switch lies beyond the next buffer the cursor is its last
    sample. *)
Theorem performBufferSwitch_offset (st : t) (nextBuffer : BufferData) :
  scheduledBuffers st !! (currentBufferIndex st + 1)%nat = Some nextBuffer →
  wrongTrack st (bd_trackId nextBuffer) = false →
  let st' := performBufferSwitch st in
  let rate := bd_sampleRate nextBuffer in
  let samples := bd_totalSamples nextBuffer in
  let timeAtSwitch := currentTime st in
  let clock := binary64 timeAtSwitch in
  let position := bufferSourcePosition st' in
  position = Z.min (Qfloor (binary64 (clock * rate))) (samples - 1)
  ∧ sampleRate st' = Some rate
  ∧ totalSamples st' = samples
  ∧ currentTime st' = timeAtSwitch
  ∧ currentBufferIndex st' = S (currentBufferIndex st)
  ∧ posted st' = posted st ++ [BUFFER_SWITCHED (S (currentBufferIndex st))
                                               (bd_duration nextBuffer) timeAtSwitch]
  ∧ ((inject_Z (- 2 ^ 53) < clock * rate)%Q → (clock * rate < inject_Z (2 ^ 53))%Q →
     ((clock * rate < inject_Z samples)%Q →
      Qfloor (clock * rate) <= position <= Qfloor (clock * rate) + 1
      ∧ (clock * rate < inject_Z (position + 1))%Q
      ∧ (inject_Z (position - 1) <= clock * rate)%Q
      ∧ ((0 < rate)%Q →
         (clock < inject_Z position / rate + 1 / rate)%Q
         ∧ (inject_Z position / rate - 1 / rate <= clock)%Q
         ∧ (1 / rate <= inject_Z renderQuantum / rate)%Q))
     ∧ ((inject_Z samples <= clock * rate)%Q → position = samples - 1)).
Proof.
  intros Hnext Htrack. unfold performBufferSwitch. rewrite Hnext, Htrack.
  cbn -[Qfloor Qmult Qdiv Qplus Qminus binary64 Z.pow]. unfold samplesAt.
  set (product := (binary64 (currentTime st) * bd_sampleRate nextBuffer)%Q).
  split_and!; try done.
  intros Hlow Hhigh. split.
  - intros Hinside.
    pose proof (Qfloor_binary64 product Hlow Hhigh) as [Hfloor Hfloor'].
    pose proof (Qfloor_below _ _ Hinside) as Hlast.
    pose proof (Qfloor_le product) as Hexact.
    pose proof (Qlt_floor product) as Hexact'.
    set (position := Z.min (Qfloor (binary64 product)) (bd_totalSamples nextBuffer - 1)).
    assert (Qfloor product <= position <= Qfloor product + 1) as Hposition
      by (subst position; lia).
    assert (product < inject_Z (position + 1))%Q as Hafter.
    { eapply Qlt_le_trans; [exact Hexact' |]. rewrite <- Zle_Qle. lia. }
    assert (inject_Z (position - 1) <= product)%Q as Hbefore.
    { eapply Qle_trans; [| exact Hexact]. rewrite <- Zle_Qle. lia. }
    split; [exact Hposition |]. split; [exact Hafter |]. split; [exact Hbefore |].
    intros Hrate.
    assert (¬ bd_sampleRate nextBuffer == 0)%Q as Hnonzero
      by (intros E; apply (Qlt_not_eq _ _ Hrate); exact (Qeq_sym _ _ E)).
    split_and!.
    + assert (inject_Z position / bd_sampleRate nextBuffer + 1 / bd_sampleRate nextBuffer
              == inject_Z (position + 1) / bd_sampleRate nextBuffer)%Q
        as -> by (rewrite inject_Z_plus; by field).
      by apply Qlt_shift_div_l.
    + assert (inject_Z position / bd_sampleRate nextBuffer - 1 / bd_sampleRate nextBuffer
              == inject_Z (position - 1) / bd_sampleRate nextBuffer)%Q
        as -> by (unfold Z.sub; rewrite inject_Z_plus, inject_Z_opp; by field).
      by apply Qle_shift_div_r.
    + apply Qmult_le_compat_r; [done |].
      apply Qlt_le_weak. by apply Qinv_lt_0_compat.
  - intros Hbeyond.
    pose proof (Qfloor_binary64_above product _ Hlow Hhigh Hbeyond). lia.
Qed.

(** The processor has played 128 frames of a 48 kHz buffer, and a buffer
    of the same track at 44.1 kHz is due since 1/512 s. *)
Definition slower : BufferData :=
  {| bd_trackId := "a";
     bd_channelData := [repeat 0 (Z.to_nat 44100)];
     bd_sampleRate := 44100;
     bd_numberOfChannels := 1;
     bd_totalSamples := 44100;
     bd_duration := 1;
     bd_switchTime := Some (1 # 512)%Q;
     bd_earlyStopTime := None |}.

Definition playingAt (time : Q) : t :=
  {| isPlaying := true; volume := 1; currentTime := time; duration := 2;
     audioChannelData := Some [repeat 0 (Z.to_nat 96000)]; sampleRate := Some 48000%Q;
     numberOfChannels := 1; totalSamples := 96000;
     bufferSourcePosition := Qfloor (time * 48000);
     scheduledBuffers := [slower; slower]; currentBufferIndex := 0;
     nextSwitchTime := bd_switchTime slower;
     currentBufferEarlyStopTime := Some (5 # 4)%Q;
     currentTrackId := Some "a"; hasLoggedEarlyStopContinue := false;
     isIOSSafari := false; iosSampleRate := None;
     posted := [] |}.

Lemma performBufferSwitch_offset_witness :
  scheduledBuffers (playingAt (128 # 48000))
    !! (currentBufferIndex (playingAt (128 # 48000)) + 1)%nat = Some slower
  ∧ wrongTrack (playingAt (128 # 48000)) (bd_trackId slower) = false
  ∧ bufferSourcePosition (performBufferSwitch (playingAt (128 # 48000)))
    = Z.min (Qfloor (binary64 (binary64 (128 # 48000) * 44100))) (44100 - 1).
Proof.
  split_and!; [reflexivity | reflexivity |].
  exact (proj1 (performBufferSwitch_offset (playingAt (128 # 48000)) slower
                  eq_refl eq_refl)).
Defined.

(** The cursor is the floor, 117 of 117.6, where rounding gives 118; and
    two seconds into playback a buffer of one second is entered at its
    last sample, a second before the clock, not at sample 88200.  After
    14720 frames at 48 kHz the clock is the Number nearest to
    14720 / 48000, and its product with 44100 is the Number just below
    13524: the cursor is 13523, where rounding gives 13524, which is also
    the exact product. *)
Lemma switch_offset_is_floored_and_clamped :
  bufferSourcePosition (processSwitch (playingAt (128 # 48000))) = 117
  ∧ round (binary64 (binary64 (128 # 48000) * 44100)) = 118
  ∧ bufferSourcePosition (processSwitch (playingAt 2)) = 44099
  ∧ round (binary64 (binary64 2 * 44100)) = 88200
  ∧ currentTime (processSwitch (playingAt 2)) = 2%Q
  ∧ bufferSourcePosition (processSwitch (playingAt (14720 # 48000))) = 13523
  ∧ round (binary64 (binary64 (14720 # 48000) * 44100)) = 13524
  ∧ Qeq_bool ((14720 # 48000) * 44100) 13524 = true.
Proof. by vm_compute. Qed.

End AudioPlaybackProcessorFacts.
(** ** The chunk store: splitting a buffer and merging it back *)

Module ChunkingFacts.
Import TypedArray TypedArrayFacts AudioChunkStore.
Local Open Scope Z_scope.

(** [chunks.reduce((sum, chunk) => sum + chunk.length, 0)] *)
Definition totalLength (chunks : list AudioChunk) : Z :=
  foldl (λ sum chunk, sum + ch_length chunk) 0 chunks.

(** Samples [offset, offset + count) of a channel. *)
Definition slice (channelData : Float32Array) (offset count : Z) : Float32Array :=
  take (Z.to_nat count) (drop (Z.to_nat offset) channelData).

Lemma foldl_length_from (a : Z) (chunks : list AudioChunk) :
  foldl (λ sum chunk, sum + ch_length chunk) a chunks = a + totalLength chunks.
Proof.
  unfold totalLength. revert a.
  induction chunks as [|c cs IH]; intros a; simpl; [lia |].
  rewrite IH, (IH (0 + _)). lia.
Qed.

Lemma totalLength_cons (c : AudioChunk) (cs : list AudioChunk) :
  totalLength (c :: cs) = ch_length c + totalLength cs.
Proof. unfold totalLength at 1. simpl. rewrite foldl_length_from. lia. Qed.

Lemma take_slice {A : Type} (l : list A) (n m : nat) :
  take n l ++ take m (drop n l) = take (n + m) l.
Proof.
  destruct (decide (n ≤ length l)%nat) as [Hn|Hn].
  - rewrite <- (take_drop n l) at 3.
    rewrite take_app_add' by (rewrite length_take; lia). done.
  - rewrite drop_ge by lia. rewrite !(take_ge l) by lia.
    rewrite take_nil. apply app_nil_r.
Qed.

Lemma length_slice (channelData : Float32Array) (offset count : Z) :
  0 <= offset → 0 <= count → offset + count <= byteLength channelData →
  length (slice channelData offset count) = Z.to_nat count.
Proof.
  unfold slice, byteLength. intros. rewrite length_take, length_drop. lia.
Qed.

(** *** Samples copied as Numbers *)

(** A channel, and a buffer, with every sample copied as a Number. *)
Definition copiedChannel (encoding : Z → Z → Z) (channelData : Float32Array)
    : Float32Array :=
  imap (λ i w, viaNumber (encoding (Z.of_nat i)) w) channelData.

Definition copied (nanEncoding : NaNEncoding) (audioBuffer : AudioBuffer) : AudioBuffer :=
  {| ab_sampleRate := ab_sampleRate audioBuffer;
     ab_length := ab_length audioBuffer;
     ab_numberOfChannels := ab_numberOfChannels audioBuffer;
     ab_channelData :=
       imap (λ c, copiedChannel (nanEncoding c)) (ab_channelData audioBuffer) |}.

(** Two patterns are read as the same Number when they are the same
    pattern or two NaNs. *)
Definition sameNumber (w1 w2 : Z) : bool := (w1 =? w2) || (isNaN32 w1 && isNaN32 w2).

(** Two buffers of the same shape whose samples are the same Numbers. *)
Definition sameSamples (a b : AudioBuffer) : Prop :=
  ab_sampleRate a = ab_sampleRate b
  ∧ ab_length a = ab_length b
  ∧ ab_numberOfChannels a = ab_numberOfChannels b
  ∧ Forall2 (Forall2 (λ w1 w2, sameNumber w1 w2 = true))
            (ab_channelData a) (ab_channelData b).

(** A buffer without a NaN. *)
Definition noNaN (audioBuffer : AudioBuffer) : Prop :=
  Forall (Forall (λ w, isNaN32 w = false)) (ab_channelData audioBuffer).

(** A choice that is a NaN for a NaN, and an engine that stores NaN as a
    NaN. *)
Definition keepsNaN (encoding : Z → Z) : Prop :=
  ∀ w, isNaN32 w = true → isNaN32 (encoding w) = true.

Definition storesNaN (nanEncoding : NaNEncoding) : Prop :=
  ∀ c i, keepsNaN (nanEncoding c i).

(** An engine that makes the same choice everywhere. *)
Definition always (encoding : Z → Z) : NaNEncoding := λ _ _, encoding.

Lemma le_lor (x y : Z) : 0 <= x → 0 <= y → x <= Z.lor x y.
Proof.
  intros Hx Hy. apply Z.ldiff_le; [apply Z.lor_nonneg; lia |].
  apply Z.bits_inj'. intros n Hn.
  rewrite Z.ldiff_spec, Z.lor_spec, Z.bits_0.
  by destruct (Z.testbit x n), (Z.testbit y n).
Qed.

Lemma keepsNaN_quietNaN : keepsNaN quietNaN.
Proof.
  intros w Hw. unfold isNaN32, quietNaN in *.
  apply andb_prop in Hw as [[Hlow%Z.leb_le Hhigh%Z.ltb_lt]%andb_prop Hnan%Z.ltb_lt].
  assert (0 <= Z.lor w 4194304 < 2 ^ 32) as Hrange.
  { split; [apply Z.lor_nonneg; lia |].
    apply Z.log2_lt_pow2; [| rewrite Z.log2_lor by lia].
    - assert (0 <= Z.lor w 4194304) by (apply Z.lor_nonneg; lia).
      assert (Z.lor w 4194304 ≠ 0); [| lia].
      intros Hzero. apply Z.lor_eq_0_iff in Hzero. lia.
    - apply Z.max_lub_lt; [| done].
      destruct (decide (w = 0)) as [-> | Hpos]; [done |].
      apply Z.log2_lt_pow2; lia. }
  apply andb_true_intro. split.
  { apply andb_true_intro. split; [apply Z.leb_le | apply Z.ltb_lt]; lia. }
  apply Z.ltb_lt.
  rewrite <- !Z.land_ones in * by lia.
  rewrite Z.land_lor_distr_l.
  change (Z.land 4194304 (Z.ones 31)) with 4194304.
  assert (0 <= Z.land w (Z.ones 31)) by (apply Z.land_nonneg; lia).
  pose proof (le_lor (Z.land w (Z.ones 31)) 4194304). lia.
Qed.

Lemma keepsNaN_canonicalNaN : keepsNaN canonicalNaN.
Proof. by intros w _. Qed.

Lemma storesNaN_always (encoding : Z → Z) : keepsNaN encoding → storesNaN (always encoding).
Proof. by intros Hkeeps c i. Qed.

Lemma viaNumber_noNaN (encoding : Z → Z) (w : Z) :
  isNaN32 w = false → viaNumber encoding w = w.
Proof. unfold viaNumber. by intros ->. Qed.

Lemma viaNumber_sameNumber (encoding : Z → Z) (w : Z) :
  keepsNaN encoding → sameNumber w (viaNumber encoding w) = true.
Proof.
  intros Hnan. unfold sameNumber, viaNumber. destruct (isNaN32 w) eqn:Hw.
  - rewrite (Hnan w Hw). apply orb_true_r.
  - by rewrite Z.eqb_refl.
Qed.

Lemma imap_same {A : Type} (f : nat → A → A) (l : list A) :
  (∀ i x, l !! i = Some x → f i x = x) → imap f l = l.
Proof.
  intros Hsame. apply list_eq. intros i. rewrite list_lookup_imap.
  destruct (l !! i) as [x|] eqn:Hx; [| done]. simpl. by rewrite (Hsame i x).
Qed.

Lemma Forall2_imap {A : Type} (R : A → A → Prop) (f : nat → A → A) (l : list A) :
  (∀ i x, l !! i = Some x → R x (f i x)) → Forall2 R l (imap f l).
Proof.
  intros Hrel. apply Forall2_same_length_lookup_2; [by rewrite length_imap |].
  intros i x y Hx. rewrite list_lookup_imap, Hx. intros [= <-]. by apply Hrel.
Qed.

(** Without a NaN a copy is the buffer, bit for bit. *)
Lemma copied_noNaN (nanEncoding : NaNEncoding) (audioBuffer : AudioBuffer) :
  noNaN audioBuffer → copied nanEncoding audioBuffer = audioBuffer.
Proof.
  unfold noNaN, copied, copiedChannel. intros Hno.
  destruct audioBuffer as [rate len n data]. simpl in *. f_equal.
  apply imap_same. intros c chan Hchan.
  apply imap_same. intros i w Hw. apply viaNumber_noNaN.
  eapply Forall_lookup_1 in Hno; [| exact Hchan].
  by eapply Forall_lookup_1 in Hno.
Qed.

(** With one its samples are the same Numbers. *)
Lemma copied_sameSamples (nanEncoding : NaNEncoding) (audioBuffer : AudioBuffer) :
  storesNaN nanEncoding → sameSamples audioBuffer (copied nanEncoding audioBuffer).
Proof.
  intros Hnan. unfold sameSamples, copied, copiedChannel. simpl.
  split_and!; try done.
  apply Forall2_imap. intros c chan _.
  apply Forall2_imap. intros i w _.
  apply viaNumber_sameNumber, Hnan.
Qed.

(** What the copy loop makes of a channel. *)
Lemma copySamples_slice (encoding : Z → Z → Z) (channelData : Float32Array)
    (offset count : Z) :
  0 <= offset → 0 <= count → offset + count <= byteLength channelData →
  copySamples encoding channelData offset count
  = slice (copiedChannel encoding channelData) offset count.
Proof.
  unfold copySamples, copiedChannel, slice, byteLength, Float32Array in *.
  intros Hoffset Hcount Hfits.
  apply list_eq. intros i. rewrite !list_lookup_fmap.
  destruct (decide (i < Z.to_nat count)%nat) as [Hi|Hi].
  - rewrite lookup_seqZ_lt by lia. simpl.
    rewrite lookup_take_lt, lookup_drop, list_lookup_imap by done.
    replace (Z.to_nat (offset + (0 + Z.of_nat i))) with (Z.to_nat offset + i)%nat by lia.
    destruct (lookup_lt_is_Some_2 channelData (Z.to_nat offset + i)) as [x Hx]; [lia |].
    rewrite Hx. simpl. do 3 f_equal. lia.
  - rewrite lookup_seqZ_ge, lookup_take_ge by lia. done.
Qed.

(** The loop over the channels that fills [channels], with a choice of
    the engine for each channel. *)
Lemma channels_of_imap (data : list Float32Array)
    (f : nat → Float32Array → Float32Array) :
  mapM (λ c, channelData ← data !! c; Some (f c channelData)) (seq 0 (length data))
  = Some (imap f data).
Proof.
  apply mapM_Some_2, Forall2_same_length_lookup_2.
  - by rewrite length_seq, length_imap.
  - intros i c y [-> _]%lookup_seq. rewrite list_lookup_imap.
    intros (chan & Hchan & ->)%fmap_Some.
    change (0 + i)%nat with i. by rewrite Hchan.
Qed.

(** The channels of a chunk: the copies of the samples are the samples of
    the copy. *)
Lemma copySamples_copied (nanEncoding : NaNEncoding) (audioBuffer : AudioBuffer)
    (offset count : Z) :
  Forall (λ chan, byteLength chan = ab_length audioBuffer) (ab_channelData audioBuffer) →
  0 <= offset → 0 <= count → offset + count <= ab_length audioBuffer →
  imap (λ c chan, copySamples (nanEncoding c) chan offset count)
       (ab_channelData audioBuffer)
  = (λ chan, slice chan offset count) <$> ab_channelData (copied nanEncoding audioBuffer).
Proof.
  intros Hsamples Hoffset Hcount Hfits. cbn [ab_channelData copied].
  rewrite fmap_imap. apply imap_ext. intros c chan Hchan. simpl.
  eapply Forall_lookup_1 in Hsamples; [| exact Hchan]. simpl in Hsamples.
  apply copySamples_slice; lia.
Qed.

(** The loop over the channels that writes a chunk into the buffer: when
    the write into each channel succeeds, all of them are written. *)
Lemma setChannels_all (chunk : AudioChunk) (offset : Z)
    (f h g : Float32Array → Float32Array) (post pre : list Float32Array) :
  ch_channels chunk = h <$> (pre ++ post) →
  (∀ chan, chan ∈ post → set (f chan) (h chan) offset = Some (g chan)) →
  setChannels ((g <$> pre) ++ (f <$> post)) chunk offset
              (seq (length pre) (length post))
  = Some (g <$> (pre ++ post)).
Proof.
  revert pre. induction post as [|x post IH]; intros pre Hch Hset; simpl.
  - by rewrite !app_nil_r.
  - rewrite list_lookup_middle by (by rewrite length_fmap). simpl.
    rewrite Hch, fmap_app, fmap_cons.
    rewrite list_lookup_middle by (by rewrite length_fmap). simpl.
    rewrite Hset by left. simpl.
    rewrite insert_app_r_alt by (rewrite length_fmap; lia).
    rewrite length_fmap, Nat.sub_diag. simpl.
    specialize (IH (pre ++ [x])).
    rewrite length_app, <- (app_assoc pre [x] post), (fmap_app g pre [x]) in IH.
    rewrite <- app_assoc in IH. simpl in IH.
    rewrite Nat.add_1_r in IH. apply IH; [done |].
    intros chan Hchan. apply Hset. by right.
Qed.

Lemma setChannels_fmap (chunk : AudioChunk) (offset : Z)
    (f h g : Float32Array → Float32Array) (data : list Float32Array) :
  ch_channels chunk = h <$> data →
  (∀ chan, chan ∈ data → set (f chan) (h chan) offset = Some (g chan)) →
  setChannels (f <$> data) chunk offset (seq 0 (length data)) = Some (g <$> data).
Proof. intros Hch Hset. by apply (setChannels_all chunk offset f h g data []). Qed.

Lemma mergeLoop_cons (numberOfChannels : Z) (target : list Float32Array) (offset : Z)
    (chunk : AudioChunk) (rest : list AudioChunk) :
  mergeLoop numberOfChannels target offset (chunk :: rest)
  = target' ← setChannels target chunk offset (seq 0 (Z.to_nat numberOfChannels));
    mergeLoop numberOfChannels target' (offset + ch_length chunk) rest.
Proof. done. Qed.

(** Writing samples [offset, offset + count) of a channel into a buffer
    that holds the samples before [offset]. *)
Lemma set_slice (channelData : Float32Array) (total offset count : Z) :
  0 <= offset → 0 <= count → offset + count <= total →
  byteLength channelData = total →
  set (take (Z.to_nat offset) channelData ++ repeat 0 (Z.to_nat (total - offset)))
      (slice channelData offset count) offset
  = Some (take (Z.to_nat (offset + count)) channelData
          ++ repeat 0 (Z.to_nat (total - (offset + count)))).
Proof.
  intros Hoffset Hcount Hfits Hlen.
  replace (Z.to_nat (total - offset))
    with (Z.to_nat count + Z.to_nat (total - (offset + count)))%nat by lia.
  rewrite repeat_app.
  pose proof (set_middle (take (Z.to_nat offset) channelData)
                (repeat 0 (Z.to_nat count))
                (repeat 0 (Z.to_nat (total - (offset + count))))
                (slice channelData offset count)) as Hset.
  replace (byteLength (take (Z.to_nat offset) channelData)) with offset in Hset
    by (unfold byteLength in *; rewrite length_take; lia).
  rewrite Hset by (rewrite repeat_length; apply length_slice; lia).
  rewrite app_assoc. unfold slice. rewrite take_slice.
  by rewrite Z2Nat.inj_add.
Qed.

Section RoundTrip.
Variables (audioBuffer : AudioBuffer) (trackId : string) (samplesPerChunk : Z).

Local Notation "'data'" := (ab_channelData audioBuffer).
Local Notation "'total'" := (ab_length audioBuffer).

Hypothesis Hchunk : 1 <= samplesPerChunk.
Hypothesis Hchannels : length data = Z.to_nat (ab_numberOfChannels audioBuffer).
Hypothesis Hsamples : Forall (λ chan, byteLength chan = total) data.

(** The buffer under construction when the samples before [offset] have
    been written. *)
Definition merged (offset : Z) : list Float32Array :=
  (λ chan, take (Z.to_nat offset) chan ++ repeat 0 (Z.to_nat (total - offset)))
    <$> data.

(** What chunk [k] is. *)
Definition covers (k : Z) (chunk : AudioChunk) : Prop :=
  k * samplesPerChunk < total
  ∧ ch_chunkIndex chunk = k
  ∧ ch_id chunk = chunkId trackId k
  ∧ ch_trackId chunk = trackId
  ∧ ch_sampleRate chunk = ab_sampleRate audioBuffer
  ∧ ch_length chunk = Z.min samplesPerChunk (total - k * samplesPerChunk)
  ∧ ch_channels chunk
    = (λ chan, slice chan (k * samplesPerChunk) (ch_length chunk)) <$> data.

Lemma mergeLoop_chunk (k : Z) (chunk : AudioChunk) (rest : list AudioChunk) :
  0 <= k → covers k chunk →
  mergeLoop (ab_numberOfChannels audioBuffer) (merged (k * samplesPerChunk))
            (k * samplesPerChunk) (chunk :: rest)
  = mergeLoop (ab_numberOfChannels audioBuffer)
              (merged (k * samplesPerChunk + ch_length chunk))
              (k * samplesPerChunk + ch_length chunk) rest.
Proof.
  intros Hk (Hin & _ & _ & _ & _ & Hlen & Hch).
  rewrite mergeLoop_cons, <- Hchannels. unfold merged at 1.
  rewrite (setChannels_fmap chunk (k * samplesPerChunk) _
    (λ chan, slice chan (k * samplesPerChunk) (ch_length chunk))
    (λ chan, take (Z.to_nat (k * samplesPerChunk + ch_length chunk)) chan
             ++ repeat 0 (Z.to_nat (total - (k * samplesPerChunk + ch_length chunk)))));
    [done | done |].
  intros chan Hchan. apply set_slice; try nia.
  by eapply Forall_forall in Hsamples.
Qed.

Lemma merged_0 :
  merged 0
  = repeat (repeat 0 (Z.to_nat total)) (Z.to_nat (ab_numberOfChannels audioBuffer)).
Proof.
  unfold merged. rewrite <- Hchannels. rewrite Z.sub_0_r.
  clear. induction data as [|chan chans IH]; simpl; [done |]. by rewrite <- IH.
Qed.

Lemma merged_total : merged total = data.
Proof.
  unfold merged. rewrite Z.sub_diag. simpl.
  rewrite <- (list_fmap_id data) at 2.
  apply Forall_fmap_ext_1. eapply Forall_impl; [exact Hsamples |].
  intros chan Hchan. unfold byteLength in Hchan. simpl in Hchan. simpl.
  rewrite app_nil_r, take_ge by lia. done.
Qed.

End RoundTrip.

(** *** Splitting, then merging *)

Section Split.
Variables (nanEncoding : NaNEncoding) (audioBuffer : AudioBuffer) (trackId : string).
Variable samplesPerChunk : Z.

Local Notation "'data'" := (ab_channelData audioBuffer).
Local Notation "'total'" := (ab_length audioBuffer).
Local Notation "'image'" := (copied nanEncoding audioBuffer).

Hypothesis Hchunk : 1 <= samplesPerChunk.
Hypothesis Hchannels : length data = Z.to_nat (ab_numberOfChannels audioBuffer).
Hypothesis Hsamples : Forall (λ chan, byteLength chan = total) data.

Lemma copied_channels :
  length (ab_channelData image) = Z.to_nat (ab_numberOfChannels image).
Proof. simpl. by rewrite length_imap. Qed.

Lemma copied_samples :
  Forall (λ chan, byteLength chan = ab_length image) (ab_channelData image).
Proof.
  simpl. apply Forall_lookup_2. intros c chan'. rewrite list_lookup_imap.
  intros (chan & Hchan & ->)%fmap_Some.
  eapply Forall_lookup_1 in Hsamples; [| exact Hchan]. simpl in Hsamples.
  unfold byteLength, copiedChannel in *. by rewrite length_imap.
Qed.

Lemma chunksFrom_done (fuel : nat) (offset : Z) :
  total <= offset →
  chunksFrom nanEncoding fuel audioBuffer trackId samplesPerChunk total offset = Some [].
Proof.
  intros Hdone. destruct fuel; simpl;
    by destruct (Z.ltb_spec offset total); [lia |].
Qed.

(** The chunks hold the samples of the copy, and merged they are the
    copy. *)
Lemma roundtrip_from (fuel : nat) (k : Z) :
  0 <= k → k * samplesPerChunk <= total →
  total - k * samplesPerChunk <= Z.of_nat fuel →
  ∃ chunks,
    chunksFrom nanEncoding fuel audioBuffer trackId samplesPerChunk total
               (k * samplesPerChunk)
    = Some chunks
    ∧ mergeLoop (ab_numberOfChannels audioBuffer) (merged image (k * samplesPerChunk))
                (k * samplesPerChunk) chunks
      = Some (merged image total)
    ∧ totalLength chunks = total - k * samplesPerChunk
    ∧ ∀ j chunk, chunks !! j = Some chunk →
                 covers image trackId samplesPerChunk (k + Z.of_nat j) chunk.
Proof.
  revert k. induction fuel as [|fuel IH]; intros k Hk Hbelow Hfuel.
  - exists []. rewrite chunksFrom_done by lia.
    replace (k * samplesPerChunk) with total by lia.
    split_and!; [done | done | unfold totalLength; simpl; lia | done].
  - destruct (decide (total <= k * samplesPerChunk)) as [Hdone|Hmore].
    { exists []. rewrite chunksFrom_done by lia.
      replace (k * samplesPerChunk) with total by lia.
      split_and!; [done | done | unfold totalLength; simpl; lia | done]. }
    cbn [chunksFrom]. destruct (Z.ltb_spec (k * samplesPerChunk) total); [| lia].
    rewrite <- Hchannels, channels_of_imap. cbn [mbind option_bind].
    rewrite Z.div_mul by lia.
    set (count := Z.min samplesPerChunk (total - k * samplesPerChunk)).
    set (chunk := {| ch_id := chunkId trackId k; ch_trackId := trackId;
                     ch_chunkIndex := k; ch_sampleRate := ab_sampleRate audioBuffer;
                     ch_length := count;
                     ch_channels :=
                       imap (λ c chan, copySamples (nanEncoding c) chan
                                                   (k * samplesPerChunk) count)
                            data |}).
    assert (covers image trackId samplesPerChunk k chunk) as Hcovers.
    { split_and!; try done. cbn [ch_channels chunk ch_length].
      apply copySamples_copied; [done | subst count; lia ..]. }
    pose proof (mergeLoop_chunk image trackId samplesPerChunk Hchunk
                  copied_channels copied_samples) as Hstep.
    cbn [ab_numberOfChannels ab_length copied] in Hstep.
    destruct (decide ((k + 1) * samplesPerChunk <= total)) as [Hnext|Hlast].
    + destruct (IH (k + 1)) as (rest & Hrest & Hmerge & Hsum & Hrestcovers); [lia .. |].
      replace (k * samplesPerChunk + samplesPerChunk)
        with ((k + 1) * samplesPerChunk) by lia.
      rewrite Hrest. cbn [mbind option_bind]. exists (chunk :: rest).
      split_and!; [done | | |].
      * rewrite Hstep by done.
        replace (k * samplesPerChunk + ch_length chunk)
          with ((k + 1) * samplesPerChunk) by (simpl; subst count; lia).
        done.
      * rewrite totalLength_cons, Hsum. simpl. subst count. lia.
      * intros [|j] c Hc; simpl in Hc.
        -- injection Hc as <-. by rewrite Z.add_0_r.
        -- apply Hrestcovers in Hc.
           by replace (k + Z.of_nat (S j)) with (k + 1 + Z.of_nat j) by lia.
    + rewrite chunksFrom_done by lia. cbn [mbind option_bind]. exists [chunk].
      split_and!; [done | | |].
      * rewrite Hstep by done.
        replace (k * samplesPerChunk + ch_length chunk) with total
          by (simpl; subst count; lia).
        done.
      * rewrite totalLength_cons. unfold totalLength. simpl. subst count. lia.
      * intros [|j] c Hc; simpl in Hc; [| done].
        injection Hc as <-. by rewrite Z.add_0_r.
Qed.

End Split.

(** C10.  An [AudioBuffer] has at least one channel and one frame, and
    each of its channels has [length] samples.  When a chunk has room for
    a frame, and the metadata give the channels and the rate of the
    buffer, [mergeChunks] of [audioBufferToChunks] is the buffer with
    every sample copied as a Number: the buffer again, bit for bit, when
    no sample is a NaN, and in every case (on an engine that stores NaN
    as a NaN) a buffer of the same shape whose samples are the same
    Numbers as those of the original, a NaN for a NaN.  The lengths of
    the chunks add up to the length of the buffer; chunk [k] has index
    [k] and holds, for each channel, the samples from
    [k * samplesPerChunk] on, [samplesPerChunk] of them or as many as
    remain; and every chunk that is followed by another has
    [samplesPerChunk] samples. *)
Theorem mergeChunks_audioBufferToChunks (nanEncoding : NaNEncoding) (chunkSize : Z)
    (audioBuffer : AudioBuffer) (trackId : string) (metadata : AudioMetadata) :
  1 <= ab_numberOfChannels audioBuffer →
  1 <= ab_length audioBuffer →
  length (ab_channelData audioBuffer) = Z.to_nat (ab_numberOfChannels audioBuffer) →
  Forall (λ chan, byteLength chan = ab_length audioBuffer) (ab_channelData audioBuffer) →
  ab_numberOfChannels audioBuffer * 4 <= chunkSize →
  md_numberOfChannels metadata = ab_numberOfChannels audioBuffer →
  md_sampleRate metadata = ab_sampleRate audioBuffer →
  let samplesPerChunk := chunkSize / (ab_numberOfChannels audioBuffer * 4) in
  ∃ chunks result,
    audioBufferToChunks nanEncoding chunkSize audioBuffer trackId = Some chunks
    ∧ mergeChunks chunks metadata = Some result
    ∧ result = copied nanEncoding audioBuffer
    ∧ (noNaN audioBuffer → result = audioBuffer)
    ∧ (storesNaN nanEncoding → sameSamples audioBuffer result)
    ∧ totalLength chunks = ab_length audioBuffer
    ∧ ∀ k chunk, chunks !! k = Some chunk →
        ch_chunkIndex chunk = Z.of_nat k
        ∧ 1 <= ch_length chunk
        ∧ ch_length chunk
          = Z.min samplesPerChunk (ab_length audioBuffer - Z.of_nat k * samplesPerChunk)
        ∧ ((S k < length chunks)%nat → ch_length chunk = samplesPerChunk)
        ∧ ch_channels chunk
          = (λ chan, slice chan (Z.of_nat k * samplesPerChunk) (ch_length chunk))
              <$> ab_channelData result.
Proof.
  intros Hn Htotal Hchannels Hsamples Hroom Hmdn Hmdrate samplesPerChunk.
  assert (1 <= samplesPerChunk) as Hchunk
    by (subst samplesPerChunk; apply Z.div_le_lower_bound; lia).
  destruct (roundtrip_from nanEncoding audioBuffer trackId samplesPerChunk Hchunk
              Hchannels Hsamples (Z.to_nat (ab_length audioBuffer)) 0)
    as (chunks & Hchunks & Hmerge & Hsum & Hcovers); [lia .. |].
  change (0 * samplesPerChunk) with 0 in Hchunks, Hmerge, Hsum.
  rewrite Z.sub_0_r in Hsum.
  exists chunks, (copied nanEncoding audioBuffer).
  split_and!; [done | | done | | | done |].
  - unfold mergeChunks. fold (totalLength chunks). rewrite Hsum, Hmdn, Hmdrate.
    unfold createBuffer.
    destruct (Z.ltb_spec (ab_numberOfChannels audioBuffer) 1); [lia |].
    destruct (Z.ltb_spec (ab_length audioBuffer) 1); [lia |]. simpl.
    pose proof (merged_0 (copied nanEncoding audioBuffer)
                  (copied_channels nanEncoding audioBuffer Hchannels)) as Hzero.
    cbn [ab_length ab_numberOfChannels copied] in Hzero.
    rewrite <- Hzero, Hmerge. simpl.
    pose proof (merged_total (copied nanEncoding audioBuffer)) as Htotal'.
    cbn [ab_length copied] in Htotal'.
    by rewrite Htotal'
      by first [by apply copied_channels | by apply copied_samples].
  - apply copied_noNaN.
  - apply copied_sameSamples.
  - intros k chunk Hk.
    destruct (Hcovers k chunk Hk) as (Hin & Hindex & _ & _ & _ & Hlen & Hch).
    rewrite Z.add_0_l in *. cbn [ab_length ab_channelData copied] in *.
    split_and!; [done | lia | done | | done].
    intros Hlater.
    destruct (lookup_lt_is_Some_2 chunks (S k) Hlater) as [next Hnext].
    destruct (Hcovers (S k) next Hnext) as (Hin' & _).
    cbn [ab_length copied] in Hin'. lia.
Qed.

(** Two channels of five samples in chunks of 16 bytes, two samples a
    channel: three chunks of two, two and one sample. *)
Definition stereo : AudioBuffer :=
  {| ab_sampleRate := 44100;
     ab_length := 5;
     ab_numberOfChannels := 2;
     ab_channelData := [[1; 2; 3; 4; 5]; [6; 7; 8; 9; 10]] |}.

Definition stereoMetadata : AudioMetadata :=
  {| md_trackId := "a"; md_name := "a"; md_duration := 5 / 44100;
     md_sampleRate := 44100; md_numberOfChannels := 2; md_totalChunks := 3;
     md_lastAccessed := 0; md_fileSize := 40; md_url := "a.wav" |}.

Example audioBufferToChunks_stereo :
  (λ chunk, (ch_chunkIndex chunk, ch_length chunk, ch_channels chunk))
    <$> default [] (audioBufferToChunks (always quietNaN) 16 stereo "a")
  = [(0, 2, [[1; 2]; [6; 7]]); (1, 2, [[3; 4]; [8; 9]]); (2, 1, [[5]; [10]])].
Proof. reflexivity. Qed.

(** A signalling NaN, 1.0 and a quiet NaN with a payload: what comes back
    on an engine that sets the quiet bit, on one that has one NaN, and on
    one that sets the quiet bit of the first sample only. *)
Definition withNaN : AudioBuffer :=
  {| ab_sampleRate := 44100;
     ab_length := 3;
     ab_numberOfChannels := 1;
     ab_channelData := [[0x7F800001; 0x3F800000; 0xFFC00123]] |}.

Definition withNaNMetadata : AudioMetadata :=
  {| md_trackId := "n"; md_name := "n"; md_duration := 3 / 44100;
     md_sampleRate := 44100; md_numberOfChannels := 1; md_totalChunks := 1;
     md_lastAccessed := 0; md_fileSize := 12; md_url := "n.wav" |}.

Example mergeChunks_withNaN :
  (chunks ← audioBufferToChunks (always quietNaN) 8 withNaN "n";
   ab_channelData <$> mergeChunks chunks withNaNMetadata)
  = Some [[0x7FC00001; 0x3F800000; 0xFFC00123]]
  ∧ (chunks ← audioBufferToChunks (always canonicalNaN) 8 withNaN "n";
     ab_channelData <$> mergeChunks chunks withNaNMetadata)
    = Some [[0x7FC00000; 0x3F800000; 0x7FC00000]]
  ∧ (chunks ← audioBufferToChunks
                (λ c i, if i =? 0 then quietNaN else canonicalNaN) 8 withNaN "n";
     ab_channelData <$> mergeChunks chunks withNaNMetadata)
    = Some [[0x7FC00001; 0x3F800000; 0x7FC00000]].
Proof. split_and!; reflexivity. Qed.

Lemma mergeChunks_audioBufferToChunks_witness :
  ∃ chunks,
    audioBufferToChunks (always quietNaN) 16 stereo "a" = Some chunks
    ∧ mergeChunks chunks stereoMetadata = Some stereo
    ∧ totalLength chunks = 5.
Proof.
  destruct (mergeChunks_audioBufferToChunks (always quietNaN) 16 stereo "a"
              stereoMetadata)
    as (chunks & result & Hchunks & Hmerge & -> & _ & _ & Hsum & _);
    [simpl; lia | simpl; lia | reflexivity | by repeat constructor | simpl; lia
    | reflexivity | reflexivity |].
  exists chunks. by split_and!.
Defined.

End ChunkingFacts.

(** * Further properties *)

(** ** The assembler: fragments that arrive out of order *)

Module StreamingAssemblerArrival.
Import TypedArray StreamingAssembler StreamingAssemblerFacts.
Local Open Scope Z_scope.

(** A state is determined by what it represents and by its pending
    fragments. *)
Lemma Repr_unique opts total g st st' :
  Repr opts total g st → Repr opts total g st' →
  downloadChunks st = downloadChunks st' → st = st'.
Proof.
  intros [] [] Hpending. destruct st, st'. simpl in *. congruence.
Qed.

Section Arrival.
Variables (opts : StreamingAssemblerOptions) (total : Z).
Variable frags : list DownloadChunk.

(** The fragments with an index in [arrived] have been added: those
    before [k] have been processed, in order, and [downloadChunks] holds
    the others. *)
Record Arrived (arrived : gset nat) (k : nat) (st : t) : Prop := {
  arrived_repr : Repr opts total (foldl (refStep opts total) ([], []) (take k frags)) st;
  arrived_pending : ∀ i, downloadChunks st !! i
                         = if decide (i ∈ arrived ∧ (k ≤ i)%nat) then frags !! i else None;
  arrived_before : ∀ i, (i < k)%nat → i ∈ arrived;
  arrived_bound : ∀ i, i ∈ arrived → (i < length frags)%nat
}.

Lemma Arrived_le arrived k st : Arrived arrived k st → (k ≤ length frags)%nat.
Proof.
  intros H. destruct k as [|k]; [lia |].
  pose proof (arrived_bound _ _ _ H k (arrived_before _ _ _ H k ltac:(lia))). lia.
Qed.

Lemma Arrived_next arrived k st :
  Arrived arrived k st → getNextSequentialIndex st = k.
Proof.
  intros H. rewrite (Repr_getNextSequentialIndex _ _ _ _ (arrived_repr _ _ _ H)).
  rewrite processed_foldl. simpl. rewrite length_take.
  pose proof (Arrived_le _ _ _ H). lia.
Qed.

(** The loop of [processAvailableChunks] processes the pending
    fragments that follow the processed ones without a gap, and stops at
    the first index that has not arrived. *)
Lemma Arrived_processLoop (pending : nat) arrived k st :
  pending = size (downloadChunks st) →
  Arrived arrived k st →
  ∃ st' k', processLoop pending st k = Some st'
            ∧ Arrived arrived k' st' ∧ k' ∉ arrived.
Proof.
  revert k st. induction pending as [|pending IH]; intros k st Hsize H.
  - exists st, k. split; [done |]. split; [done |].
    intros Hk. symmetry in Hsize. apply map_size_empty_iff in Hsize.
    pose proof (arrived_pending _ _ _ H k) as Hlookup.
    rewrite Hsize, lookup_empty in Hlookup.
    rewrite decide_True in Hlookup by done.
    pose proof (arrived_bound _ _ _ H k Hk) as Hlt.
    apply lookup_lt_is_Some_2 in Hlt as [c Hc]. congruence.
  - simpl. pose proof (arrived_pending _ _ _ H k) as Hlookup.
    destruct (decide (k ∈ arrived ∧ (k ≤ k)%nat)) as [[Hk _]|Hk].
    + pose proof (arrived_bound _ _ _ H k Hk) as Hlt.
      apply lookup_lt_is_Some_2 in Hlt as [c Hc].
      rewrite Hlookup, Hc.
      destruct (Repr_processDownloadChunk _ _ _ _ c (arrived_repr _ _ _ H))
        as (st1 & -> & H1 & Hsame).
      simpl. apply IH.
      * simpl. rewrite Hsame, map_size_delete_Some, <- Hsize; [done |].
        rewrite Hlookup, Hc. by eexists.
      * constructor.
        -- apply Repr_setDownloadChunks.
           rewrite (take_S_r _ _ _ Hc), foldl_app. done.
        -- intros i. simpl. rewrite Hsame.
           destruct (decide (i = k)) as [->|Hne].
           ++ rewrite lookup_delete_eq.
              rewrite decide_False; [done | lia].
           ++ rewrite lookup_delete_ne by done.
              rewrite (arrived_pending _ _ _ H i).
              destruct (decide (i ∈ arrived ∧ (k ≤ i)%nat)) as [[? ?]|Hn].
              ** rewrite decide_True; [done | split; [done | lia]].
              ** rewrite decide_False; [done |]. intros [? ?]. apply Hn.
                 split; [done | lia].
        -- intros i Hi. destruct (decide (i = k)) as [->|Hne]; [done |].
           apply (arrived_before _ _ _ H). lia.
        -- apply (arrived_bound _ _ _ H).
    + rewrite Hlookup. exists st, k. split; [done |]. split; [done |].
      intros Hin. apply Hk. done.
Qed.

(** One fragment arrives. *)
Lemma Arrived_addDownloadChunk arrived k st c :
  Arrived arrived k st →
  frags !! dc_index c = Some c →
  dc_index c ∉ arrived →
  ∃ st' k', addDownloadChunk st c = Some st'
            ∧ Arrived (arrived ∪ {[dc_index c]}) k' st'
            ∧ k' ∉ arrived ∪ {[dc_index c]}.
Proof.
  intros H Hc Hnew. unfold addDownloadChunk, processAvailableChunks.
  assert (Arrived (arrived ∪ {[dc_index c]}) k
            (setDownloadChunks st (<[dc_index c := c]> (downloadChunks st)))) as H'.
  { constructor.
    - apply Repr_setDownloadChunks, (arrived_repr _ _ _ H).
    - intros i. simpl. destruct (decide (i = dc_index c)) as [->|Hne].
      + rewrite lookup_insert_eq. rewrite decide_True; [done |].
        split; [set_solver |].
        destruct (decide (k ≤ dc_index c)%nat) as [|Hlt]; [done |].
        exfalso. apply Hnew, (arrived_before _ _ _ H). lia.
      + rewrite lookup_insert_ne by done.
        rewrite (arrived_pending _ _ _ H i).
        destruct (decide (i ∈ arrived ∧ (k ≤ i)%nat)) as [[? ?]|Hn].
        * rewrite decide_True; [done | split; [set_solver | done]].
        * rewrite decide_False; [done |]. intros [Hin ?]. apply Hn.
          split; [set_solver | done].
    - intros i Hi. apply elem_of_union_l, (arrived_before _ _ _ H), Hi.
    - intros i [Hi| ->%elem_of_singleton]%elem_of_union.
      + by apply (arrived_bound _ _ _ H).
      + by apply lookup_lt_Some in Hc. }
  rewrite (Arrived_next _ _ _ H').
  by apply Arrived_processLoop.
Qed.

Lemma Arrived_addAll (arrivals : list DownloadChunk) arrived k st :
  Arrived arrived k st →
  NoDup (dc_index <$> arrivals) →
  (∀ c, c ∈ arrivals → frags !! dc_index c = Some c ∧ dc_index c ∉ arrived) →
  ∃ st' k', addAll st arrivals = Some st'
            ∧ Arrived (arrived ∪ list_to_set (dc_index <$> arrivals)) k' st'
            ∧ (arrivals ≠ [] → k' ∉ arrived ∪ list_to_set (dc_index <$> arrivals)).
Proof.
  revert arrived k st. induction arrivals as [|c arrivals IH]; intros arrived k st H Hnodup Hin.
  - exists st, k. simpl. split; [done |]. split; [| done].
    by rewrite union_empty_r_L.
  - simpl in Hnodup. apply NoDup_cons in Hnodup as [Hc Hnodup].
    destruct (Hin c ltac:(left)) as [Hfc Hnew].
    destruct (Arrived_addDownloadChunk _ _ _ c H Hfc Hnew) as (st1 & k1 & Hadd & H1 & Hk1).
    cbn [addAll]. rewrite Hadd. cbn [mbind option_bind].
    destruct (IH _ _ _ H1 Hnodup) as (st' & k' & Hall & H' & Hk').
    { intros c' Hc'. destruct (Hin c' ltac:(by right)) as [? ?]. split; [done |].
      intros [?| Heq%elem_of_singleton]%elem_of_union; [done |].
      apply Hc. rewrite <- Heq. by apply list_elem_of_fmap_2. }
    rewrite fmap_cons, list_to_set_cons, (assoc_L (∪)).
    destruct arrivals as [|c2 arrivals].
    + injection Hall as <-. exists st1, k1.
      rewrite fmap_nil, list_to_set_nil, union_empty_r_L. done.
    + exists st', k'. split; [done |]. split; [done |]. intros _. by apply Hk'.
Qed.

End Arrival.

(** X1.  The order of arrival does not matter.  When the fragments of
    a download carry the indices 0, 1, ..., n-1, adding them in any
    order, each once, and then calling [finalize] leaves the assembler in
    the state that adding them in the order of their indices leaves it
    in: the same blocks with the same bytes, the same calls of the
    callbacks in the same order, and nothing pending. *)
Theorem arrival_order_is_irrelevant (opts : StreamingAssemblerOptions) (total : Z)
    (frags arrivals : list DownloadChunk) :
  dc_index <$> frags = seq 0 (length frags) →
  arrivals ≡ₚ frags →
  ∃ st, assemble opts total arrivals = Some st
        ∧ assemble opts total frags = Some st
        ∧ concat (ac_data <$> getAssembledChunks st) = payload frags
        ∧ downloadChunks st = ∅.
Proof.
  intros Hindex Hperm.
  destruct (assemble_in_order opts total frags) as (st & Hst & Hrepr & Hempty);
    [done |].
  assert (Arrived opts total frags ∅ 0 (initialize (constructor opts) total)) as H0.
  { constructor.
    - apply Repr_initialize.
    - intros i. simpl. rewrite lookup_empty. by rewrite decide_False by set_solver.
    - intros i Hi. lia.
    - intros i Hi. set_solver. }
  assert (NoDup (dc_index <$> frags)) as Hnodup by (rewrite Hindex; apply NoDup_seq).
  destruct (Arrived_addAll opts total frags arrivals ∅ 0 _ H0)
    as (st' & k' & Hall & H' & Hk').
  { by rewrite Hperm. }
  { intros c Hc. split; [| set_solver].
    rewrite Hperm in Hc. apply list_elem_of_lookup in Hc as [i Hi].
    assert (dc_index c = i) as ->; [| done].
    assert ((dc_index <$> frags) !! i = Some (dc_index c)) as Hi'
      by (by rewrite list_lookup_fmap, Hi).
    rewrite Hindex in Hi'. apply lookup_seq in Hi' as [-> _]. done. }
  assert (∀ i, i ∈ (∅ ∪ list_to_set (dc_index <$> arrivals) : gset nat)
               ↔ (i < length frags)%nat) as Hall_in.
  { intros i. rewrite union_empty_l_L, elem_of_list_to_set, Hperm, Hindex.
    rewrite elem_of_seq. lia. }
  assert (k' = length frags) as ->.
  { pose proof (Arrived_le _ _ _ _ _ _ H') as Hle.
    destruct arrivals as [|c arrivals].
    - apply Permutation_nil_l in Hperm. subst frags. simpl in *. lia.
    - destruct (decide (k' = length frags)) as [|Hne]; [done |].
      exfalso. apply Hk'; [done |]. apply Hall_in. lia. }
  assert (downloadChunks st' = ∅) as Hempty'.
  { apply map_eq. intros i. rewrite (arrived_pending _ _ _ _ _ _ H' i), lookup_empty.
    destruct (decide _) as [[Hi Hge]|]; [| done].
    apply Hall_in in Hi. lia. }
  pose proof (arrived_repr _ _ _ _ _ _ H') as Hrepr'.
  rewrite firstn_all in Hrepr'.
  destruct (Repr_finalize _ _ _ _ Hrepr') as [Hfin Hsame].
  assert (finalize st' = st) as Heq.
  { apply (Repr_unique opts total (refBlocks opts total frags, [])); [| done |].
    - unfold refBlocks.
      destruct (refFinal (foldl (refStep opts total) ([], []) frags)) as [blocks cur] eqn:E.
      pose proof (refFinal_pending (foldl (refStep opts total) ([], []) frags)) as Hnil.
      rewrite E in Hnil. simpl in Hnil. subst cur. done.
    - by rewrite Hsame, Hempty', Hempty. }
  exists st. split_and!; [| done | | done].
  - unfold assemble. rewrite Hall. simpl. by rewrite Heq.
  - rewrite (Repr_getAssembledChunks _ _ _ _ Hrepr). simpl.
    pose proof (Sealed_data (refBlocks opts total frags) (Sealed_refBlocks opts total frags)) as Hd.
    rewrite Hd. by rewrite processed_refBlocks.
Qed.

Lemma arrival_order_is_irrelevant_witness :
  let frags := [fragment 0 [x01; x02]; fragment 1 [x03]; fragment 2 [x04; x05; x06]] in
  let arrivals := [fragment 2 [x04; x05; x06]; fragment 0 [x01; x02]; fragment 1 [x03]] in
  ∃ st, assemble {| storageChunkSize := 3; playbackChunkSize := 2 |} 6 arrivals = Some st
        ∧ assemble {| storageChunkSize := 3; playbackChunkSize := 2 |} 6 frags = Some st
        ∧ concat (ac_data <$> getAssembledChunks st) = payload frags
        ∧ downloadChunks st = ∅.
Proof.
  apply (arrival_order_is_irrelevant {| storageChunkSize := 3; playbackChunkSize := 2 |} 6
           [fragment 0 [x01; x02]; fragment 1 [x03]; fragment 2 [x04; x05; x06]]
           [fragment 2 [x04; x05; x06]; fragment 0 [x01; x02]; fragment 1 [x03]]).
  - reflexivity.
  - apply Permutation_sym. etrans; [apply perm_swap |]. apply Permutation_sym.
    etrans; [apply Permutation_cons_append |]. simpl.
    etrans; [apply perm_swap |]. done.
Defined.

End StreamingAssemblerArrival.
(** ** The assembler: the playback-ready event, block sizes and progress *)

Module StreamingAssemblerBlocks.
Import TypedArray TypedArrayFacts StreamingAssembler StreamingAssemblerFacts.
Local Open Scope Z_scope.

(** X2.  In every state reached from [initialize] by calls of
    [addDownloadChunk] and [finalize], [onPlaybackReady] has been called
    once if a block has been sealed and not at all otherwise; the call
    was made for block 0, before any other callback, and block 0 is what
    [getFirstChunk] returns.  Block 0 is the one block flagged
    [canStartPlayback]. *)
Theorem playbackReady_exactly_once (opts : StreamingAssemblerOptions) (total : Z)
    (ops : list Operation) :
  ∃ st, performAll (initialize (constructor opts) total) ops = Some st
        ∧ playbackReadyCalls st = take 1 (getAssembledChunks st)
        ∧ getFirstChunk st = head (getAssembledChunks st)
        ∧ isPlaybackReady st = bool_decide (getAssembledChunks st ≠ [])
        ∧ match getAssembledChunks st with
          | [] => calls st = []
          | b0 :: rest =>
            ac_canStartPlayback b0 = true
            ∧ Forall (λ b, ac_canStartPlayback b = false) rest
            ∧ ∃ later, calls st = onPlaybackReady b0 :: onChunkAssembled b0 :: later
          end.
Proof.
  destruct (Repr_performAll opts total ops ([], []) _
              (Repr_initialize opts total) Sealed_nil)
    as (st & g & Hrun & H & Hs).
  exists st. rewrite (Repr_getAssembledChunks _ _ _ _ H).
  split_and!; [done | | | |].
  - rewrite (Repr_playbackReadyCalls _ _ _ _ H). by apply Sealed_playbackReady.
  - unfold getFirstChunk. rewrite (repr_assembled _ _ _ _ H), lookup_map_seq_0.
    by destruct (g.1).
  - rewrite (repr_ready _ _ _ _ H). by destruct (g.1).
  - destruct (g.1) as [|b0 rest] eqn:Hg.
    + rewrite (repr_calls _ _ _ _ H), Hg. done.
    + pose proof (Sealed_canStartPlayback _ Hs) as Hflags.
      rewrite fmap_cons in Hflags. injection Hflags as Hb0 Hrest. split_and!; [done | |].
      * apply Forall_forall. intros b Hb.
        apply list_elem_of_lookup in Hb as [i Hi].
        assert ((ac_canStartPlayback <$> rest) !! i = Some (ac_canStartPlayback b)) as Hi'
          by (by rewrite list_lookup_fmap, Hi).
        rewrite Hrest, list_lookup_fmap in Hi'.
        destruct (rest !! i); simpl in Hi'; congruence.
      * rewrite <- Hg in Hs. by apply (playbackReady_first opts total g st b0 rest).
Qed.

(** *** The size of a block *)

Section Sizes.
Variables (opts : StreamingAssemblerOptions) (total : Z).

Local Notation "'sealNow'" := (StreamingAssemblerFacts.sealNow opts total).
Local Notation "'refStep'" := (StreamingAssemblerFacts.refStep opts total).

(** A group of fragments is tight when no proper part of it, cut at its
    last fragment, would have been sealed. *)
Definition tight (blocks : list AssemblyChunk) (cur : list DownloadChunk) : Prop :=
  removelast cur ≠ [] → sealNow blocks (removelast cur) = false.

Record Tight (g : list AssemblyChunk * list DownloadChunk) : Prop := {
  tight_cur : g.2 ≠ [] → sealNow g.1 g.2 = false;
  tight_open : tight g.1 g.2;
  tight_blocks : ∀ i b, g.1 !! i = Some b →
                        sealNow (take i g.1) (ac_downloadChunks b) = true
                        ∧ tight (take i g.1) (ac_downloadChunks b)
}.

Lemma Tight_nil : Tight ([], []).
Proof.
  constructor; [done | by intros [] |]. intros i b Hb. simpl in Hb.
  by rewrite lookup_nil in Hb.
Qed.

Lemma Tight_refStep g c : Sealed g.1 → Tight g → Tight (refStep g c).
Proof.
  intros Hs [Hcur Hopen Hblocks]. unfold StreamingAssemblerFacts.refStep.
  destruct (sealNow g.1 (g.2 ++ [c])) eqn:Hseal; constructor; simpl.
  - done.
  - by intros [].
  - intros i b Hi. destruct (decide (i < length g.1)%nat) as [Hlt|Hge].
    + rewrite lookup_app_l in Hi by done. rewrite take_app_le by lia. by apply Hblocks.
    + rewrite lookup_app_r in Hi by lia.
      destruct (i - length g.1)%nat eqn:E; simpl in Hi; [| by destruct n].
      injection Hi as <-. assert (i = length g.1) as -> by lia.
      rewrite take_app_length. simpl. split; [done |].
      unfold tight. rewrite removelast_last. done.
  - done.
  - unfold tight. rewrite removelast_last. done.
  - done.
Qed.

Lemma Tight_foldl g cs : Sealed g.1 → Tight g → Tight (foldl refStep g cs).
Proof.
  revert g. induction cs as [|c cs IH]; intros g Hs H; [done |].
  simpl. apply IH; [by apply Sealed_refStep | by apply Tight_refStep].
Qed.

End Sizes.

Lemma sumZ_nonneg (l : list Z) : Forall (λ x, 0 <= x) l → 0 <= sumZ l.
Proof. induction 1; [done |]. rewrite sumZ_cons. lia. Qed.

Lemma byteLength_payload_sum (cs : list DownloadChunk) :
  byteLength (payload cs) = sumZ ((λ c, byteLength (dc_data c)) <$> cs).
Proof.
  induction cs as [|c cs IH]; [done |].
  change (payload (c :: cs)) with (dc_data c ++ payload cs).
  rewrite byteLength_app, fmap_cons, sumZ_cons, IH. done.
Qed.

Lemma byteLength_payload_removelast (cs : list DownloadChunk) (c : DownloadChunk) :
  last cs = Some c →
  byteLength (payload (removelast cs)) = byteLength (payload cs) - byteLength (dc_data c).
Proof.
  intros Hlast. destruct cs as [|c0 cs] using rev_ind; [done |].
  rewrite last_snoc in Hlast. injection Hlast as ->.
  rewrite removelast_last, payload_snoc, byteLength_app. lia.
Qed.

Lemma byteLength_payload_pos (cs : list DownloadChunk) :
  cs ≠ [] → Forall (λ c, 0 < byteLength (dc_data c)) cs → 0 < byteLength (payload cs).
Proof.
  intros Hne Hpos. destruct cs as [|c cs]; [done |].
  apply Forall_cons in Hpos as [Hc Hcs].
  change (payload (c :: cs)) with (dc_data c ++ payload cs).
  rewrite byteLength_app. pose proof (byteLength_nonneg (payload cs)). lia.
Qed.

Lemma elem_of_concat {A : Type} (x : A) (l : list A) (ls : list (list A)) :
  x ∈ l → l ∈ ls → x ∈ concat ls.
Proof.
  intros Hx Hl. induction Hl as [l ls|l l' ls _ IH]; simpl.
  - by apply elem_of_app; left.
  - apply elem_of_app. right. by apply IH.
Qed.

(** The sizes of the blocks add up to the size of their fragments. *)
Lemma Sealed_sizes (blocks : list AssemblyChunk) :
  Sealed blocks →
  sumZ (ac_totalSize <$> blocks)
  = byteLength (payload (concat (ac_downloadChunks <$> blocks))).
Proof.
  intros Hs. rewrite <- (Sealed_data _ Hs).
  pose proof (Sealed_totalSize _ Hs) as Hsizes. clear Hs.
  induction Hsizes as [|b blocks Hb _ IH]; [done |].
  rewrite !fmap_cons, sumZ_cons, concat_cons, byteLength_app, IH, Hb. done.
Qed.

(** What the blocks of an assembly in order satisfy. *)
Lemma refBlocks_cut_early (opts : StreamingAssemblerOptions) (total : Z)
    (frags : list DownloadChunk) (i : nat) (b : AssemblyChunk) :
  0 < playbackChunkSize opts →
  0 < storageChunkSize opts →
  refBlocks opts total frags !! i = Some b →
  let threshold :=
    if (i =? 0)%nat then playbackChunkSize opts else storageChunkSize opts in
  ∃ lastFragment,
    last (ac_downloadChunks b) = Some lastFragment
    ∧ ac_totalSize b - byteLength (dc_data lastFragment) < threshold
    ∧ 0 <= ac_totalSize b
    ∧ (Forall (λ c, 0 < byteLength (dc_data c)) frags → 0 < ac_totalSize b)
    ∧ (Forall (λ c, 0 < byteLength (dc_data c)) frags →
       byteLength (payload frags) <= total →
       (S i < length (refBlocks opts total frags))%nat →
       threshold <= ac_totalSize b).
Proof.
  intros Hplayback Hstorage Hb. simpl.
  pose proof (Sealed_refBlocks opts total frags) as Hsealed.
  destruct (Hsealed i b Hb) as [Hseal Hne].
  destruct (last (ac_downloadChunks b)) as [lastFragment|] eqn:Hlast;
    [| by apply last_None in Hlast].
  exists lastFragment. split; [done |].
  assert (ac_totalSize b = byteLength (payload (ac_downloadChunks b))) as Hsize
    by (by rewrite Hseal at 1).
  assert (∀ b', b' ∈ refBlocks opts total frags →
                Forall (λ c, 0 < byteLength (dc_data c)) frags →
                0 < ac_totalSize b') as Hpositive.
  { intros b' [j Hb']%list_elem_of_lookup Hpos.
    destruct (Hsealed j b' Hb') as [Hseal' Hne'].
    rewrite Hseal'. simpl. apply byteLength_payload_pos; [done |].
    apply Forall_forall. intros c Hc.
    eapply Forall_forall in Hpos; [done |].
    rewrite <- (processed_refBlocks opts total frags).
    apply (elem_of_concat _ (ac_downloadChunks b')); [done |].
    apply list_elem_of_fmap. exists b'. split; [done |].
    by eapply list_elem_of_lookup_2. }
  (* the blocks are those of the run, and the last one that of [finalize] *)
  set (g := foldl (refStep opts total) ([], []) frags) in *.
  assert (Tight opts total g) as Htight
    by (apply Tight_foldl; [apply Sealed_nil | apply Tight_nil]).
  assert (tight opts total (take i (refBlocks opts total frags)) (ac_downloadChunks b)
          ∧ ((S i < length (refBlocks opts total frags))%nat →
             sealNow opts total (take i (refBlocks opts total frags)) (ac_downloadChunks b)
             = true)) as [Hbelow Hreached].
  { unfold refBlocks, refFinal in *. fold g in Hb, Hsealed |- *.
    destruct (g.2) as [|c cur] eqn:Hcur.
    - destruct (tight_blocks _ _ _ Htight i b Hb) as [? ?]. done.
    - simpl in Hb |- *. destruct (decide (i < length g.1)%nat) as [Hlt|Hge].
      + rewrite lookup_app_l in Hb by done. rewrite take_app_le by lia.
        destruct (tight_blocks _ _ _ Htight i b Hb) as [? ?]. done.
      + rewrite lookup_app_r in Hb by lia.
        destruct (i - length g.1)%nat eqn:E; simpl in Hb; [| by destruct n].
        injection Hb as <-. assert (i = length g.1) as -> by lia.
        rewrite take_app_length. simpl. split.
        * pose proof (tight_open _ _ _ Htight) as Ho. by rewrite Hcur in Ho.
        * rewrite length_app. simpl. lia. }
  assert (ac_totalSize b - byteLength (dc_data lastFragment)
          < (if (i =? 0)%nat then playbackChunkSize opts else storageChunkSize opts))
    as Hless.
  { rewrite Hsize, <- (byteLength_payload_removelast _ _ Hlast).
    destruct (decide (removelast (ac_downloadChunks b) = [])) as [->|Hmore].
    - change (byteLength (payload [])) with 0. by destruct (i =? 0)%nat.
    - specialize (Hbelow Hmore). unfold sealNow in Hbelow.
      pose proof (lookup_lt_Some _ _ _ Hb) as Hi.
      rewrite length_take_le in Hbelow by lia.
      destruct (i =? 0)%nat; [lia |].
      apply orb_false_iff in Hbelow as [? _]. lia. }
  split_and!; [done | rewrite Hsize; apply byteLength_nonneg | |].
  { apply Hpositive. by eapply list_elem_of_lookup_2. }
  intros Hpos Htotal Hnotlast. specialize (Hreached Hnotlast).
  unfold sealNow in Hreached.
  pose proof (lookup_lt_Some _ _ _ Hb) as Hi.
  rewrite length_take_le in Hreached by lia. rewrite <- Hsize in Hreached.
  destruct (i =? 0)%nat; [lia |].
  apply orb_true_iff in Hreached as [? | Hlastblock]; [lia |].
  exfalso.
  (* a later block holds a fragment, which the total has no room for *)
  destruct (lookup_lt_is_Some_2 (refBlocks opts total frags) (S i) Hnotlast) as [b' Hb'].
  pose proof (Sealed_sizes _ Hsealed) as Hsum.
  rewrite processed_refBlocks in Hsum.
  rewrite <- (take_drop_middle _ _ _ Hb') in Hsum at 1.
  rewrite (take_S_r _ _ _ Hb) in Hsum.
  rewrite !fmap_app, !sumZ_app, fmap_cons, sumZ_cons in Hsum. simpl in Hsum.
  assert (0 < ac_totalSize b') as Hb'pos
    by (apply Hpositive; [by eapply list_elem_of_lookup_2 | done]).
  assert (0 <= sumZ (ac_totalSize <$> drop (S (S i)) (refBlocks opts total frags))) as Hrest.
  { apply sumZ_nonneg, Forall_fmap, Forall_forall. intros b'' Hb''.
    apply list_elem_of_lookup in Hb'' as [j Hj]. rewrite lookup_drop in Hj.
    destruct (Hsealed _ _ Hj) as [-> _]. simpl. apply byteLength_nonneg. }
  unfold fmap in Hsum, Hrest, Hlastblock. lia.
Qed.

(** X3.  When the thresholds are positive and the fragments arrive in
    the order of their indices, every block of the finished assembly is
    cut as early as it can be: without its last fragment it is below its
    threshold, the playback chunk size for block 0 and the storage chunk
    size for the others, so a block exceeds its threshold by less than
    one fragment.  When moreover no fragment is empty and the download is
    not longer than the declared total, every block but the last has
    reached its threshold. *)
Theorem block_sizes (opts : StreamingAssemblerOptions) (total : Z)
    (frags : list DownloadChunk) :
  dc_index <$> frags = seq 0 (length frags) →
  0 < playbackChunkSize opts →
  0 < storageChunkSize opts →
  ∃ st, assemble opts total frags = Some st
        ∧ ∀ i b, getAssembledChunks st !! i = Some b →
            let threshold :=
              if (i =? 0)%nat then playbackChunkSize opts else storageChunkSize opts in
            ∃ lastFragment,
              last (ac_downloadChunks b) = Some lastFragment
              ∧ ac_totalSize b - byteLength (dc_data lastFragment) < threshold
              ∧ ac_totalSize b < threshold + byteLength (dc_data lastFragment)
              ∧ (Forall (λ c, 0 < byteLength (dc_data c)) frags →
                 byteLength (payload frags) <= total →
                 (S i < length (getAssembledChunks st))%nat →
                 threshold <= ac_totalSize b).
Proof.
  intros Hindex Hplayback Hstorage.
  destruct (assemble_in_order opts total frags Hindex) as (st & Hst & Hrepr & _).
  exists st. split; [done |].
  rewrite (Repr_getAssembledChunks _ _ _ _ Hrepr). simpl.
  intros i b Hb.
  destruct (refBlocks_cut_early opts total frags i b Hplayback Hstorage Hb)
    as (lastFragment & Hlast & Hless & _ & _ & Hreached).
  exists lastFragment. split_and!; [done | done | lia | done].
Qed.

Lemma block_sizes_witness :
  let frags := [fragment 0 [x01; x02]; fragment 1 [x03]; fragment 2 [x04; x05; x06]] in
  let opts := {| storageChunkSize := 3; playbackChunkSize := 2 |} in
  ∃ st, assemble opts 6 frags = Some st
        ∧ ∀ i b, getAssembledChunks st !! i = Some b →
            let threshold :=
              if (i =? 0)%nat then playbackChunkSize opts else storageChunkSize opts in
            ∃ lastFragment,
              last (ac_downloadChunks b) = Some lastFragment
              ∧ ac_totalSize b - byteLength (dc_data lastFragment) < threshold
              ∧ ac_totalSize b < threshold + byteLength (dc_data lastFragment)
              ∧ (Forall (λ c, 0 < byteLength (dc_data c)) frags →
                 byteLength (payload frags) <= 6 →
                 (S i < length (getAssembledChunks st))%nat →
                 threshold <= ac_totalSize b).
Proof.
  apply (block_sizes {| storageChunkSize := 3; playbackChunkSize := 2 |} 6
           [fragment 0 [x01; x02]; fragment 1 [x03]; fragment 2 [x04; x05; x06]]);
    [reflexivity | simpl; lia | simpl; lia].
Defined.

(** *** Progress reports *)

Definition progressCalls (st : t) : list (Z * option Z) :=
  omap (λ c, match c with onProgress assembled estimated => Some (assembled, estimated)
             | _ => None end) (calls st).

Lemma progressCalls_blocks opts total (blocks : list AssemblyChunk) :
  omap (λ c, match c with onProgress assembled estimated => Some (assembled, estimated)
             | _ => None end) (flat_map (callsOf opts total) blocks)
  = (λ b, (Z.of_nat (S (ac_storageIndex b)), estimate opts total)) <$> blocks.
Proof.
  induction blocks as [|b blocks IH]; [done |].
  simpl. rewrite omap_app, IH. unfold callsOf.
  by destruct (ac_canStartPlayback b).
Qed.

Lemma sumZ_at_least (bound : Z) (l : list Z) :
  Forall (λ x, bound <= x) l → bound * Z.of_nat (length l) <= sumZ l.
Proof.
  induction 1 as [|x l Hx _ IH]; [simpl; lia |].
  rewrite sumZ_cons, length_cons. lia.
Qed.

(** X4.  When the thresholds are positive, no fragment is empty, the
    fragments arrive in the order of their indices and the download is
    not longer than the declared total, [onProgress] is called once for
    each block, with the counts 1, 2, ... and always the same estimate of
    the number of blocks, and the count never exceeds the estimate. *)
Theorem progress_within_estimate (opts : StreamingAssemblerOptions) (total : Z)
    (frags : list DownloadChunk) :
  dc_index <$> frags = seq 0 (length frags) →
  0 < playbackChunkSize opts →
  0 < storageChunkSize opts →
  Forall (λ c, 0 < byteLength (dc_data c)) frags →
  byteLength (payload frags) <= total →
  ∃ st estimated,
    assemble opts total frags = Some st
    ∧ estimatedTotalChunks (initialize (constructor opts) total) = Some estimated
    ∧ progressCalls st
      = (λ k, (Z.of_nat k, Some estimated)) <$> seq 1 (length (getAssembledChunks st))
    ∧ Z.of_nat (length (getAssembledChunks st)) <= estimated.
Proof.
  intros Hindex Hplayback Hstorage Hpos Htotal.
  destruct (assemble_in_order opts total frags Hindex) as (st & Hst & Hrepr & _).
  pose proof (Sealed_refBlocks opts total frags) as Hsealed.
  set (blocks := refBlocks opts total frags) in *.
  assert (∃ estimated, estimate opts total = Some estimated
                       ∧ Z.of_nat (length blocks) <= estimated) as (e & He & Hle).
  { unfold estimate, estimatedTotalChunks. simpl.
    destruct (Z.eqb_spec (storageChunkSize opts) 0); [lia |].
    pose proof (Sealed_sizes _ Hsealed) as Hsum.
    unfold blocks in Hsum. rewrite processed_refBlocks in Hsum. fold blocks in Hsum.
    assert (∀ i b, blocks !! i = Some b →
                   0 < ac_totalSize b
                   ∧ ((S i < length blocks)%nat →
                      (if (i =? 0)%nat then playbackChunkSize opts
                       else storageChunkSize opts) <= ac_totalSize b)) as Hbounds.
    { intros i b Hb.
      destruct (refBlocks_cut_early opts total frags i b Hplayback Hstorage Hb)
        as (_ & _ & _ & _ & Hp & Hreached).
      split; [by apply Hp | by apply Hreached]. }
    assert ((- (Z.max 0 (total - playbackChunkSize opts))) / storageChunkSize opts < 1)
      as Hceil by (apply Z.div_lt_upper_bound; lia).
    destruct blocks as [|b0 rest] eqn:Hblocks.
    { destruct (0 <? total); eexists; (split; [done |]); simpl; lia. }
    destruct (Hbounds 0%nat b0 eq_refl) as [Hb0 Hreach0].
    destruct rest as [|b1 rest' _] using rev_ind.
    { rewrite fmap_cons, sumZ_cons, fmap_nil in Hsum. change (sumZ []) with 0 in Hsum.
      destruct (Z.ltb_spec 0 total); [| lia].
      eexists. split; [done |]. simpl. lia. }
    rewrite length_cons, length_app in *. simpl in *.
    specialize (Hreach0 ltac:(lia)).
    assert (Forall (λ x, storageChunkSize opts <= x) (ac_totalSize <$> rest')) as Hmid.
    { apply Forall_fmap, Forall_forall. intros b [j Hj]%list_elem_of_lookup. simpl.
      destruct (Hbounds (S j) b) as [_ Hr].
      - simpl. by rewrite lookup_app_l by (by eapply lookup_lt_Some).
      - apply Hr. apply lookup_lt_Some in Hj. lia. }
    apply sumZ_at_least in Hmid. rewrite length_fmap in Hmid.
    destruct (Hbounds (S (length rest')) b1) as [Hb1 _].
    { simpl. rewrite lookup_app_r by lia. by rewrite Nat.sub_diag. }
    change (list_fmap AssemblyChunk Z ac_totalSize (rest' ++ [b1]))
      with (ac_totalSize <$> (rest' ++ [b1])) in Hsum.
    rewrite fmap_app, sumZ_app in Hsum. simpl in Hsum.
    unfold fmap in Hsum, Hmid.
    destruct (Z.ltb_spec 0 total); [| lia].
    eexists. split; [done |].
    assert ((- (Z.max 0 (total - playbackChunkSize opts))) / storageChunkSize opts
            < - Z.of_nat (length rest')) as Hdiv.
    { apply Z.div_lt_upper_bound; [done |]. nia. }
    lia. }
  exists st, e. split; [done |]. split; [done |].
  rewrite (Repr_getAssembledChunks _ _ _ _ Hrepr). simpl. split; [| done].
  unfold progressCalls. rewrite (repr_calls _ _ _ _ Hrepr). simpl.
  rewrite progressCalls_blocks, He.
  pose proof (Sealed_storageIndex _ Hsealed) as Hidx.
  rewrite <- (fmap_S_seq 0), <- Hidx, <- !list_fmap_compose. done.
Qed.

Lemma progress_within_estimate_witness :
  let frags := [fragment 0 [x01; x02]; fragment 1 [x03]; fragment 2 [x04; x05; x06]] in
  let opts := {| storageChunkSize := 3; playbackChunkSize := 2 |} in
  ∃ st estimated,
    assemble opts 6 frags = Some st
    ∧ estimatedTotalChunks (initialize (constructor opts) 6) = Some estimated
    ∧ progressCalls st
      = (λ k, (Z.of_nat k, Some estimated)) <$> seq 1 (length (getAssembledChunks st))
    ∧ Z.of_nat (length (getAssembledChunks st)) <= estimated.
Proof.
  apply (progress_within_estimate {| storageChunkSize := 3; playbackChunkSize := 2 |} 6
           [fragment 0 [x01; x02]; fragment 1 [x03]; fragment 2 [x04; x05; x06]]);
    [reflexivity | simpl; lia | simpl; lia | by repeat constructor | by vm_compute].
Defined.

End StreamingAssemblerBlocks.
(** ** DownloadManager.ts: the strategy, the bandwidth estimate and
    [assembleChunks] *)

Module DownloadManagerRest.
Import TypedArray StreamingAssembler DownloadManager.
Local Open Scope Z_scope.

(** [estimatedFileSize] as a condition: [undefined] and 0 are falsy. *)
Definition truthySize (estimatedFileSize : option Z) : bool :=
  match estimatedFileSize with
  | Some n => negb (n =? 0)
  | None => false
  end.

(** [getOptimalStrategy], given the answer of [checkRangeRequestSupport];
    [strategy] is [this.strategy]. *)
Definition getOptimalStrategy (strategy : DownloadStrategy) (isIOSSafari : bool)
    (supportsRanges : bool) (estimatedFileSize : option Z) : DownloadStrategy :=
  if negb supportsRanges then
    let whole := if truthySize estimatedFileSize then default 0 estimatedFileSize
                 else 10 * 1024 * 1024 in
    {| initialChunkSize := whole;
       standardChunkSize := whole;
       maxConcurrentDownloads := 1;
       priorityFirstChunk := false;
       adaptiveChunkSizing := false |}
  else if truthySize estimatedFileSize then
    let estimated := default 0 estimatedFileSize in
    if estimated <? 1024 * 1024 then
      {| initialChunkSize := Z.min (initialChunkSize strategy) (estimated / 3);
         standardChunkSize := Z.min (standardChunkSize strategy) (estimated / 2);
         maxConcurrentDownloads := 2;
         priorityFirstChunk := priorityFirstChunk strategy;
         adaptiveChunkSizing := adaptiveChunkSizing strategy |}
    else if 10 * 1024 * 1024 <? estimated then
      {| initialChunkSize := initialChunkSize strategy;
         standardChunkSize := if isIOSSafari then 512 * 1024 else 1024 * 1024;
         maxConcurrentDownloads := if isIOSSafari then 3 else 6;
         priorityFirstChunk := priorityFirstChunk strategy;
         adaptiveChunkSizing := adaptiveChunkSizing strategy |}
    else strategy
  else strategy.

(** The bandwidth estimate: the samples kept and their average. *)
Record Bandwidth := {
  speedSamples : list Q;
  connectionSpeed : Q
}.

Definition MAX_SPEED_SAMPLES : nat := 5.

Definition average (samples : list Q) : Q :=
  (foldl Qplus 0 samples / inject_Z (Z.of_nat (length samples)))%Q.

(** [updateConnectionSpeed] *)
Definition updateConnectionSpeed (b : Bandwidth) (newSpeed : Q) : Bandwidth :=
  let pushed := speedSamples b ++ [newSpeed] in
  let samples := if (MAX_SPEED_SAMPLES <? length pushed)%nat then drop 1 pushed else pushed in
  {| speedSamples := samples; connectionSpeed := average samples |}.

(** The copy loop of [assembleChunks]. *)
Fixpoint copyChunks (combined : ArrayBuffer) (offset : Z) (sortedChunks : list DownloadChunk)
    : option ArrayBuffer :=
  match sortedChunks with
  | [] => Some combined
  | chunk :: rest =>
    combined' ← set combined (dc_data chunk) offset;
    copyChunks combined' (offset + byteLength (dc_data chunk)) rest
  end.

(** The static [assembleChunks]. *)
Definition assembleChunks (chunks : list DownloadChunk) : option ArrayBuffer :=
  let sortedChunks := AudioChunkStore.sortBy (λ c, Z.of_nat (dc_index c)) chunks in
  let totalSize := foldl (λ sum chunk, sum + byteLength (dc_data chunk)) 0 sortedChunks in
  combined ← alloc x00 totalSize;
  copyChunks combined 0 sortedChunks.

End DownloadManagerRest.

Module DownloadManagerRestFacts.
Import TypedArray TypedArrayFacts StreamingAssembler StreamingAssemblerFacts.
Import DownloadManager DownloadManagerFacts DownloadManagerRest.
Local Open Scope Z_scope.

(** *** The plan *)

Definition chunkLength (info : ChunkInfo) : Z := ci_end info - ci_start info + 1.

(** [Math.ceil(a / b)] for a positive [b]. *)
Definition ceilDiv (a b : Z) : Z := (a + b - 1) / b.

Section Plan.
Variables (strategy : DownloadStrategy) (connectionSpeed : Q) (isIOSSafari : bool).
Variables (totalSize adapted : Z).
Hypothesis Hadapted : adaptedChunkSize strategy connectionSpeed isIOSSafari = Some adapted.
Hypothesis Hpositive : 0 < adapted.

Lemma subsequentChunks_tiles (fuel : nat) (offset : Z) (chunkIndex : nat) :
  0 <= offset <= totalSize →
  totalSize - offset <= Z.of_nat fuel →
  ∃ plan,
    subsequentChunks fuel strategy connectionSpeed isIOSSafari totalSize offset chunkIndex
    = Some plan
    ∧ tiles offset plan totalSize = true
    ∧ ci_index <$> plan = seq chunkIndex (length plan)
    ∧ Forall (λ info, chunkLength info = Z.min adapted (totalSize - ci_start info)
                      ∧ 0 < chunkLength info) plan
    ∧ Z.of_nat (length plan) = ceilDiv (totalSize - offset) adapted.
Proof.
  revert offset chunkIndex.
  induction fuel as [|fuel IH]; intros offset chunkIndex Hoffset Hfuel.
  - assert (offset = totalSize) as -> by lia.
    exists []. simpl. rewrite Z.ltb_irrefl, Z.eqb_refl.
    split_and!; try done. unfold ceilDiv.
    rewrite Z.sub_diag, Z.div_small; lia.
  - rewrite (subsequentChunks_turn _ _ _ _ _ _ _ adapted) by done.
    destruct (Z.ltb_spec offset totalSize) as [Hlt|Hge].
    + cbv zeta.
      set (chunkSize := Z.min adapted (totalSize - offset)).
      destruct (IH (offset + chunkSize) (S chunkIndex)) as (rest & -> & Ht & Hi & Hs & Hn);
        [subst chunkSize; lia .. |].
      simpl. eexists. split; [done |].
      split_and!.
      * simpl. replace (offset + chunkSize - 1 + 1) with (offset + chunkSize) by lia.
        rewrite Ht.
        destruct (Z.leb_spec 0 offset); [| lia].
        rewrite Z.eqb_refl.
        destruct (Z.leb_spec offset (offset + chunkSize)); [| subst chunkSize; lia].
        destruct (Z.ltb_spec (offset + chunkSize - 1) totalSize); [| subst chunkSize; lia].
        done.
      * simpl. f_equal. exact Hi.
      * constructor; [| done]. unfold chunkLength. simpl. subst chunkSize. lia.
      * rewrite length_cons, Nat2Z.inj_succ, Hn. unfold ceilDiv. subst chunkSize.
        destruct (Z.le_gt_cases adapted (totalSize - offset)).
        -- rewrite Z.min_l by done.
           replace (totalSize - offset + adapted - 1)
             with ((totalSize - (offset + adapted) + adapted - 1) + 1 * adapted) by lia.
           rewrite Z.div_add by lia. lia.
        -- rewrite Z.min_r by lia.
           replace (totalSize - (offset + (totalSize - offset)) + adapted - 1)
             with (adapted - 1) by lia.
           rewrite Z.div_small by lia.
           assert ((totalSize - offset + adapted - 1) / adapted = 1) as ->; [| done].
           symmetry. apply (Z.div_unique _ _ 1 (totalSize - offset - 1)); lia.
    + assert (offset = totalSize) as -> by lia.
      exists []. simpl. rewrite Z.eqb_refl.
      split_and!; try done. unfold ceilDiv.
      rewrite Z.sub_diag, Z.div_small; lia.
Qed.

Lemma calculateDownloadChunks_plan :
  0 < totalSize →
  0 < initialChunkSize strategy →
  ∃ first rest,
    calculateDownloadChunks totalSize strategy connectionSpeed isIOSSafari
    = Some (first :: rest)
    ∧ tiles 0 (first :: rest) totalSize = true
    ∧ ci_index <$> (first :: rest) = seq 0 (S (length rest))
    ∧ chunkLength first = Z.min (initialChunkSize strategy) totalSize
    ∧ Forall (λ info, chunkLength info = Z.min adapted (totalSize - ci_start info)) rest
    ∧ Forall (λ info, 0 < chunkLength info) (first :: rest)
    ∧ Z.of_nat (length rest) = ceilDiv (totalSize - chunkLength first) adapted.
Proof.
  intros Htotal Hinitial. unfold calculateDownloadChunks.
  destruct (Z.ltb_spec 0 totalSize); [| lia].
  rewrite Z.sub_0_r, Z.add_0_l.
  set (chunkSize := Z.min (initialChunkSize strategy) totalSize).
  destruct (subsequentChunks_tiles (Z.to_nat totalSize) chunkSize 1)
    as (rest & -> & Ht & Hi & Hs & Hn); [subst chunkSize; lia .. |].
  simpl. eexists _, rest. split; [done |].
  assert (chunkLength {| ci_index := 0; ci_start := 0; ci_end := chunkSize - 1 |}
          = chunkSize) as Hfirst by (unfold chunkLength; simpl; lia).
  rewrite Hfirst. split_and!; try done.
  - simpl. replace (chunkSize - 1 + 1) with chunkSize by lia. rewrite Ht.
    destruct (Z.leb_spec 0 chunkSize); [| subst chunkSize; lia].
    destruct (Z.ltb_spec (chunkSize - 1) totalSize); [| subst chunkSize; lia].
    done.
  - simpl. f_equal. exact Hi.
  - eapply Forall_impl; [exact Hs |]. by intros info [? ?].
  - constructor; [rewrite Hfirst; subst chunkSize; lia |].
    eapply Forall_impl; [exact Hs |]. by intros info [? ?].
Qed.

End Plan.

(** X5.  For a file of at least one byte, a positive initial chunk size
    and a standard size that the connection adapts to a positive whole
    number of bytes [adapted] (it is whole on every branch except the
    halving of an odd size above 128 KB on a slow connection,
    [adaptedChunkSize_whole]), the download plan exists and tiles the
    file: the chunks are numbered 0, 1, ..., the first starts at byte 0,
    each starts where the one before it ends, the last ends at the last
    byte and none is empty.  The first chunk has the initial chunk size,
    every other the adapted size, each cut to what is left of the file,
    so the plan has [1 + ceil((totalSize - first) / adapted)] chunks. *)
Theorem calculateDownloadChunks_tiles (strategy : DownloadStrategy)
    (connectionSpeed : Q) (isIOSSafari : bool) (totalSize adapted : Z) :
  adaptedChunkSize strategy connectionSpeed isIOSSafari = Some adapted →
  0 < adapted →
  0 < totalSize →
  0 < initialChunkSize strategy →
  ∃ first rest,
    calculateDownloadChunks totalSize strategy connectionSpeed isIOSSafari
    = Some (first :: rest)
    ∧ tiles 0 (first :: rest) totalSize = true
    ∧ ci_index <$> (first :: rest) = seq 0 (S (length rest))
    ∧ chunkLength first = Z.min (initialChunkSize strategy) totalSize
    ∧ Forall (λ info, chunkLength info = Z.min adapted (totalSize - ci_start info)) rest
    ∧ Forall (λ info, 0 < chunkLength info) (first :: rest)
    ∧ Z.of_nat (length rest) = ceilDiv (totalSize - chunkLength first) adapted.
Proof. intros. by apply calculateDownloadChunks_plan. Qed.

Lemma calculateDownloadChunks_tiles_witness :
  ∃ first rest,
    calculateDownloadChunks 10 (getOptimalStrategy managerStrategy false true (Some 10)) 0 false
    = Some (first :: rest)
    ∧ tiles 0 (first :: rest) 10 = true
    ∧ ci_index <$> (first :: rest) = seq 0 (S (length rest))
    ∧ chunkLength first = Z.min 3 10
    ∧ Forall (λ info, chunkLength info = Z.min 5 (10 - ci_start info)) rest
    ∧ Forall (λ info, 0 < chunkLength info) (first :: rest)
    ∧ Z.of_nat (length rest) = ceilDiv (10 - chunkLength first) 5.
Proof.
  apply (calculateDownloadChunks_tiles
           (getOptimalStrategy managerStrategy false true (Some 10)) 0 false 10 5);
    [reflexivity | lia | lia | by vm_compute].
Defined.

(** X6.  From the plan to the blocks: for every file of at least one
    byte, a positive initial chunk size and a standard size that the
    connection adapts to a positive whole number of bytes (which excludes
    the halving of an odd size above 128 KB on a slow connection, whose
    result is a fraction), downloading the chunks of the plan from a
    server that honours the ranges and passing them to the assembler,
    whatever its thresholds, gives blocks whose payloads concatenated are
    the file. *)
Theorem download_then_assemble (file : list byte) (opts : StreamingAssemblerOptions)
    (strategy : DownloadStrategy) (connectionSpeed : Q) (isIOSSafari : bool)
    (adapted : Z) :
  adaptedChunkSize strategy connectionSpeed isIOSSafari = Some adapted →
  0 < adapted →
  0 < initialChunkSize strategy →
  file ≠ [] →
  ∃ plan st,
    calculateDownloadChunks (byteLength file) strategy connectionSpeed isIOSSafari
    = Some plan
    ∧ payload (downloadChunk file <$> plan) = file
    ∧ assemble opts (byteLength file) (downloadChunk file <$> plan) = Some st
    ∧ concat (ac_data <$> getAssembledChunks st) = file
    ∧ ac_storageIndex <$> getAssembledChunks st = seq 0 (length (getAssembledChunks st))
    ∧ downloadChunks st = ∅.
Proof.
  intros Hadapted Hpositive Hinitial Hfile.
  assert (0 < byteLength file) as Hsize by (unfold byteLength; destruct file; simpl; [done | lia]).
  destruct (calculateDownloadChunks_plan strategy connectionSpeed isIOSSafari
              (byteLength file) adapted Hadapted Hpositive Hsize Hinitial)
    as (first & rest & Hplan & Htiles & Hindex & _).
  destruct (assemble_plan opts file (first :: rest) Htiles Hindex)
    as (st & Hst & Hrepr & Hsealed & _ & Hbytes).
  exists (first :: rest), st. split_and!; try done.
  - by rewrite (tiles_payload _ _ 0).
  - by apply Sealed_storageIndex.
  - destruct (assemble_in_order opts (byteLength file) (downloadChunk file <$> first :: rest))
      as (st' & Hst' & _ & Hempty).
    { rewrite <- list_fmap_compose, length_fmap. done. }
    congruence.
Qed.

Lemma download_then_assemble_witness :
  ∃ plan st,
    calculateDownloadChunks 5 managerStrategy 0 false = Some plan
    ∧ payload (downloadChunk [x01; x02; x03; x04; x05] <$> plan) = [x01; x02; x03; x04; x05]
    ∧ assemble managerOptions 5 (downloadChunk [x01; x02; x03; x04; x05] <$> plan) = Some st
    ∧ concat (ac_data <$> getAssembledChunks st) = [x01; x02; x03; x04; x05]
    ∧ ac_storageIndex <$> getAssembledChunks st = seq 0 (length (getAssembledChunks st))
    ∧ downloadChunks st = ∅.
Proof.
  apply (download_then_assemble [x01; x02; x03; x04; x05] managerOptions managerStrategy
           0 false (512 * 1024)); [reflexivity | lia | by vm_compute | done].
Defined.

(** *** A server without range requests *)

(** X7.  Without support for range requests the strategy asks for the
    file in one piece: the plan is the single chunk [0, totalSize - 1]
    when the file is no larger than the estimate, or than 10 MB when
    there is no estimate.  A larger file is still cut into ranges, of the
    size of the estimate. *)
Theorem without_ranges_one_request (strategy : DownloadStrategy) (isIOSSafari : bool)
    (estimatedFileSize : option Z) (connectionSpeed : Q) (totalSize : Z) :
  let whole := if truthySize estimatedFileSize then default 0 estimatedFileSize
               else 10 * 1024 * 1024 in
  let plan := calculateDownloadChunks totalSize
                (getOptimalStrategy strategy isIOSSafari false estimatedFileSize)
                connectionSpeed isIOSSafari in
  0 < totalSize →
  0 < whole →
  (totalSize <= whole →
   plan = Some [{| ci_index := 0; ci_start := 0; ci_end := totalSize - 1 |}])
  ∧ (whole < totalSize →
     ∃ first rest, plan = Some (first :: rest)
                   ∧ chunkLength first = whole
                   ∧ Z.of_nat (length rest) = ceilDiv (totalSize - whole) whole
                   ∧ rest ≠ []).
Proof.
  intros whole plan Htotal Hwhole.
  assert (adaptedChunkSize (getOptimalStrategy strategy isIOSSafari false estimatedFileSize)
            connectionSpeed isIOSSafari = Some whole) as Hadapted
    by (by apply adaptedChunkSize_unadapted).
  destruct (calculateDownloadChunks_plan _ connectionSpeed isIOSSafari totalSize whole
              Hadapted Hwhole Htotal Hwhole)
    as (first & rest & Hplan & Htiles & Hindex & Hfirst & _ & _ & Hcount).
  fold plan in Hplan. change (initialChunkSize _) with whole in Hfirst. split.
  - intros Hfits. rewrite Z.min_r in Hfirst by done.
    rewrite Hfirst in Hcount. unfold ceilDiv in Hcount.
    rewrite Z.sub_diag, Z.div_small in Hcount by lia.
    destruct rest; [| done]. rewrite Hplan. do 2 f_equal.
    simpl in Htiles. unfold chunkLength in Hfirst. destruct first as [i s e].
    simpl in Hindex, Htiles, Hfirst. injection Hindex as ->.
    repeat (apply andb_prop in Htiles as [Htiles ?]).
    f_equal; lia.
  - intros Hlarger. rewrite Z.min_l in Hfirst by lia. rewrite Hfirst in Hcount.
    exists first, rest. split_and!; try done.
    intros ->. simpl in Hcount. unfold ceilDiv in Hcount.
    assert (1 <= (totalSize - whole + whole - 1) / whole); [| lia].
    apply Z.div_le_lower_bound; lia.
Qed.

Lemma without_ranges_one_request_witness :
  (5 <= 10 →
   calculateDownloadChunks 5 (getOptimalStrategy managerStrategy false false (Some 10)) 0 false
   = Some [{| ci_index := 0; ci_start := 0; ci_end := 5 - 1 |}])
  ∧ (10 < 5 →
     ∃ first rest,
       calculateDownloadChunks 5 (getOptimalStrategy managerStrategy false false (Some 10))
                               0 false
       = Some (first :: rest)
       ∧ chunkLength first = 10
       ∧ Z.of_nat (length rest) = ceilDiv (5 - 10) 10
       ∧ rest ≠ []).
Proof.
  apply (without_ranges_one_request managerStrategy false (Some 10) 0 5); simpl; lia.
Defined.

(** *** A chunk size that is not positive *)

(** X8.  When the size of the chunks after the first is zero or
    negative the loop that plans them never ends: no number of turns is
    enough.  This is the plan of a file of more than one chunk under the
    strategy that [getOptimalStrategy] picks for an estimated size of one
    byte on a fresh connection, whose two chunk sizes are 0. *)
Theorem nonpositive_chunk_size_never_returns (strategy : DownloadStrategy)
    (connectionSpeed : Q) (isIOSSafari : bool) (totalSize adapted : Z) :
  adaptedChunkSize strategy connectionSpeed isIOSSafari = Some adapted →
  adapted <= 0 →
  (∀ fuel offset chunkIndex,
     offset < totalSize →
     subsequentChunks (S fuel) strategy connectionSpeed isIOSSafari totalSize offset
                      chunkIndex = None)
  ∧ (0 < totalSize → initialChunkSize strategy < totalSize →
     calculateDownloadChunks totalSize strategy connectionSpeed isIOSSafari = None).
Proof.
  intros Hadapted Hnonpositive.
  assert (∀ fuel offset chunkIndex,
            offset < totalSize →
            subsequentChunks fuel strategy connectionSpeed isIOSSafari totalSize offset
                             chunkIndex = None) as Hloop.
  { induction fuel as [|fuel IH]; intros offset chunkIndex Hoffset;
      [| rewrite (subsequentChunks_turn _ _ _ _ _ _ _ adapted) by done]; simpl;
      destruct (Z.ltb_spec offset totalSize); try lia; [done |].
    rewrite IH; [done | lia]. }
  split; [intros; by apply Hloop |].
  intros Htotal Hinitial. unfold calculateDownloadChunks.
  destruct (Z.ltb_spec 0 totalSize); [| lia].
  rewrite Hloop; [done | lia].
Qed.

Lemma nonpositive_chunk_size_never_returns_witness :
  (∀ fuel offset chunkIndex,
     offset < 4 →
     subsequentChunks (S fuel) (getOptimalStrategy managerStrategy false true (Some 1))
                      0 false 4 offset chunkIndex = None)
  ∧ (0 < 4 → initialChunkSize (getOptimalStrategy managerStrategy false true (Some 1)) < 4 →
     calculateDownloadChunks 4 (getOptimalStrategy managerStrategy false true (Some 1))
                             0 false = None).
Proof.
  apply (nonpositive_chunk_size_never_returns
           (getOptimalStrategy managerStrategy false true (Some 1)) 0 false 4 0);
    [reflexivity | lia].
Defined.

(** *** The bandwidth estimate *)

Lemma drop_snoc_window {A : Type} (n : nat) (l : list A) (x : A) :
  (length l <= n)%nat →
  (if (n <? length (l ++ [x]))%nat then drop 1 (l ++ [x]) else l ++ [x])
  = drop (length (l ++ [x]) - n) (l ++ [x]).
Proof.
  intros Hlen. rewrite length_app. simpl.
  destruct (Nat.ltb_spec n (length l + 1)).
  - by replace (length l + 1 - n)%nat with 1%nat by lia.
  - by replace (length l + 1 - n)%nat with 0%nat by lia.
Qed.

Lemma speedSamples_update (b : Bandwidth) (newSpeed : Q) :
  speedSamples (updateConnectionSpeed b newSpeed)
  = if (5 <? length (speedSamples b ++ [newSpeed]))%nat
    then drop 1 (speedSamples b ++ [newSpeed]) else speedSamples b ++ [newSpeed].
Proof. done. Qed.


(** *** [assembleChunks] *)

Lemma foldl_sizes_from (a : Z) (chunks : list DownloadChunk) :
  foldl (λ sum chunk, sum + byteLength (dc_data chunk)) a chunks
  = a + byteLength (payload chunks).
Proof.
  revert a. induction chunks as [|c chunks IH]; intros a.
  - simpl. change (payload []) with (@nil byte). unfold byteLength. simpl. lia.
  - simpl. rewrite IH. change (payload (c :: chunks)) with (dc_data c ++ payload chunks).
    rewrite byteLength_app. lia.
Qed.

Lemma copyChunks_payload (written : list byte) (chunks : list DownloadChunk) :
  copyChunks (written ++ repeat x00 (length (payload chunks))) (byteLength written) chunks
  = Some (written ++ payload chunks).
Proof.
  revert written. induction chunks as [|c chunks IH]; intros written; [done |].
  change (payload (c :: chunks)) with (dc_data c ++ payload chunks).
  rewrite length_app, repeat_app. simpl.
  rewrite set_middle by (by rewrite repeat_length). simpl.
  rewrite <- byteLength_app, (app_assoc written), IH. by rewrite <- app_assoc.
Qed.

(** Two lists sorted by keys that do not repeat are equal when they
    hold the same elements. *)
Lemma sorted_unique {A : Type} (key : A → Z) (l k : list A) :
  StronglySorted (λ a b, key a <= key b) l →
  StronglySorted (λ a b, key a <= key b) k →
  NoDup (key <$> l) →
  l ≡ₚ k → l = k.
Proof.
  intros Hl. revert k. induction Hl as [|x l Hl IH Hx]; intros k Hk Hnodup Hperm.
  - by apply Permutation_nil_l in Hperm.
  - destruct Hk as [|y k Hk Hy]; [by apply Permutation_nil_r in Hperm |].
    rewrite fmap_cons in Hnodup. apply NoDup_cons in Hnodup as [Hnew Hnodup].
    assert (x = y) as ->.
    { assert (x ∈ y :: k) as Hxin by (rewrite <- Hperm; left).
      assert (y ∈ x :: l) as Hyin by (rewrite Hperm; left).
      apply elem_of_cons in Hyin as [->|Hyin]; [done |].
      apply elem_of_cons in Hxin as [->|Hxin]; [done |].
      eapply Forall_forall in Hx; [| exact Hyin].
      eapply Forall_forall in Hy; [| exact Hxin]. simpl in *.
      exfalso. apply Hnew. replace (key x) with (key y) by lia.
      by apply list_elem_of_fmap_2. }
    f_equal. apply IH; [done | done |]. by apply Permutation_cons_inv in Hperm.
Qed.

(** The chunks of a plan, in any order, sorted by index. *)
Lemma sortBy_plan (file : list byte) (plan : list ChunkInfo)
    (chunks : list DownloadChunk) :
  ci_index <$> plan = seq 0 (length plan) →
  chunks ≡ₚ downloadChunk file <$> plan →
  AudioChunkStore.sortBy (λ c, Z.of_nat (dc_index c)) chunks = downloadChunk file <$> plan.
Proof.
  intros Hindex Hperm.
  symmetry. apply (sorted_unique (λ c, Z.of_nat (dc_index c))).
  - assert (∀ start l, ci_index <$> l = seq start (length l) →
              StronglySorted (λ a b, Z.of_nat (dc_index a) <= Z.of_nat (dc_index b))
                             (downloadChunk file <$> l)) as Hsorted.
    { intros start l. revert start. induction l as [|info l IH]; intros start Hl.
      - constructor.
      - rewrite fmap_cons in Hl. simpl in Hl. injection Hl as Hinfo Hl.
        rewrite fmap_cons. constructor; [by apply (IH (S start)) |].
        apply Forall_fmap, Forall_forall. intros info' [j Hj]%list_elem_of_lookup. simpl.
        assert ((ci_index <$> l) !! j = Some (ci_index info')) as Hj'
          by (by rewrite list_lookup_fmap, Hj).
        rewrite Hl in Hj'. apply lookup_seq in Hj' as [-> _]. lia. }
    by apply (Hsorted 0%nat).
  - apply CleanupFacts.sortBy_sorted.
  - assert ((λ c, Z.of_nat (dc_index c)) <$> (downloadChunk file <$> plan)
            = Z.of_nat <$> seq 0 (length plan)) as ->
      by (by rewrite <- Hindex, <- !list_fmap_compose).
    apply (NoDup_fmap_2 Z.of_nat), NoDup_seq.
  - by rewrite CleanupFacts.sortBy_Permutation.
Qed.

(** X10.  [assembleChunks] never throws and returns the payloads of the
    chunks concatenated in the order of their indices, whatever order it
    is given them in.  So for the chunks of a download plan that tiles a
    file, fetched from a server that honours the ranges and handed over
    in any order, it returns the file. *)
Theorem assembleChunks_any_order (file : list byte) (plan : list ChunkInfo)
    (chunks : list DownloadChunk) :
  tiles 0 plan (byteLength file) = true →
  ci_index <$> plan = seq 0 (length plan) →
  chunks ≡ₚ downloadChunk file <$> plan →
  assembleChunks chunks = Some file
  ∧ ∀ others, assembleChunks others
              = Some (payload (AudioChunkStore.sortBy (λ c, Z.of_nat (dc_index c)) others)).
Proof.
  intros Htiles Hindex Hperm.
  assert (∀ others, assembleChunks others
            = Some (payload (AudioChunkStore.sortBy (λ c, Z.of_nat (dc_index c)) others)))
    as Hgeneral.
  { intros others. unfold assembleChunks. rewrite foldl_sizes_from, Z.add_0_l.
    rewrite alloc_Some by apply byteLength_nonneg. simpl.
    unfold byteLength at 1. rewrite Nat2Z.id.
    apply (copyChunks_payload []). }
  split; [| done]. rewrite Hgeneral. f_equal.
  by rewrite (sortBy_plan file plan), (tiles_payload _ _ 0).
Qed.

Lemma assembleChunks_any_order_witness :
  let file := [x01; x02; x03] in
  let plan := [{| ci_index := 0; ci_start := 0; ci_end := 1 |};
               {| ci_index := 1; ci_start := 2; ci_end := 2 |}] in
  assembleChunks (reverse (downloadChunk file <$> plan)) = Some file
  ∧ ∀ others, assembleChunks others
              = Some (payload (AudioChunkStore.sortBy (λ c, Z.of_nat (dc_index c)) others)).
Proof.
  apply (assembleChunks_any_order [x01; x02; x03]
           [{| ci_index := 0; ci_start := 0; ci_end := 1 |};
            {| ci_index := 1; ci_start := 2; ci_end := 2 |}]);
    [reflexivity | reflexivity | apply perm_swap].
Defined.

End DownloadManagerRestFacts.
(** ** The chunk store: a chunk written and read back *)

Module ChunkStoreRoundTrip.
Import TypedArray Promises AudioChunkStore SampleCodecFacts.
Local Open Scope Z_scope.

(** The samples that the string encoding keeps: any 32-bit patterns
    without [TextDecoder]; with it, those whose 16-bit halves hold no
    surrogate and do not start with a byte order mark. *)
Definition kept (hasTextDecoder : bool) (f32 : Float32Array) : Prop :=
  Forall word32 f32
  ∧ (hasTextDecoder = true →
     Forall (λ u, isSurrogate u = false) (u16View f32)
     ∧ head (u16View f32) ≠ Some 0xFEFF).

Lemma kept_roundtrip (hasTextDecoder : bool) (f32 : Float32Array) :
  kept hasTextDecoder f32 →
  stringToFloat32Array (float32ArrayToString hasTextDecoder f32) = Some f32.
Proof.
  intros [Hwords Hdecoder]. destruct hasTextDecoder.
  - destruct (Hdecoder eq_refl). by apply roundtrip_textDecoder.
  - by apply roundtrip_fallback.
Qed.

Lemma channels_roundtrip (hasTextDecoder : bool) (channels : list Float32Array) :
  Forall (kept hasTextDecoder) channels →
  mapM stringToFloat32Array (float32ArrayToString hasTextDecoder <$> channels)
  = Some channels.
Proof.
  intros H. apply mapM_Some_2. apply Forall2_fmap_l, Forall_Forall2_diag.
  eapply Forall_impl; [exact H |]. intros f32. apply kept_roundtrip.
Qed.

(** X11.  On a database that answers within the timeout, [getChunk]
    after [saveChunk] returns the chunk that was saved, sample for sample,
    when the chunk is stored under the id of its track and index and its
    samples are among those the encoding keeps.  A chunk that was never
    stored reads as [null], not as an error. *)
Theorem getChunk_returns_saved (hasTextDecoder : bool) (chunk : AudioChunk)
    (db : IDB) (d : Z) :
  latency db = Some d →
  d < 5000 →
  ch_id chunk = chunkId (ch_trackId chunk) (ch_chunkIndex chunk) →
  Forall (kept hasTextDecoder) (ch_channels chunk) →
  ∃ db',
    saveChunk hasTextDecoder chunk db = Settles d (Fulfilled (tt, db'))
    ∧ getChunk (ch_trackId chunk) (ch_chunkIndex chunk) db'
      = Settles d (Fulfilled (Some chunk, db'))
    ∧ cache_meta db' = cache_meta db
    ∧ (∀ trackId chunkIndex,
         cache_data db' !! chunkId trackId chunkIndex = None →
         getChunk trackId chunkIndex db' = Settles d (Fulfilled (None, db'))).
Proof.
  intros Hlatency Hd Hid Hkept.
  unfold saveChunk, getChunk, timed, request, withTimeout. simpl. rewrite Hlatency.
  destruct (Z.ltb_spec d 5000); [| lia].
  eexists. split; [done |]. simpl. rewrite Hlatency, <- Hid, lookup_insert_eq. simpl.
  rewrite channels_roundtrip by done. simpl.
  destruct (Z.ltb_spec d 5000); [| lia].
  split_and!; [by destruct chunk | done |].
  intros trackId chunkIndex Hnone. simpl in Hnone. rewrite Hnone.
  by destruct (Z.ltb_spec d 5000); [| lia].
Qed.

Definition quiet : AudioChunk :=
  {| ch_id := chunkId "a" 0; ch_trackId := "a"; ch_chunkIndex := 0;
     ch_sampleRate := 44100; ch_length := 2;
     ch_channels := [[0x3F000000; 0xBF000000]] |}.

Lemma getChunk_returns_saved_witness :
  ∃ db',
    saveChunk true quiet StoreFacts.emptyStore = Settles 1 (Fulfilled (tt, db'))
    ∧ getChunk "a" 0 db' = Settles 1 (Fulfilled (Some quiet, db'))
    ∧ cache_meta db' = cache_meta StoreFacts.emptyStore
    ∧ (∀ trackId chunkIndex,
         cache_data db' !! chunkId trackId chunkIndex = None →
         getChunk trackId chunkIndex db' = Settles 1 (Fulfilled (None, db'))).
Proof.
  apply (getChunk_returns_saved true quiet StoreFacts.emptyStore 1);
    [reflexivity | lia | reflexivity |].
  repeat constructor; unfold word32; simpl; try lia; done.
Defined.

End ChunkStoreRoundTrip.
(** ** The chunk store: the obfuscation of the text fields *)

Module MetadataObfuscation.
Import AudioChunkStore.
Local Open Scope Z_scope.

(** ['WebAudioStream2024'], as code units. *)
Definition obfuscationKey : JSString :=
  [87; 101; 98; 65; 117; 100; 105; 111; 83; 116; 114; 101; 97; 109; 50; 48; 50; 52].

(** [this.obfuscationKey.charCodeAt(i % this.obfuscationKey.length)] *)
Definition keyChar (i : nat) : Z :=
  default 0 (obfuscationKey !! (i mod length obfuscationKey)%nat).

(** The loop that both directions share:
    [result += String.fromCharCode(charCode ^ keyChar)]. *)
Fixpoint xorLoop (i : nat) (input : JSString) : JSString :=
  match input with
  | [] => []
  | charCode :: rest => fromCharCode (Z.lxor charCode (keyChar i)) :: xorLoop (S i) rest
  end.

(** *** The platform's [btoa] and [atob] (RFC 4648; the forgiving
    base64 decoder of the WHATWG Infra Standard) *)

(** The digit of a 6-bit value. *)
Definition base64Char (v : Z) : Z :=
  if v <? 26 then 65 + v
  else if v <? 52 then 97 + (v - 26)
  else if v <? 62 then 48 + (v - 52)
  else if v =? 62 then 43
  else 47.

Definition base64Value (c : Z) : option Z :=
  if (65 <=? c) && (c <=? 90) then Some (c - 65)
  else if (97 <=? c) && (c <=? 122) then Some (c - 97 + 26)
  else if (48 <=? c) && (c <=? 57) then Some (c - 48 + 52)
  else if c =? 43 then Some 62
  else if c =? 47 then Some 63
  else None.

(** Three bytes make four 6-bit values; one or two bytes at the end make
    two or three, the last one filled with zero bits. *)
Fixpoint sextets (bytes : list Z) : list Z :=
  match bytes with
  | a :: b :: c :: rest =>
    a / 4 :: (a mod 4) * 16 + b / 16 :: (b mod 16) * 4 + c / 64 :: c mod 64
      :: sextets rest
  | [a; b] => [a / 4; (a mod 4) * 16 + b / 16; (b mod 16) * 4]
  | [a] => [a / 4; (a mod 4) * 16]
  | [] => []
  end.

Definition padding (bytes : list Z) : JSString :=
  repeat 61 (match (length bytes mod 3)%nat with 1 => 2 | 2 => 1 | _ => 0 end)%nat.

(** [btoa]: an InvalidCharacterError ([None]) when a code unit is above
    0xFF. *)
Definition btoa (data : JSString) : option JSString :=
  if forallb (λ c, c <=? 255) data
  then Some ((base64Char <$> sextets data) ++ padding data)
  else None.

Definition isAsciiWhitespace (c : Z) : bool :=
  (c =? 9) || (c =? 10) || (c =? 12) || (c =? 13) || (c =? 32).

(** "If the length divides by 4 leaving no remainder and data ends with
    one or two U+003D (=), remove them." *)
Definition stripPadding (data : JSString) : JSString :=
  if (Z.of_nat (length data) mod 4 =? 0) then
    match reverse data with
    | c1 :: rest1 =>
      if c1 =? 61 then
        match rest1 with
        | c2 :: rest2 => if c2 =? 61 then reverse rest2 else reverse rest1
        | [] => reverse rest1
        end
      else data
    | [] => data
    end
  else data.

(** Four 6-bit values make three bytes; of two or three values at the
    end the last four or two bits are dropped. *)
Fixpoint decodeGroups (values : list Z) : list Z :=
  match values with
  | v1 :: v2 :: v3 :: v4 :: rest =>
    v1 * 4 + v2 / 16 :: (v2 mod 16) * 16 + v3 / 4 :: (v3 mod 4) * 64 + v4
      :: decodeGroups rest
  | [v1; v2; v3] => [v1 * 4 + v2 / 16; (v2 mod 16) * 16 + v3 / 4]
  | [v1; v2] => [v1 * 4 + v2 / 16]
  | _ => []
  end.

(** [atob]: an InvalidCharacterError ([None]) when the text is not
    base64. *)
Definition atob (data : JSString) : option JSString :=
  let data := stripPadding (filter (λ c, isAsciiWhitespace c = false) data) in
  if (Z.of_nat (length data) mod 4 =? 1) then None
  else values ← mapM base64Value data; Some (decodeGroups values).

(** *** [obfuscateString] and [deobfuscateString] *)

Definition obfuscateString (input : JSString) : option JSString :=
  btoa (xorLoop 0 input).

(** When [atob] throws, the [catch] returns the input. *)
Definition deobfuscateString (input : JSString) : JSString :=
  match atob input with
  | Some decoded => xorLoop 0 decoded
  | None => input
  end.

End MetadataObfuscation.

Module MetadataObfuscationFacts.
Import AudioChunkStore MetadataObfuscation.
Local Open Scope Z_scope.

Lemma list_ind3 {A : Type} (P : list A → Prop) :
  P [] → (∀ a, P [a]) → (∀ a b, P [a; b]) →
  (∀ a b c l, P l → P (a :: b :: c :: l)) →
  ∀ l, P l.
Proof.
  intros H0 H1 H2 H3. fix IH 1. intros [|a [|b [|c l]]]; [done | done | done |].
  apply H3, IH.
Qed.

Definition isByte (c : Z) : Prop := 0 <= c <= 255.
Definition isSextet (v : Z) : Prop := 0 <= v < 64.

(** **** Base64 *)

Lemma base64Value_base64Char (v : Z) : isSextet v → base64Value (base64Char v) = Some v.
Proof.
  unfold isSextet, base64Value, base64Char. intros Hv.
  repeat match goal with
         | |- context [?a <? ?b] => destruct (Z.ltb_spec a b)
         | |- context [?a <=? ?b] => destruct (Z.leb_spec a b)
         | |- context [?a =? ?b] => destruct (Z.eqb_spec a b)
         end; simpl; try lia; f_equal; lia.
Qed.

Lemma base64Char_plain (v : Z) :
  isSextet v → base64Char v ≠ 61 ∧ isAsciiWhitespace (base64Char v) = false.
Proof.
  unfold isSextet, isAsciiWhitespace, base64Char. intros Hv.
  repeat match goal with
         | |- context [?a <? ?b] => destruct (Z.ltb_spec a b)
         | |- context [?a =? ?b] => destruct (Z.eqb_spec a b)
         end; simpl; split; try lia; done.
Qed.

Lemma sextets_range (bytes : list Z) : Forall isByte bytes → Forall isSextet (sextets bytes).
Proof.
  unfold isByte, isSextet.
  induction bytes as [|a|a b|a b c bytes IH] using list_ind3; intros H.
  - constructor.
  - apply Forall_cons in H as [Ha _]. simpl.
    repeat constructor; Z.div_mod_to_equations; lia.
  - apply Forall_cons in H as [Ha [Hb _]%Forall_cons]. simpl.
    repeat constructor; Z.div_mod_to_equations; lia.
  - apply Forall_cons in H as [Ha [Hb [Hc H]%Forall_cons]%Forall_cons]. simpl.
    repeat (constructor; [Z.div_mod_to_equations; lia |]). by apply IH.
Qed.

Lemma decodeGroups_sextets (bytes : list Z) :
  Forall isByte bytes → decodeGroups (sextets bytes) = bytes.
Proof.
  unfold isByte.
  induction bytes as [|a|a b|a b c bytes IH] using list_ind3; intros H.
  - done.
  - apply Forall_cons in H as [Ha _]. simpl. f_equal.
    Z.div_mod_to_equations. lia.
  - apply Forall_cons in H as [Ha [Hb _]%Forall_cons]. simpl.
    f_equal; [| f_equal]; Z.div_mod_to_equations; lia.
  - apply Forall_cons in H as [Ha [Hb [Hc H]%Forall_cons]%Forall_cons].
    change (decodeGroups (sextets (a :: b :: c :: bytes)))
      with (a / 4 * 4 + ((a mod 4) * 16 + b / 16) / 16
            :: (((a mod 4) * 16 + b / 16) mod 16) * 16 + ((b mod 16) * 4 + c / 64) / 4
            :: (((b mod 16) * 4 + c / 64) mod 4) * 64 + c mod 64
            :: decodeGroups (sextets bytes)).
    rewrite IH by done.
    f_equal; [| f_equal; [| f_equal]]; Z.div_mod_to_equations; lia.
Qed.

(** The text [btoa] returns has a length that is a multiple of four, and
    the digits before the padding are not one more than such a
    multiple. *)
Lemma sextets_length (bytes : list Z) :
  (Z.of_nat (length (sextets bytes) + length (padding bytes))) mod 4 = 0
  ∧ Z.of_nat (length (sextets bytes)) mod 4 ≠ 1
  ∧ (length (padding bytes) <= 2)%nat.
Proof.
  induction bytes as [|a|a b|a b c bytes IH] using list_ind3;
    [split_and!; [by vm_compute | by vm_compute | unfold padding; simpl; lia] .. |].
  destruct IH as (IH1 & IH2 & IH3).
  assert (padding (a :: b :: c :: bytes) = padding bytes) as ->.
  { unfold padding. do 2 f_equal. simpl length.
    replace (S (S (S (length bytes)))) with (length bytes + 1 * 3)%nat by lia.
    by rewrite Nat.Div0.mod_add. }
  simpl length. split_and!; [| | done].
  - replace (Z.of_nat (S (S (S (S (length (sextets bytes))))) + length (padding bytes)))
      with (Z.of_nat (length (sextets bytes) + length (padding bytes)) + 1 * 4) by lia.
    by rewrite Z.mod_add.
  - replace (Z.of_nat (S (S (S (S (length (sextets bytes)))))))
      with (Z.of_nat (length (sextets bytes)) + 1 * 4) by lia.
    by rewrite Z.mod_add.
Qed.

Lemma stripPadding_digits (digits : JSString) (n : nat) :
  Forall (λ c, c ≠ 61) digits →
  (n <= 2)%nat →
  Z.of_nat (length digits + n) mod 4 = 0 →
  stripPadding (digits ++ repeat 61 n) = digits.
Proof.
  intros Hdigits Hn Hlen. unfold stripPadding.
  rewrite length_app, repeat_length, Hlen. simpl.
  rewrite reverse_app.
  assert (reverse (repeat 61 n) = repeat 61 n) as ->
    by (destruct n as [|[|[|n]]]; [done | done | done | lia]).
  assert (match reverse digits with
          | c :: _ => c =? 61
          | [] => false
          end = false) as Hlast.
  { destruct (reverse digits) as [|c r] eqn:E; [done |].
    apply Z.eqb_neq. eapply Forall_forall in Hdigits; [done |].
    apply elem_of_reverse. rewrite E. left. }
  destruct n as [|[|[|n]]]; [| | | lia]; simpl.
  - rewrite app_nil_r. destruct (reverse digits) as [|c r] eqn:E.
    + done.
    + by rewrite Hlast.
  - destruct (reverse digits) as [|c r] eqn:E.
    + apply (f_equal reverse) in E. rewrite reverse_involutive in E. by subst.
    + rewrite Hlast. rewrite <- E. by rewrite reverse_involutive.
  - rewrite reverse_involutive. done.
Qed.

Lemma filter_all {A : Type} (P : A → Prop) `{∀ x, Decision (P x)} (l : list A) :
  Forall P l → filter P l = l.
Proof.
  induction 1 as [|x l Hx _ IH]; [done |]. by rewrite filter_cons_True, IH.
Qed.

Lemma atob_btoa (bytes : JSString) :
  Forall isByte bytes → ∃ text, btoa bytes = Some text ∧ atob text = Some bytes.
Proof.
  intros Hbytes. unfold btoa.
  assert (forallb (λ c, c <=? 255) bytes = true) as ->.
  { apply forallb_forall. intros c Hc%list_elem_of_In.
    eapply Forall_forall in Hbytes; [| done]. unfold isByte in Hbytes. lia. }
  eexists. split; [done |]. unfold atob, JSString.
  pose proof (sextets_range _ Hbytes) as Hrange.
  pose proof (sextets_length bytes) as (Hlen & Hdigits & Hpad).
  assert (Forall (λ c, c ≠ 61 ∧ isAsciiWhitespace c = false)
                 (base64Char <$> sextets bytes)) as Hplain.
  { apply Forall_fmap. eapply Forall_impl; [exact Hrange |].
    intros v Hv. by apply base64Char_plain. }
  rewrite filter_all.
  2: { apply Forall_app. split.
       - eapply Forall_impl; [exact Hplain |]. by intros c [_ ?].
       - unfold padding. apply Forall_forall. by intros c ->%list_elem_of_In%repeat_spec. }
  unfold padding in *. rewrite repeat_length in Hlen, Hpad.
  rewrite stripPadding_digits.
  - rewrite length_fmap.
    destruct (Z.eqb_spec (Z.of_nat (length (sextets bytes)) mod 4) 1); [done |].
    rewrite (mapM_fmap_Forall_Some base64Value base64Char).
    + simpl. by rewrite decodeGroups_sextets.
    + eapply Forall_impl; [exact Hrange |]. intros v Hv. by apply base64Value_base64Char.
  - eapply Forall_impl; [exact Hplain |]. by intros c [? _].
  - done.
  - by rewrite length_fmap.
Qed.

(** **** The loop *)

Lemma keyChar_range (i : nat) : 0 <= keyChar i < 128.
Proof.
  unfold keyChar. destruct (obfuscationKey !! _) as [k|] eqn:E; simpl; [| lia].
  apply list_elem_of_lookup_2 in E.
  assert (Forall (λ k, 0 <= k < 128) obfuscationKey) as Hkey
    by (repeat constructor; lia).
  by eapply Forall_forall in Hkey.
Qed.

Lemma lxor_below (n a b : Z) :
  0 < n → 0 <= a < 2 ^ n → 0 <= b < 2 ^ n → 0 <= Z.lxor a b < 2 ^ n.
Proof.
  intros Hn Ha Hb. split; [apply Z.lxor_nonneg; lia |].
  destruct (decide (Z.lxor a b = 0)) as [->|Hne]; [lia |].
  assert (0 < Z.lxor a b) by (pose proof (proj2 (Z.lxor_nonneg a b)); lia).
  apply Z.log2_lt_pow2; [done |].
  pose proof (Z.log2_lxor a b ltac:(lia) ltac:(lia)) as Hlog.
  assert (Z.log2 a < n).
  { destruct (decide (a = 0)) as [->|]; [simpl; lia |]. apply Z.log2_lt_pow2; lia. }
  assert (Z.log2 b < n).
  { destruct (decide (b = 0)) as [->|]; [simpl; lia |]. apply Z.log2_lt_pow2; lia. }
  lia.
Qed.

Lemma lxor_keyChar_byte (c : Z) (i : nat) : isByte c → isByte (Z.lxor c (keyChar i)).
Proof.
  unfold isByte. intros Hc. pose proof (keyChar_range i).
  pose proof (lxor_below 8 c (keyChar i)). lia.
Qed.

Lemma xorLoop_bytes (i : nat) (input : JSString) :
  Forall isByte input → Forall isByte (xorLoop i input).
Proof.
  intros H. revert i. induction H as [|c input Hc _ IH]; intros i; [constructor |].
  simpl. constructor; [| apply IH].
  unfold fromCharCode. pose proof (lxor_keyChar_byte c i Hc) as Hx.
  unfold isByte in *. rewrite Z.mod_small; lia.
Qed.

Lemma xorLoop_involutive (i : nat) (input : JSString) :
  Forall isByte input → xorLoop i (xorLoop i input) = input.
Proof.
  intros H. revert i. induction H as [|c input Hc _ IH]; intros i; [done |].
  simpl. rewrite IH. f_equal.
  unfold fromCharCode. pose proof (lxor_keyChar_byte c i Hc) as Hx.
  unfold isByte in *. rewrite (Z.mod_small (Z.lxor c _)) by lia.
  rewrite Z.lxor_assoc, Z.lxor_nilpotent, Z.lxor_0_r.
  rewrite Z.mod_small; lia.
Qed.

(** A code unit above 0xFF stays above 0xFF. *)
Lemma lxor_keyChar_wide (c : Z) (i : nat) :
  255 < c < 65536 → 255 < fromCharCode (Z.lxor c (keyChar i)) < 65536.
Proof.
  intros Hc. pose proof (keyChar_range i) as Hk.
  pose proof (lxor_below 16 c (keyChar i)) as Hbelow.
  unfold fromCharCode. rewrite Z.mod_small by lia.
  split; [| lia].
  assert (Z.shiftr (Z.lxor c (keyChar i)) 8 = Z.shiftr c 8) as Hhigh.
  { rewrite Z.shiftr_lxor, (Z.shiftr_div_pow2 (keyChar i)) by lia.
    rewrite (Z.div_small (keyChar i)) by lia. apply Z.lxor_0_r. }
  rewrite !Z.shiftr_div_pow2 in Hhigh by lia.
  change (2 ^ 8) with 256 in Hhigh.
  assert (1 <= c / 256) by (apply Z.div_le_lower_bound; lia).
  destruct (Z.le_gt_cases (Z.lxor c (keyChar i)) 255) as [Hle|]; [| lia].
  rewrite (Z.div_small (Z.lxor c (keyChar i))) in Hhigh by lia. lia.
Qed.

Lemma xorLoop_wide (i : nat) (input : JSString) :
  Forall (λ c, 0 <= c < 65536) input →
  Exists (λ c, 255 < c) input →
  forallb (λ c, c <=? 255) (xorLoop i input) = false.
Proof.
  intros Hunits Hwide. revert i.
  induction Hwide as [c input Hc|c input _ IH]; intros i;
    apply Forall_cons in Hunits as [Hunit Hunits]; simpl.
  - pose proof (lxor_keyChar_wide c i ltac:(lia)).
    destruct (Z.leb_spec (fromCharCode (Z.lxor c (keyChar i))) 255); [lia | done].
  - rewrite IH by done. apply andb_false_r.
Qed.

(** X12.  The obfuscation of the name and the url of a track is
    reversible for text in Latin-1: [obfuscateString] returns, and
    [deobfuscateString] of what it returns is the text.  For text with a
    code unit above 0xFF, a letter outside Latin-1, [btoa] throws, and
    [obfuscateString] with it. *)
Theorem deobfuscate_obfuscate (input : JSString) :
  (Forall isByte input →
   ∃ stored, obfuscateString input = Some stored
             ∧ deobfuscateString stored = input)
  ∧ (Forall (λ c, 0 <= c < 65536) input →
     Exists (λ c, 255 < c) input →
     obfuscateString input = None).
Proof.
  split.
  - intros Hbytes. unfold obfuscateString, deobfuscateString.
    destruct (atob_btoa _ (xorLoop_bytes 0 _ Hbytes)) as (text & -> & Hatob).
    exists text. split; [done |]. rewrite Hatob. by apply xorLoop_involutive.
  - intros Hunits Hwide. unfold obfuscateString, btoa.
    by rewrite xorLoop_wide.
Qed.

(** "Song" is stored as "BAoMJg==". *)
Example obfuscateString_Song :
  obfuscateString [83; 111; 110; 103] = Some [66; 65; 111; 77; 74; 103; 61; 61].
Proof. reflexivity. Qed.

End MetadataObfuscationFacts.
(** ** The chunk store: chunks for instant playback *)

Module InstantChunks.
Import TypedArray AudioChunkStore.
Local Open Scope Z_scope.

Record InstantChunkConfig := {
  ic_initialChunkSize : Z;
  ic_subsequentChunkSize : Z;
  ic_enableInstantMode : bool
}.

(** The configuration a store starts with. *)
Definition instantChunkConfig : InstantChunkConfig :=
  {| ic_initialChunkSize := 384 * 1024;
     ic_subsequentChunkSize := 2 * 1024 * 1024;
     ic_enableInstantMode := true |}.

(** The [while (offset < totalSamples)] loop of
    [audioBufferToInstantChunks].  A chunk of at least one sample moves
    [offset] forward, so [fuel = totalSamples] turns are enough; with an
    empty chunk the source never leaves the loop ([None]).  [None] also
    stands for the RangeError of [new Float32Array] with a negative
    length and for [getChannelData] on a missing channel. *)
Fixpoint instantChunksFrom (nanEncoding : NaNEncoding) (fuel : nat)
    (audioBuffer : AudioBuffer) (trackId : string)
    (initialChunkSamples subsequentChunkSamples totalSamples offset chunkIndex : Z)
    : option (list AudioChunk) :=
  if offset <? totalSamples then
    match fuel with
    | O => None
    | S fuel' =>
      let chunkSamples :=
        if chunkIndex =? 0 then initialChunkSamples else subsequentChunkSamples in
      let length := Z.min chunkSamples (totalSamples - offset) in
      channels ← mapM (λ c, channelData ← ab_channelData audioBuffer !! c;
                            if length <? 0 then None
                            else Some (copySamples (nanEncoding c) channelData offset
                                                   length))
                      (seq 0 (Z.to_nat (ab_numberOfChannels audioBuffer)));
      rest ← instantChunksFrom nanEncoding fuel' audioBuffer trackId initialChunkSamples
                               subsequentChunkSamples totalSamples
                               (offset + length) (chunkIndex + 1);
      Some ({| ch_id := chunkId trackId chunkIndex;
               ch_trackId := trackId;
               ch_chunkIndex := chunkIndex;
               ch_sampleRate := ab_sampleRate audioBuffer;
               ch_length := length;
               ch_channels := channels |} :: rest)
    end
  else Some [].

Definition audioBufferToInstantChunks (nanEncoding : NaNEncoding)
    (config : InstantChunkConfig)
    (audioBuffer : AudioBuffer) (trackId : string) : option (list AudioChunk) :=
  let bytesPerSample := 4 in
  let totalSamples := ab_length audioBuffer in
  let initialChunkSamples :=
    ic_initialChunkSize config / (ab_numberOfChannels audioBuffer * bytesPerSample) in
  let subsequentChunkSamples :=
    ic_subsequentChunkSize config / (ab_numberOfChannels audioBuffer * bytesPerSample) in
  instantChunksFrom nanEncoding (Z.to_nat totalSamples) audioBuffer trackId
                    initialChunkSamples subsequentChunkSamples totalSamples 0 0.

End InstantChunks.

Module InstantChunksFacts.
Import TypedArray TypedArrayFacts AudioChunkStore ChunkingFacts InstantChunks.
Local Open Scope Z_scope.

Section Buffer.
Variable audioBuffer : AudioBuffer.
Hypothesis Hchannels :
  length (ab_channelData audioBuffer) = Z.to_nat (ab_numberOfChannels audioBuffer).
Hypothesis Hsamples :
  Forall (λ chan, byteLength chan = ab_length audioBuffer) (ab_channelData audioBuffer).

(** Merging a chunk that holds the samples from [offset] on into a
    buffer that holds the samples before [offset]. *)
Lemma mergeLoop_slice (offset : Z) (chunk : AudioChunk) (rest : list AudioChunk) :
  0 <= offset → 0 <= ch_length chunk →
  offset + ch_length chunk <= ab_length audioBuffer →
  ch_channels chunk
  = (λ chan, slice chan offset (ch_length chunk)) <$> ab_channelData audioBuffer →
  mergeLoop (ab_numberOfChannels audioBuffer) (merged audioBuffer offset) offset
            (chunk :: rest)
  = mergeLoop (ab_numberOfChannels audioBuffer)
              (merged audioBuffer (offset + ch_length chunk))
              (offset + ch_length chunk) rest.
Proof.
  intros Hoffset Hlen Hfits Hch.
  rewrite mergeLoop_cons, <- Hchannels. unfold merged at 1.
  rewrite (setChannels_fmap chunk offset _
    (λ chan, slice chan offset (ch_length chunk))
    (λ chan, take (Z.to_nat (offset + ch_length chunk)) chan
             ++ repeat 0 (Z.to_nat (ab_length audioBuffer - (offset + ch_length chunk)))));
    [done | done |].
  intros chan Hchan. apply set_slice; try lia.
  by eapply Forall_forall in Hsamples.
Qed.

End Buffer.

Section Instant.
Variables (nanEncoding : NaNEncoding) (audioBuffer : AudioBuffer).
Hypothesis Hchannels :
  length (ab_channelData audioBuffer) = Z.to_nat (ab_numberOfChannels audioBuffer).
Hypothesis Hsamples :
  Forall (λ chan, byteLength chan = ab_length audioBuffer) (ab_channelData audioBuffer).
Variables (trackId : string) (initialChunkSamples subsequentChunkSamples : Z).
Hypothesis Hinitial : 1 <= initialChunkSamples.
Hypothesis Hsubsequent : 1 <= subsequentChunkSamples.

Local Notation "'image'" := (copied nanEncoding audioBuffer).

Lemma instantChunksFrom_roundtrip (fuel : nat) (offset chunkIndex : Z) :
  0 <= offset <= ab_length audioBuffer →
  ab_length audioBuffer - offset <= Z.of_nat fuel →
  ∃ chunks,
    instantChunksFrom nanEncoding fuel audioBuffer trackId initialChunkSamples
                      subsequentChunkSamples (ab_length audioBuffer) offset chunkIndex
    = Some chunks
    ∧ mergeLoop (ab_numberOfChannels audioBuffer) (merged image offset) offset chunks
      = Some (merged image (ab_length audioBuffer))
    ∧ totalLength chunks = ab_length audioBuffer - offset
    ∧ ch_chunkIndex <$> chunks = seqZ chunkIndex (Z.of_nat (length chunks))
    ∧ Forall (λ chunk, 1 <= ch_length chunk
                       ∧ ch_length chunk
                         <= (if ch_chunkIndex chunk =? 0 then initialChunkSamples
                             else subsequentChunkSamples)) chunks
    ∧ (offset < ab_length audioBuffer →
       ∃ first, head chunks = Some first
                ∧ ch_length first
                  = Z.min (if chunkIndex =? 0 then initialChunkSamples
                           else subsequentChunkSamples)
                          (ab_length audioBuffer - offset)
                ∧ ch_channels first
                  = (λ chan, slice chan offset (ch_length first))
                      <$> ab_channelData image).
Proof.
  revert offset chunkIndex.
  induction fuel as [|fuel IH]; intros offset chunkIndex Hoffset Hfuel.
  - exists []. simpl. destruct (Z.ltb_spec offset (ab_length audioBuffer)); [lia |].
    replace offset with (ab_length audioBuffer) by lia.
    split_and!; try done; [unfold totalLength; simpl; lia | lia].
  - cbn [instantChunksFrom].
    destruct (Z.ltb_spec offset (ab_length audioBuffer)) as [Hlt|Hge].
    2: { exists []. replace offset with (ab_length audioBuffer) by lia.
         split_and!; try done; [unfold totalLength; simpl; lia | lia]. }
    set (chunkSamples := if chunkIndex =? 0 then initialChunkSamples
                         else subsequentChunkSamples).
    assert (1 <= chunkSamples) as Hchunk by (subst chunkSamples; by destruct (chunkIndex =? 0)).
    set (count := Z.min chunkSamples (ab_length audioBuffer - offset)).
    destruct (Z.ltb_spec count 0); [subst count; lia |].
    rewrite <- Hchannels, channels_of_imap. simpl.
    destruct (IH (offset + count) (chunkIndex + 1)) as (rest & -> & Hmerge & Hsum & Hidx & Hlens & _);
      [subst count; lia .. |].
    simpl.
    set (chunk := {| ch_id := chunkId trackId chunkIndex; ch_trackId := trackId;
                     ch_chunkIndex := chunkIndex;
                     ch_sampleRate := ab_sampleRate audioBuffer;
                     ch_length := count;
                     ch_channels :=
                       imap (λ c chan, copySamples (nanEncoding c) chan offset count)
                            (ab_channelData audioBuffer) |}).
    assert (ch_channels chunk
            = (λ chan, slice chan offset (ch_length chunk)) <$> ab_channelData image)
      as Hslices.
    { cbn [ch_channels chunk ch_length].
      apply copySamples_copied; [done | subst count; lia ..]. }
    pose proof (mergeLoop_slice image (copied_channels nanEncoding audioBuffer Hchannels)
                  (copied_samples nanEncoding audioBuffer Hsamples)) as Hstep.
    cbn [ab_numberOfChannels ab_length copied] in Hstep.
    exists (chunk :: rest). split_and!; [done | | | | |].
    + rewrite Hstep; [done | lia | simpl; subst count; lia
                     | simpl; subst count; lia | done].
    + rewrite totalLength_cons, Hsum. simpl. lia.
    + rewrite fmap_cons, Hidx, length_cons, Nat2Z.inj_succ.
      rewrite (seqZ_cons chunkIndex) by lia. simpl.
      by rewrite Z.pred_succ, <- Z.add_1_r.
    + constructor; [| done]. simpl. fold chunkSamples. subst count. lia.
    + intros _. exists chunk. split_and!; done.
Qed.

End Instant.

(** X13.  An [AudioBuffer] has at least one channel and one frame, and
    each of its channels has [length] samples.  When both chunk sizes of
    the configuration have room for a frame, and the metadata give the
    channels and the rate of the buffer, [mergeChunks] of
    [audioBufferToInstantChunks] is the buffer with every sample copied
    as a Number: the buffer again, bit for bit, when no sample is a NaN,
    and in every case (on an engine that stores NaN as a NaN) a buffer of
    the same shape whose samples are the same Numbers.  The chunks are
    numbered from 0, none is empty, the first holds the first samples of
    each channel, as many as the initial chunk size has room for or all
    of them, and the others no more than the subsequent chunk size has
    room for. *)
Theorem mergeChunks_audioBufferToInstantChunks (nanEncoding : NaNEncoding)
    (config : InstantChunkConfig) (audioBuffer : AudioBuffer) (trackId : string)
    (metadata : AudioMetadata) :
  1 <= ab_numberOfChannels audioBuffer →
  1 <= ab_length audioBuffer →
  length (ab_channelData audioBuffer) = Z.to_nat (ab_numberOfChannels audioBuffer) →
  Forall (λ chan, byteLength chan = ab_length audioBuffer) (ab_channelData audioBuffer) →
  ab_numberOfChannels audioBuffer * 4 <= ic_initialChunkSize config →
  ab_numberOfChannels audioBuffer * 4 <= ic_subsequentChunkSize config →
  md_numberOfChannels metadata = ab_numberOfChannels audioBuffer →
  md_sampleRate metadata = ab_sampleRate audioBuffer →
  let initialChunkSamples :=
    ic_initialChunkSize config / (ab_numberOfChannels audioBuffer * 4) in
  let subsequentChunkSamples :=
    ic_subsequentChunkSize config / (ab_numberOfChannels audioBuffer * 4) in
  ∃ first rest result,
    audioBufferToInstantChunks nanEncoding config audioBuffer trackId
    = Some (first :: rest)
    ∧ mergeChunks (first :: rest) metadata = Some result
    ∧ result = copied nanEncoding audioBuffer
    ∧ (noNaN audioBuffer → result = audioBuffer)
    ∧ (storesNaN nanEncoding → sameSamples audioBuffer result)
    ∧ totalLength (first :: rest) = ab_length audioBuffer
    ∧ ch_chunkIndex <$> (first :: rest) = seqZ 0 (Z.of_nat (S (length rest)))
    ∧ ch_length first = Z.min initialChunkSamples (ab_length audioBuffer)
    ∧ ch_channels first
      = (λ chan, take (Z.to_nat (ch_length first)) chan) <$> ab_channelData result
    ∧ Forall (λ chunk, 1 <= ch_length chunk <= subsequentChunkSamples) rest.
Proof.
  intros Hn Htotal Hchannels Hsamples Hroom1 Hroom2 Hmdn Hmdrate initial subsequent.
  assert (1 <= initial) as Hinitial
    by (subst initial; apply Z.div_le_lower_bound; lia).
  assert (1 <= subsequent) as Hsubsequent
    by (subst subsequent; apply Z.div_le_lower_bound; lia).
  destruct (instantChunksFrom_roundtrip nanEncoding audioBuffer Hchannels Hsamples trackId
              initial subsequent Hinitial Hsubsequent
              (Z.to_nat (ab_length audioBuffer)) 0 0)
    as (chunks & Hchunks & Hmerge & Hsum & Hidx & Hlens & Hfirst); [lia .. |].
  rewrite Z.sub_0_r in Hsum.
  assert (mergeChunks chunks metadata = Some (copied nanEncoding audioBuffer)) as Hback.
  { unfold mergeChunks. fold (totalLength chunks). rewrite Hsum, Hmdn, Hmdrate.
    unfold createBuffer.
    destruct (Z.ltb_spec (ab_numberOfChannels audioBuffer) 1); [lia |].
    destruct (Z.ltb_spec (ab_length audioBuffer) 1); [lia |]. simpl.
    pose proof (merged_0 (copied nanEncoding audioBuffer)
                  (copied_channels nanEncoding audioBuffer Hchannels)) as Hzero.
    cbn [ab_length ab_numberOfChannels copied] in Hzero.
    rewrite <- Hzero, Hmerge. simpl.
    pose proof (merged_total (copied nanEncoding audioBuffer)) as Htotal'.
    cbn [ab_length copied] in Htotal'.
    by rewrite Htotal'
      by first [by apply copied_channels | by apply copied_samples]. }
  destruct (Hfirst ltac:(lia)) as (first & Hhead & Hlen & Hch).
  destruct chunks as [|first' rest]; [done |]. injection Hhead as ->.
  rewrite Z.sub_0_r in Hlen. simpl in Hlen.
  exists first, rest, (copied nanEncoding audioBuffer).
  split_and!; [done | done | done | | | done | done | done | |].
  - apply copied_noNaN.
  - apply copied_sameSamples.
  - rewrite Hch. by unfold slice.
  - rewrite fmap_cons, length_cons, Nat2Z.inj_succ in Hidx.
    rewrite (seqZ_cons 0) in Hidx by lia.
    injection Hidx as Hfirstidx Hidx.
    apply Forall_cons in Hlens as [_ Hlens].
    apply Forall_forall. intros chunk Hchunk.
    pose proof Hchunk as [j Hj]%list_elem_of_lookup.
    eapply Forall_forall in Hlens; [| done].
    assert ((ch_chunkIndex <$> rest) !! j = Some (ch_chunkIndex chunk)) as Hj'
      by (by rewrite list_lookup_fmap, Hj).
    rewrite Hidx in Hj'. apply lookup_seqZ in Hj' as [Hj' _].
    destruct (Z.eqb_spec (ch_chunkIndex chunk) 0); [lia |]. done.
Qed.

Lemma mergeChunks_audioBufferToInstantChunks_witness :
  let config := {| ic_initialChunkSize := 8; ic_subsequentChunkSize := 16;
                   ic_enableInstantMode := true |} in
  ∃ first rest,
    audioBufferToInstantChunks (always canonicalNaN) config stereo "a"
    = Some (first :: rest)
    ∧ mergeChunks (first :: rest) ChunkingFacts.stereoMetadata = Some stereo
    ∧ totalLength (first :: rest) = 5
    ∧ ch_chunkIndex <$> (first :: rest) = seqZ 0 (Z.of_nat (S (length rest)))
    ∧ ch_length first = Z.min (8 / (2 * 4)) 5
    ∧ Forall (λ chunk, 1 <= ch_length chunk <= 16 / (2 * 4)) rest.
Proof.
  intros config.
  destruct (mergeChunks_audioBufferToInstantChunks (always canonicalNaN)
              {| ic_initialChunkSize := 8; ic_subsequentChunkSize := 16;
                 ic_enableInstantMode := true |} stereo "a" ChunkingFacts.stereoMetadata)
    as (first & rest & result & Hchunks & Hmerge & -> & _ & _ & Hsum & Hidx & Hlen
        & _ & Hrest);
    [simpl; lia | simpl; lia | reflexivity | by repeat constructor
    | simpl; lia | simpl; lia | reflexivity | reflexivity |].
  exists first, rest. by split_and!.
Defined.

End InstantChunksFacts.
(** ** The chunk store: a track stored and loaded *)

Module StoredAudio.
Import TypedArray Promises AudioChunkStore.
Local Open Scope Z_scope.

(** What an [async] method comes to once the store has answered: a value,
    or an exception of the platform (the promise rejects with it). *)
Inductive Result (A : Type) :=
| Returns (value : A)
| Throws.
Arguments Returns {A} value.
Arguments Throws {A}.

Definition minChunksForPlayback : Z := 1.

(** A call [progressCallback(loaded, total, canStartPlayback)]. *)
Definition ProgressCall : Type := Z * Z * bool.

(** [metadata.totalChunks] as [storeAudio] computes it:
    [Math.ceil(totalBytes / this.chunkSizeBytes)], for a positive chunk
    size. *)
Definition totalChunksOf (chunkSizeBytes : Z) (audioBuffer : AudioBuffer) : Z :=
  let bytesPerSample := 4 in
  let totalBytes := ab_length audioBuffer * ab_numberOfChannels audioBuffer * bytesPerSample in
  - ((- totalBytes) / chunkSizeBytes).

(** The loop of [storeAudio] over [chunks], from [chunks[i]] on; the
    result is the calls of the progress callback. *)
Fixpoint saveChunks (hasTextDecoder progressCallback : bool) (chunks : list AudioChunk)
    (i totalChunks : Z) : Op (list ProgressCall) :=
  match chunks with
  | [] => opRet []
  | chunk :: rest =>
    let! _ := saveChunk hasTextDecoder chunk in
    let loaded := i + 1 in
    let canStartPlayback := minChunksForPlayback <=? loaded in
    let! calls := saveChunks hasTextDecoder progressCallback rest (i + 1) totalChunks in
    opRet (if progressCallback then (loaded, totalChunks, canStartPlayback) :: calls
           else calls)
  end.

(** [fetch] and [decodeAudioData], which take [ms] and leave the store
    alone. *)
Definition download (ms : Z) : Op unit := λ db, Settles ms (Fulfilled (tt, db)).

(** [storeAudio] on an initialized store.  The response of [fetch] and
    what [decodeAudioData] makes of it are parameters: the size of the
    file, the decoded [audioBuffer] and the time the two calls take; a
    download that fails is not modelled.  [now] is [Date.now()]. *)
Definition storeAudio (nanEncoding : NaNEncoding) (hasTextDecoder : bool)
    (chunkSizeBytes now : Z)
    (url trackId name : string) (progressCallback : bool)
    (downloadMs fileSize : Z) (audioBuffer : AudioBuffer)
    : Op (Result (AudioMetadata * list ProgressCall)) :=
  let! existingMetadata := getMetadata trackId in
  match existingMetadata with
  | Some existing =>
    let! _ := updateLastAccessed now trackId in
    opRet (Returns (existing, []))
  | None =>
    let! _ := download downloadMs in
    let totalChunks := totalChunksOf chunkSizeBytes audioBuffer in
    let metadata :=
      {| md_trackId := trackId; md_name := name;
         md_duration := inject_Z (ab_length audioBuffer) / ab_sampleRate audioBuffer;
         md_sampleRate := ab_sampleRate audioBuffer;
         md_numberOfChannels := ab_numberOfChannels audioBuffer;
         md_totalChunks := totalChunks;
         md_lastAccessed := now;
         md_fileSize := fileSize; md_url := url |} in
    let! _ := saveMetadata metadata in
    match audioBufferToChunks nanEncoding chunkSizeBytes audioBuffer trackId with
    | None => opRet Throws
    | Some chunks =>
      let! calls := saveChunks hasTextDecoder progressCallback chunks 0 totalChunks in
      opRet (Returns (metadata, calls))
    end
  end.

(** The loop of [getAudioBuffer] from chunk [i] on, [remaining] turns. *)
Fixpoint loadChunks (trackId : string) (remaining : nat) (i : Z) : Op (list AudioChunk) :=
  match remaining with
  | O => opRet []
  | S remaining' =>
    let! chunk := getChunk trackId i in
    let! rest := loadChunks trackId remaining' (i + 1) in
    opRet (match chunk with
           | Some c => c :: rest
           | None => rest
           end)
  end.

(** [getAudioBuffer] on an initialized store; [chunkCount ? ... : ...]
    takes a count of 0 for none. *)
Definition getAudioBuffer (now : Z) (trackId : string) (startChunk : Z)
    (chunkCount : option Z) : Op (Result (option AudioBuffer)) :=
  let! metadata := getMetadata trackId in
  match metadata with
  | None => opRet (Returns None)
  | Some metadata =>
    let! _ := updateLastAccessed now trackId in
    let endChunk :=
      match chunkCount with
      | Some count =>
        if count =? 0 then md_totalChunks metadata
        else Z.min (startChunk + count) (md_totalChunks metadata)
      | None => md_totalChunks metadata
      end in
    let! chunks := loadChunks trackId (Z.to_nat (endChunk - startChunk)) startChunk in
    match chunks with
    | [] => opRet (Returns None)
    | _ => opRet (match mergeChunks chunks metadata with
                  | Some audioBuffer => Returns (Some audioBuffer)
                  | None => Throws
                  end)
    end
  end.

End StoredAudio.

From Stdlib Require Import DecimalZ.

Module StoredAudioFacts.
Import TypedArray TypedArrayFacts Promises AudioChunkStore SampleCodecFacts ChunkingFacts.
Import ChunkStoreRoundTrip StoredAudio.
Local Open Scope Z_scope.

(** *** Chunk ids *)

Lemma to_int_not_nil (z : Z) :
  Z.to_int z ≠ Decimal.Pos Decimal.Nil ∧ Z.to_int z ≠ Decimal.Neg Decimal.Nil.
Proof.
  split; intros E; pose proof (DecimalZ.of_to z) as Hz; rewrite E in Hz;
    simpl in Hz; subst z; discriminate E.
Qed.

Lemma chunkId_inj (trackId : string) (i j : Z) :
  chunkId trackId i = chunkId trackId j → i = j.
Proof.
  unfold chunkId. intros E.
  apply String.app_inj, String.app_inj in E.
  assert (DecimalString.NilZero.int_of_string
            (DecimalString.NilZero.string_of_int (Z.to_int i))
          = DecimalString.NilZero.int_of_string
              (DecimalString.NilZero.string_of_int (Z.to_int j))) as E'
    by (by rewrite E).
  destruct (to_int_not_nil i), (to_int_not_nil j).
  rewrite !DecimalString.NilZero.isi in E' by done.
  injection E' as E'.
  by rewrite <- (DecimalZ.of_to i), <- (DecimalZ.of_to j), E'.
Qed.

(** *** Requests on a store that answers in time *)

Section Answers.
Variables (d : Z).
Hypothesis Hd : d < 5000.

Definition answers (db : IDB) : Prop := latency db = Some d.

Lemma bind_fulfilled {A B : Type} (m : Op A) (k : A → Op B) (db db' : IDB)
    (t t' : Z) (v : A) (o : Outcome (B * IDB)) :
  m db = Settles t (Fulfilled (v, db')) →
  k v db' = Settles t' o →
  (let! x := m in k x) db = Settles (t + t') o.
Proof. unfold opBind, await. intros -> ?. simpl. by rewrite H. Qed.

Lemma timed_request {A : Type} (onsuccess : IDB → option (A * IDB)) (db : IDB)
    (r : A * IDB) :
  answers db → onsuccess db = Some r →
  timed (request onsuccess) 5000 db = Settles d (Fulfilled r).
Proof.
  unfold answers, timed, request, withTimeout. intros -> ->.
  by destruct (Z.ltb_spec d 5000); [| lia].
Qed.

(** The record [saveChunk] writes. *)
Definition stored (hasTextDecoder : bool) (chunk : AudioChunk) : StoredChunk :=
  {| sc_id := ch_id chunk; sc_trackId := ch_trackId chunk;
     sc_chunkIndex := ch_chunkIndex chunk; sc_sampleRate := ch_sampleRate chunk;
     sc_length := ch_length chunk;
     sc_channels := float32ArrayToString hasTextDecoder <$> ch_channels chunk |}.

Definition putAll (hasTextDecoder : bool) (chunks : list AudioChunk) (db : IDB) : IDB :=
  foldl (λ db chunk, putData (stored hasTextDecoder chunk) db) db chunks.

Lemma putAll_meta (hasTextDecoder : bool) (chunks : list AudioChunk) (db : IDB) :
  cache_meta (putAll hasTextDecoder chunks db) = cache_meta db
  ∧ latency (putAll hasTextDecoder chunks db) = latency db.
Proof.
  revert db. induction chunks as [|c chunks IH]; intros db; [done |].
  unfold putAll in *. simpl. destruct (IH (putData (stored hasTextDecoder c) db)) as [-> ->].
  done.
Qed.

Lemma putAll_other (hasTextDecoder : bool) (chunks : list AudioChunk) (db : IDB)
    (id : string) :
  id ∉ ch_id <$> chunks →
  cache_data (putAll hasTextDecoder chunks db) !! id = cache_data db !! id.
Proof.
  revert db. induction chunks as [|c chunks IH]; intros db Hid; [done |].
  rewrite fmap_cons, not_elem_of_cons in Hid. destruct Hid as [Hc Hid].
  unfold putAll in *. simpl. rewrite IH by done. simpl.
  by rewrite lookup_insert_ne.
Qed.

Lemma putAll_lookup (hasTextDecoder : bool) (chunks : list AudioChunk) (db : IDB)
    (k : nat) (chunk : AudioChunk) :
  NoDup (ch_id <$> chunks) →
  chunks !! k = Some chunk →
  cache_data (putAll hasTextDecoder chunks db) !! ch_id chunk
  = Some (stored hasTextDecoder chunk).
Proof.
  revert db k. induction chunks as [|c chunks IH]; intros db k Hids Hk; [done |].
  rewrite fmap_cons in Hids. apply NoDup_cons in Hids as [Hc Hids].
  destruct k as [|k]; simpl in Hk.
  - injection Hk as ->. unfold putAll. simpl.
    fold (putAll hasTextDecoder chunks (putData (stored hasTextDecoder chunk) db)).
    rewrite putAll_other by done. simpl. by rewrite lookup_insert_eq.
  - unfold putAll. simpl. by apply (IH _ k).
Qed.

Lemma saveChunk_answers (hasTextDecoder : bool) (chunk : AudioChunk) (db : IDB) :
  answers db →
  saveChunk hasTextDecoder chunk db
  = Settles d (Fulfilled (tt, putData (stored hasTextDecoder chunk) db)).
Proof. intros Hdb. unfold saveChunk. by apply timed_request. Qed.

Lemma saveChunks_answers (hasTextDecoder progressCallback : bool)
    (chunks : list AudioChunk) (i totalChunks : Z) (db : IDB) :
  answers db →
  saveChunks hasTextDecoder progressCallback chunks i totalChunks db
  = Settles (Z.of_nat (length chunks) * d)
            (Fulfilled (if progressCallback
                        then (λ j, (j + 1, totalChunks, minChunksForPlayback <=? j + 1))
                               <$> seqZ i (Z.of_nat (length chunks))
                        else [],
                        putAll hasTextDecoder chunks db)).
Proof.
  revert i db. induction chunks as [|c chunks IH]; intros i db Hdb.
  - simpl. unfold opRet, resolve. by destruct progressCallback.
  - cbn [saveChunks].
    erewrite bind_fulfilled; [| by apply saveChunk_answers |].
    2: { erewrite bind_fulfilled; [| by apply IH | done]. done. }
    f_equal; [rewrite length_cons; lia |]. f_equal. f_equal.
    destruct progressCallback; [| done].
    rewrite length_cons, Nat2Z.inj_succ, (seqZ_cons i) by lia.
    rewrite fmap_cons, Z.pred_succ. by replace (Z.succ i) with (i + 1) by lia.
Qed.

Lemma getChunk_answers (hasTextDecoder : bool) (trackId : string) (i : Z)
    (chunk : AudioChunk) (db : IDB) :
  answers db →
  cache_data db !! chunkId trackId i = Some (stored hasTextDecoder chunk) →
  Forall (kept hasTextDecoder) (ch_channels chunk) →
  getChunk trackId i db = Settles d (Fulfilled (Some chunk, db)).
Proof.
  intros Hdb Hstored Hkept. unfold getChunk. apply timed_request; [done |].
  rewrite Hstored. simpl. rewrite channels_roundtrip by done. simpl.
  by destruct chunk.
Qed.

Lemma loadChunks_answers (hasTextDecoder : bool) (trackId : string)
    (chunks : list AudioChunk) (db : IDB) (remaining : nat) (i : nat) :
  answers db →
  (∀ j chunk, chunks !! j = Some chunk →
     cache_data db !! chunkId trackId (Z.of_nat j) = Some (stored hasTextDecoder chunk)
     ∧ Forall (kept hasTextDecoder) (ch_channels chunk)) →
  (i + remaining ≤ length chunks)%nat →
  loadChunks trackId remaining (Z.of_nat i) db
  = Settles (Z.of_nat remaining * d)
            (Fulfilled (take remaining (drop i chunks), db)).
Proof.
  intros Hdb Hchunks. revert i. induction remaining as [|remaining IH]; intros i Hi.
  - simpl. unfold opRet, resolve. by rewrite take_0.
  - cbn [loadChunks].
    destruct (lookup_lt_is_Some_2 chunks i) as [chunk Hchunk]; [lia |].
    destruct (Hchunks i chunk Hchunk) as [Hstored Hkept].
    erewrite bind_fulfilled; [| by eapply getChunk_answers |].
    2: { erewrite bind_fulfilled; [| | done].
         2: { replace (Z.of_nat i + 1) with (Z.of_nat (S i)) by lia. apply IH. lia. }
         done. }
    f_equal; [lia |]. f_equal. f_equal.
    rewrite (drop_S _ _ _ Hchunk). done.
Qed.

End Answers.

(** *** The chunks of a buffer *)

(** Samples that the string encoding keeps wherever a chunk starts:
    32-bit patterns, and with [TextDecoder] neither half a surrogate nor
    the low half a byte order mark. *)
Definition plain (hasTextDecoder : bool) (chan : Float32Array) : Prop :=
  Forall (λ w, word32 w
               ∧ (hasTextDecoder = true →
                  isSurrogate (w mod 65536) = false
                  ∧ isSurrogate (w / 65536) = false
                  ∧ w mod 65536 ≠ 0xFEFF)) chan.

Lemma plain_kept (hasTextDecoder : bool) (chan : Float32Array) :
  plain hasTextDecoder chan → kept hasTextDecoder chan.
Proof.
  unfold plain, kept. intros Hplain. split.
  - eapply Forall_impl; [exact Hplain |]. by intros w [? _].
  - intros ->. split.
    + unfold u16View. apply Forall_flat_map.
      eapply Forall_impl; [exact Hplain |]. intros w [_ Hw].
      destruct (Hw eq_refl) as (? & ? & _). by repeat constructor.
    + destruct chan as [|w chan]; [done |]. simpl.
      apply Forall_cons in Hplain as [[_ Hw] _].
      destruct (Hw eq_refl) as (_ & _ & ?). congruence.
Qed.

Lemma plain_slice (hasTextDecoder : bool) (chan : Float32Array) (offset count : Z) :
  plain hasTextDecoder chan → plain hasTextDecoder (slice chan offset count).
Proof. unfold plain, slice. intros. by apply Forall_take, Forall_drop. Qed.

(** The first [samples] frames of a buffer. *)
Definition prefix (audioBuffer : AudioBuffer) (samples : Z) : AudioBuffer :=
  {| ab_sampleRate := ab_sampleRate audioBuffer;
     ab_length := samples;
     ab_numberOfChannels := ab_numberOfChannels audioBuffer;
     ab_channelData := take (Z.to_nat samples) <$> ab_channelData audioBuffer |}.

Lemma slice_take (chan : Float32Array) (samples offset count : Z) :
  0 <= offset → 0 <= count → offset + count <= samples →
  slice (take (Z.to_nat samples) chan) offset count = slice chan offset count.
Proof.
  intros. unfold slice.
  replace (Z.to_nat samples)
    with (Z.to_nat offset + (Z.to_nat samples - Z.to_nat offset))%nat by lia.
  rewrite <- take_drop_commute, take_take. f_equal. lia.
Qed.

Lemma totalLength_snoc (chunks : list AudioChunk) (chunk : AudioChunk) :
  totalLength (chunks ++ [chunk]) = totalLength chunks + ch_length chunk.
Proof.
  induction chunks as [|c chunks IH]; simpl.
  - rewrite totalLength_cons. unfold totalLength. simpl. lia.
  - rewrite !totalLength_cons, IH. lia.
Qed.

Section Track.
Variables (audioBuffer : AudioBuffer) (trackId : string) (samplesPerChunk : Z).
Variable chunks : list AudioChunk.
Hypothesis Hchunk : 1 <= samplesPerChunk.
Hypothesis Hfirst : 1 <= ab_length audioBuffer.
Hypothesis Hchannels :
  length (ab_channelData audioBuffer) = Z.to_nat (ab_numberOfChannels audioBuffer).
Hypothesis Hsamples :
  Forall (λ chan, byteLength chan = ab_length audioBuffer) (ab_channelData audioBuffer).
Hypothesis Hcovers :
  ∀ j chunk, chunks !! j = Some chunk →
             covers audioBuffer trackId samplesPerChunk (Z.of_nat j) chunk.
Hypothesis Htotal : totalLength chunks = ab_length audioBuffer.

(** Where chunk [k] starts, and where the last one ends. *)
Definition startOf (k : nat) : Z := Z.min (Z.of_nat k * samplesPerChunk) (ab_length audioBuffer).

Lemma totalLength_take (m : nat) :
  (m ≤ length chunks)%nat → totalLength (take m chunks) = startOf m.
Proof.
  unfold startOf. induction m as [|m IH]; intros Hm.
  - rewrite take_0. unfold totalLength. simpl. lia.
  - destruct (lookup_lt_is_Some_2 chunks m) as [chunk Hm']; [lia |].
    rewrite (take_S_r _ _ _ Hm'), totalLength_snoc, IH by lia.
    destruct (Hcovers m chunk Hm') as (Hin & _ & _ & _ & _ & -> & _). lia.
Qed.

Lemma chunks_count :
  (1 ≤ length chunks)%nat
  ∧ (Z.of_nat (length chunks) - 1) * samplesPerChunk < ab_length audioBuffer
  ∧ ab_length audioBuffer <= Z.of_nat (length chunks) * samplesPerChunk.
Proof.
  pose proof (totalLength_take (length chunks) (le_n _)) as Hall.
  rewrite firstn_all, Htotal in Hall. unfold startOf in Hall.
  assert (1 ≤ length chunks)%nat as Hone.
  { destruct chunks; [| simpl; lia]. unfold totalLength in Htotal. simpl in Htotal. lia. }
  split; [done |]. split; [| lia].
  destruct (lookup_lt_is_Some_2 chunks (length chunks - 1)) as [chunk Hlast]; [lia |].
  destruct (Hcovers _ chunk Hlast) as (Hin & _).
  replace (Z.of_nat (length chunks - 1)) with (Z.of_nat (length chunks) - 1) in Hin by lia.
  done.
Qed.

Lemma chunks_ids : ch_id <$> chunks = chunkId trackId <$> seqZ 0 (Z.of_nat (length chunks)).
Proof.
  apply list_eq. intros j. rewrite !list_lookup_fmap.
  destruct (decide (j < length chunks)%nat) as [Hj|Hj].
  - destruct (lookup_lt_is_Some_2 chunks j) as [chunk Hchunk']; [lia |].
    rewrite Hchunk', lookup_seqZ_lt by lia. simpl.
    destruct (Hcovers j chunk Hchunk') as (_ & _ & -> & _). done.
  - by rewrite lookup_ge_None_2, lookup_seqZ_ge by lia.
Qed.

Lemma chunks_NoDup : NoDup (ch_id <$> chunks).
Proof.
  rewrite chunks_ids. apply NoDup_fmap_2; [| apply NoDup_seqZ].
  intros i j. apply chunkId_inj.
Qed.

Lemma chunks_kept (hasTextDecoder : bool) (j : nat) (chunk : AudioChunk) :
  Forall (plain hasTextDecoder) (ab_channelData audioBuffer) →
  chunks !! j = Some chunk →
  Forall (kept hasTextDecoder) (ch_channels chunk).
Proof.
  intros Hplain Hj.
  destruct (Hcovers j chunk Hj) as (_ & _ & _ & _ & _ & _ & ->).
  apply Forall_fmap. eapply Forall_impl; [exact Hplain |].
  intros chan Hchan. simpl. by apply plain_kept, plain_slice.
Qed.

(** Merging the first [m] chunks gives the first frames of the buffer. *)
Lemma mergeLoop_prefix (m remaining k : nat) :
  (m ≤ length chunks)%nat → (k + remaining = m)%nat →
  mergeLoop (ab_numberOfChannels audioBuffer)
            (merged (prefix audioBuffer (startOf m)) (startOf k)) (startOf k)
            (take remaining (drop k chunks))
  = Some (merged (prefix audioBuffer (startOf m)) (startOf m)).
Proof.
  intros Hm. revert k. induction remaining as [|remaining IH]; intros k Hk.
  - rewrite take_0. simpl. by replace k with m by lia.
  - destruct (lookup_lt_is_Some_2 chunks k) as [chunk Hchunk']; [lia |].
    rewrite (drop_S _ _ _ Hchunk'). cbn [take].
    destruct (Hcovers k chunk Hchunk') as (Hin & _ & _ & _ & _ & Hlen & Hch).
    assert (startOf k = Z.of_nat k * samplesPerChunk) as Hstart by (unfold startOf; lia).
    assert (startOf k + ch_length chunk = startOf (S k)) as Hnext
      by (unfold startOf; lia).
    assert (startOf (S k) <= startOf m) as Hle by (unfold startOf; nia).
    pose proof (InstantChunksFacts.mergeLoop_slice (prefix audioBuffer (startOf m)))
      as Hslice.
    cbn [ab_numberOfChannels ab_channelData ab_length prefix] in Hslice.
    rewrite Hslice.
    + rewrite Hnext. apply IH. lia.
    + by rewrite length_fmap.
    + apply Forall_fmap. eapply Forall_impl; [exact Hsamples |].
      intros chan Hchan. simpl in *. unfold byteLength in *.
      rewrite length_take. unfold startOf in *. lia.
    + unfold startOf. lia.
    + lia.
    + lia.
    + rewrite Hch, <- list_fmap_compose. apply Forall_fmap_ext_1.
      apply Forall_forall. intros chan _. simpl.
      rewrite slice_take; [by rewrite Hstart | lia | lia | lia].
Qed.

Lemma mergeChunks_prefix (m : nat) (metadata : AudioMetadata) :
  (1 ≤ m ≤ length chunks)%nat →
  1 <= ab_numberOfChannels audioBuffer →
  md_numberOfChannels metadata = ab_numberOfChannels audioBuffer →
  md_sampleRate metadata = ab_sampleRate audioBuffer →
  mergeChunks (take m chunks) metadata = Some (prefix audioBuffer (startOf m)).
Proof.
  intros Hm Hn Hmdn Hmdrate.
  assert (1 <= startOf m) as Hpos by (unfold startOf; nia).
  unfold mergeChunks. fold (totalLength (take m chunks)).
  rewrite totalLength_take, Hmdn, Hmdrate by lia.
  unfold createBuffer.
  destruct (Z.ltb_spec (ab_numberOfChannels audioBuffer) 1); [lia |].
  destruct (Z.ltb_spec (startOf m) 1); [lia |]. simpl.
  pose proof (merged_0 (prefix audioBuffer (startOf m))) as Hzero.
  cbn [ab_numberOfChannels ab_channelData ab_length prefix] in Hzero.
  rewrite <- Hzero by (by rewrite length_fmap).
  pose proof (mergeLoop_prefix m m 0 ltac:(lia) ltac:(lia)) as Hmerge.
  rewrite drop_0 in Hmerge.
  assert (startOf 0 = 0) as Hzero' by (unfold startOf; lia).
  rewrite Hzero' in Hmerge. rewrite Hmerge. simpl.
  pose proof (merged_total (prefix audioBuffer (startOf m))) as Hall.
  cbn [ab_numberOfChannels ab_channelData ab_length prefix] in Hall.
  rewrite Hall; [done | by rewrite length_fmap |].
  apply Forall_fmap. eapply Forall_impl; [exact Hsamples |].
  intros chan Hchan. simpl in *. unfold byteLength in *.
  rewrite length_take. unfold startOf in *. lia.
Qed.

End Track.

Lemma prefix_all (audioBuffer : AudioBuffer) :
  Forall (λ chan, byteLength chan = ab_length audioBuffer) (ab_channelData audioBuffer) →
  prefix audioBuffer (ab_length audioBuffer) = audioBuffer.
Proof.
  intros Hsamples. unfold prefix. destruct audioBuffer as [rate total n data]. simpl in *.
  f_equal. rewrite <- (list_fmap_id data) at 2. apply Forall_fmap_ext_1.
  eapply Forall_impl; [exact Hsamples |]. intros chan Hchan. simpl in *.
  unfold byteLength in Hchan. apply take_ge. lia.
Qed.

(** [Math.ceil(totalBytes / chunkSizeBytes)] against the number of
    chunks of [samplesPerChunk] frames. *)
Lemma totalChunks_bounds (chunkSizeBytes channels total count : Z) :
  1 <= channels → 1 <= total → channels * 4 <= chunkSizeBytes →
  (count - 1) * (chunkSizeBytes / (channels * 4)) < total →
  total <= count * (chunkSizeBytes / (channels * 4)) →
  1 <= - ((- (total * channels * 4)) / chunkSizeBytes) <= count
  ∧ (chunkSizeBytes mod (channels * 4) = 0 →
     - ((- (total * channels * 4)) / chunkSizeBytes) = count).
Proof.
  intros Hchannels Htotal Hroom Hlast Hall.
  assert (1 <= chunkSizeBytes / (channels * 4)) as Hspc
    by (apply Z.div_le_lower_bound; lia).
  pose proof (Z.div_mod chunkSizeBytes (channels * 4) ltac:(lia)) as Hdiv.
  pose proof (Z.mod_pos_bound chunkSizeBytes (channels * 4) ltac:(lia)) as Hmod.
  pose proof (Z.div_mod (- (total * channels * 4)) chunkSizeBytes ltac:(lia)) as Hdiv'.
  pose proof (Z.mod_pos_bound (- (total * channels * 4)) chunkSizeBytes ltac:(lia)) as Hmod'.
  set (spc := chunkSizeBytes / (channels * 4)) in *.
  set (q := (- (total * channels * 4)) / chunkSizeBytes) in *.
  set (r := (- (total * channels * 4)) mod chunkSizeBytes) in *.
  set (r' := chunkSizeBytes mod (channels * 4)) in *.
  assert (0 < count) as Hcount by nia.
  split; [split |].
  - nia.
  - assert (total * channels * 4 <= count * chunkSizeBytes) by nia. nia.
  - intros Hzero. rewrite Hzero in Hdiv.
    assert ((count - 1) * chunkSizeBytes < total * channels * 4) by nia.
    assert (total * channels * 4 <= count * chunkSizeBytes) by nia.
    nia.
Qed.



End StoredAudioFacts.
(** ** The worklet: rendering a quantum *)

Module AudioPlaybackProcessorRender.
Import AudioPlaybackProcessor.
Local Open Scope Z_scope.

(** The quiet NaN that a [Float32Array] stores for [undefined * volume]. *)
Definition NaN : Z := 0x7FC00000.

Section Render.

(** [x * this.volume] as the output array stores it: the product of a
    single-precision sample and the volume, rounded to single precision. *)
Variable multiply : Z → Q → Z.

(** [inputChannel[position] * this.volume]; an index below 0 reads
    [undefined]. *)
Definition sampleAt (inputChannel : Float32Array) (position : Z) (volume : Q) : Z :=
  if position <? 0 then NaN
  else match inputChannel !! Z.to_nat position with
       | Some x => multiply x volume
       | None => NaN
       end.

(** The loop over the frames of one output channel, from frame
    [bufferLength - frames] on.  [first] is [channel === 0].  The result
    is the frames written, the cursor and [audioEnded]. *)
Fixpoint renderFrames (inputChannel : Float32Array) (volume : Q) (first : bool)
    (frames : nat) (position : Z) (audioEnded : bool) : Float32Array * Z * bool :=
  match frames with
  | O => ([], position, audioEnded)
  | S frames' =>
    let inRange := position <? Z.of_nat (length inputChannel) in
    let sample := if inRange then sampleAt inputChannel position volume else 0 in
    let ended := if inRange then audioEnded else true in
    let position' := if first then position + 1 else position in
    let '(rest, p, e) := renderFrames inputChannel volume first frames' position' ended in
    (sample :: rest, p, e)
  end.

(** The loop over the output channels, from [channel] on.  A channel
    index without an array makes [inputChannel.length] throw ([None])
    as soon as a frame is rendered. *)
Fixpoint renderChannels (channelData : list Float32Array) (numberOfChannels : Z)
    (volume : Q) (bufferLength : nat) (remaining channel : nat)
    (position : Z) (audioEnded : bool) : option (list Float32Array * Z * bool) :=
  match remaining with
  | O => Some ([], position, audioEnded)
  | S remaining' =>
    let channelIndex := Z.min (Z.of_nat channel) (numberOfChannels - 1) in
    let inputChannel :=
      if channelIndex <? 0 then None else channelData !! Z.to_nat channelIndex in
    match bufferLength, inputChannel with
    | S _, None => None
    | _, _ =>
      let '(outputChannel, p, e) :=
        renderFrames (default [] inputChannel) volume (bool_decide (channel = 0%nat))
                     bufferLength position audioEnded in
      '(rest, p', e') ← renderChannels channelData numberOfChannels volume bufferLength
                                       remaining' (S channel) p e;
      Some (outputChannel :: rest, p', e')
    end
  end.

(** The assignments at the end of [process]. *)
Definition afterRender (st : t) (position : Z) (time : Q) (audioEnded : bool) : t :=
  let ended := audioEnded && isPlaying st in
  {| isPlaying := if ended then false else isPlaying st;
     volume := volume st;
     currentTime := time; duration := duration st;
     audioChannelData := audioChannelData st; sampleRate := sampleRate st;
     numberOfChannels := numberOfChannels st; totalSamples := totalSamples st;
     bufferSourcePosition := position;
     scheduledBuffers := scheduledBuffers st;
     currentBufferIndex := currentBufferIndex st;
     nextSwitchTime := nextSwitchTime st;
     currentBufferEarlyStopTime := currentBufferEarlyStopTime st;
     currentTrackId := currentTrackId st;
     hasLoggedEarlyStopContinue := hasLoggedEarlyStopContinue st;
     isIOSSafari := isIOSSafari st; iosSampleRate := iosSampleRate st;
     posted := if ended then posted st ++ [ENDED] else posted st |}.

(** [process].  [output] is [outputs[0]]: the number of its channels and
    of the frames of each, or nothing.  The result is the frames written
    to the output, if any were, and the state.  [None] is an exception
    of the source, and a clock that leaves the rationals (no sample rate,
    or the rate 0).  The TIME_UPDATE messages are not modelled. *)
Definition process (st : t) (output : option (nat * nat))
    : option (option (list Float32Array) * t) :=
  match output, audioChannelData st, isPlaying st with
  | Some (outputChannels, bufferLength), Some _, true =>
    match outputChannels with
    | O => None
    | S _ =>
      let st1 := processSwitch st in
      channelData ← audioChannelData st1;
      '(frames, position, audioEnded) ←
        renderChannels channelData (numberOfChannels st1) (volume st1) bufferLength
                       outputChannels 0 (bufferSourcePosition st1) false;
      rate ← sampleRate st1;
      if Qeq_bool rate 0 then None
      else Some (Some frames,
                 afterRender st1 position (inject_Z position / rate) audioEnded)
    end
  | _, _, _ => Some (None, st)
  end.

End Render.
End AudioPlaybackProcessorRender.

Module AudioPlaybackProcessorRenderFacts.
Import AudioPlaybackProcessor AudioPlaybackProcessorRender.
Local Open Scope Z_scope.

Section Render.
Variable multiply : Z → Q → Z.

(** What a frame holds when the cursor is at [position]: silence at and
    after the end of the channel, the sample times the volume before it. *)
Definition frame (inputChannel : Float32Array) (volume : Q) (position : Z) : Z :=
  if position <? Z.of_nat (length inputChannel)
  then sampleAt multiply inputChannel position volume else 0.

(** The channel followed by silence, from [position] on. *)
Definition window (inputChannel : Float32Array) (volume : Q) (position : Z)
    (frames : nat) : list Z :=
  take frames (drop (Z.to_nat position)
                    (((λ x, multiply x volume) <$> inputChannel)
                     ++ replicate (Z.to_nat position + frames) 0)).

Lemma window_frames (inputChannel : Float32Array) (volume : Q) (position : Z)
    (frames : nat) :
  0 <= position →
  (λ i, frame inputChannel volume (position + Z.of_nat i)) <$> seq 0 frames
  = window inputChannel volume position frames.
Proof.
  intros Hposition. apply list_eq. intros i. unfold window.
  rewrite list_lookup_fmap, lookup_take, lookup_drop.
  destruct (decide (i < frames)%nat) as [Hi|Hi].
  - rewrite lookup_seq_lt by done. simpl. unfold frame, sampleAt.
    destruct (Z.ltb_spec (position + Z.of_nat i) 0); [lia |].
    replace (Z.to_nat (position + Z.of_nat i)) with (Z.to_nat position + i)%nat by lia.
    destruct (Z.ltb_spec (position + Z.of_nat i) (Z.of_nat (length inputChannel))).
    + rewrite lookup_app_l by (rewrite length_fmap; lia).
      rewrite list_lookup_fmap.
      destruct (lookup_lt_is_Some_2 inputChannel (Z.to_nat position + i)) as [x Hx];
        [lia |].
      unfold Float32Array in *. by rewrite Hx.
    + rewrite lookup_app_r by (rewrite length_fmap; lia).
      symmetry. apply lookup_replicate_2. rewrite length_fmap. lia.
  - by rewrite lookup_seq_ge by lia.
Qed.

Lemma renderFrames_advance (inputChannel : Float32Array) (volume : Q)
    (frames : nat) (position : Z) (audioEnded : bool) :
  renderFrames multiply inputChannel volume true frames position audioEnded
  = ((λ i, frame inputChannel volume (position + Z.of_nat i)) <$> seq 0 frames,
     position + Z.of_nat frames,
     audioEnded
     || (0 <? Z.of_nat frames)
        && (Z.of_nat (length inputChannel) <? position + Z.of_nat frames)).
Proof.
  revert position audioEnded. induction frames as [|frames IH]; intros position audioEnded.
  - simpl. by rewrite Z.add_0_r, orb_false_r.
  - cbn [renderFrames]. rewrite IH. cbn [seq]. rewrite fmap_cons, <- fmap_S_seq.
    rewrite <- list_fmap_compose. unfold frame at 2.
    replace (position + Z.of_nat 0) with position by lia.
    f_equal; [f_equal |].
    + f_equal. apply list_fmap_ext. intros _ i _. simpl. f_equal. lia.
    + lia.
    + destruct (Z.ltb_spec position (Z.of_nat (length inputChannel)));
        destruct audioEnded; simpl; try done;
        destruct (Z.ltb_spec 0 (Z.of_nat frames));
        destruct (Z.ltb_spec (Z.of_nat (length inputChannel))
                             (position + 1 + Z.of_nat frames));
        destruct (Z.ltb_spec (Z.of_nat (length inputChannel))
                             (position + Z.of_nat (S frames)));
        simpl; try done; lia.
Qed.

Lemma renderFrames_hold (inputChannel : Float32Array) (volume : Q)
    (frames : nat) (position : Z) (audioEnded : bool) :
  renderFrames multiply inputChannel volume false frames position audioEnded
  = (replicate frames (frame inputChannel volume position),
     position,
     audioEnded
     || (0 <? Z.of_nat frames) && (Z.of_nat (length inputChannel) <=? position)).
Proof.
  revert audioEnded. induction frames as [|frames IH]; intros audioEnded.
  - simpl. by rewrite orb_false_r.
  - cbn [renderFrames]. rewrite IH. cbn [replicate]. unfold frame.
    f_equal.
    destruct (Z.ltb_spec position (Z.of_nat (length inputChannel)));
      destruct (Z.leb_spec (Z.of_nat (length inputChannel)) position); try lia;
      destruct audioEnded; simpl; try done;
      destruct (Z.ltb_spec 0 (Z.of_nat frames)); simpl; done.
Qed.

Lemma renderChannels_hold (channelData : list Float32Array) (volume : Q)
    (samples : Z) (bufferLength remaining channel : nat) (position : Z)
    (audioEnded : bool) :
  channelData ≠ [] →
  Forall (λ chan, Z.of_nat (length chan) = samples) channelData →
  (1 ≤ channel)%nat →
  renderChannels multiply channelData (Z.of_nat (length channelData)) volume
                 bufferLength remaining channel position audioEnded
  = Some ((λ c, replicate bufferLength
                  (frame (channelData !!! (c `min` (length channelData - 1))%nat)
                         volume position))
            <$> seq channel remaining,
          position,
          audioEnded
          || (0 <? Z.of_nat bufferLength) && (0 <? Z.of_nat remaining)
             && (samples <=? position)).
Proof.
  intros Hdata Hsamples. revert channel audioEnded.
  induction remaining as [|remaining IH]; intros channel audioEnded Hchannel.
  - simpl. by rewrite andb_false_r, orb_false_r.
  - cbn [renderChannels].
    assert (0 < length channelData)%nat as Hlen by (destruct channelData; simpl; [done | lia]).
    destruct (Z.ltb_spec (Z.min (Z.of_nat channel) (Z.of_nat (length channelData) - 1)) 0);
      [lia |].
    replace (Z.to_nat (Z.min (Z.of_nat channel) (Z.of_nat (length channelData) - 1)))
      with (channel `min` (length channelData - 1))%nat by lia.
    destruct (lookup_lt_is_Some_2 channelData (channel `min` (length channelData - 1))%nat)
      as [inputChannel Hinput]; [lia |].
    cbn [seq]. rewrite fmap_cons, (list_lookup_total_correct _ _ _ Hinput).
    unfold Float32Array in *. rewrite Hinput.
    assert (Z.of_nat (length inputChannel) = samples) as Hinputlen.
    { eapply Forall_forall in Hsamples; [exact Hsamples |].
      by eapply list_elem_of_lookup_2. }
    rewrite bool_decide_false by lia.
    replace (match bufferLength with
             | O | _ => _
             end)
      with (let '(outputChannel, p, e) :=
              renderFrames multiply inputChannel volume false bufferLength position
                           audioEnded in
            renderChannels multiply channelData (Z.of_nat (length channelData)) volume
                           bufferLength remaining (S channel) p e
            ≫= λ '(rest, p', e'), Some (outputChannel :: rest, p', e'))
      by (by destruct bufferLength).
    rewrite renderFrames_hold, IH by lia. simpl. f_equal. f_equal.
    rewrite Hinputlen.
    destruct audioEnded; simpl; [done |].
    destruct (Z.ltb_spec 0 (Z.of_nat bufferLength)); simpl; [| done].
    destruct (Z.leb_spec samples position); simpl; [done |].
    by rewrite andb_false_r.
Qed.

Lemma processSwitch_no_queue (st : t) :
  scheduledBuffers st = [] →
  audioChannelData (processSwitch st) = audioChannelData st
  ∧ isPlaying (processSwitch st) = isPlaying st
  ∧ volume (processSwitch st) = volume st
  ∧ sampleRate (processSwitch st) = sampleRate st
  ∧ numberOfChannels (processSwitch st) = numberOfChannels st
  ∧ bufferSourcePosition (processSwitch st) = bufferSourcePosition st
  ∧ scheduledBuffers (processSwitch st) = []
  ∧ posted (processSwitch st) = posted st.
Proof.
  intros Hqueue. unfold processSwitch.
  destruct (audioChannelData st) eqn:Hdata; [| by rewrite Hdata].
  destruct (isPlaying st) eqn:Hplaying; simpl; [| by rewrite Hdata, Hplaying].
  rewrite Hqueue. simpl.
  destruct (match currentBufferEarlyStopTime st with
            | Some e => Qleb e (Binary64.binary64 (currentTime st))
            | None => false
            end); simpl; [done |].
  destruct (nextSwitchTime st) as [s|]; [| by rewrite Hdata, Hplaying].
  destruct (Qleb s (Binary64.binary64 (currentTime st))); [| by rewrite Hdata, Hplaying].
  unfold performBufferSwitch. rewrite Hqueue. simpl. done.
Qed.

(** A quantum rendered by a playing processor without queued buffers. *)
Lemma process_playing (st : t) (channelData : list Float32Array) (rate : Q)
    (samples : Z) (outputChannels bufferLength : nat) :
  audioChannelData st = Some channelData →
  isPlaying st = true →
  sampleRate st = Some rate →
  Qeq_bool rate 0 = false →
  numberOfChannels st = Z.of_nat (length channelData) →
  channelData ≠ [] →
  Forall (λ chan, Z.of_nat (length chan) = samples) channelData →
  scheduledBuffers st = [] →
  let position := bufferSourcePosition st + Z.of_nat bufferLength in
  let audioEnded :=
    (0 <? Z.of_nat bufferLength)
    && ((samples <? position) || (1 <? Z.of_nat (S outputChannels)) && (samples <=? position)) in
  ∃ st',
    process multiply st (Some (S outputChannels, bufferLength))
    = Some (Some (((λ i, frame (channelData !!! 0%nat) (volume st)
                               (bufferSourcePosition st + Z.of_nat i))
                     <$> seq 0 bufferLength)
                  :: ((λ c, replicate bufferLength
                              (frame (channelData !!! (c `min` (length channelData - 1))%nat)
                                     (volume st) position))
                        <$> seq 1 outputChannels)),
            st')
    ∧ audioChannelData st' = Some channelData
    ∧ isPlaying st' = negb audioEnded
    ∧ sampleRate st' = Some rate
    ∧ volume st' = volume st
    ∧ numberOfChannels st' = Z.of_nat (length channelData)
    ∧ scheduledBuffers st' = []
    ∧ bufferSourcePosition st' = position
    ∧ currentTime st' = (inject_Z position / rate)%Q
    ∧ posted st' = posted st ++ (if audioEnded then [ENDED] else []).
Proof.
  intros Hdata Hplaying Hrate Hnonzero Hchannels Hnonempty Hsamples Hqueue position audioEnded.
  destruct (processSwitch_no_queue st Hqueue)
    as (Hdata1 & Hplaying1 & Hvolume1 & Hrate1 & Hchannels1 & Hposition1 & Hqueue1 & Hposted1).
  unfold process. rewrite Hdata, Hplaying, Hdata1, Hdata. simpl.
  rewrite Hchannels1, Hchannels, Hvolume1, Hposition1.
  destruct (lookup_lt_is_Some_2 channelData 0) as [inputChannel Hinput];
    [destruct channelData; simpl; [done | lia] |].
  rewrite (list_lookup_total_correct _ _ _ Hinput).
  assert (Z.of_nat (length inputChannel) = samples) as Hinputlen.
  { eapply Forall_forall in Hsamples; [exact Hsamples |].
    by eapply list_elem_of_lookup_2. }
  assert (0 < length channelData)%nat as Hlen by (destruct channelData; simpl; [done | lia]).
  destruct (Z.ltb_spec (Z.min (Z.of_nat 0) (Z.of_nat (length channelData) - 1)) 0); [lia |].
  replace (Z.to_nat (Z.min (Z.of_nat 0) (Z.of_nat (length channelData) - 1))) with 0%nat by lia.
  unfold Float32Array in *. rewrite Hinput.
  replace (match bufferLength with
           | O | _ => _
           end)
    with (let '(outputChannel, p, e) :=
            renderFrames multiply inputChannel (volume st) true bufferLength
                         (bufferSourcePosition st) false in
          renderChannels multiply channelData (Z.of_nat (length channelData)) (volume st)
                         bufferLength outputChannels 1 p e
          ≫= λ '(rest, p', e'), Some (outputChannel :: rest, p', e'))
    by (by destruct bufferLength).
  rewrite renderFrames_advance, (renderChannels_hold _ _ samples) by (done || lia).
  simpl. rewrite Hrate1, Hrate. simpl. rewrite Hnonzero.
  eexists. split; [done |]. unfold afterRender. simpl.
  rewrite Hdata1, Hplaying1, Hrate1, Hvolume1, Hchannels1, Hqueue1, Hposted1, Hplaying,
    Hinputlen, andb_true_r.
  fold position.
  assert (((0 <? Z.of_nat bufferLength) && (samples <? position)
           || (0 <? Z.of_nat bufferLength) && (0 <? Z.of_nat outputChannels)
              && (samples <=? position)) = audioEnded) as ->.
  { subst audioEnded.
    destruct (Z.ltb_spec 0 (Z.of_nat bufferLength)); simpl; [| done].
    destruct (Z.ltb_spec 0 (Z.of_nat outputChannels));
      destruct (Z.ltb_spec 1 (Z.of_nat (S outputChannels))); try lia; done. }
  split_and!; try done; destruct audioEnded; try done.
  by rewrite app_nil_r.
Qed.

Lemma frame_lookup (inputChannel : Float32Array) (volume : Q) (position : Z) :
  0 <= position →
  frame inputChannel volume position
  = default 0 ((λ x, multiply x volume) <$> inputChannel !! Z.to_nat position).
Proof.
  intros Hposition. unfold frame, sampleAt.
  destruct (Z.ltb_spec position 0); [lia |].
  destruct (Z.ltb_spec position (Z.of_nat (length inputChannel))).
  - destruct (lookup_lt_is_Some_2 inputChannel (Z.to_nat position)) as [x Hx]; [lia |].
    unfold Float32Array in *. by rewrite Hx.
  - unfold Float32Array in *. by rewrite lookup_ge_None_2 by lia.
Qed.

(** X15.  A playing processor that holds a buffer of one or more
    channels of [samples] frames each, at a rate other than 0, with no
    buffer queued and its cursor at [position], renders a quantum as
    follows.  The first output channel gets the frames of the first
    channel from the cursor on, each times the volume, and silence from
    the end of the channel on.  The cursor moves on by the length of the
    quantum while the first channel is rendered and stays there for the
    others: all frames of any other output channel hold one value, the
    sample that its channel (the last one, when the buffer has fewer
    channels than the output) has at the new cursor, times the volume,
    or silence when the new cursor is at the end or after it.  The clock
    is the new cursor over the rate.  When a frame of silence was
    written the processor stops playing and posts ENDED. *)
Theorem process_renders_quantum (st : t) (channelData : list Float32Array) (rate : Q)
    (samples : Z) (outputChannels bufferLength : nat) :
  audioChannelData st = Some channelData →
  isPlaying st = true →
  sampleRate st = Some rate →
  Qeq_bool rate 0 = false →
  numberOfChannels st = Z.of_nat (length channelData) →
  channelData ≠ [] →
  Forall (λ chan, Z.of_nat (length chan) = samples) channelData →
  scheduledBuffers st = [] →
  0 <= bufferSourcePosition st →
  let position := bufferSourcePosition st + Z.of_nat bufferLength in
  let audioEnded :=
    (0 <? Z.of_nat bufferLength)
    && ((samples <? position)
        || (1 <? Z.of_nat (S outputChannels)) && (samples <=? position)) in
  ∃ first others st',
    process multiply st (Some (S outputChannels, bufferLength))
    = Some (Some (first :: others), st')
    ∧ first = window (channelData !!! 0%nat) (volume st) (bufferSourcePosition st)
                     bufferLength
    ∧ length others = outputChannels
    ∧ (∀ c chan, others !! c = Some chan →
         chan = replicate bufferLength
                  (default 0 ((λ x, multiply x (volume st))
                                <$> (channelData !!! (S c `min` (length channelData - 1))%nat)
                                      !! Z.to_nat position)))
    ∧ bufferSourcePosition st' = position
    ∧ currentTime st' = (inject_Z position / rate)%Q
    ∧ isPlaying st' = negb audioEnded
    ∧ posted st' = posted st ++ (if audioEnded then [ENDED] else [])
    ∧ audioChannelData st' = Some channelData
    ∧ volume st' = volume st.
Proof.
  intros Hdata Hplaying Hrate Hnonzero Hchannels Hnonempty Hsamples Hqueue Hposition
    position audioEnded.
  destruct (process_playing st channelData rate samples outputChannels bufferLength)
    as (st' & Hprocess & Hdata' & Hplaying' & _ & Hvolume' & _ & _ & Hposition'
        & Htime' & Hposted'); try done.
  eexists _, _, st'. split; [exact Hprocess |].
  split_and!; try done.
  - by apply window_frames.
  - by rewrite length_fmap, length_seq.
  - intros c chan Hc. rewrite list_lookup_fmap in Hc.
    destruct (seq 1 outputChannels !! c) as [c'|] eqn:Hc'; [| done].
    apply lookup_seq in Hc' as [-> _]. simpl in Hc. injection Hc as <-.
    f_equal. apply frame_lookup. lia.
Qed.

(** The frames of [quanta] successive render quanta of a mono output.
    The output of a quantum starts as silence, and that is what a call
    that writes nothing leaves. *)
Fixpoint render (quanta : nat) (st : t) (bufferLength : nat) : option (list Z * t) :=
  match quanta with
  | O => Some ([], st)
  | S quanta' =>
    '(written, st1) ← process multiply st (Some (1%nat, bufferLength));
    '(rest, st2) ← render quanta' st1 bufferLength;
    Some (match written with
          | Some channels => concat channels
          | None => replicate bufferLength 0
          end ++ rest, st2)
  end.

Lemma render_idle (quanta : nat) (st : t) (bufferLength : nat) :
  isPlaying st = false →
  render quanta st bufferLength = Some (replicate (quanta * bufferLength) 0, st).
Proof.
  intros Hidle. induction quanta as [|quanta IH]; [done |].
  cbn [render]. unfold process at 1. rewrite Hidle.
  replace (match audioChannelData st with
           | Some _ | _ => Some (None, st)
           end) with (Some (@None (list Float32Array), st))
    by (by destruct (audioChannelData st)).
  simpl. rewrite IH. simpl. by rewrite <- replicate_add.
Qed.

Lemma render_playing (channelData : list Float32Array) (rate : Q) (samples : Z)
    (bufferLength quanta : nat) (st : t) :
  audioChannelData st = Some channelData →
  isPlaying st = true →
  sampleRate st = Some rate →
  Qeq_bool rate 0 = false →
  numberOfChannels st = Z.of_nat (length channelData) →
  channelData ≠ [] →
  Forall (λ chan, Z.of_nat (length chan) = samples) channelData →
  scheduledBuffers st = [] →
  bufferSourcePosition st <= samples →
  let played := bufferSourcePosition st + Z.of_nat (quanta * bufferLength) in
  ∃ st',
    render quanta st bufferLength
    = Some ((λ i, frame (channelData !!! 0%nat) (volume st)
                        (bufferSourcePosition st + Z.of_nat i))
              <$> seq 0 (quanta * bufferLength), st')
    ∧ isPlaying st' = negb (samples <? played)
    ∧ posted st' = posted st ++ (if samples <? played then [ENDED] else []).
Proof.
  revert st. induction quanta as [|quanta IH];
    intros st Hdata Hplaying Hrate Hnonzero Hchannels Hnonempty Hsamples Hqueue Hposition played.
  - exists st. subst played. simpl. rewrite Z.add_0_r.
    destruct (Z.ltb_spec samples (bufferSourcePosition st)); [lia |].
    by rewrite app_nil_r.
  - destruct (process_playing st channelData rate samples 0 bufferLength)
      as (st1 & Hprocess & Hdata1 & Hplaying1 & Hrate1 & Hvolume1 & Hchannels1 & Hqueue1
          & Hposition1 & _ & Hposted1); try done.
    cbn [render]. rewrite Hprocess. cbn [mbind option_bind seq fmap list_fmap concat].
    rewrite app_nil_r.
    change (1 <? Z.of_nat 1) with false in Hplaying1, Hposted1.
    rewrite andb_false_l, orb_false_r in Hplaying1, Hposted1.
    replace (S quanta * bufferLength)%nat with (bufferLength + quanta * bufferLength)%nat
      in * by lia.
    rewrite seq_app, fmap_app. subst played.
    destruct (Z.ltb_spec 0 (Z.of_nat bufferLength)) as [Hframes|Hframes];
      destruct (Z.ltb_spec samples (bufferSourcePosition st + Z.of_nat bufferLength))
        as [Hpast|Hpast];
      simpl in Hplaying1, Hposted1; try lia.
    + rewrite (render_idle _ _ _ Hplaying1). simpl.
      exists st1. split_and!.
      * f_equal. f_equal. f_equal.
        apply list_eq. intros i. rewrite list_lookup_fmap.
        destruct (decide (i < quanta * bufferLength)%nat) as [Hi|Hi].
        -- rewrite lookup_replicate_2, lookup_seq_lt by done. simpl. unfold frame.
           match goal with
           | |- context [Z.of_nat (length ?l)] =>
             assert (Z.of_nat (length l) = samples) as ->
           end.
           { eapply Forall_forall in Hsamples; [exact Hsamples |].
             apply list_elem_of_lookup_total_2.
             destruct channelData; simpl; [done | lia]. }
           destruct (Z.ltb_spec (bufferSourcePosition st
                                 + Z.of_nat (bufferLength + i)) samples); [lia | done].
        -- rewrite lookup_seq_ge by lia.
           by rewrite lookup_ge_None_2 by (rewrite length_replicate; lia).
      * rewrite Hplaying1.
        destruct (Z.ltb_spec samples (bufferSourcePosition st
                                      + Z.of_nat (bufferLength + quanta * bufferLength)));
          [done | lia].
      * rewrite Hposted1.
        destruct (Z.ltb_spec samples (bufferSourcePosition st
                                      + Z.of_nat (bufferLength + quanta * bufferLength)));
          [done | lia].
    + destruct (IH st1) as (st2 & Hrender & Hplaying2 & Hposted2); try done; [lia |].
      rewrite Hrender. simpl. exists st2. rewrite Hposition1, Hvolume1 in *.
      split_and!.
      * f_equal. f_equal. f_equal.
        replace (seq bufferLength (quanta * bufferLength))
          with ((λ i, bufferLength + i)%nat <$> seq 0 (quanta * bufferLength))
          by (rewrite fmap_add_seq; f_equal; lia).
        rewrite <- list_fmap_compose. apply list_fmap_ext. intros _ i _. simpl. f_equal. lia.
      * rewrite Hplaying2. f_equal. f_equal. lia.
      * rewrite Hposted2, Hposted1, app_nil_r. f_equal.
        replace (bufferSourcePosition st + Z.of_nat bufferLength
                 + Z.of_nat (quanta * bufferLength))
          with (bufferSourcePosition st + Z.of_nat (bufferLength + quanta * bufferLength))
          by lia. done.
    + assert (bufferLength = 0%nat) as -> by lia.
      destruct (IH st1) as (st2 & Hrender & Hplaying2 & Hposted2); try done; [lia |].
      rewrite Hrender. simpl. exists st2. rewrite Hposition1, Hvolume1 in *.
      rewrite Nat.mul_0_r in *. simpl. split_and!; [done | |].
      * rewrite Hplaying2. f_equal. f_equal. lia.
      * rewrite Hposted2, Hposted1, app_nil_r. f_equal.
        by rewrite !Z.add_0_r.
Qed.

(** X16.  A new processor is given a buffer of one or more channels of
    [totalSamples] frames each, at a rate other than 0, and is told to
    play.  What it then writes to a mono output, quantum after quantum,
    is the first channel of the buffer, each sample times the volume 1,
    followed by silence; a quantum that the processor leaves alone counts
    as silence.  It posts ENDED once, in the first quantum that runs
    past the end of the buffer, and stops playing then: a buffer whose
    length is a multiple of the quantum ends one quantum after its last
    sample. *)
Theorem playback_is_buffer_then_silence (data : BufferMessage)
    (quanta bufferLength : nat) :
  bm_channelData data ≠ [] →
  bm_numberOfChannels data = Z.of_nat (length (bm_channelData data)) →
  Forall (λ chan, Z.of_nat (length chan) = bm_totalSamples data) (bm_channelData data) →
  Qeq_bool (bm_sampleRate data) 0 = false →
  let played := (quanta * bufferLength)%nat in
  ∃ st',
    render quanta (onmessage (onmessage constructor (SET_BUFFER data)) PLAY) bufferLength
    = Some (take played (((λ x, multiply x 1) <$> (bm_channelData data !!! 0%nat))
                         ++ replicate played 0), st')
    ∧ posted st' = (if bm_totalSamples data <? Z.of_nat played then [ENDED] else [])
    ∧ isPlaying st' = negb (bm_totalSamples data <? Z.of_nat played).
Proof.
  intros Hnonempty Hchannels Hsamples Hnonzero played.
  destruct (render_playing (bm_channelData data) (bm_sampleRate data) (bm_totalSamples data)
              bufferLength quanta
              (onmessage (onmessage constructor (SET_BUFFER data)) PLAY))
    as (st' & Hrender & Hplaying & Hposted); try done.
  { simpl. destruct (bm_channelData data) as [|chan rest]; [done |].
    apply Forall_cons in Hsamples as [<- _]. lia. }
  exists st'. rewrite Hrender. simpl in *. rewrite Z.add_0_l in *.
  split_and!; [| done | done].
  f_equal. f_equal.
  rewrite (window_frames (bm_channelData data !!! 0%nat) 1 0 played) by lia.
  unfold window. by rewrite drop_0.
Qed.

End Render.

Definition tone : BufferMessage :=
  {| bm_trackId := "a"; bm_channelData := [[1; 2; 3]; [4; 5; 6]];
     bm_sampleRate := 44100; bm_numberOfChannels := 2; bm_totalSamples := 3 |}.

Definition gain (x : Z) (volume : Q) : Z := Qfloor (inject_Z x * volume).

Lemma process_renders_quantum_witness :
  let st := onmessage (onmessage constructor (SET_BUFFER tone)) PLAY in
  ∃ first others st',
    process gain st (Some (2%nat, 2%nat)) = Some (Some (first :: others), st')
    ∧ first = window gain [1; 2; 3] 1 0 2
    ∧ length others = 1%nat
    ∧ (∀ c chan, others !! c = Some chan →
         chan = replicate 2
                  (default 0 ((λ x, gain x 1)
                                <$> ([[1; 2; 3]; [4; 5; 6]] !!! (S c `min` 1)%nat)
                                      !! Z.to_nat 2)))
    ∧ bufferSourcePosition st' = 2
    ∧ currentTime st' = (inject_Z 2 / 44100)%Q
    ∧ isPlaying st' = true
    ∧ posted st' = [] ++ []
    ∧ audioChannelData st' = Some [[1; 2; 3]; [4; 5; 6]]
    ∧ volume st' = 1%Q.
Proof.
  apply (process_renders_quantum gain
           (onmessage (onmessage constructor (SET_BUFFER tone)) PLAY)
           [[1; 2; 3]; [4; 5; 6]] 44100 3 1 2);
    try reflexivity; try done.
  by repeat constructor.
Defined.

Lemma playback_is_buffer_then_silence_witness :
  ∃ st',
    render gain 3 (onmessage (onmessage constructor (SET_BUFFER tone)) PLAY) 2
    = Some (take 6 (((λ x, gain x 1) <$> [1; 2; 3]) ++ replicate 6 0), st')
    ∧ posted st' = [ENDED]
    ∧ isPlaying st' = false.
Proof.
  apply (playback_is_buffer_then_silence gain tone 3 2);
    try reflexivity; try done.
  by repeat constructor.
Defined.

End AudioPlaybackProcessorRenderFacts.
(** ** The download manager: the requests of a download *)

Module DownloadManagerRun.
Import TypedArray StreamingAssembler DownloadManager DownloadManagerRest.
Local Open Scope Z_scope.

(** [DownloadProgress] without [downloadSpeed] and
    [estimatedTimeRemaining], which depend on the clock. *)
Record DownloadProgress := {
  bytesLoaded : Z;
  bytesTotal : Z;
  chunksCompleted : Z;
  chunksTotal : Z
}.

Inductive Callback :=
| onProgress (progress : DownloadProgress)
| onChunkComplete (chunk : DownloadChunk)
| onComplete
| onError.

(** The fields of the manager that a download writes, and the calls of
    the callbacks, oldest first.  The bandwidth estimate is [Bandwidth]
    above. *)
Record t := {
  activeDownloads : gset nat;
  completedChunks : gmap nat DownloadChunk;
  totalBytesDownloaded : Z;
  calls : list Callback
}.

(** What [downloadAudio] comes to: the sorted chunks and the total size,
    or the error it rethrows. *)
Inductive Download :=
| Downloaded (chunks : list DownloadChunk) (totalSize : Z)
| Failed.

(** [Array.prototype.slice(start, end)] *)
Definition slice {A : Type} (l : list A) (start finish : Z) : list A :=
  let len := Z.of_nat (length l) in
  let k := if start <? 0 then Z.max (len + start) 0 else Z.min start len in
  let final := if finish <? 0 then Z.max (len + finish) 0 else Z.min finish len in
  take (Z.to_nat (final - k)) (drop (Z.to_nat k) l).

Section Network.

(** The file on a server that honours the [Range] header, and the order
    in which the responses to requests made together arrive. *)
Variable file : list byte.
Variable arrival : list ChunkInfo → list ChunkInfo.

(** [downloadChunk] up to its first [await]. *)
Definition requestChunk (st : t) (chunkInfo : ChunkInfo) : t :=
  {| activeDownloads := activeDownloads st ∪ {[ci_index chunkInfo]};
     completedChunks := completedChunks st;
     totalBytesDownloaded := totalBytesDownloaded st;
     calls := calls st |}.

(** [downloadChunk] from the response on. *)
Definition receiveChunk (st : t) (chunkInfo : ChunkInfo) : t :=
  let chunk := downloadChunk file chunkInfo in
  let chunkSize := byteLength (dc_data chunk) in
  {| activeDownloads := activeDownloads st ∖ {[ci_index chunkInfo]};
     completedChunks := <[ci_index chunkInfo := chunk]> (completedChunks st);
     totalBytesDownloaded := totalBytesDownloaded st + chunkSize;
     calls := calls st ++ [onChunkComplete chunk] |}.

(** [await Promise.all(batch.map(chunk => this.downloadChunk(url, chunk)))] *)
Definition downloadBatch (st : t) (batch : list ChunkInfo) : t :=
  foldl receiveChunk (foldl requestChunk st batch) (arrival batch).

Definition reportProgress (st : t) (totalSize : Z) : t :=
  let completed := Z.of_nat (size (completedChunks st)) in
  {| activeDownloads := activeDownloads st;
     completedChunks := completedChunks st;
     totalBytesDownloaded := totalBytesDownloaded st;
     calls := calls st
              ++ [onProgress {| bytesLoaded := totalBytesDownloaded st;
                                bytesTotal := totalSize;
                                chunksCompleted := completed;
                                chunksTotal := Z.of_nat (size (activeDownloads st))
                                               + completed |}] |}.

(** The loop of [downloadParallel], from chunk [i] on.  With
    [maxConcurrent >= 1], as many turns as there are chunks are enough;
    with 0 the source never leaves the loop ([None]). *)
Fixpoint downloadBatches (fuel : nat) (maxConcurrent : Z) (chunks : list ChunkInfo)
    (totalSize i : Z) (st : t) : option t :=
  if i <? Z.of_nat (length chunks) then
    match fuel with
    | O => None
    | S fuel' =>
      let batch := slice chunks i (i + maxConcurrent) in
      let st1 := downloadBatch st batch in
      let st2 := reportProgress st1 totalSize in
      downloadBatches fuel' maxConcurrent chunks totalSize (i + maxConcurrent) st2
    end
  else Some st.

(** [strategy] is [this.strategy]. *)
Definition downloadParallel (strategy : DownloadStrategy) (chunks : list ChunkInfo)
    (totalSize : Z) (st : t) : option t :=
  downloadBatches (length chunks) (maxConcurrentDownloads strategy) chunks totalSize 0 st.

Definition downloadPriorityFirst (strategy : DownloadStrategy) (chunks : list ChunkInfo)
    (totalSize : Z) (st : t) : option t :=
  match chunks with
  | [] => Some st
  | first :: _ =>
    let st1 := receiveChunk (requestChunk st first) first in
    if (1 <? length chunks)%nat
    then downloadParallel strategy (slice chunks 1 (Z.of_nat (length chunks))) totalSize st1
    else Some st1
  end.

(** [downloadAudio], given the answer of [checkRangeRequestSupport] and
    the bandwidth estimate at the time of the call.  [strategy] is
    [this.strategy] and [priorityFirstChunk] the option of the call.  The
    HEAD request is answered with the length of the file.  [None]: the
    source never returns. *)
Definition downloadAudio (strategy : DownloadStrategy) (isIOSSafari supportsRanges : bool)
    (connectionSpeed : Q) (estimatedFileSize : option Z) (priorityFirstChunk : bool)
    (st : t) : option (Download * t) :=
  let st0 := {| activeDownloads := ∅; completedChunks := ∅;
                totalBytesDownloaded := 0; calls := calls st |} in
  let optimal := getOptimalStrategy strategy isIOSSafari supportsRanges estimatedFileSize in
  let totalSize := byteLength file in
  if totalSize =? 0 then
    Some (Failed,
          {| activeDownloads := activeDownloads st0;
             completedChunks := completedChunks st0;
             totalBytesDownloaded := totalBytesDownloaded st0;
             calls := calls st0 ++ [onError] |})
  else
    chunks ← calculateDownloadChunks totalSize optimal connectionSpeed isIOSSafari;
    st1 ← (if priorityFirstChunk && (0 <? length chunks)%nat
           then downloadPriorityFirst strategy chunks totalSize st0
           else downloadParallel strategy chunks totalSize st0);
    let sortedChunks :=
      AudioChunkStore.sortBy (λ c, Z.of_nat (dc_index c))
                             (map_to_list (completedChunks st1)).*2 in
    Some (Downloaded sortedChunks totalSize,
          {| activeDownloads := activeDownloads st1;
             completedChunks := completedChunks st1;
             totalBytesDownloaded := totalBytesDownloaded st1;
             calls := calls st1 ++ [onComplete] |}).

End Network.
End DownloadManagerRun.

Module DownloadManagerRunFacts.
Import TypedArray TypedArrayFacts StreamingAssembler StreamingAssemblerFacts.
Import DownloadManager DownloadManagerFacts DownloadManagerRest DownloadManagerRestFacts.
Import DownloadManagerRun.
Local Open Scope Z_scope.

Definition chunkCompletions (log : list Callback) : list DownloadChunk :=
  omap (λ c, match c with onChunkComplete chunk => Some chunk | _ => None end) log.

Definition progressReports (log : list Callback) : list DownloadProgress :=
  omap (λ c, match c with onProgress progress => Some progress | _ => None end) log.

Lemma chunkCompletions_app (l k : list Callback) :
  chunkCompletions (l ++ k) = chunkCompletions l ++ chunkCompletions k.
Proof. apply omap_app. Qed.

Lemma progressReports_app (l k : list Callback) :
  progressReports (l ++ k) = progressReports l ++ progressReports k.
Proof. apply omap_app. Qed.

Lemma chunkCompletions_fmap (chunks : list DownloadChunk) :
  chunkCompletions (onChunkComplete <$> chunks) = chunks
  ∧ progressReports (onChunkComplete <$> chunks) = [].
Proof.
  induction chunks as [|c chunks [IH1 IH2]]; [done |].
  rewrite fmap_cons. split.
  - change (chunkCompletions (onChunkComplete c :: ?l)) with (c :: chunkCompletions l).
    by rewrite IH1.
  - change (progressReports (onChunkComplete c :: ?l)) with (progressReports l).
    by rewrite IH2.
Qed.

Lemma byteLength_payload_Permutation (l k : list DownloadChunk) :
  l ≡ₚ k → byteLength (payload l) = byteLength (payload k).
Proof.
  induction 1 as [|x l k _ IH|x y l|l k m _ IH1 _ IH2]; [done | | | congruence].
  - change (payload (x :: ?l)) with (dc_data x ++ payload l).
    rewrite !byteLength_app. lia.
  - change (payload (?a :: ?b :: ?l)) with (dc_data a ++ dc_data b ++ payload l).
    rewrite !byteLength_app. lia.
Qed.

(** [Array.prototype.slice] with a start in range and a positive count. *)
Lemma slice_window {A : Type} (l : list A) (i count : Z) :
  0 <= i → 1 <= count →
  slice l i (i + count) = take (Z.to_nat count) (drop (Z.to_nat i) l).
Proof.
  intros Hi Hcount. unfold slice.
  destruct (Z.ltb_spec i 0); [lia |].
  destruct (Z.ltb_spec (i + count) 0); [lia |].
  destruct (decide (Z.of_nat (length l) <= i)) as [Hout|Hin].
  - rewrite (Z.min_r i) by lia. rewrite (drop_ge l (Z.to_nat i)) by lia.
    rewrite drop_ge by lia. by rewrite !take_nil.
  - rewrite (Z.min_l i) by lia.
    destruct (decide (i + count <= Z.of_nat (length l))).
    + rewrite Z.min_l by lia. f_equal. lia.
    + rewrite Z.min_r by lia. rewrite !take_ge; [done | |]; rewrite length_drop; lia.
Qed.

Section Network.
Variable file : list byte.
Variable arrival : list ChunkInfo → list ChunkInfo.
Hypothesis Harrival : ∀ batch, arrival batch ≡ₚ batch.

(** The map of completed chunks after the responses for [l]. *)
Definition receivedInto (m : gmap nat DownloadChunk) (l : list ChunkInfo)
    : gmap nat DownloadChunk :=
  foldl (λ m info, <[ci_index info := downloadChunk file info]> m) m l.

Lemma receivedInto_Permutation (l k : list ChunkInfo) :
  l ≡ₚ k → NoDup (ci_index <$> l) →
  ∀ m, receivedInto m l = receivedInto m k.
Proof.
  induction 1 as [|x l k Hperm IH|x y l|l k j Hlk IH1 Hkj IH2]; intros Hnodup m.
  - done.
  - rewrite fmap_cons in Hnodup. apply NoDup_cons in Hnodup as [_ Hnodup].
    unfold receivedInto in *. simpl. by apply IH.
  - rewrite !fmap_cons in Hnodup. apply NoDup_cons in Hnodup as [Hy _].
    unfold receivedInto. simpl. rewrite insert_insert_ne; [done |].
    intros E. apply Hy. rewrite E. left.
  - rewrite IH1 by done. apply IH2. by rewrite <- Hlk.
Qed.

Lemma receivedInto_app (m : gmap nat DownloadChunk) (l k : list ChunkInfo) :
  receivedInto m (l ++ k) = receivedInto (receivedInto m l) k.
Proof. apply foldl_app. Qed.

Lemma receivedInto_other (m : gmap nat DownloadChunk) (l : list ChunkInfo) (i : nat) :
  i ∉ ci_index <$> l → receivedInto m l !! i = m !! i.
Proof.
  revert m. induction l as [|x l IH]; intros m Hi; [done |].
  rewrite fmap_cons, not_elem_of_cons in Hi. destruct Hi as [Hx Hi].
  unfold receivedInto in *. simpl. rewrite IH by done. by rewrite lookup_insert_ne.
Qed.

Lemma receivedInto_list (l : list ChunkInfo) :
  NoDup (ci_index <$> l) →
  (map_to_list (receivedInto ∅ l)).*2 ≡ₚ downloadChunk file <$> l
  ∧ size (receivedInto ∅ l) = length l.
Proof.
  induction l as [|x l IH] using rev_ind; intros Hnodup.
  - unfold receivedInto. simpl. by rewrite map_to_list_empty, map_size_empty.
  - rewrite fmap_app in Hnodup. apply NoDup_app in Hnodup as (Hl & Hx & _).
    destruct (IH Hl) as [IHlist IHsize].
    assert (receivedInto ∅ l !! ci_index x = None) as Hfresh.
    { rewrite receivedInto_other; [done |]. intros Hin. apply (Hx _ Hin). simpl. left. }
    rewrite receivedInto_app. unfold receivedInto at 1 3. simpl.
    fold (receivedInto ∅ l). split.
    + rewrite map_to_list_insert by done. rewrite fmap_cons, fmap_app. simpl.
      rewrite IHlist. by rewrite Permutation_app_comm.
    + rewrite map_size_insert_None by done. rewrite IHsize, length_app. simpl. lia.
Qed.

(** *** The steps of a batch *)

Lemma foldl_requestChunk (st : t) (l : list ChunkInfo) :
  foldl requestChunk st l
  = {| activeDownloads := activeDownloads st ∪ list_to_set (ci_index <$> l);
       completedChunks := completedChunks st;
       totalBytesDownloaded := totalBytesDownloaded st;
       calls := calls st |}.
Proof.
  revert st. induction l as [|x l IH]; intros st.
  - simpl. destruct st. simpl. f_equal. set_solver.
  - simpl. rewrite IH. simpl. f_equal. set_solver.
Qed.

Lemma foldl_receiveChunk (st : t) (l : list ChunkInfo) :
  foldl (receiveChunk file) st l
  = {| activeDownloads := activeDownloads st ∖ list_to_set (ci_index <$> l);
       completedChunks := receivedInto (completedChunks st) l;
       totalBytesDownloaded :=
         totalBytesDownloaded st + byteLength (payload (downloadChunk file <$> l));
       calls := calls st ++ (onChunkComplete <$> (downloadChunk file <$> l)) |}.
Proof.
  revert st. induction l as [|x l IH]; intros st.
  - simpl. destruct st. simpl. f_equal; [set_solver | | by rewrite app_nil_r].
    change (payload []) with (@nil byte). unfold byteLength. simpl. lia.
  - cbn [foldl]. rewrite IH. unfold receiveChunk.
    cbn [activeDownloads completedChunks totalBytesDownloaded calls].
    rewrite !fmap_cons. f_equal.
    + set_solver.
    + change (payload (?c :: ?l)) with (dc_data c ++ payload l).
      rewrite byteLength_app. lia.
    + by rewrite <- app_assoc.
Qed.

(** *** Between the batches *)

Definition complete (totalSize : Z) (progress : DownloadProgress) : Prop :=
  chunksTotal progress = chunksCompleted progress ∧ bytesTotal progress = totalSize.

(** The report after the chunks [l]. *)
Definition reportAfter (totalSize : Z) (l : list ChunkInfo) : DownloadProgress :=
  {| bytesLoaded := byteLength (payload (downloadChunk file <$> l));
     bytesTotal := totalSize;
     chunksCompleted := Z.of_nat (length l);
     chunksTotal := Z.of_nat (length l) |}.

(** The state once the chunks [l] have arrived and nothing is under
    way; [base] is the log at the start of the download. *)
Definition Done (base : list Callback) (totalSize : Z) (l : list ChunkInfo) (st : t) : Prop :=
  activeDownloads st = ∅
  ∧ completedChunks st = receivedInto ∅ l
  ∧ totalBytesDownloaded st = byteLength (payload (downloadChunk file <$> l))
  ∧ ∃ new, calls st = base ++ new
           ∧ chunkCompletions new ≡ₚ downloadChunk file <$> l
           ∧ Forall (complete totalSize) (progressReports new).

Lemma Done_request_receive (base : list Callback) (totalSize : Z)
    (l batch arrived : list ChunkInfo) (st : t) :
  arrived ≡ₚ batch →
  NoDup (ci_index <$> (l ++ batch)) →
  Done base totalSize l st →
  Done base totalSize (l ++ batch)
       (foldl (receiveChunk file) (foldl requestChunk st batch) arrived)
  ∧ calls (foldl (receiveChunk file) (foldl requestChunk st batch) arrived)
    = calls st ++ (onChunkComplete <$> (downloadChunk file <$> arrived)).
Proof.
  intros Harrived Hnodup (Hactive & Hcompleted & Hbytes & new & Hcalls & Hnew & Hreports).
  rewrite foldl_requestChunk, foldl_receiveChunk.
  cbn [activeDownloads completedChunks totalBytesDownloaded calls].
  rewrite fmap_app in Hnodup. apply NoDup_app in Hnodup as (_ & _ & Hbatch).
  split; [| done]. unfold Done.
  cbn [activeDownloads completedChunks totalBytesDownloaded calls].
  split_and!.
  - rewrite Hactive.
    assert (list_to_set (ci_index <$> arrived) =@{gset nat} list_to_set (ci_index <$> batch))
      as -> by (apply set_eq; intros i; rewrite !elem_of_list_to_set; by rewrite Harrived).
    set_solver.
  - rewrite Hcompleted, receivedInto_app.
    apply receivedInto_Permutation; [done |]. by rewrite Harrived.
  - rewrite Hbytes, fmap_app, payload_app, byteLength_app. f_equal.
    apply byteLength_payload_Permutation. by rewrite Harrived.
  - exists (new ++ (onChunkComplete <$> (downloadChunk file <$> arrived))).
    rewrite Hcalls, <- app_assoc. split; [done |].
    rewrite chunkCompletions_app, progressReports_app.
    destruct (chunkCompletions_fmap (downloadChunk file <$> arrived)) as [-> ->].
    rewrite app_nil_r, fmap_app, Hnew, Harrived. done.
Qed.

Lemma Done_reportProgress (base : list Callback) (totalSize : Z)
    (l : list ChunkInfo) (st : t) :
  NoDup (ci_index <$> l) →
  Done base totalSize l st →
  Done base totalSize l (reportProgress st totalSize)
  ∧ calls (reportProgress st totalSize) = calls st ++ [onProgress (reportAfter totalSize l)].
Proof.
  intros Hnodup (Hactive & Hcompleted & Hbytes & new & Hcalls & Hnew & Hreports).
  destruct (receivedInto_list l Hnodup) as [_ Hsize].
  assert (calls (reportProgress st totalSize)
          = calls st ++ [onProgress (reportAfter totalSize l)]) as Hlog.
  { unfold reportProgress, reportAfter. simpl.
    rewrite Hactive, Hcompleted, Hsize, Hbytes, size_empty. done. }
  split; [| done]. unfold Done. rewrite Hlog. split_and!; try done.
  exists (new ++ [onProgress (reportAfter totalSize l)]).
  rewrite Hcalls, <- app_assoc. split; [done |].
  rewrite chunkCompletions_app, progressReports_app.
  change (chunkCompletions [onProgress ?p]) with (@nil DownloadChunk).
  change (progressReports [onProgress ?p]) with [p].
  rewrite app_nil_r. split; [done |].
  apply Forall_app. split; [done |]. by repeat constructor.
Qed.

Lemma prefix_indices (l chunks : list ChunkInfo) (k : nat) :
  ci_index <$> (l ++ chunks) = seq 0 (length (l ++ chunks)) →
  NoDup (ci_index <$> (l ++ take k chunks)).
Proof.
  intros Hindex.
  assert (l ++ take k chunks = take (length l + k) (l ++ chunks)) as ->
    by (by rewrite take_app_add').
  rewrite fmap_take, Hindex, take_seq. apply NoDup_seq.
Qed.

Lemma downloadBatches_done (base : list Callback) (totalSize maxConcurrent : Z)
    (l chunks : list ChunkInfo) (fuel : nat) (i : Z) (st : t) :
  1 <= maxConcurrent →
  ci_index <$> (l ++ chunks) = seq 0 (length (l ++ chunks)) →
  0 <= i →
  Z.of_nat (length chunks) - i <= Z.of_nat fuel →
  Done base totalSize (l ++ take (Z.to_nat i) chunks) st →
  ∃ st' added,
    downloadBatches file arrival fuel maxConcurrent chunks totalSize i st = Some st'
    ∧ Done base totalSize (l ++ chunks) st'
    ∧ calls st' = calls st ++ added
    ∧ (i < Z.of_nat (length chunks) →
       last added = Some (onProgress (reportAfter totalSize (l ++ chunks))))
    ∧ (Z.of_nat (length chunks) <= i → added = []).
Proof.
  intros Hmax Hindex. revert i st.
  induction fuel as [|fuel IH]; intros i st Hi Hfuel Hdone.
  - exists st, []. simpl. destruct (Z.ltb_spec i (Z.of_nat (length chunks))); [lia |].
    rewrite take_ge in Hdone by lia. rewrite app_nil_r. split_and!; try done. lia.
  - cbn [downloadBatches].
    destruct (Z.ltb_spec i (Z.of_nat (length chunks))) as [Hin|Hout].
    2: { exists st, []. rewrite take_ge in Hdone by lia. rewrite app_nil_r.
         split_and!; try done. lia. }
    rewrite slice_window by lia.
    set (batch := take (Z.to_nat maxConcurrent) (drop (Z.to_nat i) chunks)).
    assert (take (Z.to_nat i) chunks ++ batch = take (Z.to_nat (i + maxConcurrent)) chunks)
      as Hnext.
    { subst batch. rewrite ChunkingFacts.take_slice. f_equal. lia. }
    assert (NoDup (ci_index <$> (l ++ take (Z.to_nat (i + maxConcurrent)) chunks)))
      as Hnodup by (by apply prefix_indices).
    destruct (Done_request_receive base totalSize (l ++ take (Z.to_nat i) chunks) batch
                (arrival batch) st) as [Hdone1 Hcalls1]; [done | | done |].
    { by rewrite <- app_assoc, Hnext. }
    rewrite <- app_assoc, Hnext in Hdone1.
    fold (downloadBatch file arrival st batch) in Hdone1, Hcalls1.
    destruct (Done_reportProgress base totalSize _ _ Hnodup Hdone1) as [Hdone2 Hcalls2].
    destruct (IH (i + maxConcurrent) _ ltac:(lia) ltac:(lia) Hdone2)
      as (st' & added & -> & Hdone' & Hcalls' & Hlast & Hnone).
    eexists st', _. split; [done |]. split; [done |].
    rewrite Hcalls', Hcalls2, Hcalls1, <- !app_assoc. split; [done |].
    split; [| lia]. intros _.
    destruct (decide (i + maxConcurrent < Z.of_nat (length chunks))) as [Hmore|Hlast'].
    + rewrite !app_assoc, last_app, Hlast by done. done.
    + rewrite Hnone by lia. rewrite app_nil_r, last_snoc.
      by rewrite take_ge by lia.
Qed.

Lemma last_progress (log : list Callback) (progress : DownloadProgress) :
  last log = Some (onProgress progress) → progressReports log ≠ [].
Proof.
  destruct log as [|c log _] using rev_ind; [done |].
  rewrite last_snoc. intros [= ->]. rewrite progressReports_app.
  change (progressReports [onProgress progress]) with [progress].
  by destruct (progressReports log).
Qed.

(** X17.  A download of a file of at least one byte from a server that
    honours the ranges, with a positive initial chunk size in the
    strategy chosen for the file, a standard size of that strategy that
    the connection adapts to a positive whole number of bytes (which
    excludes the halving of an odd size above 128 KB on a slow
    connection, whose result is a fraction) and at least one download at
    a time in the strategy of the manager, in whatever order the
    responses of a batch arrive.
    [downloadAudio] returns the chunks of the plan in the order of their
    indices, and their payloads concatenated are the file.
    [onChunkComplete] is called once for each chunk of the plan; with
    [priorityFirstChunk] the first call is for chunk 0.  Every progress
    report is made between two batches, when no request is under way, so
    [chunksTotal] is the number of chunks that have arrived and not the
    number of chunks of the plan.  A download in one chunk with
    [priorityFirstChunk] reports no progress at all; in every other case
    the last report comes after the last chunk, and [onComplete] follows
    it. *)
Theorem downloadAudio_delivers (strategy : DownloadStrategy)
    (isIOSSafari supportsRanges : bool) (connectionSpeed : Q)
    (estimatedFileSize : option Z) (priorityFirstChunk : bool) (st : t) (adapted : Z) :
  let optimal := getOptimalStrategy strategy isIOSSafari supportsRanges estimatedFileSize in
  file ≠ [] →
  adaptedChunkSize optimal connectionSpeed isIOSSafari = Some adapted →
  0 < adapted →
  0 < initialChunkSize optimal →
  1 <= maxConcurrentDownloads strategy →
  ∃ first rest st' new,
    calculateDownloadChunks (byteLength file) optimal connectionSpeed isIOSSafari
    = Some (first :: rest)
    ∧ downloadAudio file arrival strategy isIOSSafari supportsRanges connectionSpeed
                    estimatedFileSize priorityFirstChunk st
      = Some (Downloaded (downloadChunk file <$> (first :: rest)) (byteLength file), st')
    ∧ payload (downloadChunk file <$> (first :: rest)) = file
    ∧ calls st' = calls st ++ new ++ [onComplete]
    ∧ chunkCompletions new ≡ₚ downloadChunk file <$> (first :: rest)
    ∧ (priorityFirstChunk = true →
       head new = Some (onChunkComplete (downloadChunk file first)))
    ∧ Forall (λ progress, chunksTotal progress = chunksCompleted progress
                          ∧ bytesTotal progress = byteLength file)
             (progressReports new)
    ∧ (progressReports new = [] ↔ priorityFirstChunk = true ∧ rest = [])
    ∧ (progressReports new ≠ [] →
       last new = Some (onProgress {| bytesLoaded := byteLength file;
                                      bytesTotal := byteLength file;
                                      chunksCompleted := Z.of_nat (S (length rest));
                                      chunksTotal := Z.of_nat (S (length rest)) |}))
    ∧ activeDownloads st' = ∅
    ∧ totalBytesDownloaded st' = byteLength file.
Proof.
  intros optimal Hfile Hadapted Hpositive Hinitial Hmax.
  assert (0 < byteLength file) as Hsize
    by (unfold byteLength; destruct file; simpl; [done | lia]).
  destruct (calculateDownloadChunks_plan optimal connectionSpeed isIOSSafari
              (byteLength file) adapted Hadapted Hpositive Hsize Hinitial)
    as (first & rest & Hplan & Htiles & Hindex & _).
  pose proof (tiles_payload file (first :: rest) 0 Htiles) as Hpayload.
  rewrite drop_0 in Hpayload.
  set (plan := first :: rest) in *.
  set (st0 := {| activeDownloads := ∅; completedChunks := ∅;
                 totalBytesDownloaded := 0; calls := calls st |}).
  assert (Done (calls st) (byteLength file) [] st0) as Hdone0.
  { unfold Done. split_and!; try done. exists []. by rewrite app_nil_r. }
  assert (reportAfter (byteLength file) plan
          = {| bytesLoaded := byteLength file; bytesTotal := byteLength file;
               chunksCompleted := Z.of_nat (S (length rest));
               chunksTotal := Z.of_nat (S (length rest)) |}) as Hreport
    by (unfold reportAfter; by rewrite Hpayload).
  assert (∃ st1 new,
            (if priorityFirstChunk && (0 <? length plan)%nat
             then downloadPriorityFirst file arrival strategy plan (byteLength file) st0
             else downloadParallel file arrival strategy plan (byteLength file) st0)
            = Some st1
            ∧ Done (calls st) (byteLength file) plan st1
            ∧ calls st1 = calls st ++ new
            ∧ (priorityFirstChunk = true →
               head new = Some (onChunkComplete (downloadChunk file first)))
            ∧ (progressReports new = [] ↔ priorityFirstChunk = true ∧ rest = [])
            ∧ (progressReports new ≠ [] →
               last new = Some (onProgress (reportAfter (byteLength file) plan))))
    as (st1 & new & Hrun & Hdone1 & Hcalls1 & Hhead & Hnone & Hlast).
  { destruct priorityFirstChunk; cbn [andb].
    - change (0 <? length plan)%nat with true. cbv iota.
      unfold downloadPriorityFirst. subst plan.
      destruct (Done_request_receive (calls st) (byteLength file) [] [first] [first] st0)
        as [Hdone1 Hcalls1]; [done | | done |].
      { rewrite app_nil_l, fmap_cons. apply NoDup_singleton. }
      rewrite app_nil_l in Hdone1. cbn [foldl fmap list_fmap] in Hdone1, Hcalls1.
      destruct rest as [|second rest].
      + change (1 <? length [first])%nat with false. cbv iota.
        eexists _, _. split; [done |]. split; [done |]. split; [exact Hcalls1 |].
        split_and!; try done.
      + change (1 <? length (first :: second :: rest))%nat with true. cbv iota.
        replace (Z.of_nat (length (first :: second :: rest)))
          with (1 + Z.of_nat (length (second :: rest)))
          by (rewrite (length_cons first); lia).
        rewrite slice_window by (simpl; lia).
        replace (take (Z.to_nat (Z.of_nat (length (second :: rest))))
                      (drop (Z.to_nat 1) (first :: second :: rest)))
          with (second :: rest)
          by (rewrite Nat2Z.id; change (Z.to_nat 1) with 1%nat; simpl;
              by rewrite firstn_all).
        unfold downloadParallel.
        destruct (downloadBatches_done (calls st) (byteLength file)
                    (maxConcurrentDownloads strategy) [first] (second :: rest)
                    (length (second :: rest)) 0
                    (receiveChunk file (requestChunk st0 first) first)
                    Hmax Hindex ltac:(lia) ltac:(lia))
          as (st1 & added & Hrun & Hdone' & Hcalls' & Hlast' & _).
        { by rewrite take_0, app_nil_r. }
        specialize (Hlast' ltac:(simpl; lia)).
        exists st1, (onChunkComplete (downloadChunk file first) :: added).
        split; [exact Hrun |]. split; [exact Hdone' |].
        split; [rewrite Hcalls', Hcalls1, <- app_assoc; done |].
        split; [done |]. split.
        * split; [| by intros [_ ?]]. intros Hempty. exfalso.
          change (progressReports (onChunkComplete ?c :: ?l)) with (progressReports l)
            in Hempty.
          by apply (last_progress _ _ Hlast').
        * intros _. destruct added; [done |]. exact Hlast'.
    - unfold downloadParallel.
      destruct (downloadBatches_done (calls st) (byteLength file)
                  (maxConcurrentDownloads strategy) [] plan (length plan) 0 st0
                  Hmax Hindex ltac:(lia) ltac:(lia))
        as (st1 & added & Hrun & Hdone' & Hcalls' & Hlast' & _).
      { by rewrite take_0. }
      specialize (Hlast' ltac:(subst plan; simpl; lia)).
      exists st1, added. split; [exact Hrun |]. split; [exact Hdone' |].
      split; [exact Hcalls' |]. split; [done |]. split; [| done].
      split; [| by intros [? _]]. intros Hempty. exfalso.
      by apply (last_progress _ _ Hlast'). }
  destruct Hdone1 as (Hactive & Hcompleted & Hbytes & new' & Hcalls & Hnew & Hreports).
  assert (new' = new) as -> by (rewrite Hcalls1 in Hcalls; by apply app_inv_head in Hcalls).
  assert (NoDup (ci_index <$> plan)) as Hnodup by (rewrite Hindex; apply NoDup_seq).
  destruct (receivedInto_list plan Hnodup) as [Hvalues _].
  exists first, rest. eexists _, new.
  split; [done |]. split.
  { unfold downloadAudio. fold optimal.
    destruct (Z.eqb_spec (byteLength file) 0); [lia |].
    rewrite Hplan. cbn [mbind option_bind]. fold st0. fold plan. rewrite Hrun.
    cbn [mbind option_bind]. rewrite Hcompleted.
    rewrite (sortBy_plan file plan) by done. reflexivity. }
  cbn [activeDownloads totalBytesDownloaded calls].
  rewrite Hcalls1, <- app_assoc, Hbytes, Hpayload, <- Hreport.
  split_and!; try done.
Qed.

End Network.

Lemma downloadAudio_delivers_witness :
  let file := [x01; x02; x03; x04; x05] in
  let strategy := {| initialChunkSize := 2; standardChunkSize := 2;
                     maxConcurrentDownloads := 2; priorityFirstChunk := true;
                     adaptiveChunkSizing := false |} in
  let st := {| activeDownloads := ∅; completedChunks := ∅;
               totalBytesDownloaded := 0; calls := [] |} in
  ∃ first rest st' new,
    calculateDownloadChunks (byteLength file)
                            (getOptimalStrategy strategy false true None) 0 false
    = Some (first :: rest)
    ∧ downloadAudio file reverse strategy false true 0 None true st
      = Some (Downloaded (downloadChunk file <$> (first :: rest)) (byteLength file), st')
    ∧ payload (downloadChunk file <$> (first :: rest)) = file
    ∧ calls st' = calls st ++ new ++ [onComplete]
    ∧ chunkCompletions new ≡ₚ downloadChunk file <$> (first :: rest)
    ∧ (true = true → head new = Some (onChunkComplete (downloadChunk file first)))
    ∧ Forall (λ progress, chunksTotal progress = chunksCompleted progress
                          ∧ bytesTotal progress = byteLength file)
             (progressReports new)
    ∧ (progressReports new = [] ↔ true = true ∧ rest = [])
    ∧ (progressReports new ≠ [] →
       last new = Some (onProgress {| bytesLoaded := byteLength file;
                                      bytesTotal := byteLength file;
                                      chunksCompleted := Z.of_nat (S (length rest));
                                      chunksTotal := Z.of_nat (S (length rest)) |}))
    ∧ activeDownloads st' = ∅
    ∧ totalBytesDownloaded st' = byteLength file.
Proof.
  apply (downloadAudio_delivers [x01; x02; x03; x04; x05] reverse
           (λ batch, reverse_Permutation batch)
           {| initialChunkSize := 2; standardChunkSize := 2;
              maxConcurrentDownloads := 2; priorityFirstChunk := true;
              adaptiveChunkSizing := false |}
           false true 0 None true
           {| activeDownloads := ∅; completedChunks := ∅;
              totalBytesDownloaded := 0; calls := [] |} 2);
    [done | reflexivity | lia | simpl; lia | simpl; lia].
Defined.

End DownloadManagerRunFacts.
(** ** The worklet: buffers that arrive in chunks *)

Module ChunkedBuffers.
Import TypedArray AudioPlaybackProcessor.
Local Open Scope Z_scope.

(** The [data] of START_CHUNKED_BUFFER. *)
Record StartChunkedBuffer := {
  sb_trackId : string;
  sb_sampleRate : Q;
  sb_numberOfChannels : Z;
  sb_totalSamples : Z;
  sb_totalChunks : Z;
  sb_switchTime : option Q;
  sb_earlyStopTime : option Q
}.

(** The [data] of BUFFER_CHUNK; its [totalChunks] is only logged. *)
Record BufferChunk := {
  bc_trackId : string;
  bc_chunkIndex : Z;
  bc_startSample : Z;
  bc_endSample : Z;
  bc_chunkChannelData : list Float32Array
}.

(** An entry of [pendingChunkedBuffers].  [cb_chunks] maps the index of
    a chunk received to its [startSample] and [endSample]. *)
Record ChunkedBuffer := {
  cb_metadata : StartChunkedBuffer;
  cb_duration : Q;
  cb_chunks : gmap Z (Z * Z);
  cb_receivedChunks : Z;
  cb_channelData : list Float32Array;
  cb_startTime : Z
}.

(** The processor with its pending chunked buffers. *)
Record Worklet := {
  processor : t;
  pendingChunkedBuffers : gmap string ChunkedBuffer
}.

Definition maxChunkAssemblyTime : Z := 30000.

(** [clearChunkedBuffersForTrack]; the empty string is falsy. *)
Definition clearChunkedBuffersForTrack (w : Worklet) (trackId : string) : Worklet :=
  if bool_decide (trackId = "") then w
  else {| processor := processor w;
          pendingChunkedBuffers := delete trackId (pendingChunkedBuffers w) |}.

(** [handleStartChunkedBuffer]; [now] is [Date.now()].  The second
    component tells whether the handler threw: [new Float32Array] does
    for a negative length, after the old entry of the track was
    cleared. *)
Definition handleStartChunkedBuffer (w : Worklet) (data : StartChunkedBuffer) (now : Z)
    : Worklet * bool :=
  let trackId := sb_trackId data in
  if wrongTrack (processor w) trackId then (w, false)
  else
    let w1 := clearChunkedBuffersForTrack w trackId in
    if (0 <? sb_numberOfChannels data) && (sb_totalSamples data <? 0) then (w1, true)
    else
      let chunkedBuffer :=
        {| cb_metadata := data;
           cb_duration := inject_Z (sb_totalSamples data) / sb_sampleRate data;
           cb_chunks := ∅;
           cb_receivedChunks := 0;
           cb_channelData :=
             replicate (Z.to_nat (sb_numberOfChannels data))
                       (replicate (Z.to_nat (sb_totalSamples data)) 0);
           cb_startTime := now |} in
      ({| processor := processor w1;
          pendingChunkedBuffers := <[trackId := chunkedBuffer]> (pendingChunkedBuffers w1) |},
       false).

(** The loop of [handleBufferChunk] over the channels.  A channel whose
    chunk has another length than [chunkSize] is skipped.  The second
    component tells whether a [set] threw; the channels written before
    stay written. *)
Fixpoint copyChannels (channelData chunkChannelData : list Float32Array)
    (chunkSize startSample : Z) (todo : list nat) : list Float32Array * bool :=
  match todo with
  | [] => (channelData, false)
  | channel :: rest =>
    match chunkChannelData !! channel, channelData !! channel with
    | Some channelChunk, Some target =>
      if bool_decide (byteLength channelChunk = chunkSize) then
        match set target channelChunk startSample with
        | Some written =>
          copyChannels (<[channel := written]> channelData) chunkChannelData chunkSize
                       startSample rest
        | None => (channelData, true)
        end
      else copyChannels channelData chunkChannelData chunkSize startSample rest
    | _, _ => (channelData, true)
    end
  end.

(** The end of SCHEDULE_BUFFER_SWITCH and of [finalizeChunkedBuffer]:
    the buffer joins the queue. *)
Definition pushScheduled (st : t) (bufferData : BufferData) : t :=
  let buffers := scheduledBuffers st ++ [bufferData] in
  if (length buffers =? currentBufferIndex st + 1)%nat then
    match bd_switchTime bufferData with
    | Some q => if Qeq_bool q 0 then setSchedule st buffers 0 None
                else setSchedule st buffers (currentBufferIndex st) (Some q)
    | None => setSchedule st buffers (currentBufferIndex st) None
    end
  else setSchedule st buffers (currentBufferIndex st) (nextSwitchTime st).

Definition finalizeChunkedBuffer (w : Worklet) (trackId : string) : Worklet :=
  match pendingChunkedBuffers w !! trackId with
  | None => w
  | Some chunkedBuffer =>
    let metadata := cb_metadata chunkedBuffer in
    let missingChunks :=
      filter (λ i, cb_chunks chunkedBuffer !! i = None) (seqZ 0 (sb_totalChunks metadata)) in
    if (0 <? length missingChunks)%nat then clearChunkedBuffersForTrack w trackId
    else
      let bufferData :=
        {| bd_trackId := sb_trackId metadata;
           bd_channelData := cb_channelData chunkedBuffer;
           bd_sampleRate := sb_sampleRate metadata;
           bd_numberOfChannels := sb_numberOfChannels metadata;
           bd_totalSamples := sb_totalSamples metadata;
           bd_duration := cb_duration chunkedBuffer;
           bd_switchTime := sb_switchTime metadata;
           bd_earlyStopTime := sb_earlyStopTime metadata |} in
      clearChunkedBuffersForTrack
        {| processor := pushScheduled (processor w) bufferData;
           pendingChunkedBuffers := pendingChunkedBuffers w |}
        trackId
  end.

(** [handleBufferChunk]; [now] is [Date.now()]. *)
Definition handleBufferChunk (w : Worklet) (data : BufferChunk) (now : Z) : Worklet * bool :=
  let trackId := bc_trackId data in
  let chunkIndex := bc_chunkIndex data in
  if wrongTrack (processor w) trackId then (w, false)
  else
    match pendingChunkedBuffers w !! trackId with
    | None => (w, false)
    | Some chunkedBuffer =>
      let metadata := cb_metadata chunkedBuffer in
      if maxChunkAssemblyTime <? now - cb_startTime chunkedBuffer
      then (clearChunkedBuffersForTrack w trackId, false)
      else if (chunkIndex <? 0) || (sb_totalChunks metadata <=? chunkIndex) then (w, false)
      else if bool_decide (is_Some (cb_chunks chunkedBuffer !! chunkIndex)) then (w, false)
      else if negb (bool_decide (byteLength (bc_chunkChannelData data)
                                 = sb_numberOfChannels metadata))
      then (w, false)
      else
        let chunkSize := bc_endSample data - bc_startSample data in
        let '(channelData, threw) :=
          copyChannels (cb_channelData chunkedBuffer) (bc_chunkChannelData data) chunkSize
                       (bc_startSample data)
                       (seq 0 (Z.to_nat (sb_numberOfChannels metadata))) in
        if threw then
          ({| processor := processor w;
              pendingChunkedBuffers :=
                <[trackId := {| cb_metadata := metadata;
                                cb_duration := cb_duration chunkedBuffer;
                                cb_chunks := cb_chunks chunkedBuffer;
                                cb_receivedChunks := cb_receivedChunks chunkedBuffer;
                                cb_channelData := channelData;
                                cb_startTime := cb_startTime chunkedBuffer |}]>
                  (pendingChunkedBuffers w) |}, true)
        else
          let received :=
            {| cb_metadata := metadata;
               cb_duration := cb_duration chunkedBuffer;
               cb_chunks := <[chunkIndex := (bc_startSample data, bc_endSample data)]>
                              (cb_chunks chunkedBuffer);
               cb_receivedChunks := cb_receivedChunks chunkedBuffer + 1;
               cb_channelData := channelData;
               cb_startTime := cb_startTime chunkedBuffer |} in
          let w1 := {| processor := processor w;
                       pendingChunkedBuffers :=
                         <[trackId := received]> (pendingChunkedBuffers w) |} in
          if sb_totalChunks metadata <=? cb_receivedChunks received
          then (finalizeChunkedBuffer w1 trackId, false)
          else (w1, false)
    end.

End ChunkedBuffers.

Module ChunkedBuffersFacts.
Import TypedArray TypedArrayFacts AudioPlaybackProcessor ChunkedBuffers.
Local Open Scope Z_scope.

(** The ranges [[startSample, endSample)] of chunks 0, 1, ... follow one
    another from [offset] to [total]. *)
Fixpoint consecutive (offset : Z) (ranges : list (Z * Z)) (total : Z) : Prop :=
  match ranges with
  | [] => offset = total
  | (startSample, endSample) :: rest =>
    startSample = offset ∧ offset <= endSample ∧ consecutive endSample rest total
  end.

Lemma consecutive_bounds (offset : Z) (ranges : list (Z * Z)) (total : Z) :
  consecutive offset ranges total →
  offset <= total
  ∧ ∀ k s e, ranges !! k = Some (s, e) → offset <= s ∧ s <= e ∧ e <= total.
Proof.
  revert offset. induction ranges as [|[s0 e0] ranges IH]; intros offset Hc; simpl in Hc.
  - split; [lia | done].
  - destruct Hc as (-> & Hle & Hc). destruct (IH _ Hc) as [Htotal Hrest].
    split; [lia |]. intros [|k] s e Hk; simpl in Hk.
    + injection Hk as -> ->. lia.
    + destruct (Hrest k s e Hk). lia.
Qed.

Lemma consecutive_covers (offset : Z) (ranges : list (Z * Z)) (total i : Z) :
  consecutive offset ranges total →
  offset <= i < total →
  ∃ k s e, ranges !! k = Some (s, e) ∧ s <= i < e.
Proof.
  revert offset. induction ranges as [|[s0 e0] ranges IH]; intros offset Hc Hi; simpl in Hc.
  - lia.
  - destruct Hc as (-> & Hle & Hc).
    destruct (decide (i < e0)) as [Hin|Hout].
    + exists 0%nat, offset, e0. split; [done | lia].
    + destruct (IH _ Hc) as (k & s & e & Hk & Hse); [lia |].
      by exists (S k), s, e.
Qed.

Lemma filter_nothing {A : Type} (P : A → Prop) `{∀ x, Decision (P x)} (l : list A) :
  Forall (λ x, ¬ P x) l → filter P l = [].
Proof.
  induction 1 as [|x l Hx _ IH]; [done |].
  rewrite filter_cons. by destruct (decide (P x)).
Qed.

Section Assembly.
Variable channels : list Float32Array.
Variable ranges : list (Z * Z).

Definition rangeOf (k : nat) : Z * Z := default (0, 0) (ranges !! k).

(** Whether frame [i] lies in the range of one of the chunks [ks]. *)
Definition covered (ks : list nat) (i : nat) : bool :=
  existsb (λ k, (fst (rangeOf k) <=? Z.of_nat i) && (Z.of_nat i <? snd (rangeOf k))) ks.

(** A channel of the pending buffer once the chunks [ks] are in: the
    frames they cover, silence elsewhere. *)
Definition filled (ks : list nat) (chan : Float32Array) : Float32Array :=
  imap (λ i x, if covered ks i then x else 0) chan.

Definition sliceOf (k : nat) (chan : Float32Array) : Float32Array :=
  take (Z.to_nat (snd (rangeOf k) - fst (rangeOf k))) (drop (Z.to_nat (fst (rangeOf k))) chan).

Lemma filled_nil (chan : Float32Array) : filled [] chan = replicate (length chan) 0.
Proof.
  unfold filled, Float32Array in *. apply list_eq. intros i. rewrite list_lookup_imap.
  destruct (chan !! i) eqn:Hi; simpl.
  - symmetry. apply lookup_replicate_2. by eapply lookup_lt_Some.
  - symmetry. apply lookup_ge_None_2. rewrite length_replicate.
    by apply lookup_ge_None_1.
Qed.

Lemma set_filled (ks : list nat) (k : nat) (chan : Float32Array) :
  0 <= fst (rangeOf k) → fst (rangeOf k) <= snd (rangeOf k) →
  snd (rangeOf k) <= byteLength chan →
  set (filled ks chan) (sliceOf k chan) (fst (rangeOf k)) = Some (filled (k :: ks) chan)
  ∧ byteLength (sliceOf k chan) = snd (rangeOf k) - fst (rangeOf k).
Proof.
  destruct (rangeOf k) as [s e] eqn:Hrange. simpl. intros Hs Hse He.
  unfold byteLength, Float32Array in *.
  assert (length (sliceOf k chan) = Z.to_nat (e - s)) as Hlen.
  { unfold sliceOf. rewrite Hrange. simpl. rewrite length_take, length_drop. lia. }
  split; [| lia].
  unfold set, byteLength, filled. rewrite length_imap, Hlen.
  destruct (Z.ltb_spec s 0); [lia |].
  destruct (Z.ltb_spec (Z.of_nat (length chan)) (s + Z.of_nat (Z.to_nat (e - s)))); [lia |].
  simpl. f_equal. apply list_eq. intros i.
  rewrite list_lookup_imap. unfold covered at 2. cbn [existsb]. rewrite Hrange. simpl.
  fold (covered ks i).
  destruct (decide (i < Z.to_nat s)%nat) as [Hbefore|Hnot].
  - rewrite lookup_app_l by (rewrite length_take, length_imap; lia).
    rewrite lookup_take_lt, list_lookup_imap by done.
    destruct (Z.leb_spec s (Z.of_nat i)); [lia |]. done.
  - rewrite lookup_app_r by (rewrite length_take, length_imap; lia).
    rewrite length_take, length_imap.
    replace (Z.to_nat s `min` length chan)%nat with (Z.to_nat s) by lia.
    destruct (decide (i < Z.to_nat e)%nat) as [Hin|Hafter].
    + rewrite lookup_app_l by lia.
      unfold sliceOf. rewrite Hrange. simpl.
      rewrite lookup_take_lt, lookup_drop by lia.
      replace (Z.to_nat s + (i - Z.to_nat s))%nat with i by lia.
      destruct (Z.leb_spec s (Z.of_nat i)); [| lia].
      destruct (Z.ltb_spec (Z.of_nat i) e); [| lia]. simpl.
      by destruct (chan !! i).
    + rewrite lookup_app_r by lia. rewrite lookup_drop, list_lookup_imap, Hlen.
      replace (Z.to_nat s + Z.to_nat (e - s) + (i - Z.to_nat s - Z.to_nat (e - s)))%nat
        with i by lia.
      destruct (Z.ltb_spec (Z.of_nat i) e); [lia |].
      by rewrite andb_false_r.
Qed.

Lemma copyChannels_all (f g h : Float32Array → Float32Array) (chunkSize startSample : Z)
    (post pre : list Float32Array) :
  (∀ chan, chan ∈ post →
     byteLength (h chan) = chunkSize ∧ set (f chan) (h chan) startSample = Some (g chan)) →
  copyChannels ((g <$> pre) ++ (f <$> post)) (h <$> (pre ++ post)) chunkSize startSample
               (seq (length pre) (length post))
  = (g <$> (pre ++ post), false).
Proof.
  revert pre. induction post as [|x post IH]; intros pre Hset.
  - simpl. by rewrite !app_nil_r.
  - cbn [length seq copyChannels].
    rewrite list_lookup_fmap, list_lookup_middle by done. cbn [fmap option_fmap option_map].
    rewrite fmap_cons, list_lookup_middle by (by rewrite length_fmap).
    destruct (Hset x ltac:(left)) as [Hsize Hwrite].
    rewrite bool_decide_true by done. rewrite Hwrite.
    rewrite insert_app_r_alt by (rewrite length_fmap; lia).
    rewrite length_fmap, Nat.sub_diag. cbn [insert list_insert].
    specialize (IH (pre ++ [x])).
    rewrite length_app, <- (app_assoc pre [x] post), (fmap_app g pre [x]) in IH.
    rewrite <- app_assoc in IH. simpl in IH.
    rewrite Nat.add_1_r in IH. apply IH.
    intros chan Hchan. apply Hset. by right.
Qed.

(** *** From START_CHUNKED_BUFFER to the queue *)

Variables (w0 : Worklet) (data : StartChunkedBuffer) (now0 : Z).
Variable arrivedAt : nat → Z.

Hypothesis Htrack : sb_trackId data ≠ "".
Hypothesis Haccepted : wrongTrack (processor w0) (sb_trackId data) = false.
Hypothesis Hchannels : sb_numberOfChannels data = Z.of_nat (length channels).
Hypothesis Hsamples : Forall (λ chan, byteLength chan = sb_totalSamples data) channels.
Hypothesis Hchunks : sb_totalChunks data = Z.of_nat (length ranges).
Hypothesis Hranges : consecutive 0 ranges (sb_totalSamples data).
Hypothesis Hintime : ∀ k, arrivedAt k - now0 <= maxChunkAssemblyTime.

(** The BUFFER_CHUNK message for chunk [k]. *)
Definition messageOf (k : nat) : BufferChunk :=
  {| bc_trackId := sb_trackId data;
     bc_chunkIndex := Z.of_nat k;
     bc_startSample := fst (rangeOf k);
     bc_endSample := snd (rangeOf k);
     bc_chunkChannelData := sliceOf k <$> channels |}.

(** The messages for the chunks [order], one after the other; the
    processor goes on after a handler that throws. *)
Definition deliver (w : Worklet) (order : list nat) : Worklet * bool :=
  foldl (λ acc k, let r := handleBufferChunk (fst acc) (messageOf k) (arrivedAt k) in
                  (fst r, snd acc || snd r))
        (w, false) order.

Definition chunksOf (ks : list nat) : gmap Z (Z * Z) :=
  foldr (λ k m, <[Z.of_nat k := rangeOf k]> m) ∅ ks.

(** The worklet while the chunks [ks], latest first, are in. *)
Definition assembling (ks : list nat) : Worklet :=
  {| processor := processor w0;
     pendingChunkedBuffers :=
       <[sb_trackId data :=
           {| cb_metadata := data;
              cb_duration := inject_Z (sb_totalSamples data) / sb_sampleRate data;
              cb_chunks := chunksOf ks;
              cb_receivedChunks := Z.of_nat (length ks);
              cb_channelData := filled ks <$> channels;
              cb_startTime := now0 |}]>
         (delete (sb_trackId data) (pendingChunkedBuffers w0)) |}.

(** The buffer that joins the queue. *)
Definition assembled : BufferData :=
  {| bd_trackId := sb_trackId data;
     bd_channelData := channels;
     bd_sampleRate := sb_sampleRate data;
     bd_numberOfChannels := sb_numberOfChannels data;
     bd_totalSamples := sb_totalSamples data;
     bd_duration := inject_Z (sb_totalSamples data) / sb_sampleRate data;
     bd_switchTime := sb_switchTime data;
     bd_earlyStopTime := sb_earlyStopTime data |}.

Lemma chunksOf_lookup (ks : list nat) (k : nat) :
  chunksOf ks !! Z.of_nat k = (if bool_decide (k ∈ ks) then Some (rangeOf k) else None).
Proof.
  induction ks as [|k' ks IH]; [done |].
  cbn [chunksOf foldr]. fold (chunksOf ks).
  destruct (decide (k = k')) as [->|Hne].
  - rewrite lookup_insert_eq. by rewrite bool_decide_true by left.
  - rewrite lookup_insert_ne by lia. rewrite IH.
    destruct (decide (k ∈ ks)).
    + by rewrite !bool_decide_true by (done || by right).
    + rewrite !bool_decide_false; [done | | done].
      intros [?|?]%elem_of_cons; done.
Qed.

Lemma range_bounds (k : nat) :
  (k < length ranges)%nat →
  0 <= fst (rangeOf k) ∧ fst (rangeOf k) <= snd (rangeOf k)
  ∧ snd (rangeOf k) <= sb_totalSamples data.
Proof.
  intros Hk. destruct (lookup_lt_is_Some_2 ranges k Hk) as [[s e] Hse].
  unfold rangeOf. rewrite Hse. simpl.
  destruct (consecutive_bounds _ _ _ Hranges) as [_ Hall].
  destruct (Hall k s e Hse). lia.
Qed.

Lemma filled_all (ks : list nat) (chan : Float32Array) :
  (∀ k, (k < length ranges)%nat → k ∈ ks) →
  byteLength chan = sb_totalSamples data →
  filled ks chan = chan.
Proof.
  intros Hall Hlen. unfold filled, byteLength, Float32Array in *.
  apply list_eq. intros i. rewrite list_lookup_imap.
  destruct (chan !! i) as [x|] eqn:Hi; [| done]. simpl.
  assert (covered ks i = true) as ->; [| done].
  apply lookup_lt_Some in Hi.
  destruct (consecutive_covers 0 ranges (sb_totalSamples data) (Z.of_nat i) Hranges)
    as (k & s & e & Hk & Hse); [lia |].
  unfold covered. apply existsb_exists. exists k. split.
  - apply list_elem_of_In, Hall. by eapply lookup_lt_Some.
  - unfold rangeOf. rewrite Hk. simpl.
    destruct (Z.leb_spec s (Z.of_nat i)); [| lia].
    destruct (Z.ltb_spec (Z.of_nat i) e); [done | lia].
Qed.

Lemma handleStartChunkedBuffer_assembling :
  handleStartChunkedBuffer w0 data now0 = (assembling [], false).
Proof.
  unfold handleStartChunkedBuffer. rewrite Haccepted.
  unfold clearChunkedBuffersForTrack. rewrite bool_decide_false by done.
  assert ((0 <? sb_numberOfChannels data) && (sb_totalSamples data <? 0) = false) as ->.
  { destruct (Z.ltb_spec 0 (sb_numberOfChannels data)); [| done].
    destruct channels as [|chan rest]; [simpl in *; lia |].
    apply Forall_cons in Hsamples as [Hchan _]. unfold byteLength in Hchan.
    destruct (Z.ltb_spec (sb_totalSamples data) 0); [lia | done]. }
  unfold assembling. cbn [processor pendingChunkedBuffers]. do 4 f_equal.
  rewrite Hchannels, Nat2Z.id.
  clear Hchannels. induction channels as [|chan rest IH]; [done |].
  apply Forall_cons in Hsamples as [Hchan Hrest].
  cbn [replicate length]. rewrite fmap_cons, filled_nil, <- IH by done.
  unfold byteLength in Hchan. by rewrite <- Hchan, Nat2Z.id.
Qed.

Lemma handleBufferChunk_assembling (ks : list nat) (k : nat) :
  k ∉ ks → (k < length ranges)%nat →
  handleBufferChunk (assembling ks) (messageOf k) (arrivedAt k)
  = (if sb_totalChunks data <=? Z.of_nat (length (k :: ks))
     then finalizeChunkedBuffer (assembling (k :: ks)) (sb_trackId data)
     else assembling (k :: ks), false).
Proof.
  intros Hnew Hk. unfold handleBufferChunk.
  cbn [bc_trackId bc_chunkIndex bc_startSample bc_endSample bc_chunkChannelData messageOf].
  change (processor (assembling ks)) with (processor w0). rewrite Haccepted.
  unfold assembling at 1. cbn [pendingChunkedBuffers]. rewrite lookup_insert_eq.
  cbn [cb_metadata cb_startTime cb_chunks cb_channelData cb_receivedChunks cb_duration].
  destruct (Z.ltb_spec maxChunkAssemblyTime (arrivedAt k - now0));
    [pose proof (Hintime k); lia |].
  destruct (Z.ltb_spec (Z.of_nat k) 0); [lia |].
  destruct (Z.leb_spec (sb_totalChunks data) (Z.of_nat k)); [lia |]. cbn [orb].
  rewrite chunksOf_lookup, (bool_decide_false (k ∈ ks)) by done.
  rewrite (bool_decide_false (is_Some None)) by (by intros [? ?]).
  rewrite bool_decide_true by (unfold byteLength; rewrite length_fmap; lia).
  cbn [negb].
  destruct (range_bounds k Hk) as (Hs & Hse & He).
  rewrite Hchannels, Nat2Z.id.
  pose proof (copyChannels_all (filled ks) (filled (k :: ks)) (sliceOf k)
                (snd (rangeOf k) - fst (rangeOf k)) (fst (rangeOf k)) channels []) as Hcopy.
  cbn [app length fmap list_fmap] in Hcopy. rewrite Hcopy.
  2: { intros chan Hchan. eapply Forall_forall in Hsamples; [| exact Hchan].
       simpl in Hsamples.
       destruct (set_filled ks k chan) as [Hset Hlen]; [lia | lia | lia |]. done. }
  cbv iota. cbn [cb_receivedChunks].
  unfold assembling. cbn [pendingChunkedBuffers processor].
  rewrite !insert_insert_eq.
  replace (Z.of_nat (length ks) + 1) with (Z.of_nat (length (k :: ks)))
    by (rewrite length_cons; lia).
  rewrite <- surjective_pairing.
  change (<[Z.of_nat k := rangeOf k]> (chunksOf ks)) with (chunksOf (k :: ks)).
  by destruct (sb_totalChunks data <=? Z.of_nat (length (k :: ks))).
Qed.

Lemma finalizeChunkedBuffer_assembling (ks : list nat) :
  (∀ k, (k < length ranges)%nat → k ∈ ks) →
  finalizeChunkedBuffer (assembling ks) (sb_trackId data)
  = {| processor := pushScheduled (processor w0) assembled;
       pendingChunkedBuffers := delete (sb_trackId data) (pendingChunkedBuffers w0) |}.
Proof.
  intros Hall. unfold finalizeChunkedBuffer, assembling.
  cbn [processor pendingChunkedBuffers]. rewrite lookup_insert_eq.
  cbn [cb_metadata cb_chunks cb_channelData cb_duration].
  assert (filter (λ i, chunksOf ks !! i = None) (seqZ 0 (sb_totalChunks data)) = []) as ->.
  { apply filter_nothing, Forall_forall. rewrite Hchunks.
    intros i [Hi ?]%elem_of_seqZ.
    replace i with (Z.of_nat (Z.to_nat i)) by lia.
    rewrite chunksOf_lookup, bool_decide_true by (apply Hall; lia). done. }
  cbn [length Nat.ltb Nat.leb]. unfold clearChunkedBuffersForTrack.
  rewrite bool_decide_false by done. cbn [processor pendingChunkedBuffers].
  rewrite delete_insert_eq, delete_delete_eq. f_equal. f_equal. unfold assembled. f_equal.
  rewrite <- (list_fmap_id channels) at 2. apply Forall_fmap_ext_1.
  eapply Forall_impl; [exact Hsamples |]. intros chan Hchan. by apply filled_all.
Qed.

Definition handleNext (acc : Worklet * bool) (k : nat) : Worklet * bool :=
  let r := handleBufferChunk (fst acc) (messageOf k) (arrivedAt k) in
  (fst r, snd acc || snd r).

Lemma deliver_partial (todo ks : list nat) :
  NoDup (ks ++ todo) →
  (∀ k, k ∈ ks ++ todo → (k < length ranges)%nat) →
  (length (ks ++ todo) < length ranges)%nat →
  foldl handleNext (assembling ks, false) todo = (assembling (reverse todo ++ ks), false).
Proof.
  revert ks. induction todo as [|k todo IH]; intros ks Hnodup Hbound Hlen; [done |].
  cbn [foldl]. unfold handleNext at 2. cbn [fst snd].
  rewrite handleBufferChunk_assembling.
  - rewrite length_app in Hlen. simpl in Hlen.
    destruct (Z.leb_spec (sb_totalChunks data) (Z.of_nat (length (k :: ks))));
      [rewrite length_cons in *; lia |].
    cbn [fst snd orb]. rewrite IH.
    + by rewrite reverse_cons, <- app_assoc.
    + by rewrite <- (Permutation_middle ks todo k) in Hnodup.
    + intros k' Hk'. apply Hbound. by rewrite <- Permutation_middle.
    + rewrite length_app in *. simpl in *. lia.
  - apply NoDup_app in Hnodup as (_ & Hnew & _). intros Hin.
    apply (Hnew _ Hin). left.
  - apply Hbound. apply elem_of_app. right. left.
Qed.

Lemma scheduledBuffers_pushScheduled (st : t) (bufferData : BufferData) :
  scheduledBuffers (pushScheduled st bufferData) = scheduledBuffers st ++ [bufferData].
Proof.
  unfold pushScheduled.
  destruct (length (scheduledBuffers st ++ [bufferData]) =? currentBufferIndex st + 1)%nat;
    [| done].
  destruct (bd_switchTime bufferData) as [q|]; [| done]. by destruct (Qeq_bool q 0).
Qed.

(** X18.  A buffer sent to the worklet in chunks.  The processor
    accepts the track of START_CHUNKED_BUFFER, whose id is not empty; the
    message announces the channels and frames of the buffer and as many
    chunks as there are ranges; the ranges of chunks 0, 1, ... follow one
    another from frame 0 to the last; the BUFFER_CHUNK message of a
    chunk carries the frames of its range for every channel, and each
    arrives within 30 s of the start.  Then, in whatever order the chunk
    messages arrive, each once, no handler throws, the last message puts
    one buffer at the end of the queue of scheduled buffers, and that
    buffer has exactly the samples of the buffer sent; the pending entry
    of the track is gone.  Until the last message arrives the processor
    is as it was before the start. *)
Theorem chunked_buffer_is_assembled (order : list nat) :
  ranges ≠ [] →
  order ≡ₚ seq 0 (length ranges) →
  let started := handleStartChunkedBuffer w0 data now0 in
  snd started = false
  ∧ deliver (fst started) order
    = ({| processor := pushScheduled (processor w0) assembled;
          pendingChunkedBuffers := delete (sb_trackId data) (pendingChunkedBuffers w0) |},
       false)
  ∧ scheduledBuffers (pushScheduled (processor w0) assembled)
    = scheduledBuffers (processor w0) ++ [assembled]
  ∧ bd_channelData assembled = channels
  ∧ ∀ n, (n < length order)%nat →
         processor (fst (deliver (fst started) (take n order))) = processor w0
         ∧ snd (deliver (fst started) (take n order)) = false.
Proof.
  intros Hsome Horder started. subst started.
  rewrite handleStartChunkedBuffer_assembling. cbn [fst snd].
  assert (NoDup order) as Hnodup by (rewrite Horder; apply NoDup_seq).
  assert (∀ k, k ∈ order → (k < length ranges)%nat) as Hbound.
  { intros k Hk. rewrite Horder in Hk. apply elem_of_seq in Hk. lia. }
  assert (length order = length ranges) as Hlen by (by rewrite Horder, length_seq).
  split; [done |]. split; [| split; [apply scheduledBuffers_pushScheduled | split; [done |]]].
  - destruct order as [|k order _] using rev_ind.
    { destruct ranges; [done | simpl in Hlen; lia]. }
    unfold deliver. fold handleNext. rewrite foldl_app.
    rewrite length_app in Hlen. simpl in Hlen.
    apply NoDup_app in Hnodup as (Hnodup & Hnew & _).
    rewrite (deliver_partial order []).
    + cbn [foldl]. unfold handleNext. cbn [fst snd orb]. rewrite app_nil_r.
      rewrite handleBufferChunk_assembling.
      * destruct (Z.leb_spec (sb_totalChunks data)
                             (Z.of_nat (length (k :: reverse order))));
          [| rewrite length_cons, length_reverse in *; lia].
        cbn [fst snd]. rewrite finalizeChunkedBuffer_assembling; [done |].
        intros j Hj.
        assert (j ∈ order ++ [k]) as Hin
          by (rewrite Horder; apply elem_of_seq; lia).
        apply elem_of_app in Hin as [Hin|Hin%list_elem_of_singleton].
        -- right. by rewrite elem_of_reverse.
        -- subst. left.
      * rewrite elem_of_reverse. intros Hin. apply (Hnew _ Hin). left.
      * apply Hbound, elem_of_app. right. left.
    + by rewrite app_nil_l.
    + intros k' Hk'. apply Hbound, elem_of_app. by left.
    + rewrite app_nil_l. lia.
  - intros n Hn. unfold deliver. fold handleNext.
    rewrite (deliver_partial (take n order) []).
    + done.
    + rewrite app_nil_l. eapply sublist_NoDup; [done | apply sublist_take].
    + intros k Hk. apply Hbound. rewrite app_nil_l in Hk.
      eapply elem_of_sublist; [done | apply sublist_take].
    + rewrite app_nil_l, length_take. lia.
Qed.

End Assembly.

Lemma chunked_buffer_is_assembled_witness :
  let channels := [[1; 2; 3]; [4; 5; 6]] in
  let ranges := [(0, 2); (2, 3)] in
  let w0 := {| processor := constructor; pendingChunkedBuffers := ∅ |} in
  let data := {| sb_trackId := "a"; sb_sampleRate := 44100; sb_numberOfChannels := 2;
                 sb_totalSamples := 3; sb_totalChunks := 2;
                 sb_switchTime := None; sb_earlyStopTime := None |} in
  let started := handleStartChunkedBuffer w0 data 0 in
  snd started = false
  ∧ deliver channels ranges data (λ _, 1000) (fst started) [1; 0]%nat
    = ({| processor := pushScheduled (processor w0) (assembled channels data);
          pendingChunkedBuffers := delete "a" (pendingChunkedBuffers w0) |},
       false)
  ∧ scheduledBuffers (pushScheduled (processor w0) (assembled channels data))
    = scheduledBuffers (processor w0) ++ [assembled channels data]
  ∧ bd_channelData (assembled channels data) = channels
  ∧ ∀ n, (n < length [1; 0]%nat)%nat →
         processor (fst (deliver channels ranges data (λ _, 1000) (fst started)
                                 (take n [1; 0]%nat)))
         = processor w0
         ∧ snd (deliver channels ranges data (λ _, 1000) (fst started)
                        (take n [1; 0]%nat)) = false.
Proof.
  apply (chunked_buffer_is_assembled [[1; 2; 3]; [4; 5; 6]] [(0, 2); (2, 3)]
           {| processor := constructor; pendingChunkedBuffers := ∅ |}
           {| sb_trackId := "a"; sb_sampleRate := 44100; sb_numberOfChannels := 2;
              sb_totalSamples := 3; sb_totalChunks := 2;
              sb_switchTime := None; sb_earlyStopTime := None |}
           0 (λ _, 1000));
    try reflexivity; try done.
  - by repeat constructor.
  - apply perm_swap.
Defined.

End ChunkedBuffersFacts.
